(** * World Monitor server: response cache, store client and AIS relay

    A shallow embedding of the Express server ([server.js]), of the Redis
    compatibility layer ([api/_redis.js]), of the cache helpers built on
    it and of the CORS headers ([api/_cors.js]), with the properties their
    specification states about them and further properties of the code.

    Layout: the route cache policy, the base64 codec of [Buffer], JavaScript
    values and the platform interface, the store client, the caching
    adapter with the [Headers] and the [Request] it makes, the UTF-8 text
    of a payload and the relay; the rest of the store client, the relay
    over time, [hashString], the registration of the routes, the CORS
    headers; then the theorems, in the same order. *)

From Stdlib Require Import ZArith String Ascii List Lia Bool DecimalString.
From stdpp Require Import gmap strings list fin_maps.
Import ListNotations.
Open Scope string_scope.
Open Scope list_scope.
Open Scope Z_scope.

(* ===================================================================== *)
(** * Route cache policy *)
(* ===================================================================== *)

Module Policy.

(** [CACHE_TTLS]: seconds per endpoint, in the order of the object
    literal, which is the order [Object.entries] walks it in. *)
Definition CACHE_TTLS : list (string * Z) :=
  [ ("/api/earthquakes", 60);
    ("/api/opensky", 60);
    ("/api/faa-status", 120);
    ("/api/ais-snapshot", 120);
    ("/api/hackernews", 300);
    ("/api/gdelt-doc", 300);
    ("/api/gdelt-geo", 300);
    ("/api/finnhub", 300);
    ("/api/yahoo-finance", 300);
    ("/api/stock-index", 300);
    ("/api/coingecko", 300);
    ("/api/polymarket", 300);
    ("/api/stablecoin-markets", 300);
    ("/api/cloudflare-outages", 300);
    ("/api/rss-proxy", 300);
    ("/api/theater-posture", 300);
    ("/api/firms-fires", 600);
    ("/api/risk-scores", 600);
    ("/api/macro-signals", 600);
    ("/api/nga-warnings", 600);
    ("/api/etf-flows", 600);
    ("/api/github-trending", 600);
    ("/api/acled", 900);
    ("/api/acled-conflict", 900);
    ("/api/ucdp", 900);
    ("/api/hapi", 900);
    ("/api/temporal-baseline", 900);
    ("/api/arxiv", 1800);
    ("/api/tech-events", 1800);
    ("/api/fred-data", 3600);
    ("/api/worldbank", 3600);
    ("/api/fwdstart", 1800) ].

Definition DEFAULT_TTL : Z := 120.

(** [NO_CACHE]: routes that are never cached. *)
Definition NO_CACHE : list string :=
  [ "/api/debug-env";
    "/api/cache-telemetry";
    "/api/service-status";
    "/api/classify-event";
    "/api/groq-summarize";
    "/api/openrouter-summarize";
    "/api/country-intel";
    "/api/og-story";
    "/api/story" ].

(** [NO_CACHE.has(routePath)] *)
Definition NO_CACHE_has (routePath : string) : bool :=
  existsb (String.eqb routePath) NO_CACHE.

(** [table[path]] on an object literal of numbers.  A request path begins
    with a slash, so it never names a member inherited from
    [Object.prototype]; the read is the own-property lookup. *)
Fixpoint own_property (table : list (string * Z)) (key : string) : option Z :=
  match table with
  | [] => None
  | (k, v) :: rest => if String.eqb k key then Some v else own_property rest key
  end.

(** The [for ... of Object.entries(table)] loop of [getCacheTTL]: the first
    entry, in table order, whose key the path starts with. *)
Fixpoint first_prefix (table : list (string * Z)) (path : string) : option Z :=
  match table with
  | [] => None
  | (prefix, ttl) :: rest =>
      if String.prefix prefix path then Some ttl else first_prefix rest path
  end.

Definition scan_prefixes (table : list (string * Z)) (path : string) : Z :=
  match first_prefix table path with
  | Some ttl => ttl
  | None => DEFAULT_TTL
  end.

(** [getCacheTTL], over any table; [if (table[path])] tests truthiness, so a
    zero entry falls through to the prefix loop. *)
Definition getCacheTTL_in (table : list (string * Z)) (path : string) : Z :=
  match own_property table path with
  | Some ttl => if ttl =? 0 then scan_prefixes table path else ttl
  | None => scan_prefixes table path
  end.

Definition getCacheTTL (path : string) : Z := getCacheTTL_in CACHE_TTLS path.

(** ** The policy as the specification words it

    Exact match first, else the longest route prefix of the table that
    matches the path, else the default. *)

Definition longer (best : option (string * Z)) (e : string * Z) : option (string * Z) :=
  match best with
  | None => Some e
  | Some b => if (String.length (fst b) <? String.length (fst e))%nat then Some e else Some b
  end.

Fixpoint longest_prefix (table : list (string * Z)) (path : string)
    (best : option (string * Z)) : option (string * Z) :=
  match table with
  | [] => best
  | e :: rest =>
      longest_prefix rest path
        (if String.prefix (fst e) path then longer best e else best)
  end.

Definition policy_ttl_in (table : list (string * Z)) (path : string) : Z :=
  match own_property table path with
  | Some ttl => ttl
  | None =>
      match longest_prefix table path None with
      | Some (_, ttl) => ttl
      | None => 120
      end
  end.

Definition policy_ttl (path : string) : Z := policy_ttl_in CACHE_TTLS path.

(** Two entries of which one key is a prefix of the other carry one TTL. *)
Definition nested_agree (table : list (string * Z)) : bool :=
  forallb (fun a =>
    forallb (fun b =>
      implb (String.prefix (fst a) (fst b)) (snd a =? snd b)) table) table.

Definition nonzero_ttls (table : list (string * Z)) : bool :=
  forallb (fun e => negb (snd e =? 0)) table.

End Policy.


(* ===================================================================== *)
(** * Buffers and their base64 text *)
(* ===================================================================== *)

Module Base64.

(** A [Buffer] is a sequence of octets. *)
Definition buffer := list Byte.byte.

Definition alphabet : list ascii :=
  list_ascii_of_string
    "ABCDEFGHIJKLMNOPQRSTUVWXYZabcdefghijklmnopqrstuvwxyz0123456789+/".

(** The character of a six-bit group. *)
Definition sextet_char (v : N) : ascii :=
  nth (N.to_nat v) alphabet "="%char.

Definition octet (n : N) : Byte.byte :=
  match Byte.of_N (n mod 256) with
  | Some b => b
  | None => Byte.x00
  end.

(** [buf.toString('base64')]: three octets give four characters; a last
    group of one or two octets is padded with [=]. *)
Fixpoint encode (buf : buffer) : string :=
  match buf with
  | [] => ""
  | [a] =>
      let n := (Byte.to_N a * 65536)%N in
      String (sextet_char (n / 262144))
        (String (sextet_char ((n / 4096) mod 64)) "==")
  | [a; b] =>
      let n := (Byte.to_N a * 65536 + Byte.to_N b * 256)%N in
      String (sextet_char (n / 262144))
        (String (sextet_char ((n / 4096) mod 64))
          (String (sextet_char ((n / 64) mod 64)) "="))
  | a :: b :: c :: rest =>
      let n := (Byte.to_N a * 65536 + Byte.to_N b * 256 + Byte.to_N c)%N in
      String (sextet_char (n / 262144))
        (String (sextet_char ((n / 4096) mod 64))
          (String (sextet_char ((n / 64) mod 64))
            (String (sextet_char (n mod 64)) (encode rest))))
  end.

Fixpoint index_of (c : ascii) (l : list ascii) (i : N) : option N :=
  match l with
  | [] => None
  | d :: rest => if Ascii.eqb c d then Some i else index_of c rest (i + 1)%N
  end.

(** The value of a character; the decoder of [Buffer.from] also reads the
    URL-safe [-] and [_]. *)
Definition unbase64 (c : ascii) : option N :=
  if Ascii.eqb c "-" then Some 62%N
  else if Ascii.eqb c "_" then Some 63%N
  else index_of c alphabet 0%N.

(** The decoder is lenient: it skips a character that is not of the
    alphabet and stops at the first [=]. *)
Fixpoint sextets (s : string) : list N :=
  match s with
  | EmptyString => []
  | String c rest =>
      if Ascii.eqb c "=" then []
      else match unbase64 c with
           | Some v => v :: sextets rest
           | None => sextets rest
           end
  end.

(** Four six-bit groups give three octets; two or three left over give one
    or two octets, one left over gives none. *)
Fixpoint pack (vs : list N) : buffer :=
  match vs with
  | v1 :: v2 :: v3 :: v4 :: rest =>
      let n := (((v1 * 64 + v2) * 64 + v3) * 64 + v4)%N in
      octet (n / 65536) :: octet (n / 256) :: octet n :: pack rest
  | [v1; v2; v3] =>
      let n := (((v1 * 64 + v2) * 64 + v3) * 64)%N in
      [octet (n / 65536); octet (n / 256)]
  | [v1; v2] =>
      let n := ((v1 * 64 + v2) * 4096)%N in
      [octet (n / 65536)]
  | _ => []
  end.

(** [Buffer.from(text, 'base64')] on a string. *)
Definition decode (s : string) : buffer := pack (sextets s).

(** A six-bit value whose character reads back as that value. *)
Definition sextet_ok (v : N) : bool :=
  negb (Ascii.eqb (sextet_char v) "=") &&
  match unbase64 (sextet_char v) with
  | Some w => N.eqb w v
  | None => false
  end.

End Base64.

(* ===================================================================== *)
(** * JavaScript values, completions and the platform *)
(* ===================================================================== *)

Module Js.

(** The values [JSON.parse] produces.  [undefined] is no such value: a read
    that yields it is [None]. *)
#[warnings="-register-all"]
Inductive jsval :=
| JNull
| JBool (b : bool)
| JNum (n : Z)
| JStr (s : string)
| JArr (items : list jsval)
| JObj (fields : list (string * jsval)).

(** Truthiness, as [if (v)] and [v || w] test it. *)
Definition truthy (v : jsval) : bool :=
  match v with
  | JNull => false
  | JBool b => b
  | JNum n => negb (n =? 0)
  | JStr s => negb (String.eqb s "")
  | JArr _ | JObj _ => true
  end.

Fixpoint assoc {A} (key : string) (fields : list (string * A)) : option A :=
  match fields with
  | [] => None
  | (k, v) :: rest => if String.eqb k key then Some v else assoc key rest
  end.

(** [obj[key] = v] on an object used as a map: an existing key keeps its
    place, a new one goes last.  (The keys are header and field names; none
    is an array index, which an object would order first.) *)
Fixpoint assign {A} (key : string) (v : A) (fields : list (string * A)) : list (string * A) :=
  match fields with
  | [] => [(key, v)]
  | (k, w) :: rest =>
      if String.eqb k key then (k, v) :: rest else (k, w) :: assign key v rest
  end.

(** What is thrown or rejected with.  The library pieces of this model
    ([JSON.parse], [Buffer.from], the [ioredis] connection, the Web API
    constructors, the response object) throw [Error] objects, whose
    message is a string.  What else is thrown, as an edge function may,
    is [undefined] ([None]) or a value of the kind [JSON.parse] produces,
    [null] among them; a value off which [message] cannot be read and
    serialized otherwise, as one with a getter that throws, is not
    modelled.  The texts of the messages are indicative. *)
Inductive error :=
| Error (message : string)
| Thrown (v : option jsval).

(** How a statement completes: normally, or by throwing. *)
Inductive completion (A : Type) :=
| Normal (a : A)
| Throw (e : error).
Arguments Normal {A} a.
Arguments Throw {A} e.

(** A computation over a mutable state [S].  What was written to the state
    before a throw stays written. *)
Definition comp (S A : Type) : Type := S -> completion A * S.

#[export] Instance comp_ret {S} : MRet (comp S) := fun A a s => (Normal a, s).

#[export] Instance comp_bind {S} : MBind (comp S) :=
  fun A B f m s =>
    match m s with
    | (Normal a, s') => f a s'
    | (Throw e, s') => (Throw e, s')
    end.

Definition throw {S A} (e : error) : comp S A := fun s => (Throw e, s).

(** [try { body } catch (e) { handler }] *)
Definition try_catch {S A} (body : comp S A) (handler : error -> comp S A) : comp S A :=
  fun s =>
    match body s with
    | (Normal a, s') => (Normal a, s')
    | (Throw e, s') => handler e s'
    end.

Definition get {S} : comp S S := fun s => (Normal s, s).
Definition modify {S} (f : S -> S) : comp S unit := fun s => (Normal tt, f s).

(** Lift a completion that touches no state. *)
Definition complete {S A} (c : completion A) : comp S A := fun s => (c, s).

(** [for (const x of xs) body(x)] *)
Fixpoint for_each {S A} (xs : list A) (body : A -> comp S unit) : comp S unit :=
  match xs with
  | [] => mret tt
  | x :: rest => body x;; for_each rest body
  end.

(** [v.name] for a name that no built-in prototype defines ([s], [h], [b],
    [message]): reading it off [null] throws, off an object gives the own
    field, off any other value gives [undefined]. *)
Definition member (v : jsval) (name : string) : completion (option jsval) :=
  match v with
  | JNull => Throw (Error "Cannot read properties of null")
  | JObj fields => Normal (assoc name fields)
  | _ => Normal None
  end.

(** [err.message] in a [catch] block: the message of an [Error] object;
    off [undefined] or [null] the read itself throws a [TypeError]. *)
Definition message_of (err : error) : completion (option jsval) :=
  match err with
  | Error m => Normal (Some (JStr m))
  | Thrown None => Throw (Error "Cannot read properties of undefined")
  | Thrown (Some v) => member v "message"
  end.

(** [v || d] *)
Definition or_default (v : option jsval) (d : jsval) : jsval :=
  match v with
  | Some v => if truthy v then v else d
  | None => d
  end.

Definition index_name (i : nat) : string :=
  NilZero.string_of_uint (Nat.to_uint i).

Definition chars (s : string) : list jsval :=
  map (fun c => JStr (String c "")) (list_ascii_of_string s).

(** [Object.entries(v)] of a truthy value: the fields of an object, the
    indexed items of an array or characters of a string, nothing else. *)
Definition Object_entries (v : jsval) : list (string * jsval) :=
  match v with
  | JObj fields => fields
  | JArr items => imap (fun i x => (index_name i, x)) items
  | JStr s => imap (fun i x => (index_name i, x)) (chars s)
  | _ => []
  end.

Definition lower (c : ascii) : ascii :=
  let n := N_of_ascii c in
  if ((65 <=? n) && (n <=? 90))%N then ascii_of_N (n + 32) else c.

(** [s.toLowerCase()] on header names. *)
Fixpoint toLowerCase (s : string) : string :=
  match s with
  | EmptyString => EmptyString
  | String c rest => String (lower c) (toLowerCase rest)
  end.

Definition upper (c : ascii) : ascii :=
  let n := N_of_ascii c in
  if ((97 <=? n) && (n <=? 122))%N then ascii_of_N (n - 32) else c.

(** [s.toUpperCase()] on method names. *)
Fixpoint toUpperCase (s : string) : string :=
  match s with
  | EmptyString => EmptyString
  | String c rest => String (upper c) (toUpperCase rest)
  end.

(** What the runtime supplies and this code calls without defining.
    - [JSON_parse text] is [None] where [JSON.parse] throws;
    - [JSON_stringify v] is the text of a value;
    - [Buffer_from_object v] is what [Buffer.from] makes of an array or
      object, [None] where it throws. *)
Class Platform := {
  JSON_parse : string -> option jsval;
  JSON_stringify : jsval -> string;
  Buffer_from_object : jsval -> option Base64.buffer
}.

(** [JSON.parse(text)] as a statement. *)
Definition parse `{Platform} (text : string) : completion jsval :=
  match JSON_parse text with
  | Some v => Normal v
  | None => Throw (Error "Unexpected token in JSON")
  end.

(** [Buffer.from(v, 'base64')]: a string is decoded; [undefined], [null], a
    boolean or a number is a [TypeError]. *)
Definition Buffer_from_base64 `{Platform} (v : option jsval) : completion Base64.buffer :=
  match v with
  | Some (JStr s) => Normal (Base64.decode s)
  | Some (JArr items) =>
      match Buffer_from_object (JArr items) with
      | Some buf => Normal buf
      | None => Throw (Error "The first argument must be of type string")
      end
  | Some (JObj fields) =>
      match Buffer_from_object (JObj fields) with
      | Some buf => Normal buf
      | None => Throw (Error "The first argument must be of type string")
      end
  | _ => Throw (Error "The first argument must be of type string")
  end.

End Js.

(* ===================================================================== *)
(** * The key-value store client ([api/_redis.js] and the cache helpers) *)
(* ===================================================================== *)

Module Store.
Import Js.

(** ** The Redis server behind the connection *)

(** A stored string and the time, in seconds, at which it expires. *)
Record entry := { payload : string; expires : option Z }.

Record server := {
  now : Z;
  keys : gmap string entry;
  reachable : bool
}.

Definition set_keys (k : gmap string entry) (db : server) : server :=
  {| now := now db; keys := k; reachable := reachable db |}.

(** Time passes on the server. *)
Definition elapse (seconds : Z) (db : server) : server :=
  {| now := now db + seconds; keys := keys db; reachable := reachable db |}.

(** The value a key holds now: an expired entry is gone. *)
Definition live (db : server) (key : string) : option string :=
  match keys db !! key with
  | Some e =>
      match expires e with
      | Some t => if now db <? t then Some (payload e) else None
      | None => Some (payload e)
      end
  | None => None
  end.

(** What a command of the connection rejects with is an [Error] object;
    the [catch] blocks of the wrapper read its message for the log. *)
Definition closed : error := Error "Connection is closed.".

(** The commands of the [ioredis] connection.  Each rejects when the server
    cannot be reached. *)
Definition ioredis_get (key : string) : comp server (option string) :=
  fun db =>
    if reachable db then (Normal (live db key), db) else (Throw closed, db).

(** [client.set(key, value)] and [client.set(key, value, 'EX', seconds)];
    the server refuses an expiry that is not positive. *)
Definition ioredis_set (key value : string) (ex : option Z) : comp server unit :=
  fun db =>
    if reachable db then
      match ex with
      | Some seconds =>
          if seconds <=? 0 then (Throw (Error "ERR invalid expire time in 'set' command"), db)
          else (Normal tt,
                set_keys (<[key := {| payload := value; expires := Some (now db + seconds) |}]> (keys db)) db)
      | None =>
          (Normal tt, set_keys (<[key := {| payload := value; expires := None |}]> (keys db)) db)
      end
    else (Throw closed, db).

(** [client.mget(...keys)]; the server refuses an empty key list. *)
Definition ioredis_mget (ks : list string) : comp server (list (option string)) :=
  fun db =>
    if reachable db then
      match ks with
      | [] => (Throw (Error "ERR wrong number of arguments for 'mget' command"), db)
      | _ => (Normal (map (live db) ks), db)
      end
    else (Throw closed, db).

(** ** The process: environment, store, and the module-level variables *)

(** The connection object; the process makes at most one. *)
Inductive IORedis := Connection.

(** [class Redis]: the wrapper and its one field. *)
Record Redis := { _client : option IORedis }.

Record process := {
  REDIS_URL : option string;
  UPSTASH_REDIS_REST_URL : option string;
  (** whether [new IORedis(url, options)] throws *)
  ioredis_throws : bool;
  db : server;
  (** [api/_redis.js] *)
  client : option IORedis;
  initFailed : bool;
  (** the cache helpers *)
  redis : option Redis;
  redisInitFailed : bool;
  (** [server.js] *)
  cacheRedis : option Redis;
  cacheRedisInitFailed : bool
}.

Definition set_db (d : server) (p : process) : process :=
  {| REDIS_URL := REDIS_URL p; UPSTASH_REDIS_REST_URL := UPSTASH_REDIS_REST_URL p;
     ioredis_throws := ioredis_throws p; db := d;
     client := client p; initFailed := initFailed p;
     redis := redis p; redisInitFailed := redisInitFailed p;
     cacheRedis := cacheRedis p; cacheRedisInitFailed := cacheRedisInitFailed p |}.

Definition set_client (c : option IORedis) (p : process) : process :=
  {| REDIS_URL := REDIS_URL p; UPSTASH_REDIS_REST_URL := UPSTASH_REDIS_REST_URL p;
     ioredis_throws := ioredis_throws p; db := db p;
     client := c; initFailed := initFailed p;
     redis := redis p; redisInitFailed := redisInitFailed p;
     cacheRedis := cacheRedis p; cacheRedisInitFailed := cacheRedisInitFailed p |}.

Definition set_initFailed (b : bool) (p : process) : process :=
  {| REDIS_URL := REDIS_URL p; UPSTASH_REDIS_REST_URL := UPSTASH_REDIS_REST_URL p;
     ioredis_throws := ioredis_throws p; db := db p;
     client := client p; initFailed := b;
     redis := redis p; redisInitFailed := redisInitFailed p;
     cacheRedis := cacheRedis p; cacheRedisInitFailed := cacheRedisInitFailed p |}.

Definition set_redis (r : option Redis) (p : process) : process :=
  {| REDIS_URL := REDIS_URL p; UPSTASH_REDIS_REST_URL := UPSTASH_REDIS_REST_URL p;
     ioredis_throws := ioredis_throws p; db := db p;
     client := client p; initFailed := initFailed p;
     redis := r; redisInitFailed := redisInitFailed p;
     cacheRedis := cacheRedis p; cacheRedisInitFailed := cacheRedisInitFailed p |}.

Definition set_redisInitFailed (b : bool) (p : process) : process :=
  {| REDIS_URL := REDIS_URL p; UPSTASH_REDIS_REST_URL := UPSTASH_REDIS_REST_URL p;
     ioredis_throws := ioredis_throws p; db := db p;
     client := client p; initFailed := initFailed p;
     redis := redis p; redisInitFailed := b;
     cacheRedis := cacheRedis p; cacheRedisInitFailed := cacheRedisInitFailed p |}.

Definition set_cacheRedis (r : option Redis) (p : process) : process :=
  {| REDIS_URL := REDIS_URL p; UPSTASH_REDIS_REST_URL := UPSTASH_REDIS_REST_URL p;
     ioredis_throws := ioredis_throws p; db := db p;
     client := client p; initFailed := initFailed p;
     redis := redis p; redisInitFailed := redisInitFailed p;
     cacheRedis := r; cacheRedisInitFailed := cacheRedisInitFailed p |}.

Definition set_cacheRedisInitFailed (b : bool) (p : process) : process :=
  {| REDIS_URL := REDIS_URL p; UPSTASH_REDIS_REST_URL := UPSTASH_REDIS_REST_URL p;
     ioredis_throws := ioredis_throws p; db := db p;
     client := client p; initFailed := initFailed p;
     redis := redis p; redisInitFailed := redisInitFailed p;
     cacheRedis := cacheRedis p; cacheRedisInitFailed := b |}.

(** A command of the connection, run against the server of the process. *)
Definition command {A} (c : IORedis) (m : comp server A) : comp process A :=
  fun p => let '(r, d) := m (db p) in (r, set_db d p).

(** An environment variable is falsy when unset or empty. *)
Definition env_set (v : option string) : bool :=
  match v with
  | Some s => negb (String.eqb s "")
  | None => false
  end.

(** [new IORedis(redisUrl, {...})] with its two [client.on] calls. *)
Definition new_IORedis : comp process IORedis :=
  fun p =>
    if ioredis_throws p then (Throw (Error "ioredis: invalid options"), p)
    else (Normal Connection, p).

(** [getClient] of [api/_redis.js]. *)
Definition getClient : comp process (option IORedis) :=
  p ← get;
  match client p with
  | Some c => mret (Some c)
  | None =>
      if initFailed p then mret None
      else if negb (env_set (REDIS_URL p)) then
        (if negb (env_set (UPSTASH_REDIS_REST_URL p)) then mret None else mret None)
      else
        try_catch
          (c ← new_IORedis;
           modify (set_client (Some c));;
           mret (Some c))
          (fun err =>
             modify (set_initFailed true);;
             mret None)
  end.

(** [new Redis(_opts)] *)
Definition new_Redis : comp process Redis :=
  c ← getClient;
  mret {| _client := c |}.

Section Client.
Context `{Platform}.

(** The value of a stored string as both [get] and [mget] read it:
    [try { return JSON.parse(raw) } catch { return raw }]. *)
Definition parsed_or_raw (raw : string) : jsval :=
  match JSON_parse raw with
  | Some v => v
  | None => JStr raw
  end.

(** [Redis.get] *)
Definition Redis_get (self : Redis) (key : string) : comp process jsval :=
  match _client self with
  | None => mret JNull
  | Some c =>
      try_catch
        (raw ← command c (ioredis_get key);
         match raw with
         | None => mret JNull
         | Some raw => mret (parsed_or_raw raw)
         end)
        (fun err => mret JNull)
  end.

(** The [ex] of the options of [set]; [options?.ex] tests its truthiness. *)
Definition ex_truthy (ex : option Z) : bool :=
  match ex with
  | Some seconds => negb (seconds =? 0)
  | None => false
  end.

(** [Redis.set]: ['OK'] or [null]. *)
Definition Redis_set (self : Redis) (key : string) (value : jsval) (ex : option Z)
    : comp process jsval :=
  match _client self with
  | None => mret JNull
  | Some c =>
      try_catch
        (let serialized :=
           match value with
           | JStr s => s
           | _ => JSON_stringify value
           end in
         (if ex_truthy ex
          then command c (ioredis_set key serialized ex)
          else command c (ioredis_set key serialized None));;
         mret (JStr "OK"))
        (fun err => mret JNull)
  end.

(** An argument of the variadic [mget]: a key, or an array of keys. *)
Inductive key_arg :=
| Key (k : string)
| Keys (ks : list string).

(** [keys.flat()] *)
Definition flat (ks : list key_arg) : list string :=
  concat (map (fun a => match a with Key k => [k] | Keys l => l end) ks).

(** [Redis.mget] *)
Definition Redis_mget (self : Redis) (ks : list key_arg) : comp process (list jsval) :=
  match _client self with
  | None => mret (map (fun _ => JNull) ks)
  | Some c =>
      try_catch
        (let flatKeys := flat ks in
         results ← command c (ioredis_mget flatKeys);
         mret (map (fun raw => match raw with
                               | None => JNull
                               | Some raw => parsed_or_raw raw
                               end) results))
        (fun err => mret (map (fun _ => JNull) (flat ks)))
  end.

(** [getRedis] of the cache helpers. *)
Definition getRedis : comp process (option Redis) :=
  p ← get;
  match redis p with
  | Some r => mret (Some r)
  | None =>
      if redisInitFailed p then mret None
      else if negb (env_set (REDIS_URL p)) then mret None
      else
        try_catch
          (r ← new_Redis;
           modify (set_redis (Some r)))
          (fun error => modify (set_redisInitFailed true));;
        p' ← get;
        mret (redis p')
  end.

(** [getCachedJson] *)
Definition getCachedJson (key : string) : comp process jsval :=
  redisClient ← getRedis;
  match redisClient with
  | None => mret JNull
  | Some redisClient =>
      try_catch (Redis_get redisClient key) (fun error => mret JNull)
  end.

(** [setCachedJson]; [ttlSeconds] may be left out. *)
Definition setCachedJson (key : string) (value : jsval) (ttlSeconds : option Z)
    : comp process bool :=
  redisClient ← getRedis;
  match redisClient with
  | None => mret false
  | Some redisClient =>
      try_catch
        (Redis_set redisClient key value ttlSeconds;;
         mret true)
        (fun error => mret false)
  end.

(** [getCacheRedis] of [server.js]. *)
Definition getCacheRedis : comp process (option Redis) :=
  p ← get;
  match cacheRedis p with
  | Some r => mret (Some r)
  | None =>
      if cacheRedisInitFailed p then mret None
      else if negb (env_set (REDIS_URL p)) then mret None
      else
        try_catch
          (r ← new_Redis;
           modify (set_cacheRedis (Some r));;
           mret (Some r))
          (fun e =>
             modify (set_cacheRedisInitFailed true);;
             mret None)
  end.

End Client.

End Store.

(* ===================================================================== *)
(** * The caching adapter ([server.js]) *)
(* ===================================================================== *)

Module Server.
Import Js Store Policy.

(** ** Requests and responses *)

(** A value of [req.headers]: a string, an array of strings, or
    [undefined]. *)
Inductive header_value :=
| Single (v : string)
| Multiple (vs : list string)
| Absent.

(** [req.body] after the body parsers: [undefined], a string, a [Buffer],
    or parsed JSON. *)
Inductive parsed_body :=
| NoBody
| Text (s : string)
| Raw (buf : Base64.buffer)
| Parsed (v : jsval).

(** The Express request, as far as the adapter reads it. *)
Record request := {
  method : string;
  originalUrl : string;
  path : string;
  protocol : string;
  host : option string;
  headers : list (string * header_value);
  body : parsed_body
}.

(** The body of a [Request]. *)
Inductive body_init :=
| BodyText (s : string)
| BodyBytes (buf : Base64.buffer).

(** The Web API [Request] handed to a handler: its URL as the parser
    serialized it, its method, its headers in the order a [Headers] object
    iterates them (sorted by name, the names in lower case), its body. *)
Record web_request := {
  url : string;
  web_method : string;
  web_headers : list (string * string);
  web_body : option body_init
}.

(** The Web API [Response] a handler returns: its status, its headers in
    the order [headers.forEach] visits them, and its body, read in full. *)
Record web_response := {
  status : Z;
  response_headers : list (string * string);
  arrayBuffer : Base64.buffer
}.

(** An edge function. *)
Definition edge_handler := web_request -> completion web_response.

(** The Express response object: what has been set on it and what was
    handed to it for sending.  The headers Express derives from the body
    when it frames the reply are not part of it. *)
Record response := {
  statusCode : jsval;
  sentHeaders : list (string * jsval);
  headersSent : bool;
  sentBody : Base64.buffer
}.

(** The response object as Express hands it to a route. *)
Definition fresh : response :=
  {| statusCode := JNum 200; sentHeaders := []; headersSent := false; sentBody := [] |}.

Definition headers_sent_error : error :=
  Error "Cannot set headers after they are sent to the client".

(** [res.status(code)] *)
Definition res_status (code : jsval) : comp response unit :=
  modify (fun r =>
    {| statusCode := code; sentHeaders := sentHeaders r;
       headersSent := headersSent r; sentBody := sentBody r |}).

(** [res.setHeader(name, value)]: the header table is keyed by the
    lower-cased name.  Names and values are taken to be well-formed for the
    HTTP layer, whose validation of them is not modelled. *)
Definition res_setHeader (name : string) (value : jsval) : comp response unit :=
  fun r =>
    if headersSent r then (Throw headers_sent_error, r)
    else (Normal tt,
          {| statusCode := statusCode r;
             sentHeaders := assign (toLowerCase name) value (sentHeaders r);
             headersSent := headersSent r; sentBody := sentBody r |}).

(** [res.send(buffer)] *)
Definition res_send (buf : Base64.buffer) : comp response unit :=
  fun r =>
    if headersSent r then (Throw headers_sent_error, r)
    else (Normal tt,
          {| statusCode := statusCode r; sentHeaders := sentHeaders r;
             headersSent := true; sentBody := buf |}).

(** [res.end()] *)
Definition res_end : comp response unit :=
  fun r =>
    (Normal tt,
     {| statusCode := statusCode r; sentHeaders := sentHeaders r;
        headersSent := true; sentBody := sentBody r |}).

(** ** One request being served *)

(** The process, the response object of the request, and the requests the
    handler has been called with. *)
Record exchange := {
  proc : process;
  res : response;
  calls : list web_request
}.

Definition on_process {A} (m : comp process A) : comp exchange A :=
  fun x => let '(r, p) := m (proc x) in
           (r, {| proc := p; res := res x; calls := calls x |}).

Definition on_res {A} (m : comp response A) : comp exchange A :=
  fun x => let '(r, s) := m (res x) in
           (r, {| proc := proc x; res := s; calls := calls x |}).

(** [await handler(webRequest)] *)
Definition invoke (handler : edge_handler) (webRequest : web_request)
    : comp exchange web_response :=
  fun x => (handler webRequest,
            {| proc := proc x; res := res x; calls := calls x ++ [webRequest] |}).

(** [vs.join(sep)] *)
Fixpoint join (sep : string) (vs : list string) : string :=
  match vs with
  | [] => ""
  | v :: rest =>
      match rest with
      | [] => v
      | _ => v +:+ sep +:+ join sep rest
      end
  end.

(** ** The Web API: [Headers] and [Request] *)

(** A character of an HTTP token: a letter, a digit, or one of
    [!#$%&'*+-.^_`|~]. *)
Definition is_tchar (c : ascii) : bool :=
  let n := N_of_ascii c in
  ((48 <=? n) && (n <=? 57) || (65 <=? n) && (n <=? 90) || (97 <=? n) && (n <=? 122) ||
   existsb (N.eqb n) [33; 35; 36; 37; 38; 39; 42; 43; 45; 46; 94; 95; 96; 124; 126])%N.

Definition is_token (s : string) : bool :=
  match s with
  | EmptyString => false
  | _ => forallb is_tchar (list_ascii_of_string s)
  end.

(** HTTP whitespace: tab, line feed, carriage return, space. *)
Definition http_whitespace (c : ascii) : bool :=
  existsb (N.eqb (N_of_ascii c)) [9; 10; 13; 32]%N.

Fixpoint strip_start (s : string) : string :=
  match s with
  | EmptyString => EmptyString
  | String c rest => if http_whitespace c then strip_start rest else s
  end.

Fixpoint strip_end (s : string) : string :=
  match s with
  | EmptyString => EmptyString
  | String c rest =>
      match strip_end rest with
      | EmptyString => if http_whitespace c then EmptyString else String c EmptyString
      | kept => String c kept
      end
  end.

(** A header value is normalized by removing the HTTP whitespace around
    it, and is valid when it holds no NUL, line feed or carriage return. *)
Definition normalize_value (v : string) : string := strip_end (strip_start v).

Definition valid_value (v : string) : bool :=
  forallb (fun c => negb (existsb (N.eqb (N_of_ascii c)) [0; 10; 13]%N))
    (list_ascii_of_string v).

(** The header list of a [Headers] object, in the order it iterates:
    sorted by name.  A name is there once. *)
Fixpoint Headers_insert (name value : string) (hs : list (string * string))
    : list (string * string) :=
  match hs with
  | [] => [(name, value)]
  | (k, v) :: rest =>
      match String.compare name k with
      | Eq => (k, value) :: rest
      | Lt => (name, value) :: (k, v) :: rest
      | Gt => (k, v) :: Headers_insert name value rest
      end
  end.

(** [headers.set(name, value)]: a [TypeError] for a name that is no token
    or a value that is not valid. *)
Definition Headers_set (name value : string) (hs : list (string * string))
    : completion (list (string * string)) :=
  let value := normalize_value value in
  if negb (is_token name) then Throw (Error "Headers.set: invalid header name")
  else if negb (valid_value value) then Throw (Error "Headers.set: invalid header value")
  else Normal (Headers_insert (toLowerCase name) value hs).

(** The methods the constructor of [Request] refuses, and those it writes
    in upper case. *)
Definition forbidden_method (m : string) : bool :=
  existsb (String.eqb (toUpperCase m)) ["CONNECT"; "TRACE"; "TRACK"].

Definition normalize_method (m : string) : string :=
  if existsb (String.eqb (toUpperCase m)) ["DELETE"; "GET"; "HEAD"; "OPTIONS"; "POST"; "PUT"]
  then toUpperCase m
  else m.

Section Adapter.
Context `{Platform}.

(** [process.env.PORT || 3000] *)
Variable PORT : string.

(** The URL parser, which is not part of this code: [URL_href text] is the
    serialization of [text] parsed as an absolute URL, as a [Request] made
    from [text] has it in [url]; [None] where the constructor throws for
    [text], which it does when the parser fails on it or finds a user name
    or a password in it. *)
Variable URL_href : string -> option string.

(** [res.json(value)] *)
Definition res_json (value : jsval) : comp response unit :=
  res_send (list_byte_of_string (JSON_stringify value)).

(** [new Request(url, { method, headers, body })], with a [Headers]
    object for the headers.  A body that is a string gets the content type
    of text unless the headers name one. *)
Definition new_Request (input method : string) (headers : list (string * string))
    (body : option body_init) : completion web_request :=
  match URL_href input with
  | None => Throw (Error ("Failed to parse URL from " +:+ input))
  | Some href =>
      if negb (is_token method)
      then Throw (Error ("'" +:+ method +:+ "' is not a valid HTTP method."))
      else if forbidden_method method
      then Throw (Error ("'" +:+ method +:+ "' HTTP method is unsupported."))
      else
        let method := normalize_method method in
        match body with
        | Some init =>
            if String.eqb method "GET" || String.eqb method "HEAD"
            then Throw (Error "Request with GET/HEAD method cannot have body.")
            else
              Normal
                {| url := href; web_method := method;
                   web_headers :=
                     match init, assoc "content-type" headers with
                     | BodyText _, None =>
                         Headers_insert "content-type" "text/plain;charset=UTF-8" headers
                     | _, _ => headers
                     end;
                   web_body := body |}
        | None =>
            Normal {| url := href; web_method := method; web_headers := headers;
                      web_body := None |}
        end
  end.

(** The loop of [expressToWebRequest] over [req.headers], from the
    headers set so far. *)
Fixpoint copy_headers (hs : list (string * header_value)) (acc : list (string * string))
    : completion (list (string * string)) :=
  match hs with
  | [] => Normal acc
  | (key, value) :: rest =>
      match value with
      | Single v =>
          if String.eqb v "" then copy_headers rest acc
          else
            match Headers_set key v acc with
            | Normal acc' => copy_headers rest acc'
            | Throw e => Throw e
            end
      | Multiple vs =>
          match Headers_set key (join ", " vs) acc with
          | Normal acc' => copy_headers rest acc'
          | Throw e => Throw e
          end
      | Absent => copy_headers rest acc
      end
  end.

(** The URL text [expressToWebRequest] builds. *)
Definition url_text (req : request) : string :=
  let protocol := if String.eqb (protocol req) "" then "http" else protocol req in
  let host :=
    match host req with
    | Some h => if String.eqb h "" then "localhost:" +:+ PORT else h
    | None => "localhost:" +:+ PORT
    end in
  protocol +:+ "://" +:+ host +:+ originalUrl req.

(** [init.body] *)
Definition body_of (req : request) : option body_init :=
  if existsb (String.eqb (method req)) ["POST"; "PUT"; "PATCH"] then
    match body req with
    | NoBody => None
    | Text s => Some (BodyText s)
    | Raw buf => Some (BodyBytes buf)
    | Parsed v => Some (BodyText (JSON_stringify v))
    end
  else None.

(** [expressToWebRequest] *)
Definition expressToWebRequest (req : request) : completion web_request :=
  let url := url_text req in
  match copy_headers (headers req) [] with
  | Throw e => Throw e
  | Normal headers => new_Request url (method req) headers (body_of req)
  end.

(** The cache key of a request. *)
Definition cacheKey (req : request) : string := "apicache:" +:+ originalUrl req.

(** The [webResponse.headers.forEach] loop that fills [responseHeaders]. *)
Definition collect_headers (hs : list (string * string)) : list (string * string) :=
  fold_left
    (fun acc '(key, value) =>
       if negb (String.eqb (toLowerCase key) "transfer-encoding")
       then assign key value acc
       else acc)
    hs [].

(** The object [{ s, h, b }] that is stringified into the cache. *)
Definition envelope (s : Z) (h : list (string * string)) (b : Base64.buffer) : jsval :=
  JObj [ ("s", JNum s);
         ("h", JObj (map (fun '(k, v) => (k, JStr v)) h));
         ("b", JStr (Base64.encode b)) ].

(** The statements of the cache check from [res.status] to [res.send]. *)
Definition replay (data : jsval) : comp exchange unit :=
  s ← complete (member data "s");
  on_res (res_status (or_default s (JNum 200)));;
  h ← complete (member data "h");
  (match h with
   | Some h =>
       if truthy h
       then for_each (Object_entries h) (fun '(k, v) => on_res (res_setHeader k v))
       else mret tt
   | None => mret tt
   end);;
  on_res (res_setHeader "x-cache" (JStr "HIT"));;
  b ← complete (member data "b");
  buf ← complete (Buffer_from_base64 b);
  on_res (res_send buf).

(** The cache check.  [true]: the reply was sent from the cache and the
    route function returns; [false]: it proceeds to the edge function. *)
Definition cache_check (req : request) : comp exchange bool :=
  redis ← on_process getCacheRedis;
  match redis with
  | Some redis =>
      try_catch
        (cached ← on_process (Redis_get redis (cacheKey req));
         if truthy cached then
           data ← match cached with
                  | JStr text => complete (parse text)
                  | _ => mret cached
                  end;
           replay data;;
           mret true
         else mret false)
        (fun e => mret false)
  | None => mret false
  end.

(** The cache write of a successful GET response. *)
Definition cache_write (req : request) (webResponse : web_response)
    (responseHeaders : list (string * string)) (bodyBuf : Base64.buffer)
    : comp exchange unit :=
  redis ← on_process getCacheRedis;
  match redis with
  | Some redis =>
      try_catch
        (let ttl := getCacheTTL (path req) in
         on_process
           (Redis_set redis (cacheKey req)
              (JStr (JSON_stringify (envelope (status webResponse) responseHeaders bodyBuf)))
              (Some ttl));;
         mret tt)
        (fun e => mret tt)
  | None => mret tt
  end.

(** The conditions under which a response is cached, the store aside. *)
Definition cacheable (req : request) (shouldCache : bool) (webResponse : web_response)
    (bodyBuf : Base64.buffer) : bool :=
  String.eqb (method req) "GET" && shouldCache &&
  (200 <=? status webResponse) && (status webResponse <? 300) &&
  (0 <? length bodyBuf)%nat.

(** The object of the 500 reply; [JSON.stringify] leaves out a field that
    is [undefined]. *)
Definition failure_body (details : option jsval) : jsval :=
  JObj (("error", JStr "Internal server error") ::
        match details with
        | Some v => [("details", v)]
        | None => []
        end).

(** The [catch] of the route function.  It reads [err.message] for the
    log before anything else. *)
Definition on_failure (err : error) : comp exchange unit :=
  complete (message_of err);;
  x ← get;
  if negb (headersSent (res x)) then
    on_res (res_status (JNum 500));;
    details ← complete (message_of err);
    on_res (res_json (failure_body details))
  else mret tt.

(** The statements of the route function after the cache check, from
    [expressToWebRequest] to the reply. *)
Definition execute (handler : edge_handler) (shouldCache : bool) (req : request)
    : comp exchange unit :=
  webRequest ← complete (expressToWebRequest req);
  webResponse ← invoke handler webRequest;
  let bodyBuf := arrayBuffer webResponse in
  let responseHeaders := collect_headers (response_headers webResponse) in
  (if cacheable req shouldCache webResponse bodyBuf
   then cache_write req webResponse responseHeaders bodyBuf
   else mret tt);;
  on_res (res_status (JNum (status webResponse)));;
  for_each responseHeaders (fun '(k, v) => on_res (res_setHeader k (JStr v)));;
  on_res (res_setHeader "x-cache" (JStr "MISS"));;
  if (0 <? length bodyBuf)%nat
  then on_res (res_send bodyBuf)
  else on_res res_end.

(** [adaptEdgeHandler(handlerModule, routePath)]: the route function. *)
Definition adaptEdgeHandler (handler : edge_handler) (routePath : string)
    : request -> comp exchange unit :=
  let shouldCache := negb (NO_CACHE_has routePath) in
  fun req =>
    try_catch
      (replied ←
         (if String.eqb (method req) "GET" && shouldCache
          then cache_check req
          else mret false);
       if (replied : bool) then mret tt
       else execute handler shouldCache req)
      on_failure.

(** ** Vocabulary of the statements *)

(** The header table after [res.setHeader] was called on each pair. *)
Definition set_all (hs : list (string * jsval)) (table : list (string * jsval))
    : list (string * jsval) :=
  fold_left (fun acc '(k, v) => assign (toLowerCase k) v acc) hs table.

Definition as_text (hs : list (string * string)) : list (string * jsval) :=
  map (fun '(k, v) => (k, JStr v)) hs.

(** The response object [r] after the adapter put a response of a handler
    on it under the given [x-cache] marker. *)
Definition reply_of (marker : string) (webResponse : web_response) (r : response)
    : response :=
  {| statusCode := JNum (status webResponse);
     sentHeaders :=
       assign "x-cache" (JStr marker)
         (set_all (as_text (collect_headers (response_headers webResponse)))
                  (sentHeaders r));
     headersSent := true;
     sentBody :=
       if (0 <? length (arrayBuffer webResponse))%nat
       then arrayBuffer webResponse
       else sentBody r |}.

(** The wrapper [getCacheRedis] yields in a state of the process. *)
Definition cache_client (p : process) : option Redis :=
  match getCacheRedis p with
  | (Normal r, _) => r
  | (Throw _, _) => None
  end.

(** The cache can be written and read: there is a wrapper, it holds a
    connection, and the server answers. *)
Definition store_up (p : process) : bool :=
  match cache_client p with
  | Some r =>
      match _client r with
      | Some _ => reachable (db p)
      | None => false
      end
  | None => false
  end.

(** The entry the adapter stores for a response at the time of the write. *)
Definition cache_entry (req : request) (webResponse : web_response) (at_time : Z) : entry :=
  {| payload :=
       JSON_stringify
         (envelope (status webResponse)
                   (collect_headers (response_headers webResponse))
                   (arrayBuffer webResponse));
     expires := Some (at_time + getCacheTTL (path req)) |}.

(** The process after an entry was stored under a key. *)
Definition with_entry (key : string) (e : entry) (p : process) : process :=
  set_db (set_keys (<[key := e]> (keys (db p))) (db p)) p.

(** The process after the cache write of a response, from a state in which
    the wrapper is [redis]. *)
Definition written (req : request) (webResponse : web_response)
    (redis : option Redis) (p : process) : process :=
  match redis with
  | Some r =>
      match _client r with
      | Some _ =>
          if reachable (db p)
          then with_entry (cacheKey req) (cache_entry req webResponse (now (db p))) p
          else p
      | None => p
      end
  | None => p
  end.

(** Whether a request on a route is looked up in the cache. *)
Definition eligible (req : request) (routePath : string) : bool :=
  String.eqb (method req) "GET" && negb (NO_CACHE_has routePath).

(** The response object [r] after the [catch] of the adapter replied on it
    with the message it read. *)
Definition error_reply (details : option jsval) (r : response) : response :=
  {| statusCode := JNum 500;
     sentHeaders := sentHeaders r;
     headersSent := true;
     sentBody := list_byte_of_string (JSON_stringify (failure_body details)) |}.

(** The outcome of a request that goes past the cache, on the response
    object [r] with the calls [c] made so far, [p] being the process it
    leaves: the request is converted and handed to the handler, and the
    reply is made of the response under the marker [MISS]; what the
    conversion or the handler throws goes to the [catch]. *)
Definition served (handler : edge_handler) (req : request) (p : process) (r : response)
    (c : list web_request) : completion unit * exchange :=
  match expressToWebRequest req with
  | Throw err => on_failure err {| proc := p; res := r; calls := c |}
  | Normal w =>
      match handler w with
      | Throw err => on_failure err {| proc := p; res := r; calls := c ++ [w] |}
      | Normal webResponse =>
          (Normal tt,
           {| proc := p; res := reply_of "MISS" webResponse r; calls := c ++ [w] |})
      end
  end.

End Adapter.

End Server.

(* ===================================================================== *)
(** * A platform to run the code on *)
(* ===================================================================== *)

(** An implementation of the platform interface, for running the code on
    concrete inputs: JSON text of values whose numbers are integers and
    whose strings are sequences of one-byte characters. *)
Module Node.
Import Js.

Definition quote : ascii := ascii_of_nat 34.
Definition backslash : ascii := ascii_of_nat 92.

Definition hex_digit (n : N) : ascii :=
  nth (N.to_nat n) (list_ascii_of_string "0123456789abcdef") "0"%char.

(** The escape of one character inside a JSON string. *)
Definition escape (c : ascii) : string :=
  let n := N_of_ascii c in
  if Ascii.eqb c quote then String backslash (String quote "")
  else if Ascii.eqb c backslash then String backslash (String backslash "")
  else if (n =? 8)%N then String backslash "b"
  else if (n =? 9)%N then String backslash "t"
  else if (n =? 10)%N then String backslash "n"
  else if (n =? 12)%N then String backslash "f"
  else if (n =? 13)%N then String backslash "r"
  else if (n <? 32)%N then
    String backslash
      (String "u" (String "0" (String "0"
        (String (hex_digit (n / 16)) (String (hex_digit (n mod 16)) "")))))
  else String c "".

Fixpoint escape_all (s : string) : string :=
  match s with
  | EmptyString => EmptyString
  | String c rest => escape c +:+ escape_all rest
  end.

Definition quoted (s : string) : string :=
  String quote (escape_all s +:+ String quote "").

Definition number_text (n : Z) : string := NilZero.string_of_int (Z.to_int n).

(** [JSON.stringify] *)
Fixpoint stringify (v : jsval) : string :=
  match v with
  | JNull => "null"
  | JBool true => "true"
  | JBool false => "false"
  | JNum n => number_text n
  | JStr s => quoted s
  | JArr items => "[" +:+ Server.join "," (map stringify items) +:+ "]"
  | JObj fields =>
      "{" +:+ Server.join "," (map (fun '(k, x) => quoted k +:+ ":" +:+ stringify x) fields)
          +:+ "}"
  end.

(** The text of one field of an object. *)
Definition field_text (f : string * jsval) : string :=
  let '(k, x) := f in quoted k +:+ ":" +:+ stringify x.

Definition is_space (c : ascii) : bool :=
  let n := N_of_ascii c in
  ((n =? 32) || (n =? 9) || (n =? 10) || (n =? 13))%N.

Fixpoint skip_space (s : string) : string :=
  match s with
  | EmptyString => EmptyString
  | String c rest => if is_space c then skip_space rest else s
  end.

Definition digit_value (c : ascii) : option Z :=
  let n := N_of_ascii c in
  if ((48 <=? n) && (n <=? 57))%N then Some (Z.of_N n - 48) else None.

Definition hex_value (c : ascii) : option N :=
  let n := N_of_ascii c in
  if ((48 <=? n) && (n <=? 57))%N then Some (n - 48)%N
  else if ((97 <=? n) && (n <=? 102))%N then Some (n - 87)%N
  else if ((65 <=? n) && (n <=? 70))%N then Some (n - 55)%N
  else None.

(** The digits of an integer, most significant first. *)
Fixpoint read_digits (acc : Z) (s : string) : Z * string :=
  match s with
  | EmptyString => (acc, s)
  | String c rest =>
      match digit_value c with
      | Some d => read_digits (acc * 10 + d) rest
      | None => (acc, s)
      end
  end.

Definition starts_fraction (s : string) : bool :=
  match s with
  | String c _ => Ascii.eqb c "." || Ascii.eqb c "e" || Ascii.eqb c "E"
  | EmptyString => false
  end.

Definition read_natural (s : string) : option (Z * string) :=
  match s with
  | String c _ =>
      match digit_value c with
      | Some _ =>
          let '(n, rest) := read_digits 0 s in
          if starts_fraction rest then None else Some (n, rest)
      | None => None
      end
  | EmptyString => None
  end.

Definition read_number (s : string) : option (Z * string) :=
  match s with
  | String "-" rest =>
      match read_natural rest with
      | Some (n, rest') => Some (- n, rest')
      | None => None
      end
  | _ => read_natural s
  end.

(** The characters of a string literal, from after its opening quote to its
    closing quote. *)
Fixpoint read_string (s : string) : option (string * string) :=
  match s with
  | EmptyString => None
  | String c rest =>
      if Ascii.eqb c quote then Some (EmptyString, rest)
      else if Ascii.eqb c backslash then
        match rest with
        | String e rest1 =>
            let continue_with (ch : ascii) (tail : string) :=
              match read_string tail with
              | Some (str, rest') => Some (String ch str, rest')
              | None => None
              end in
            if Ascii.eqb e quote then continue_with quote rest1
            else if Ascii.eqb e backslash then continue_with backslash rest1
            else if Ascii.eqb e "/" then continue_with "/"%char rest1
            else if Ascii.eqb e "b" then continue_with (ascii_of_nat 8) rest1
            else if Ascii.eqb e "t" then continue_with (ascii_of_nat 9) rest1
            else if Ascii.eqb e "n" then continue_with (ascii_of_nat 10) rest1
            else if Ascii.eqb e "f" then continue_with (ascii_of_nat 12) rest1
            else if Ascii.eqb e "r" then continue_with (ascii_of_nat 13) rest1
            else if Ascii.eqb e "u" then
              match rest1 with
              | String h1 (String h2 (String h3 (String h4 rest2))) =>
                  match hex_value h1, hex_value h2, hex_value h3, hex_value h4 with
                  | Some 0%N, Some 0%N, Some a, Some b =>
                      continue_with (ascii_of_N (a * 16 + b)) rest2
                  | _, _, _, _ => None
                  end
              | _ => None
              end
            else None
        | EmptyString => None
        end
      else if (N_of_ascii c <? 32)%N then None
      else
        match read_string rest with
        | Some (str, rest') => Some (String c str, rest')
        | None => None
        end
  end.

Definition literal (word : string) (v : jsval) (s : string) : option (jsval * string) :=
  if String.prefix word s
  then Some (v, String.substring (String.length word) (String.length s - String.length word) s)
  else None.

(** The recursive descent over a value, the items of an array and the
    fields of an object. *)
Fixpoint read_value (fuel : nat) (s : string) : option (jsval * string) :=
  match fuel with
  | O => None
  | S fuel =>
      match skip_space s with
      | EmptyString => None
      | String c rest =>
          if Ascii.eqb c "{" then
            match skip_space rest with
            | String "}" rest1 => Some (JObj [], rest1)
            | _ => read_fields fuel [] rest
            end
          else if Ascii.eqb c "[" then
            match skip_space rest with
            | String "]" rest1 => Some (JArr [], rest1)
            | _ => read_items fuel [] rest
            end
          else if Ascii.eqb c quote then
            match read_string rest with
            | Some (str, rest1) => Some (JStr str, rest1)
            | None => None
            end
          else if Ascii.eqb c "n" then literal "null" JNull (String c rest)
          else if Ascii.eqb c "t" then literal "true" (JBool true) (String c rest)
          else if Ascii.eqb c "f" then literal "false" (JBool false) (String c rest)
          else
            match read_number (String c rest) with
            | Some (n, rest1) => Some (JNum n, rest1)
            | None => None
            end
      end
  end
with read_items (fuel : nat) (acc : list jsval) (s : string) : option (jsval * string) :=
  match fuel with
  | O => None
  | S fuel =>
      match read_value fuel s with
      | Some (v, rest) =>
          match skip_space rest with
          | String "," rest1 => read_items fuel (acc ++ [v]) rest1
          | String "]" rest1 => Some (JArr (acc ++ [v]), rest1)
          | _ => None
          end
      | None => None
      end
  end
with read_fields (fuel : nat) (acc : list (string * jsval)) (s : string)
    : option (jsval * string) :=
  match fuel with
  | O => None
  | S fuel =>
      match skip_space s with
      | String c rest =>
          if Ascii.eqb c quote then
            match read_string rest with
            | Some (key, rest1) =>
                match skip_space rest1 with
                | String ":" rest2 =>
                    match read_value fuel rest2 with
                    | Some (v, rest3) =>
                        match skip_space rest3 with
                        | String "," rest4 => read_fields fuel (assign key v acc) rest4
                        | String "}" rest4 => Some (JObj (assign key v acc), rest4)
                        | _ => None
                        end
                    | None => None
                    end
                | _ => None
                end
            | None => None
            end
          else None
      | EmptyString => None
      end
  end.

(** [JSON.parse]: one value and nothing after it. *)
Definition parse_text (text : string) : option jsval :=
  match read_value (2 * String.length text + 2) text with
  | Some (v, rest) =>
      match skip_space rest with
      | EmptyString => Some v
      | _ => None
      end
  | None => None
  end.

(** [ToUint8] of an array item. *)
Definition to_octet (v : jsval) : Byte.byte :=
  match v with
  | JNum n => Base64.octet (Z.to_N (n mod 256))
  | JBool true => Base64.octet 1
  | _ => Base64.octet 0
  end.

(** [Buffer.from] on an array or object: an array gives its items as
    octets, and so does the JSON form [{ type: 'Buffer', data: [...] }] of
    a buffer; an object with a [length] that is not a number gives the
    empty buffer; another object is a [TypeError]. *)
Definition from_object (v : jsval) : option Base64.buffer :=
  match v with
  | JArr items => Some (map to_octet items)
  | JObj fields =>
      match assoc "length" fields with
      | Some (JNum n) =>
          Some (map (fun i => match assoc (index_name i) fields with
                              | Some x => to_octet x
                              | None => Base64.octet 0
                              end) (seq 0 (Z.to_nat n)))
      | Some _ => Some []
      | None =>
          match assoc "type" fields, assoc "data" fields with
          | Some (JStr "Buffer"), Some (JArr items) => Some (map to_octet items)
          | _, _ => None
          end
      end
  | _ => None
  end.

#[export] Instance platform : Platform :=
  {| JSON_parse := parse_text;
     JSON_stringify := stringify;
     Buffer_from_object := from_object |}.

End Node.

(* ===================================================================== *)
(** * Strings and their UTF-8 octets *)
(* ===================================================================== *)

(** What [Buffer.toString] makes of the octets of a frame, and what the
    [ws] library sends for a string. *)
Module Utf8.

(** A JavaScript string: its UTF-16 code units. *)
Definition text := list Z.

Definition byte_Z (b : Byte.byte) : Z := Z.of_N (Byte.to_N b).

Definition octet (z : Z) : Byte.byte := Base64.octet (Z.to_N z).

(** A code point begun and not yet complete: the continuation octets it
    still takes, its bits so far, and the range of the next octet. *)
Record partial := { more : nat; bits : Z; lower : Z; upper : Z }.

(** An octet met with nothing pending: a code point of its own, the lead
    of a sequence of two, three or four, or an error. *)
Definition lead (b : Z) : list Z * option partial :=
  if b <=? 127 then ([b], None)
  else if (194 <=? b) && (b <=? 223)
  then ([], Some {| more := 1; bits := b - 192; lower := 128; upper := 191 |})
  else if (224 <=? b) && (b <=? 239)
  then ([], Some {| more := 2; bits := b - 224;
                    lower := if b =? 224 then 160 else 128;
                    upper := if b =? 237 then 159 else 191 |})
  else if (240 <=? b) && (b <=? 244)
  then ([], Some {| more := 3; bits := b - 240;
                    lower := if b =? 240 then 144 else 128;
                    upper := if b =? 244 then 143 else 191 |})
  else ([65533], None).

(** The UTF-8 decoder: the code points of a sequence of octets, with
    U+FFFD for each part that is ill-formed.  An octet that cannot
    continue the pending code point ends it with an error and is read
    again as a lead. *)
Fixpoint decode (pending : option partial) (octets : list Z) : list Z :=
  match octets with
  | [] =>
      match pending with
      | Some _ => [65533]
      | None => []
      end
  | b :: rest =>
      match pending with
      | None => let '(out, pending') := lead b in out ++ decode pending' rest
      | Some p =>
          if (lower p <=? b) && (b <=? upper p) then
            let bits' := bits p * 64 + (b - 128) in
            match more p with
            | S (S n) =>
                decode (Some {| more := S n; bits := bits'; lower := 128; upper := 191 |}) rest
            | _ => bits' :: decode None rest
            end
          else 65533 :: (let '(out, pending') := lead b in out ++ decode pending' rest)
      end
  end.

(** The code units of a code point: itself, or a surrogate pair. *)
Definition units_of (c : Z) : list Z :=
  if c <? 65536 then [c]
  else [55296 + (c - 65536) / 1024; 56320 + (c - 65536) mod 1024].

(** [buf.toString()]: the octets decoded as UTF-8. *)
Definition toString (data : Base64.buffer) : text :=
  flat_map units_of (decode None (map byte_Z data)).

Definition is_high (u : Z) : bool := (55296 <=? u) && (u <=? 56319).
Definition is_low (u : Z) : bool := (56320 <=? u) && (u <=? 57343).

(** The code points of a string; a surrogate without its partner counts
    as U+FFFD. *)
Fixpoint code_points (units : list Z) : list Z :=
  match units with
  | [] => []
  | u :: rest =>
      if is_high u then
        match rest with
        | l :: rest' =>
            if is_low l
            then (65536 + (u - 55296) * 1024 + (l - 56320)) :: code_points rest'
            else 65533 :: code_points rest
        | [] => [65533]
        end
      else if is_low u then 65533 :: code_points rest
      else u :: code_points rest
  end.

(** The UTF-8 octets of a code point. *)
Definition utf8_of (c : Z) : list Z :=
  if c <? 128 then [c]
  else if c <? 2048 then [192 + c / 64; 128 + c mod 64]
  else if c <? 65536 then [224 + c / 4096; 128 + (c / 64) mod 64; 128 + c mod 64]
  else [240 + c / 262144; 128 + (c / 4096) mod 64; 128 + (c / 64) mod 64; 128 + c mod 64].

(** The payload of the text frame [send] makes of a string: its UTF-8
    octets. *)
Definition text_frame (message : text) : Base64.buffer :=
  map octet (flat_map utf8_of (code_points message)).

(** ** Vocabulary of the statements *)

(** A Unicode scalar value: a code point that is no surrogate. *)
Definition scalar (c : Z) : Prop := 0 <= c < 55296 \/ 57344 <= c < 1114112.

(** Octets that are well-formed UTF-8: the encoding of scalar values. *)
Definition well_formed (data : Base64.buffer) : Prop :=
  exists cps, Forall scalar cps /\ map byte_Z data = flat_map utf8_of cps.

End Utf8.

(* ===================================================================== *)
(** * The AIS relay ([setupAisRelay] of [server.js]) *)
(* ===================================================================== *)

Module Relay.
Import Js Utf8.

(** [WebSocket.readyState] *)
Inductive readyState := CONNECTING | OPEN | CLOSING | CLOSED.

Definition is_open (s : readyState) : bool :=
  match s with
  | OPEN => true
  | _ => false
  end.

(** An upstream socket is named by its rank among the sockets the relay
    created; a subscriber socket by a number the server gives it. *)
Definition socket := nat.
Definition subscriber := nat.

(** The variables of [setupAisRelay], and what the platform holds for it:
    the state of each socket, the pending timers with the time each is
    due (in milliseconds), the clock, and what was handed to [send]: the
    strings sent to subscribers as text frames, and the texts sent
    upstream. *)
Record relay := {
  upstreamSocket : option socket;
  clients : list subscriber;
  messageCount : Z;
  created : nat;
  upstream_state : gmap socket readyState;
  subscriber_state : gmap subscriber readyState;
  timers : list Z;
  clock : Z;
  delivered : list (subscriber * text);
  upstream_out : list (socket * string)
}.

Definition state_of (states : gmap nat readyState) (s : nat) : readyState :=
  match states !! s with
  | Some st => st
  | None => CLOSED
  end.

Definition set_upstreamSocket (u : option socket) (r : relay) : relay :=
  {| upstreamSocket := u; clients := clients r; messageCount := messageCount r;
     created := created r; upstream_state := upstream_state r;
     subscriber_state := subscriber_state r; timers := timers r; clock := clock r;
     delivered := delivered r; upstream_out := upstream_out r |}.

Definition set_clients (c : list subscriber) (r : relay) : relay :=
  {| upstreamSocket := upstreamSocket r; clients := c; messageCount := messageCount r;
     created := created r; upstream_state := upstream_state r;
     subscriber_state := subscriber_state r; timers := timers r; clock := clock r;
     delivered := delivered r; upstream_out := upstream_out r |}.

Definition set_messageCount (n : Z) (r : relay) : relay :=
  {| upstreamSocket := upstreamSocket r; clients := clients r; messageCount := n;
     created := created r; upstream_state := upstream_state r;
     subscriber_state := subscriber_state r; timers := timers r; clock := clock r;
     delivered := delivered r; upstream_out := upstream_out r |}.

Definition set_created (n : nat) (r : relay) : relay :=
  {| upstreamSocket := upstreamSocket r; clients := clients r; messageCount := messageCount r;
     created := n; upstream_state := upstream_state r;
     subscriber_state := subscriber_state r; timers := timers r; clock := clock r;
     delivered := delivered r; upstream_out := upstream_out r |}.

Definition set_upstream_state (m : gmap socket readyState) (r : relay) : relay :=
  {| upstreamSocket := upstreamSocket r; clients := clients r; messageCount := messageCount r;
     created := created r; upstream_state := m;
     subscriber_state := subscriber_state r; timers := timers r; clock := clock r;
     delivered := delivered r; upstream_out := upstream_out r |}.

Definition set_subscriber_state (m : gmap subscriber readyState) (r : relay) : relay :=
  {| upstreamSocket := upstreamSocket r; clients := clients r; messageCount := messageCount r;
     created := created r; upstream_state := upstream_state r;
     subscriber_state := m; timers := timers r; clock := clock r;
     delivered := delivered r; upstream_out := upstream_out r |}.

Definition set_timers (t : list Z) (r : relay) : relay :=
  {| upstreamSocket := upstreamSocket r; clients := clients r; messageCount := messageCount r;
     created := created r; upstream_state := upstream_state r;
     subscriber_state := subscriber_state r; timers := t; clock := clock r;
     delivered := delivered r; upstream_out := upstream_out r |}.

Definition set_clock (t : Z) (r : relay) : relay :=
  {| upstreamSocket := upstreamSocket r; clients := clients r; messageCount := messageCount r;
     created := created r; upstream_state := upstream_state r;
     subscriber_state := subscriber_state r; timers := timers r; clock := t;
     delivered := delivered r; upstream_out := upstream_out r |}.

Definition set_delivered (d : list (subscriber * text)) (r : relay) : relay :=
  {| upstreamSocket := upstreamSocket r; clients := clients r; messageCount := messageCount r;
     created := created r; upstream_state := upstream_state r;
     subscriber_state := subscriber_state r; timers := timers r; clock := clock r;
     delivered := d; upstream_out := upstream_out r |}.

Definition set_upstream_out (d : list (socket * string)) (r : relay) : relay :=
  {| upstreamSocket := upstreamSocket r; clients := clients r; messageCount := messageCount r;
     created := created r; upstream_state := upstream_state r;
     subscriber_state := subscriber_state r; timers := timers r; clock := clock r;
     delivered := delivered r; upstream_out := d |}.

(** ** The sockets, as the [ws] library behaves *)

Definition not_open : error := Error "WebSocket is not open: readyState 0 (CONNECTING)".

(** [client.send(message)] with a string, which goes out as a text frame:
    throws on a socket that is still connecting, transmits on an open one,
    and drops the frame otherwise. *)
Definition client_send (ws : subscriber) (message : text) : comp relay unit :=
  fun r =>
    match state_of (subscriber_state r) ws with
    | CONNECTING => (Throw not_open, r)
    | OPEN => (Normal tt, set_delivered (delivered r ++ [(ws, message)]) r)
    | _ => (Normal tt, r)
    end.

(** [socket.send(text)] on an upstream socket. *)
Definition socket_send (s : socket) (message : string) : comp relay unit :=
  fun r =>
    match state_of (upstream_state r) s with
    | CONNECTING => (Throw not_open, r)
    | OPEN => (Normal tt, set_upstream_out (upstream_out r ++ [(s, message)]) r)
    | _ => (Normal tt, r)
    end.

(** [socket.close()]: a socket that is not closed yet starts closing. *)
Definition socket_close (s : socket) : comp relay unit :=
  modify (fun r =>
    match state_of (upstream_state r) s with
    | CLOSED => r
    | _ => set_upstream_state (<[s := CLOSING]> (upstream_state r)) r
    end).

(** [new WebSocket(AISSTREAM_URL)] *)
Definition new_WebSocket : comp relay socket :=
  fun r =>
    (Normal (created r),
     set_created (S (created r))
       (set_upstream_state (<[created r := CONNECTING]> (upstream_state r)) r)).

(** [setTimeout(connectUpstream, ms)]: the only callback ever scheduled. *)
Definition setTimeout (ms : Z) : comp relay unit :=
  modify (fun r => set_timers (timers r ++ [clock r + ms]) r).

Definition same_socket (u : option socket) (s : socket) : bool :=
  match u with
  | Some s' => Nat.eqb s' s
  | None => false
  end.

(** [clients.add(ws)] and [clients.delete(ws)] on the [Set], which keeps
    insertion order and holds an element once. *)
Definition Set_add (ws : subscriber) (set : list subscriber) : list subscriber :=
  if existsb (Nat.eqb ws) set then set else set ++ [ws].

Definition Set_delete (ws : subscriber) (set : list subscriber) : list subscriber :=
  List.filter (fun c => negb (Nat.eqb c ws)) set.

Section Handlers.
Context `{Platform}.
Variable API_KEY : string.

Definition subscription : jsval :=
  JObj [ ("APIKey", JStr API_KEY);
         ("BoundingBoxes",
          JArr [ JArr [ JArr [JNum (-90); JNum (-180)]; JArr [JNum 90; JNum 180] ] ]);
         ("FilterMessageTypes", JArr [JStr "PositionReport"]) ].

(** [connectUpstream] up to the registration of the listeners. *)
Definition connectUpstream : comp relay unit :=
  r ← get;
  let busy :=
    match upstreamSocket r with
    | Some s =>
        match state_of (upstream_state r) s with
        | OPEN | CONNECTING => true
        | _ => false
        end
    | None => false
    end in
  if busy then mret tt
  else
    socket ← new_WebSocket;
    modify (set_upstreamSocket (Some socket)).

(** [socket.on('open', ...)] *)
Definition on_open (socket : socket) : comp relay unit :=
  r ← get;
  if negb (same_socket (upstreamSocket r) socket) then socket_close socket
  else socket_send socket (JSON_stringify subscription).

(** [socket.on('message', ...)]; [data] is the [Buffer] of the payload,
    of a text frame as of a binary one. *)
Definition on_message (socket : socket) (data : Base64.buffer) : comp relay unit :=
  r ← get;
  if negb (same_socket (upstreamSocket r) socket) then mret tt
  else
    modify (fun r => set_messageCount (messageCount r + 1) r);;
    let message := toString data in
    r ← get;
    for_each (clients r) (fun client =>
      r ← get;
      if is_open (state_of (subscriber_state r) client)
      then client_send client message
      else mret tt).

(** [socket.on('close', ...)] *)
Definition on_close (socket : socket) : comp relay unit :=
  r ← get;
  if same_socket (upstreamSocket r) socket then
    modify (set_upstreamSocket None);;
    setTimeout 5000
  else mret tt.

(** [socket.on('error', ...)]: logs. *)
Definition on_error (socket : socket) : comp relay unit := mret tt.

(** [wss.on('connection', ...)] *)
Definition on_connection (ws : subscriber) : comp relay unit :=
  modify (fun r => set_clients (Set_add ws (clients r)) r);;
  connectUpstream.

(** [ws.on('close', ...)] of a subscriber. *)
Definition on_subscriber_close (ws : subscriber) : comp relay unit :=
  modify (fun r => set_clients (Set_delete ws (clients r)) r).

(** ** The event loop *)

(** What can happen to the relay.  The platform updates the state of a
    socket before it calls the listener of an event. *)
Inductive event :=
| UpstreamOpen (s : socket)
| UpstreamMessage (s : socket) (data : Base64.buffer)
| UpstreamClose (s : socket)
| UpstreamError (s : socket)
| Connection (ws : subscriber)
| SubscriberClose (ws : subscriber)
| SubscriberError (ws : subscriber)
| SubscriberState (ws : subscriber) (st : readyState)
| Tick (ms : Z)
| Timeout.

(** One turn of the event loop.  A timer fires only once it is due. *)
Definition deliver (ev : event) : comp relay unit :=
  match ev with
  | UpstreamOpen s =>
      modify (fun r => set_upstream_state (<[s := OPEN]> (upstream_state r)) r);;
      on_open s
  | UpstreamMessage s data => on_message s data
  | UpstreamClose s =>
      modify (fun r => set_upstream_state (<[s := CLOSED]> (upstream_state r)) r);;
      on_close s
  | UpstreamError s => on_error s
  | Connection ws =>
      modify (fun r => set_subscriber_state (<[ws := OPEN]> (subscriber_state r)) r);;
      on_connection ws
  | SubscriberClose ws =>
      modify (fun r => set_subscriber_state (<[ws := CLOSED]> (subscriber_state r)) r);;
      on_subscriber_close ws
  | SubscriberError ws => mret tt
  | SubscriberState ws st =>
      modify (fun r => set_subscriber_state (<[ws := st]> (subscriber_state r)) r)
  | Tick ms =>
      modify (fun r => set_clock (clock r + Z.max 0 ms) r)
  | Timeout =>
      r ← get;
      match timers r with
      | due :: rest =>
          if due <=? clock r
          then modify (set_timers rest);; connectUpstream
          else mret tt
      | [] => mret tt
      end
  end.

(** The relay after a sequence of events. *)
Fixpoint run (evs : list event) (r : relay) : relay :=
  match evs with
  | [] => r
  | ev :: rest => run rest (snd (deliver ev r))
  end.

(** ** Vocabulary of the statements *)

(** The frames a subscriber was sent, oldest first. *)
Definition received (ws : subscriber) (r : relay) : list text :=
  map snd (List.filter (fun d => Nat.eqb (fst d) ws) (delivered r)).

(** The subscribers a message is forwarded to: the members of the set
    whose socket is open. *)
Definition open_clients (r : relay) : list subscriber :=
  List.filter (fun ws => is_open (state_of (subscriber_state r) ws)) (clients r).

(** The messages of a sequence of events that reach a subscriber: those
    that arrive from the socket that is the current one at that moment,
    while the subscriber is in the set with its socket open. *)
Fixpoint forwarded (ws : subscriber) (evs : list event) (r : relay) : list text :=
  match evs with
  | [] => []
  | ev :: rest =>
      match ev with
      | UpstreamMessage s data =>
          if same_socket (upstreamSocket r) s
             && existsb (Nat.eqb ws) (clients r)
             && is_open (state_of (subscriber_state r) ws)
          then [toString data]
          else []
      | _ => []
      end ++ forwarded ws rest (snd (deliver ev r))
  end.

Definition is_connection_of (ws : subscriber) (ev : event) : bool :=
  match ev with
  | Connection ws' => Nat.eqb ws' ws
  | _ => false
  end.

End Handlers.

End Relay.

(* ===================================================================== *)
(** * Concrete runs *)
(* ===================================================================== *)

(** A deployment with a Redis URL, one cacheable route and handlers with
    fixed responses, on which the statements are run. *)
Module Scenario.
Import Js Store Server Utf8 Relay Node.

Definition PORT : string := "3000".

(** The URL parser on the requests of these runs.  Their URL is
    [http://monitor.example/] and then a path and a query of letters,
    digits and [/?=&_-], which the parser serializes as it reads them.
    No other text is handed to it here. *)
Definition plain_char (c : ascii) : bool :=
  let n := N_of_ascii c in
  ((48 <=? n) && (n <=? 57) || (65 <=? n) && (n <=? 90) || (97 <=? n) && (n <=? 122) ||
   existsb (N.eqb n) [47; 63; 61; 38; 95; 45])%N.

Definition URL_href (text : string) : option string :=
  if String.prefix "http://monitor.example/" text
     && forallb plain_char (list_ascii_of_string (String.substring 23 (String.length text) text))
  then Some text
  else None.

Definition server0 : server :=
  {| now := 1000; keys := ∅; reachable := true |}.

Definition process0 : process :=
  {| REDIS_URL := Some "redis://cache:6379";
     UPSTASH_REDIS_REST_URL := None;
     ioredis_throws := false;
     db := server0;
     client := None; initFailed := false;
     redis := None; redisInitFailed := false;
     cacheRedis := None; cacheRedisInitFailed := false |}.

(** The same deployment while the server cannot be reached. *)
Definition process_down : process :=
  set_db {| now := 1000; keys := ∅; reachable := false |} process0.

(** The same deployment without a Redis URL. *)
Definition process_unset : process :=
  {| REDIS_URL := None;
     UPSTASH_REDIS_REST_URL := None;
     ioredis_throws := false;
     db := server0;
     client := None; initFailed := false;
     redis := None; redisInitFailed := false;
     cacheRedis := None; cacheRedisInitFailed := false |}.

(** A wrapper that holds the connection, and a store with a JSON text and
    a plain word in it. *)
Definition connected : Redis := {| _client := Some Store.Connection |}.

Definition process_values : process :=
  with_entry "list" {| payload := "[1,2]"; expires := None |}
    (with_entry "word" {| payload := "hello"; expires := None |} process0).

Definition route : string := "/api/earthquakes".

Definition request0 : request :=
  {| method := "GET";
     originalUrl := "/api/earthquakes?min=5";
     path := "/api/earthquakes";
     protocol := "http";
     host := Some "monitor.example";
     headers := [("accept", Single "application/json")];
     body := NoBody |}.

(** The octets of [ok]. *)
Definition ok_body : Base64.buffer := [Byte.x6f; Byte.x6b].

(** What the handler is given for [request0]. *)
Definition web_request0 : web_request :=
  {| url := "http://monitor.example/api/earthquakes?min=5";
     web_method := "GET";
     web_headers := [("accept", "application/json")];
     web_body := None |}.

(** A response that sets two cookies. *)
Definition response0 : web_response :=
  {| status := 200;
     response_headers :=
       [ ("content-type", "text/plain");
         ("set-cookie", "a=1");
         ("set-cookie", "b=2");
         ("transfer-encoding", "chunked") ];
     arrayBuffer := ok_body |}.

Definition handler0 : edge_handler := fun _ => Normal response0.

Definition failing_handler : edge_handler := fun _ => Throw (Error "upstream timed out").

(** A handler that does [throw null]. *)
Definition null_handler : edge_handler := fun _ => Throw (Thrown (Some JNull)).

Definition exchange_of (p : process) : exchange :=
  {| proc := p; res := fresh; calls := [] |}.

(** The exchange after the first request was served from [process0]. *)
Definition after_first : exchange :=
  snd (adaptEdgeHandler PORT URL_href handler0 route request0 (exchange_of process0)).

(** The process thirty seconds later. *)
Definition later : process :=
  set_db (elapse 30 (db (proc after_first))) (proc after_first).

(** The exchange after the same request was served again. *)
Definition after_second : exchange :=
  snd (adaptEdgeHandler PORT URL_href handler0 route request0 (exchange_of later)).

(** A cache entry with a status and a header but a body field that is a
    number, under the key of [request0]. *)
Definition corrupt_envelope : jsval :=
  JObj [ ("s", JNum 200); ("h", JObj [("x-stale", JStr "1")]); ("b", JNum 7) ].

Definition process_corrupt : process :=
  with_entry (cacheKey request0)
    {| payload := JSON_stringify corrupt_envelope; expires := None |} process0.

Definition plain_response : web_response :=
  {| status := 200;
     response_headers := [("content-type", "text/plain")];
     arrayBuffer := ok_body |}.

Definition plain_handler : edge_handler := fun _ => Normal plain_response.

Definition after_corrupt : exchange :=
  snd (adaptEdgeHandler PORT URL_href plain_handler route request0 (exchange_of process_corrupt)).

(** A relay with two subscribers on an open upstream socket. *)
Definition API_KEY : string := "key".

Definition relay0 : relay :=
  {| upstreamSocket := None; clients := []; messageCount := 0; created := 0%nat;
     upstream_state := ∅; subscriber_state := ∅; timers := []; clock := 0;
     delivered := []; upstream_out := [] |}.

Definition relay_open : relay :=
  run API_KEY [Connection 1%nat; Connection 2%nat; UpstreamOpen 0%nat] relay0.

Definition frame (s : string) : Base64.buffer := list_byte_of_string s.

(** The string of a text whose characters are below 128. *)
Definition text_of (s : string) : text :=
  map (fun c => Z.of_N (N_of_ascii c)) (list_ascii_of_string s).

End Scenario.

(* ===================================================================== *)
(** * The rest of the store client: retries, [del], [keys], [pipeline] *)
(* ===================================================================== *)

Module Commands.
Import Js Store.

(** [retryStrategy(times)] of the options of the connection: the delay in
    milliseconds before the next attempt, or [null] to give up. *)
Definition retryStrategy (times : Z) : option Z :=
  if 5 <? times then None else Some (Z.min (times * 200) 2000).

(** [client.del(key)]: the number of keys removed. *)
Definition ioredis_del (key : string) : comp server Z :=
  fun db =>
    if reachable db then
      (Normal (match live db key with Some _ => 1 | None => 0 end),
       set_keys (delete key (keys db)) db)
    else (Throw closed, db).

(** A command on the [ioredis] pipeline. *)
Inductive wire :=
| WSet (key serialized : string) (ex : option Z)
| WGet (key : string)
| WDel (key : string).

(** The value a command of a batch resolves with. *)
Definition wire_run (w : wire) : comp server jsval :=
  match w with
  | WSet key serialized ex => ioredis_set key serialized ex;; mret (JStr "OK")
  | WGet key =>
      raw ← ioredis_get key;
      mret (match raw with Some s => JStr s | None => JNull end)
  | WDel key => n ← ioredis_del key; mret (JNum n)
  end.

(** The commands of a batch run in order; each has its own [[err, val]]. *)
Fixpoint run_batch (ws : list wire) (db : server) : list (completion jsval) * server :=
  match ws with
  | [] => ([], db)
  | w :: rest =>
      let '(o, db') := wire_run w db in
      let '(os, db'') := run_batch rest db' in
      (o :: os, db'')
  end.

(** An entry of [commands], the queue of a pipeline of the wrapper.  The
    value of a queued [set] is a JSON value, which [JSON.stringify]
    accepts; [exec] serializes before its [try], so that a value on which
    [JSON.stringify] throws (a [BigInt], an object with a cycle), which is
    no value of this model, would reject it. *)
Inductive queued :=
| QSet (key : string) (value : jsval) (ex : option Z)
| QGet (key : string)
| QDel (key : string).

(** The object [pipeline()] returns, with the queue its methods share. *)
Record builder := { commands : list queued; self : Redis }.

(** [redis.pipeline()] *)
Definition pipeline (this : Redis) : builder := {| commands := []; self := this |}.

(** The chainable [set], [get] and [del] of the builder. *)
Definition pipeline_set (key : string) (value : jsval) (ex : option Z) (b : builder)
    : builder :=
  {| commands := commands b ++ [QSet key value ex]; self := self b |}.

Definition pipeline_get (key : string) (b : builder) : builder :=
  {| commands := commands b ++ [QGet key]; self := self b |}.

Definition pipeline_del (key : string) (b : builder) : builder :=
  {| commands := commands b ++ [QDel key]; self := self b |}.

(** [xs.map((x, i) => f(i, x))] where [f] may throw. *)
Fixpoint map_indexed {A B} (f : nat -> A -> completion B) (i : nat) (xs : list A)
    : completion (list B) :=
  match xs with
  | [] => Normal []
  | x :: rest =>
      match f i x with
      | Normal y =>
          match map_indexed f (S i) rest with
          | Normal ys => Normal (y :: ys)
          | Throw e => Throw e
          end
      | Throw e => Throw e
      end
  end.

Section Client.
Context `{Platform}.

(** What the server answers to [KEYS pattern] in a state: its glob
    matching is not part of this code. *)
Variable matching : string -> server -> list string.

(** Whether the promise of [pipeline.exec()] of the connection rejects as
    a whole, and with what (a stand-alone connection fulfils it, with the
    errors of the commands in their pairs). *)
Variable rejection : option error.

(** [client.keys(pattern)] *)
Definition ioredis_keys (pattern : string) : comp server (list string) :=
  fun db =>
    if reachable db then (Normal (matching pattern db), db) else (Throw closed, db).

(** [pipeline.exec()] of the connection. *)
Definition ioredis_exec (ws : list wire) : comp server (list (completion jsval)) :=
  match rejection with
  | Some e => throw e
  | None => fun db => let '(os, db') := run_batch ws db in (Normal os, db')
  end.

(** [Redis.del] *)
Definition Redis_del (this : Redis) (key : string) : comp process jsval :=
  match _client this with
  | None => mret (JNum 0)
  | Some c =>
      try_catch
        (n ← command c (ioredis_del key); mret (JNum n))
        (fun err => mret (JNum 0))
  end.

(** [Redis.keys] *)
Definition Redis_keys (this : Redis) (pattern : string) : comp process (list string) :=
  match _client this with
  | None => mret []
  | Some c =>
      try_catch (command c (ioredis_keys pattern)) (fun err => mret [])
  end.

(** What the loop of [exec] puts on the pipeline of the connection for a
    queued command. *)
Definition wire_of (cmd : queued) : wire :=
  match cmd with
  | QSet key value ex =>
      let serialized :=
        match value with
        | JStr s => s
        | _ => JSON_stringify value
        end in
      if ex_truthy ex then WSet key serialized ex else WSet key serialized None
  | QGet key => WGet key
  | QDel key => WDel key
  end.

Definition queue (cmds : list queued) : list wire := map wire_of cmds.

(** The function [exec] maps over the results. *)
Definition shaped (cmds : list queued) (i : nat) (result : completion jsval)
    : completion jsval :=
  match result with
  | Throw err => Normal JNull
  | Normal val =>
      match cmds !! i with
      | Some (QGet _) =>
          match val with
          | JStr s => Normal (parsed_or_raw s)
          | _ => Normal val
          end
      | Some _ => Normal val
      | None => Throw (Error "Cannot read properties of undefined")
      end
  end.

(** [exec] of the builder. *)
Definition pipeline_exec (b : builder) : comp process (list jsval) :=
  match _client (self b) with
  | None => mret []
  | Some c =>
      let ws := queue (commands b) in
      try_catch
        (results ← command c (ioredis_exec ws);
         complete (map_indexed (shaped (commands b)) 0 results))
        (fun err => complete (message_of err);; mret [])
  end.

(** ** Vocabulary of the statements *)

(** The method of the wrapper that does what a queued command does. *)
Definition single (this : Redis) (cmd : queued) : comp process jsval :=
  match cmd with
  | QSet key value ex => Redis_set this key value ex
  | QGet key => Redis_get this key
  | QDel key => Redis_del this key
  end.

(** The commands awaited one after the other. *)
Fixpoint in_turn (this : Redis) (cmds : list queued) : comp process (list jsval) :=
  match cmds with
  | [] => mret []
  | cmd :: rest =>
      v ← single this cmd;
      vs ← in_turn this rest;
      mret (v :: vs)
  end.

(** What [get] of the wrapper returns for a key in a state. *)
Definition got (this : Redis) (p : process) (key : string) : jsval :=
  match fst (Redis_get this key p) with
  | Normal v => v
  | Throw _ => JNull
  end.

(** The string [set] stores for a value. *)
Definition stored_text (value : jsval) : string :=
  match value with
  | JStr s => s
  | _ => JSON_stringify value
  end.

End Client.

(** The process after a string was stored under a key with an expiry. *)
Definition with_entry_at (key text : string) (e : option Z) (p : process) : process :=
  set_db (set_keys (<[key := {| payload := text; expires := e |}]> (keys (db p))) (db p)) p.

End Commands.

(* ===================================================================== *)
(** * Header names and values as the HTTP layers hand them over *)
(* ===================================================================== *)

Module Forwarding.
Import Js Server.

(** A header name in lower case, as [req.headers] of Node and
    [Headers.forEach] of the Web API give every name. *)
Definition lower_case (name : string) : bool := String.eqb (toLowerCase name) name.

(** What [expressToWebRequest] puts into the [Headers] for a value of
    [req.headers], if anything. *)
Definition forwarded_value (value : header_value) : option string :=
  match value with
  | Single v => if String.eqb v "" then None else Some v
  | Multiple vs => Some (join ", " vs)
  | Absent => None
  end.

(** The headers of a list that have something to forward, in its order. *)
Fixpoint forwarded_headers (hs : list (string * header_value)) : list (string * string) :=
  match hs with
  | [] => []
  | (key, value) :: rest =>
      match forwarded_value value with
      | Some v => (key, v) :: forwarded_headers rest
      | None => forwarded_headers rest
      end
  end.

(** What the [Headers] of the [Request] hold under a name for a request
    that lists each name once: the value to forward, normalized. *)
Definition forwarded (hs : list (string * header_value)) (name : string) : option string :=
  match assoc name hs with
  | Some value => option_map normalize_value (forwarded_value value)
  | None => None
  end.

(** Whether [Headers.set] takes every header that has a value to forward:
    its name is a token and its value, normalized, is valid. *)
Definition forwardable (hs : list (string * header_value)) : bool :=
  forallb
    (fun '(key, value) =>
       match forwarded_value value with
       | Some v => is_token key && valid_value (normalize_value v)
       | None => true
       end)
    hs.

(** Names in increasing order, each once. *)
Fixpoint increasing (names : list string) : Prop :=
  match names with
  | a :: rest =>
      match rest with
      | b :: _ => String.compare a b = Lt
      | [] => True
      end /\ increasing rest
  | [] => True
  end.

(** Whether the body of a [Request] was given as a string. *)
Definition text_body (body : option body_init) : bool :=
  match body with
  | Some (BodyText _) => true
  | _ => false
  end.

(** What is thrown is [undefined] or [null]. *)
Definition nullish (err : error) : Prop :=
  err = Thrown None \/ err = Thrown (Some JNull).

(** The value a list of headers gives last under a name. *)
Definition last_value (name : string) (hs : list (string * string)) : option string :=
  assoc name (rev hs).

(** The headers of a response without [transfer-encoding]. *)
Definition kept (hs : list (string * string)) : list (string * string) :=
  List.filter (fun '(k, _) => negb (String.eqb k "transfer-encoding")) hs.

End Forwarding.

(* ===================================================================== *)
(** * The relay over time: socket states, the health report *)
(* ===================================================================== *)

Module Session.
Import Js Utf8 Relay.

(** A turn of the relay: an event is delivered to its listener, or an
    upstream socket changes state with no listener called (the [close]
    event of a socket comes some time after the socket stopped being
    open). *)
Inductive turn :=
| Event (ev : event)
| UpstreamState (s : socket) (st : readyState).

(** Whether a socket is open or connecting. *)
Definition active (r : relay) (s : socket) : bool :=
  match state_of (upstream_state r) s with
  | OPEN | CONNECTING => true
  | _ => false
  end.

(** The states of a socket in the order it goes through them. *)
Definition rank (st : readyState) : nat :=
  match st with
  | CONNECTING => 0
  | OPEN => 1
  | CLOSING => 2
  | CLOSED => 3
  end.

(** What the [ws] library lets happen to an upstream socket: [open] is
    emitted by a socket that is connecting; a socket that changes state on
    its own goes on to closing or closed, never back. *)
Definition allowed (t : turn) (r : relay) : bool :=
  match t with
  | Event (UpstreamOpen s) =>
      match state_of (upstream_state r) s with
      | CONNECTING => true
      | _ => false
      end
  | UpstreamState s st =>
      (2 <=? rank st)%nat && (rank (state_of (upstream_state r) s) <=? rank st)%nat
  | _ => true
  end.

(** The sockets whose [open] event is among the turns, in that order. *)
Fixpoint opened (ts : list turn) : list socket :=
  match ts with
  | [] => []
  | Event (UpstreamOpen s) :: rest => s :: opened rest
  | _ :: rest => opened rest
  end.

(** Whether a subscriber is in the set after a sequence of events, given
    whether it was before: it is from its [connection] on and is not from
    its [close] on. *)
Fixpoint joined (ws : subscriber) (evs : list event) (before : bool) : bool :=
  match evs with
  | [] => before
  | Relay.Connection ws' :: rest =>
      joined ws rest (if Nat.eqb ws' ws then true else before)
  | SubscriberClose ws' :: rest =>
      joined ws rest (if Nat.eqb ws' ws then false else before)
  | _ :: rest => joined ws rest before
  end.

Definition is_connection (ev : event) : bool :=
  match ev with
  | Relay.Connection _ => true
  | _ => false
  end.

Section Handlers.
Context `{Platform}.
Variable API_KEY : string.

(** ** The listeners in closed form

    The relay each listener leaves, written out; that one turn of the
    event loop leaves the relay so is [SessionFacts.deliver_next]. *)

(** The relay after [connectUpstream]. *)
Definition connect (r : relay) : relay :=
  let fresh :=
    set_upstreamSocket (Some (created r))
      (set_created (S (created r))
         (set_upstream_state (<[created r := CONNECTING]> (upstream_state r)) r)) in
  match upstreamSocket r with
  | Some s => if active r s then r else fresh
  | None => fresh
  end.

(** The relay after an event. *)
Definition next (ev : event) (r : relay) : relay :=
  match ev with
  | UpstreamOpen s =>
      let r1 := set_upstream_state (<[s := OPEN]> (upstream_state r)) r in
      if same_socket (upstreamSocket r) s
      then set_upstream_out (upstream_out r ++ [(s, JSON_stringify (subscription API_KEY))]) r1
      else set_upstream_state (<[s := CLOSING]> (upstream_state r1)) r1
  | UpstreamMessage s data =>
      if same_socket (upstreamSocket r) s
      then set_delivered
             (delivered r ++ map (fun ws => (ws, toString data)) (open_clients r))
             (set_messageCount (messageCount r + 1) r)
      else r
  | UpstreamClose s =>
      let r1 := set_upstream_state (<[s := CLOSED]> (upstream_state r)) r in
      if same_socket (upstreamSocket r) s
      then set_timers (timers r ++ [clock r + 5000]) (set_upstreamSocket None r1)
      else r1
  | UpstreamError s => r
  | Relay.Connection ws =>
      connect (set_clients (Set_add ws (clients r))
                 (set_subscriber_state (<[ws := OPEN]> (subscriber_state r)) r))
  | SubscriberClose ws =>
      set_clients (Set_delete ws (clients r))
        (set_subscriber_state (<[ws := CLOSED]> (subscriber_state r)) r)
  | SubscriberError ws => r
  | SubscriberState ws st =>
      set_subscriber_state (<[ws := st]> (subscriber_state r)) r
  | Tick ms => set_clock (clock r + Z.max 0 ms) r
  | Timeout =>
      match timers r with
      | due :: rest => if due <=? clock r then connect (set_timers rest r) else r
      | [] => r
      end
  end.

(** ** Turns *)

(** The relay after a turn. *)
Definition take (t : turn) (r : relay) : relay :=
  match t with
  | Event ev => snd (deliver API_KEY ev r)
  | UpstreamState s st => set_upstream_state (<[s := st]> (upstream_state r)) r
  end.

Fixpoint after (ts : list turn) (r : relay) : relay :=
  match ts with
  | [] => r
  | t :: rest => after rest (take t r)
  end.

(** Every turn of a sequence is allowed when its time comes. *)
Fixpoint respects (ts : list turn) (r : relay) : bool :=
  match ts with
  | [] => true
  | t :: rest => allowed t r && respects rest (take t r)
  end.

(** Every socket that is open or connecting is the current one. *)
Definition single_upstream (r : relay) : Prop :=
  forall s, active r s = true -> upstreamSocket r = Some s.

(** The number of messages of a sequence of events that arrive from the
    socket that is the current one at that moment. *)
Fixpoint accepted (evs : list event) (r : relay) : Z :=
  match evs with
  | [] => 0
  | ev :: rest =>
      match ev with
      | UpstreamMessage s _ => if same_socket (upstreamSocket r) s then 1 else 0
      | _ => 0
      end + accepted rest (snd (deliver API_KEY ev r))
  end.

(** The object the route [/ws/health] sends. *)
Definition health (r : relay) : jsval :=
  JObj [ ("status", JStr "ok");
         ("clients", JNum (Z.of_nat (length (clients r))));
         ("messages", JNum (messageCount r));
         ("connected",
          JBool match upstreamSocket r with
                | Some s => is_open (state_of (upstream_state r) s)
                | None => false
                end) ].

(** The route function of [/ws/health]. *)
Definition ws_health (r : relay) : comp Server.response unit :=
  Server.res_json (health r).

End Handlers.

End Session.

(* ===================================================================== *)
(** * [hashString] of the cache helpers *)
(* ===================================================================== *)

Module Hash.

(** [ToInt32] and [ToUint32] of a Number that holds an integer. *)
Definition ToInt32 (x : Z) : Z :=
  let m := x mod 4294967296 in
  if m <? 2147483648 then m else m - 4294967296.

Definition ToUint32 (x : Z) : Z := x mod 4294967296.

(** [x << n] *)
Definition shift_left (x n : Z) : Z :=
  ToInt32 (Z.shiftl (ToInt32 x) (ToUint32 n mod 32)).

(** [a + b] on Numbers that hold integers.  A Number holds every integer
    up to 2^53 in size, and the sum of two of them that is again one of
    them is exact; beyond, the sum is rounded, which is not modelled. *)
Definition add (a b : Z) : option Z :=
  let s := a + b in
  if (- 9007199254740992 <=? s) && (s <=? 9007199254740992) then Some s else None.

(** The loop of [hashString] over the code units of [input], from the
    value [hash]. *)
Fixpoint hash_loop (hash : Z) (units : list Z) : option Z :=
  match units with
  | [] => Some hash
  | c :: rest =>
      match add (shift_left hash 5) hash with
      | Some t =>
          match add t c with
          | Some hash' => hash_loop hash' rest
          | None => None
          end
      | None => None
      end
  end.

(** A digit of the radix 36: [0] to [9], then [a] to [z]. *)
Definition digit (d : Z) : ascii :=
  ascii_of_N (Z.to_N (if d <? 10 then 48 + d else 87 + d)).

Fixpoint digits (fuel : nat) (n : Z) (acc : list ascii) : list ascii :=
  match fuel with
  | O => acc
  | S fuel' =>
      let acc' := digit (n mod 36) :: acc in
      if n <? 36 then acc' else digits fuel' (n / 36) acc'
  end.

(** [n.toString(36)] of an unsigned 32-bit integer, which has seven
    digits at most. *)
Definition toString36 (n : Z) : string := string_of_list_ascii (digits 7 n []).

(** [hashString(input)], the string given by its code units. *)
Definition hashString (input : list Z) : option string :=
  match hash_loop 5381 input with
  | Some hash => Some (toString36 (ToUint32 hash))
  | None => None
  end.

(** The code units of a string whose characters are below 256. *)
Definition units (s : string) : list Z :=
  map (fun c => Z.of_N (N_of_ascii c)) (list_ascii_of_string s).

(** ** Vocabulary of the statements *)

(** The hash of Bernstein on 32 bits: from 5381, each unit takes the hash
    [h] to [h * 33 + c]. *)
Definition djb2 (input : list Z) : Z :=
  fold_left (fun h c => (h * 33 + c) mod 4294967296) input 5381.

(** The value of a digit of the radix 36, and of a numeral. *)
Definition digit_value (c : ascii) : option Z :=
  let n := Z.of_N (N_of_ascii c) in
  if (48 <=? n) && (n <=? 57) then Some (n - 48)
  else if (97 <=? n) && (n <=? 122) then Some (n - 87)
  else None.

(** Reading a numeral on from a value. *)
Definition read_from (v : option Z) (l : list ascii) : option Z :=
  fold_left
    (fun acc c =>
       match acc, digit_value c with
       | Some v, Some d => Some (v * 36 + d)
       | _, _ => None
       end) l v.

Definition parse36 (s : string) : option Z :=
  read_from (Some 0) (list_ascii_of_string s).

End Hash.

(* ===================================================================== *)
(** * The registration of the API routes ([registerApiRoutes]) *)
(* ===================================================================== *)

Module Routes.

(** What [readdirSync] and [statSync] find: a file, or a directory with
    its entries in the order they are listed. *)
#[warnings="-register-all"]
Inductive node :=
| File (name : string)
| Directory (name : string) (entries : list node).

(** [s.startsWith(p)] *)
Definition startsWith (s p : string) : bool := String.prefix p s.

(** [s.endsWith(suffix)] *)
Fixpoint endsWith (s suffix : string) : bool :=
  String.eqb s suffix ||
  match s with
  | EmptyString => false
  | String _ rest => endsWith rest suffix
  end.

(** The rest of a string from an index on. *)
Fixpoint drop (n : nat) (s : string) : string :=
  match n, s with
  | O, _ => s
  | _, EmptyString => EmptyString
  | S n', String _ rest => drop n' rest
  end.

(** [s.slice(1, -4)] *)
Definition slice_1_4 (s : string) : string :=
  String.substring 1 (String.length s - 4 - 1) s.

(** [s.replace(pattern, '')]: the first occurrence is removed. *)
Fixpoint replace (pattern s : string) : string :=
  if String.prefix pattern s then drop (String.length pattern) s
  else
    match s with
    | EmptyString => EmptyString
    | String c rest => String c (replace pattern rest)
    end.

Definition skipPrefixes : list string := ["_"].

Definition skipFiles : list string :=
  ["_cors.js"; "_upstash-cache.js"; "_ip-rate-limit.js"; "_cache-telemetry.js"; "_redis.js"].

(** The last segment of the route of a file, or [None] for a file that
    is skipped. *)
Definition segment (entry : string) : option string :=
  if negb (endsWith entry ".js") then None
  else if existsb (fun p => startsWith entry p) skipPrefixes then None
  else if existsb (String.eqb entry) skipFiles then None
  else if String.eqb entry "[[...path]].js" || String.eqb entry "[...path].js"
  then Some "*"
  else if startsWith entry "[" && endsWith entry "].js"
  then Some (":" +:+ slice_1_4 entry)
  else Some (replace ".js" entry).

(** [join(dir, entry)] of a directory and a name listed in it. *)
Definition join (dir entry : string) : string := dir +:+ "/" +:+ entry.

Section Modules.

(** Whether [import] of the module at a path is fulfilled. *)
Variable loads : string -> bool.

(** Whether [app.all(routePath, handler)] returns: the router of Express
    compiles the path when the route is added, and throws on one it cannot
    compile.  Its compiler is not part of this code. *)
Variable accepts : string -> bool.

(** The body of the loop of [scanDir] for an entry: the routes registered,
    each with the path of its module, in the order of registration.  The
    [import] and [app.all] are in one [try]: when either throws, the file
    gets no route and the loop goes on. *)
Fixpoint scan (dir routePrefix : string) (n : node) : list (string * string) :=
  match n with
  | Directory entry entries =>
      if String.eqb entry "data" then []
      else List.flat_map (scan (join dir entry) (routePrefix +:+ "/" +:+ entry)) entries
  | File entry =>
      match segment entry with
      | Some name =>
          let routePath := routePrefix +:+ "/" +:+ name in
          if loads (join dir entry) && accepts routePath
          then [(routePath, join dir entry)]
          else []
      | None => []
      end
  end.

(** [scanDir(dir, routePrefix)] *)
Definition scanDir (dir routePrefix : string) (entries : list node)
    : list (string * string) :=
  List.flat_map (scan dir routePrefix) entries.

(** [registerApiRoutes], with [__dirname] and the entries of its [api]
    directory. *)
Definition registerApiRoutes (dirname : string) (api : list node) : list (string * string) :=
  scanDir (join dirname "api") "/api" api.

End Modules.

(** ** Vocabulary of the statements *)

(** A file of a tree and the directories that lead to it. *)
Inductive holds : list node -> list string -> string -> Prop :=
| holds_here entries name :
    In (File name) entries -> holds entries [] name
| holds_below entries d sub dirs name :
    In (Directory d sub) entries -> holds sub dirs name ->
    holds entries (d :: dirs) name.

(** A path under a base: the directories, then the last name. *)
Fixpoint under (base : string) (dirs : list string) (last : string) : string :=
  match dirs with
  | [] => base +:+ "/" +:+ last
  | d :: rest => under (base +:+ "/" +:+ d) rest last
  end.

(** Whether a string occurs in another. *)
Fixpoint occurs (pattern s : string) : bool :=
  String.prefix pattern s ||
  match s with
  | EmptyString => false
  | String _ rest => occurs pattern rest
  end.

End Routes.

(* ===================================================================== *)
(** * The CORS headers ([api/_cors.js]) *)
(* ===================================================================== *)

Module Cors.
Import Js.

(** ** Regular expressions *)

(** The patterns of this code: literal characters, [.], [\d], sequence,
    [?], [*] and [+].  ([Void] and [Alt] are what matching needs besides.) *)
Inductive regex :=
| Void
| Eps
| Chr (c : ascii)
| Dot
| Digit
| Seq (a b : regex)
| Alt (a b : regex)
| Star (a : regex).

(** [a?] and [a+] *)
Definition Opt (a : regex) : regex := Alt a Eps.
Definition Plus (a : regex) : regex := Seq a (Star a).

(** The characters of a word, one after the other. *)
Fixpoint lit (word : string) : regex :=
  match word with
  | EmptyString => Eps
  | String c rest => Seq (Chr c) (lit rest)
  end.

(** [.] matches every character but a line terminator. *)
Definition line_terminator (c : ascii) : bool :=
  let n := N_of_ascii c in ((n =? 10) || (n =? 13))%N.

Definition is_digit (c : ascii) : bool :=
  let n := N_of_ascii c in ((48 <=? n) && (n <=? 57))%N.

(** Whether a pattern matches the empty string. *)
Fixpoint nullable (r : regex) : bool :=
  match r with
  | Void => false
  | Eps => true
  | Chr _ | Dot | Digit => false
  | Seq a b => nullable a && nullable b
  | Alt a b => nullable a || nullable b
  | Star _ => true
  end.

(** What is left of a pattern to match after a character. *)
Fixpoint derive (c : ascii) (r : regex) : regex :=
  match r with
  | Void | Eps => Void
  | Chr d => if Ascii.eqb c d then Eps else Void
  | Dot => if line_terminator c then Void else Eps
  | Digit => if is_digit c then Eps else Void
  | Seq a b =>
      if nullable a
      then Alt (Seq (derive c a) b) (derive c b)
      else Seq (derive c a) b
  | Alt a b => Alt (derive c a) (derive c b)
  | Star a => Seq (derive c a) (Star a)
  end.

Fixpoint matches (r : regex) (s : list ascii) : bool :=
  match s with
  | [] => nullable r
  | c :: rest => matches (derive c r) rest
  end.

(** [/^r$/.test(s)]: the pattern, anchored at both ends, matches the
    whole string. *)
Definition test (r : regex) (s : string) : bool := matches r (list_ascii_of_string s).

(** ** The origins *)

(** [s.split(',')] *)
Fixpoint split (sep : ascii) (s : string) : list string :=
  match s with
  | EmptyString => [EmptyString]
  | String c rest =>
      if Ascii.eqb c sep then EmptyString :: split sep rest
      else
        match split sep rest with
        | first :: others => String c first :: others
        | [] => [String c EmptyString]
        end
  end.

(** The white space and line terminators that [trim] removes, among the
    characters below 256. *)
Definition white_space (c : ascii) : bool :=
  let n := N_of_ascii c in
  ((9 <=? n) && (n <=? 13) || (n =? 32) || (n =? 160))%N.

Fixpoint trimStart (s : string) : string :=
  match s with
  | EmptyString => EmptyString
  | String c rest => if white_space c then trimStart rest else s
  end.

Fixpoint trimEnd (s : string) : string :=
  match s with
  | EmptyString => EmptyString
  | String c rest =>
      let r := trimEnd rest in
      if white_space c && String.eqb r "" then EmptyString else String c r
  end.

(** [s.trim()] *)
Definition trim (s : string) : string := trimEnd (trimStart s).

(** [ALLOWED_ORIGIN_PATTERNS] *)
Definition ALLOWED_ORIGIN_PATTERNS : list regex :=
  [ Seq (lit "https://") (Seq (Opt (Seq (Star Dot) (Chr "."))) (lit "worldmonitor.app"));
    Seq (lit "http://localhost") (Opt (Seq (Chr ":") (Plus Digit)));
    Seq (lit "http://127.0.0.1") (Opt (Seq (Chr ":") (Plus Digit))) ].

(** [req.headers.get(name)] on the headers of a [Request], which are kept
    under their names in lower case. *)
Definition Headers_get (name : string) (req : Server.web_request) : option string :=
  assoc (toLowerCase name) (Server.web_headers req).

Section Environment.

(** [process.env.ALLOWED_ORIGINS] *)
Variable ALLOWED_ORIGINS : option string.

(** [envOrigins] *)
Definition envOrigins : list string :=
  List.filter (fun s => negb (String.eqb s ""))
    (map trim
       (split ","
          (match ALLOWED_ORIGINS with
           | Some s => s
           | None => ""
           end))).

(** [isAllowedOrigin] *)
Definition isAllowedOrigin (origin : string) : bool :=
  if String.eqb origin "" then false
  else if (0 <? length envOrigins)%nat && existsb (String.eqb origin) envOrigins then true
  else existsb (fun pattern => test pattern origin) ALLOWED_ORIGIN_PATTERNS.

(** [getCorsHeaders(req, methods)]; [methods] may be left out. *)
Definition getCorsHeaders (req : Server.web_request) (methods : option string)
    : list (string * string) :=
  let methods := match methods with Some m => m | None => "GET, OPTIONS" end in
  let origin :=
    match Headers_get "origin" req with
    | Some o => o
    | None => ""
    end in
  let allowOrigin :=
    if isAllowedOrigin origin then origin
    else
      match envOrigins with
      | first :: _ => if String.eqb first "" then "https://worldmonitor.app" else first
      | [] => "https://worldmonitor.app"
      end in
  [ ("Access-Control-Allow-Origin", allowOrigin);
    ("Access-Control-Allow-Methods", methods);
    ("Access-Control-Allow-Headers", "Content-Type");
    ("Access-Control-Max-Age", "86400");
    ("Vary", "Origin") ].

(** [isDisallowedOrigin] *)
Definition isDisallowedOrigin (req : Server.web_request) : bool :=
  match Headers_get "origin" req with
  | None => false
  | Some origin =>
      if String.eqb origin "" then false else negb (isAllowedOrigin origin)
  end.

End Environment.

(** ** Vocabulary of the statements *)

(** The strings a pattern matches. *)
Fixpoint denote (r : regex) (s : list ascii) : Prop :=
  match r with
  | Void => False
  | Eps => s = []
  | Chr c => s = [c]
  | Dot => exists c, s = [c] /\ line_terminator c = false
  | Digit => exists c, s = [c] /\ is_digit c = true
  | Seq a b => exists s1 s2, s = s1 ++ s2 /\ denote a s1 /\ denote b s2
  | Alt a b => denote a s \/ denote b s
  | Star a => exists parts, s = concat parts /\ Forall (denote a) parts
  end.

Definition all_chars (p : ascii -> bool) (s : string) : bool :=
  forallb p (list_ascii_of_string s).

(** An origin on the machine itself: the base, or the base with a port. *)
Definition local (base origin : string) : Prop :=
  origin = base \/
  exists port, port <> "" /\ all_chars is_digit port = true /\
               origin = base +:+ ":" +:+ port.

(** The origins the patterns let through: the site or a name that ends in
    a full stop before it, over [https]; the machine itself by name or by
    address, over [http], with or without a port. *)
Definition by_pattern (origin : string) : Prop :=
  origin = "https://worldmonitor.app" \/
  (exists x, all_chars (fun c => negb (line_terminator c)) x = true /\
             origin = "https://" +:+ x +:+ ".worldmonitor.app") \/
  local "http://localhost" origin \/
  local "http://127.0.0.1" origin.

(** The first and the last character of a string. *)
Definition first_char (s : string) : option ascii :=
  match s with
  | EmptyString => None
  | String c _ => Some c
  end.

Fixpoint last_char (s : string) : option ascii :=
  match s with
  | EmptyString => None
  | String c EmptyString => Some c
  | String _ rest => last_char rest
  end.

(** The origin [getCorsHeaders] names when the one of the request is not
    allowed: the first of the environment, or the site. *)
Definition fallback (ALLOWED_ORIGINS : option string) : string :=
  match envOrigins ALLOWED_ORIGINS with
  | first :: _ => first
  | [] => "https://worldmonitor.app"
  end.

End Cors.

(* ===================================================================== *)
(** * More concrete runs *)
(* ===================================================================== *)

(** Inputs on which the further statements are run, in the deployment of
    [Scenario]. *)
Module Cases.
Import Js Store Server Utf8 Relay Node Scenario Commands Session Routes Cors.

(** The deployment of [Scenario] when the connection cannot be
    constructed. *)
Definition process_throwing : process :=
  {| REDIS_URL := Some "redis://cache:6379";
     UPSTASH_REDIS_REST_URL := None;
     ioredis_throws := true;
     db := server0;
     client := None; initFailed := false;
     redis := None; redisInitFailed := false;
     cacheRedis := None; cacheRedisInitFailed := false |}.

(** The store of [process_values] while the server cannot be reached. *)
Definition process_away : process :=
  set_db {| now := now (db process_values); keys := keys (db process_values);
            reachable := false |} process_values.

(** What a server that holds the keys of [process_values] answers to
    [KEYS]: the key [word] to the pattern [w*], nothing to another. *)
Definition matching (pattern : string) (d : server) : list string :=
  if String.eqb pattern "w*" then ["word"] else [].

(** A pipeline that stores a list and reads it back. *)
Definition batch : builder :=
  pipeline_del "word"
    (pipeline_get "k"
       (pipeline_set "k" (JArr [JNum 1; JNum 2]) (Some 60) (pipeline connected))).

(** A POST on the cacheable route, with a header given twice, an empty
    one and one that is not there. *)
Definition request_post : request :=
  {| method := "POST";
     originalUrl := "/api/earthquakes?min=5";
     path := "/api/earthquakes";
     protocol := "http";
     host := Some "monitor.example";
     headers := [ ("content-type", Single "application/json");
                  ("x-forwarded-for", Multiple ["10.0.0.1"; "10.0.0.2"]);
                  ("x-empty", Single "");
                  ("cookie", Absent) ];
     body := Parsed (JObj [("min", JNum 5)]) |}.

(** A TRACE on the same route, which [new Request] refuses. *)
Definition request_trace : request :=
  {| method := "TRACE";
     originalUrl := "/api/earthquakes?min=5";
     path := "/api/earthquakes";
     protocol := "http";
     host := Some "monitor.example";
     headers := [("accept", Single "application/json")];
     body := NoBody |}.

(** The request of [Scenario] with another query. *)
Definition request_other : request :=
  {| method := "GET";
     originalUrl := "/api/earthquakes?min=6";
     path := "/api/earthquakes";
     protocol := "http";
     host := Some "monitor.example";
     headers := [("accept", Single "application/json")];
     body := NoBody |}.

(** The process of [Scenario] after the first request, when the TTL of
    the route, 60 seconds, has passed. *)
Definition expired : process :=
  set_db (elapse 60 (db (proc after_first))) (proc after_first).

(** A subscriber arrives and the upstream socket opens; the socket stops
    being open, and a second subscriber arrives before its [close] event
    is delivered; the second socket opens. *)
Definition turns : list turn :=
  [ Event (Relay.Connection 1%nat);
    Event (UpstreamOpen 0%nat);
    UpstreamState 0%nat CLOSED;
    Event (Relay.Connection 2%nat);
    Event (UpstreamClose 0%nat);
    Event (UpstreamOpen 1%nat) ].

(** An [api] directory: a helper, two plain handlers, a data directory,
    a catch-all and a parameter. *)
Definition api : list node :=
  [ File "_cors.js";
    File "earthquakes.js";
    File "README.md";
    Directory "data" [File "ports.js"];
    Directory "eia" [File "[[...path]].js"];
    Directory "youtube" [File "[id].js"; File "feed.json.js"; File "[feed.js"] ].

(** Every module loads but the one of [youtube/[id].js]. *)
Definition loads (file : string) : bool :=
  negb (String.eqb file "/app/api/youtube/[id].js").

(** The router takes every route of this tree but the one of
    [youtube/[feed.js], whose bracket it cannot compile. *)
Definition accepts (routePath : string) : bool :=
  negb (String.eqb routePath "/api/youtube/[feed").

(** A request with an [origin] header. *)
Definition from_origin (origin : string) : web_request :=
  {| url := "http://monitor.example/api/earthquakes";
     web_method := "GET";
     web_headers := [("origin", origin)];
     web_body := None |}.

Definition ALLOWED_ORIGINS : option string :=
  Some "https://monitor.example.org, https://staging.example.org ,,".

End Cases.
(* ===================================================================== *)
(** * Theorems: route cache policy *)
(* ===================================================================== *)

Module PolicyFacts.
Import Policy.

Lemma prefix_refl (s : string) : String.prefix s s = true.
Proof.
  induction s as [|c s IH]; simpl; [reflexivity|].
  destruct (ascii_dec c c); [exact IH | congruence].
Qed.

(** Two prefixes of one string are nested: the shorter is a prefix of the
    longer. *)
Lemma prefix_nested (a b p : string) :
  String.prefix a p = true -> String.prefix b p = true ->
  (String.length a <= String.length b)%nat -> String.prefix a b = true.
Proof.
  revert b p. induction a as [|c a IH]; intros b p Ha Hb Hlen; [now destruct b|].
  destruct b as [|d b]; [simpl in Hlen; lia|].
  destruct p as [|e p]; [discriminate Ha|].
  simpl in Ha, Hb |- *.
  destruct (ascii_dec c e) as [->|]; [|discriminate Ha].
  destruct (ascii_dec d e) as [->|]; [|discriminate Hb].
  destruct (ascii_dec e e); [|congruence].
  apply (IH b p Ha Hb). simpl in Hlen. lia.
Qed.

Lemma own_property_In table key v :
  own_property table key = Some v -> In (key, v) table.
Proof.
  induction table as [|[k w] rest IH]; simpl; [discriminate|].
  destruct (String.eqb k key) eqn:E.
  - intros [= ->]. apply String.eqb_eq in E. subst. now left.
  - intros H. right. now apply IH.
Qed.

Lemma own_property_None table key :
  own_property table key = None -> forall v, ~ In (key, v) table.
Proof.
  induction table as [|[k w] rest IH]; simpl; intros H v; [tauto|].
  destruct (String.eqb k key) eqn:E; [discriminate|].
  intros [[= -> ->]|Hin].
  - rewrite String.eqb_refl in E. discriminate.
  - exact (IH H v Hin).
Qed.

Lemma first_prefix_Some table path ttl :
  first_prefix table path = Some ttl ->
  exists k, In (k, ttl) table /\ String.prefix k path = true.
Proof.
  induction table as [|[k w] rest IH]; simpl; [discriminate|].
  destruct (String.prefix k path) eqn:E.
  - intros [= ->]. exists k. split; [now left | exact E].
  - intros H. destruct (IH H) as (k' & Hin & Hp). exists k'. split; [now right | exact Hp].
Qed.

Lemma first_prefix_None table path :
  first_prefix table path = None ->
  forall e, In e table -> String.prefix (fst e) path = false.
Proof.
  induction table as [|[k w] rest IH]; simpl; intros H e; [tauto|].
  destruct (String.prefix k path) eqn:E; [discriminate|].
  intros [<-|Hin]; [exact E | exact (IH H e Hin)].
Qed.

Lemma first_prefix_miss table path :
  (forall e, In e table -> String.prefix (fst e) path = false) ->
  first_prefix table path = None.
Proof.
  induction table as [|[k w] rest IH]; simpl; intros H; [reflexivity|].
  pose proof (H (k, w) (or_introl eq_refl)) as Hk. simpl in Hk. rewrite Hk.
  apply IH. intros e He. apply H. now right.
Qed.

(** What the accumulator of [longest_prefix] ends up holding. *)
Lemma longest_prefix_spec table path :
  forall best,
    match longest_prefix table path best with
    | None =>
        best = None /\ forall e, In e table -> String.prefix (fst e) path = false
    | Some e =>
        (best = Some e \/ (In e table /\ String.prefix (fst e) path = true)) /\
        (forall b, best = Some b -> (String.length (fst b) <= String.length (fst e))%nat) /\
        (forall e', In e' table -> String.prefix (fst e') path = true ->
                    (String.length (fst e') <= String.length (fst e))%nat)
    end.
Proof.
  induction table as [|x rest IH]; intros best; simpl.
  - destruct best as [b|].
    + split; [now left|]. split; [intros ? [= ->]; lia | intros ? []].
    + split; [reflexivity | intros ? []].
  - destruct (String.prefix (fst x) path) eqn:Hx.
    + specialize (IH (longer best x)).
      destruct (longest_prefix rest path (longer best x)) as [e|].
      * destruct IH as (Hsrc & Hbest & Hmax).
        assert (Hx_le : (String.length (fst x) <= String.length (fst e))%nat).
        { destruct best as [b|]; simpl in Hbest.
          - destruct (String.length (fst b) <? String.length (fst x))%nat eqn:L.
            + apply (Hbest x eq_refl).
            + apply Nat.ltb_ge in L. specialize (Hbest b eq_refl). lia.
          - apply (Hbest x eq_refl). }
        split; [|split].
        -- destruct Hsrc as [Hsrc|[Hin Hp]].
           ++ destruct best as [b|]; simpl in Hsrc.
              ** destruct (String.length (fst b) <? String.length (fst x))%nat.
                 --- injection Hsrc as <-. right. split; [now left | exact Hx].
                 --- injection Hsrc as <-. now left.
              ** injection Hsrc as <-. right. split; [now left | exact Hx].
           ++ right. split; [now right | exact Hp].
        -- intros b ->. simpl in Hbest.
           destruct (String.length (fst b) <? String.length (fst x))%nat eqn:L.
           ++ apply Nat.ltb_lt in L. lia.
           ++ apply (Hbest b eq_refl).
        -- intros e' [<-|Hin] Hp; [exact Hx_le | exact (Hmax e' Hin Hp)].
      * destruct IH as [Hnone _]. destruct best as [b|]; simpl in Hnone.
        -- destruct (String.length (fst b) <? String.length (fst x))%nat; discriminate.
        -- discriminate.
    + specialize (IH best).
      destruct (longest_prefix rest path best) as [e|].
      * destruct IH as (Hsrc & Hbest & Hmax). split; [|split].
        -- destruct Hsrc as [Hsrc|[Hin Hp]]; [now left | right; split; [now right | exact Hp]].
        -- exact Hbest.
        -- intros e' [<-|Hin] Hp; [congruence | exact (Hmax e' Hin Hp)].
      * destruct IH as [Hb Hall]. split; [exact Hb|].
        intros e' [<-|Hin]; [exact Hx | exact (Hall e' Hin)].
Qed.

Lemma nested_agree_In table (a b : string * Z) :
  nested_agree table = true -> In a table -> In b table ->
  String.prefix (fst a) (fst b) = true -> snd a = snd b.
Proof.
  unfold nested_agree. rewrite forallb_forall. intros H Ha Hb Hp.
  specialize (H a Ha). rewrite forallb_forall in H. specialize (H b Hb).
  rewrite Hp in H. simpl in H. now apply Z.eqb_eq.
Qed.

Lemma nonzero_ttls_In table (e : string * Z) :
  nonzero_ttls table = true -> In e table -> snd e <> 0.
Proof.
  unfold nonzero_ttls. rewrite forallb_forall. intros H He.
  specialize (H e He). apply negb_true_iff in H. now apply Z.eqb_neq.
Qed.

(** On a table whose nested keys agree, the first matching prefix in table
    order and the longest matching prefix carry the same TTL. *)
Lemma first_is_longest table path :
  nested_agree table = true ->
  scan_prefixes table path =
    match longest_prefix table path None with
    | Some (_, ttl) => ttl
    | None => 120
    end.
Proof.
  intros Hag. unfold scan_prefixes.
  pose proof (longest_prefix_spec table path None) as Hl.
  destruct (first_prefix table path) as [t1|] eqn:Hf.
  - destruct (first_prefix_Some _ _ _ Hf) as (k1 & Hin1 & Hp1).
    destruct (longest_prefix table path None) as [[k2 t2]|].
    + destruct Hl as (Hsrc & _ & Hmax).
      destruct Hsrc as [Hsrc|[Hin2 Hp2]]; [discriminate|].
      specialize (Hmax (k1, t1) Hin1 Hp1). simpl in Hmax, Hp2.
      apply (nested_agree_In table (k1, t1) (k2, t2) Hag Hin1 Hin2).
      simpl. exact (prefix_nested k1 k2 path Hp1 Hp2 Hmax).
    + destruct Hl as [_ Hall]. specialize (Hall (k1, t1) Hin1). simpl in Hall. congruence.
  - destruct (longest_prefix table path None) as [[k2 t2]|]; [|reflexivity].
    destruct Hl as (Hsrc & _ & _).
    destruct Hsrc as [Hsrc|[Hin2 Hp2]]; [discriminate|].
    pose proof (first_prefix_None _ _ Hf (k2, t2) Hin2) as Hn. simpl in Hn, Hp2. congruence.
Qed.

(** [getCacheTTL] computes the policy as the specification words it. *)
Lemma getCacheTTL_in_policy table path :
  nested_agree table = true -> nonzero_ttls table = true ->
  getCacheTTL_in table path = policy_ttl_in table path.
Proof.
  intros Hag Hnz. unfold getCacheTTL_in, policy_ttl_in.
  destruct (own_property table path) as [ttl|] eqn:Ho.
  - pose proof (nonzero_ttls_In table (path, ttl) Hnz (own_property_In _ _ _ Ho)) as Hne.
    simpl in Hne. apply Z.eqb_neq in Hne. now rewrite Hne.
  - now apply first_is_longest.
Qed.

Lemma CACHE_TTLS_nested_agree : nested_agree CACHE_TTLS = true.
Proof. vm_compute. reflexivity. Qed.

Lemma CACHE_TTLS_nonzero : nonzero_ttls CACHE_TTLS = true.
Proof. vm_compute. reflexivity. Qed.

Lemma getCacheTTL_policy path : getCacheTTL path = policy_ttl path.
Proof.
  apply getCacheTTL_in_policy; [apply CACHE_TTLS_nested_agree | apply CACHE_TTLS_nonzero].
Qed.

(** C2. For every request path the resolved TTL is the table entry on an
    exact match; otherwise the TTL of the longest route prefix of the table
    that matches the path; otherwise the default of 120 seconds.
    [/api/earthquakes] resolves to 60 and the unlisted [/api/unknown-thing]
    to the default. *)
Theorem getCacheTTL_resolution :
  (forall path ttl, In (path, ttl) CACHE_TTLS -> getCacheTTL path = ttl) /\
  (forall path prefix ttl,
      (forall t, ~ In (path, t) CACHE_TTLS) ->
      In (prefix, ttl) CACHE_TTLS ->
      String.prefix prefix path = true ->
      (forall p t, In (p, t) CACHE_TTLS -> String.prefix p path = true ->
                   (String.length p <= String.length prefix)%nat) ->
      getCacheTTL path = ttl) /\
  (forall path,
      (forall t, ~ In (path, t) CACHE_TTLS) ->
      (forall p t, In (p, t) CACHE_TTLS -> String.prefix p path = false) ->
      getCacheTTL path = 120) /\
  getCacheTTL "/api/earthquakes" = 60 /\
  getCacheTTL "/api/unknown-thing" = DEFAULT_TTL /\
  DEFAULT_TTL = 120.
Proof.
  split; [|split; [|split; [|repeat split]]].
  - intros path ttl Hin. rewrite getCacheTTL_policy. unfold policy_ttl, policy_ttl_in.
    destruct (own_property CACHE_TTLS path) as [t0|] eqn:Ho.
    + apply own_property_In in Ho.
      apply (nested_agree_In CACHE_TTLS (path, t0) (path, ttl) CACHE_TTLS_nested_agree Ho Hin).
      apply prefix_refl.
    + exfalso. exact (own_property_None _ _ Ho ttl Hin).
  - intros path prefix ttl Hno Hin Hp Hmax.
    rewrite getCacheTTL_policy. unfold policy_ttl, policy_ttl_in.
    destruct (own_property CACHE_TTLS path) as [t0|] eqn:Ho.
    { exfalso. exact (Hno t0 (own_property_In _ _ _ Ho)). }
    pose proof (longest_prefix_spec CACHE_TTLS path None) as Hl.
    destruct (longest_prefix CACHE_TTLS path None) as [[k2 t2]|].
    + destruct Hl as (Hsrc & _ & Hmax2).
      destruct Hsrc as [Hsrc|[Hin2 Hp2]]; [discriminate|]. simpl in Hp2.
      specialize (Hmax2 (prefix, ttl) Hin Hp). simpl in Hmax2.
      symmetry.
      apply (nested_agree_In CACHE_TTLS (prefix, ttl) (k2, t2) CACHE_TTLS_nested_agree Hin Hin2).
      simpl. exact (prefix_nested prefix k2 path Hp Hp2 Hmax2).
    + destruct Hl as [_ Hall]. specialize (Hall (prefix, ttl) Hin). simpl in Hall. congruence.
  - intros path Hno Hnone. unfold getCacheTTL, getCacheTTL_in.
    destruct (own_property CACHE_TTLS path) as [t0|] eqn:Ho.
    { exfalso. exact (Hno t0 (own_property_In _ _ _ Ho)). }
    unfold scan_prefixes. rewrite first_prefix_miss; [reflexivity|].
    intros [p t] He. exact (Hnone p t He).
Qed.

End PolicyFacts.

(* ===================================================================== *)
(** * Theorems: base64 *)
(* ===================================================================== *)

Module Base64Facts.
Import Base64.

Lemma sextets_all_ok : forallb sextet_ok (map N.of_nat (seq 0 64)) = true.
Proof. vm_compute. reflexivity. Qed.

Lemma sextet_char_ok (v : N) :
  (v < 64)%N ->
  Ascii.eqb (sextet_char v) "=" = false /\ unbase64 (sextet_char v) = Some v.
Proof.
  intros Hv. pose proof sextets_all_ok as H. rewrite forallb_forall in H.
  assert (Hin : In v (map N.of_nat (seq 0 64))).
  { apply in_map_iff. exists (N.to_nat v). split; [apply N2Nat.id|].
    apply in_seq. lia. }
  specialize (H v Hin). unfold sextet_ok in H.
  apply andb_true_iff in H. destruct H as [H1 H2].
  apply negb_true_iff in H1. split; [exact H1|].
  destruct (unbase64 (sextet_char v)) as [w|]; [|discriminate].
  apply N.eqb_eq in H2. now subst.
Qed.

Lemma sextets_cons (v : N) (s : string) :
  (v < 64)%N -> sextets (String (sextet_char v) s) = v :: sextets s.
Proof.
  intros Hv. destruct (sextet_char_ok v Hv) as [H1 H2].
  simpl. now rewrite H1, H2.
Qed.

Lemma octet_to_N (b : Byte.byte) (n : N) :
  n = Byte.to_N b -> octet n = b.
Proof.
  intros ->. unfold octet. pose proof (Byte.to_N_bounded b).
  rewrite N.mod_small by lia. now rewrite Byte.of_to_N.
Qed.

Lemma octet_mod (b : Byte.byte) (n : N) :
  (n mod 256 = Byte.to_N b)%N -> octet n = b.
Proof. intros H. unfold octet. rewrite H. now rewrite Byte.of_to_N. Qed.

(** Induction over a list three elements at a time. *)
Lemma list_ind3 {A} (P : list A -> Prop) :
  P [] -> (forall a, P [a]) -> (forall a b, P [a; b]) ->
  (forall a b c rest, P rest -> P (a :: b :: c :: rest)) ->
  forall l, P l.
Proof.
  intros H0 H1 H2 H3.
  assert (H : forall l, P l /\ (forall a, P (a :: l)) /\ (forall a b, P (a :: b :: l))).
  { induction l as [|x l (IH0 & IH1 & IH2)].
    - auto.
    - split; [apply IH1|]. split; [intros a; apply IH2|].
      intros a b. apply H3. exact IH0. }
  intros l. apply H.
Qed.

Ltac div_mod_lia := Z.to_euclidean_division_equations; lia.

(** C1 rests on this: decoding the base64 text of a buffer gives the
    buffer back, octet for octet. *)
Lemma decode_encode (buf : buffer) : decode (encode buf) = buf.
Proof.
  unfold decode. induction buf as [|a|a b|a b c rest IH] using list_ind3.
  - reflexivity.
  - pose proof (Byte.to_N_bounded a) as Ha.
    cbn [encode]. cbv zeta.
    rewrite !sextets_cons by (zify; div_mod_lia).
    cbn [sextets]. simpl Ascii.eqb. cbn [pack]. cbv zeta.
    f_equal. apply octet_to_N. zify; div_mod_lia.
  - pose proof (Byte.to_N_bounded a) as Ha. pose proof (Byte.to_N_bounded b) as Hb.
    cbn [encode]. cbv zeta.
    rewrite !sextets_cons by (zify; div_mod_lia).
    cbn [sextets]. simpl Ascii.eqb. cbn [pack]. cbv zeta.
    f_equal; [|f_equal]; apply octet_mod; zify; div_mod_lia.
  - pose proof (Byte.to_N_bounded a) as Ha. pose proof (Byte.to_N_bounded b) as Hb.
    pose proof (Byte.to_N_bounded c) as Hc.
    cbn [encode]. cbv zeta.
    rewrite !sextets_cons by (zify; div_mod_lia).
    cbn [pack]. cbv zeta. rewrite IH.
    f_equal; [|f_equal; [|f_equal]]; apply octet_mod; zify; div_mod_lia.
Qed.

(** The base64 text of a buffer that is not empty is not the empty string. *)
Lemma encode_nonempty (buf : buffer) : buf <> [] -> encode buf <> "".
Proof.
  destruct buf as [|a [|b [|c rest]]]; [congruence| | |]; intros _; discriminate.
Qed.

End Base64Facts.

(* ===================================================================== *)
(** * Theorems: the store client *)
(* ===================================================================== *)

Module StoreFacts.
Import Js Store.

Lemma set_db_same (p : process) : set_db (db p) p = p.
Proof. now destruct p. Qed.

Lemma db_set_db (d : server) (p : process) : db (set_db d p) = d.
Proof. reflexivity. Qed.

(** Unfolding of the monad of computations. *)
Ltac step_comp :=
  cbv [mbind comp_bind mret comp_ret try_catch get modify complete throw command].

Section Client.
Context `{Platform}.

(** What [Redis.get] returns, in one equation: it completes normally in
    every state and leaves the state as it was. *)
Lemma Redis_get_run (self : Redis) (key : string) (p : process) :
  Redis_get self key p =
    (Normal
       (match _client self with
        | None => JNull
        | Some _ =>
            if reachable (db p) then
              match live (db p) key with
              | None => JNull
              | Some raw => parsed_or_raw raw
              end
            else JNull
        end), p).
Proof.
  unfold Redis_get. destruct (_client self) as [c|]; [|reflexivity].
  step_comp. unfold ioredis_get.
  destruct (reachable (db p)).
  - rewrite set_db_same. now destruct (live (db p) key).
  - now rewrite set_db_same.
Qed.

(** [Redis.set] completes normally in every state. *)
Lemma Redis_set_normal (self : Redis) key value ex (p : process) :
  exists v p', Redis_set self key value ex p = (Normal v, p').
Proof.
  unfold Redis_set. destruct (_client self) as [c|]; [|now eexists _, _].
  step_comp. unfold ioredis_set.
  destruct (ex_truthy ex), (reachable (db p)); try (now eexists _, _).
  destruct ex as [seconds|]; [|now eexists _, _].
  destruct (seconds <=? 0); now eexists _, _.
Qed.

(** When the server cannot be reached [Redis.set] returns [null] and
    nothing is stored. *)
Lemma Redis_set_unreachable (self : Redis) key value ex (p : process) :
  reachable (db p) = false ->
  Redis_set self key value ex p = (Normal JNull, p).
Proof.
  intros Hr. unfold Redis_set. destruct (_client self) as [c|]; [|reflexivity].
  destruct (ex_truthy ex); step_comp; unfold ioredis_set; now rewrite Hr, set_db_same.
Qed.

(** A wrapper without connection stores nothing either. *)
Lemma Redis_set_no_client (self : Redis) key value ex (p : process) :
  _client self = None ->
  Redis_set self key value ex p = (Normal JNull, p).
Proof. intros Hc. unfold Redis_set. now rewrite Hc. Qed.

(** [getRedis] completes normally in every state. *)
Lemma getRedis_normal (p : process) :
  exists r p', getRedis p = (Normal r, p').
Proof.
  unfold getRedis. step_comp.
  destruct (redis p) as [r|]; [now eexists _, _|].
  destruct (redisInitFailed p); [now eexists _, _|].
  destruct (negb (env_set (REDIS_URL p))); [now eexists _, _|].
  unfold new_Redis, getClient. step_comp.
  destruct (client p) as [c|]; [now eexists _, _|].
  destruct (initFailed p); [now eexists _, _|].
  destruct (negb (env_set (REDIS_URL p))).
  { destruct (negb (env_set (UPSTASH_REDIS_REST_URL p))); now eexists _, _. }
  unfold new_IORedis. destruct (ioredis_throws p); now eexists _, _.
Qed.

(** With a connection, [Redis.mget] answers position by position. *)
Lemma Redis_mget_connected (self : Redis) (ks : list key_arg) (p : process) c :
  _client self = Some c ->
  Redis_mget self ks p =
    (Normal
       (if reachable (db p) then
          match flat ks with
          | [] => []
          | _ => map (fun k => match live (db p) k with
                               | None => JNull
                               | Some raw => parsed_or_raw raw
                               end) (flat ks)
          end
        else map (fun _ => JNull) (flat ks)), p).
Proof.
  intros Hc. unfold Redis_mget. rewrite Hc. step_comp. unfold ioredis_mget.
  destruct (reachable (db p)); rewrite ?set_db_same; [|reflexivity].
  destruct (flat ks) as [|k rest] eqn:Hk; rewrite ?set_db_same; [reflexivity|].
  f_equal. f_equal. now rewrite map_map.
Qed.

Lemma Redis_mget_connected_length (self : Redis) (ks : list key_arg) (p : process) c vs p' :
  _client self = Some c ->
  Redis_mget self ks p = (Normal vs, p') ->
  length vs = length (flat ks).
Proof.
  intros Hc. rewrite (Redis_mget_connected self ks p c Hc). intros [= <- _].
  destruct (reachable (db p)); [|now rewrite length_map].
  destruct (flat ks); [reflexivity | now rewrite length_map].
Qed.

(** C6. For every key, [get] returns the parsed structure when the stored
    string parses as JSON and the raw string when it does not, and it
    returns [null], never throwing, when there is no connection, the key is
    missing or the transport fails. *)
Theorem Redis_get_total (self : Redis) (key : string) (p : process) :
  (exists v, Redis_get self key p = (Normal v, p)) /\
  (_client self = None -> Redis_get self key p = (Normal JNull, p)) /\
  (reachable (db p) = false -> Redis_get self key p = (Normal JNull, p)) /\
  (live (db p) key = None -> Redis_get self key p = (Normal JNull, p)) /\
  (forall c raw v,
      _client self = Some c -> reachable (db p) = true ->
      live (db p) key = Some raw -> JSON_parse raw = Some v ->
      Redis_get self key p = (Normal v, p)) /\
  (forall c raw,
      _client self = Some c -> reachable (db p) = true ->
      live (db p) key = Some raw -> JSON_parse raw = None ->
      Redis_get self key p = (Normal (JStr raw), p)).
Proof.
  rewrite Redis_get_run. repeat split.
  - now eexists.
  - now intros ->.
  - intros ->. now destruct (_client self).
  - intros ->. destruct (_client self); [now destruct (reachable (db p)) | reflexivity].
  - intros c raw v -> -> -> Hp. unfold parsed_or_raw. now rewrite Hp.
  - intros c raw -> -> -> Hp. unfold parsed_or_raw. now rewrite Hp.
Qed.

(** C7, at the input where it fails.  Without a connection [mget] maps over
    its argument list as given, not over the flattened keys: one array of
    two keys gets one [null]. *)
Theorem Redis_mget_no_client_unflattened (p : process) :
  Redis_mget {| _client := None |} [Keys ["a"; "b"]] p = (Normal [JNull], p) /\
  length (flat [Keys ["a"; "b"]]) = 2%nat.
Proof. split; reflexivity. Qed.

(** C10. [setCachedJson] returns [true] whenever [getRedis] yields a client
    object and [false] only when it yields none; [Redis.set] swallows a
    failed write and returns [null], so [true] is returned also when the
    store could not be reached and nothing was stored. *)
Theorem setCachedJson_true_iff_client (key : string) (value : jsval)
    (ttlSeconds : option Z) (p : process) :
  (exists b p', setCachedJson key value ttlSeconds p = (Normal b, p') /\
     (b = true <-> exists r p1, getRedis p = (Normal (Some r), p1))) /\
  (forall r p1,
      getRedis p = (Normal (Some r), p1) -> reachable (db p1) = false ->
      Redis_set r key value ttlSeconds p1 = (Normal JNull, p1) /\
      setCachedJson key value ttlSeconds p = (Normal true, p1)).
Proof.
  destruct (getRedis_normal p) as (r & p1 & Hg).
  split.
  - unfold setCachedJson. step_comp. rewrite Hg.
    destruct r as [r|].
    + destruct (Redis_set_normal r key value ttlSeconds p1) as (v & p' & Hs).
      rewrite Hs. exists true, p'. split; [reflexivity|].
      split; [intros _; now exists r, p1 | reflexivity].
    + exists false, p1. split; [reflexivity|].
      split; [discriminate | intros (r & p2 & [=])].
  - intros r0 p0 Hg0 Hr. split; [now apply Redis_set_unreachable|].
    unfold setCachedJson. step_comp. rewrite Hg0.
    now rewrite (Redis_set_unreachable r0 key value ttlSeconds p0 Hr).
Qed.

End Client.

End StoreFacts.

(* ===================================================================== *)
(** * Theorems: the caching adapter *)
(* ===================================================================== *)

Module ServerFacts.
Import Js Store Policy Server Forwarding.
Import StoreFacts.

Ltac step_comp :=
  cbv [mbind comp_bind mret comp_ret try_catch get modify complete throw
       command on_process on_res invoke].

Lemma getCacheTTL_positive (path : string) : 0 < getCacheTTL path.
Proof.
  assert (Hpos : forall e, In e CACHE_TTLS -> 0 < snd e).
  { assert (Hb : forallb (fun e => 0 <? snd e) CACHE_TTLS = true) by (vm_compute; reflexivity).
    rewrite forallb_forall in Hb. intros e He. apply Z.ltb_lt. exact (Hb e He). }
  unfold getCacheTTL, getCacheTTL_in.
  assert (Hscan : 0 < scan_prefixes CACHE_TTLS path).
  { unfold scan_prefixes. destruct (first_prefix CACHE_TTLS path) as [t|] eqn:Hf.
    - destruct (PolicyFacts.first_prefix_Some _ _ _ Hf) as (k & Hin & _).
      exact (Hpos (k, t) Hin).
    - unfold DEFAULT_TTL. lia. }
  destruct (own_property CACHE_TTLS path) as [t|] eqn:Ho; [|exact Hscan].
  destruct (t =? 0); [exact Hscan|].
  exact (Hpos (path, t) (PolicyFacts.own_property_In _ _ _ Ho)).
Qed.

Section Adapter.
Context `{Platform}.
Variable PORT : string.
Variable URL_href : string -> option string.

(** ** The wrapper of the cache *)

(** [getCacheRedis] completes normally, leaves the server alone, and from the
    state it leaves returns the same wrapper without a further change. *)
Lemma getCacheRedis_memo (p : process) :
  exists r p1,
    getCacheRedis p = (Normal r, p1) /\ db p1 = db p /\
    getCacheRedis p1 = (Normal r, p1).
Proof.
  unfold getCacheRedis. step_comp.
  destruct (cacheRedis p) as [r|] eqn:Hc.
  { exists (Some r), p. now rewrite Hc. }
  destruct (cacheRedisInitFailed p) eqn:Hf.
  { exists None, p. now rewrite Hc, Hf. }
  destruct (negb (env_set (REDIS_URL p))) eqn:He.
  { exists None, p. now rewrite Hc, Hf, He. }
  unfold new_Redis, getClient. step_comp.
  destruct (client p) as [c|]; [now eexists _, _|].
  destruct (initFailed p); [now eexists _, _|].
  rewrite He. unfold new_IORedis.
  destruct (ioredis_throws p); now eexists _, _.
Qed.

Lemma cache_client_run (p : process) :
  exists p1, getCacheRedis p = (Normal (cache_client p), p1) /\ db p1 = db p /\
             getCacheRedis p1 = (Normal (cache_client p), p1).
Proof.
  destruct (getCacheRedis_memo p) as (r & p1 & Hg & Hd & Hm).
  exists p1. unfold cache_client. rewrite Hg. auto.
Qed.

(** ** The response object *)

Lemma for_each_setHeader (hs : list (string * jsval)) p sc sh sb c :
  for_each hs (fun '(k, v) => on_res (res_setHeader k v))
    {| proc := p;
       res := {| statusCode := sc; sentHeaders := sh; headersSent := false; sentBody := sb |};
       calls := c |} =
  (Normal tt,
   {| proc := p;
      res := {| statusCode := sc; sentHeaders := set_all hs sh;
                headersSent := false; sentBody := sb |};
      calls := c |}).
Proof.
  revert sh. induction hs as [|[k v] rest IH]; intros sh; [reflexivity|].
  cbn [for_each]. unfold mbind, comp_bind at 1. cbn [on_res res_setHeader headersSent res].
  exact (IH (assign (toLowerCase k) v sh)).
Qed.

Lemma for_each_setHeader_sent (hs : list (string * jsval)) p sc sh sb c :
  for_each hs (fun '(k, v) => on_res (res_setHeader k v))
    {| proc := p;
       res := {| statusCode := sc; sentHeaders := sh; headersSent := true; sentBody := sb |};
       calls := c |} =
  (match hs with [] => Normal tt | _ => Throw headers_sent_error end,
   {| proc := p;
      res := {| statusCode := sc; sentHeaders := sh; headersSent := true; sentBody := sb |};
      calls := c |}).
Proof. destruct hs as [|[k v] rest]; reflexivity. Qed.

(** ** Running a computation, one statement at a time *)

Lemma bind_run {S A B} (m : comp S A) (f : A -> comp S B) (x : S) :
  (m ≫= f) x =
    match m x with
    | (Normal a, x') => f a x'
    | (Throw e, x') => (Throw e, x')
    end.
Proof. reflexivity. Qed.

Lemma ret_run {S A} (a : A) (x : S) : (mret a : comp S A) x = (Normal a, x).
Proof. reflexivity. Qed.

Lemma try_catch_run {S A} (m : comp S A) (h : error -> comp S A) (x : S) :
  try_catch m h x =
    match m x with
    | (Normal a, x') => (Normal a, x')
    | (Throw e, x') => h e x'
    end.
Proof. reflexivity. Qed.

Lemma complete_run {S A} (c : completion A) (x : S) : complete c x = (c, x).
Proof. reflexivity. Qed.

Lemma get_run {S} (x : S) : get x = (Normal x, x).
Proof. reflexivity. Qed.

Lemma on_process_run {A} (m : comp process A) p r c :
  on_process m {| proc := p; res := r; calls := c |} =
    (fst (m p), {| proc := snd (m p); res := r; calls := c |}).
Proof. unfold on_process. cbn. now destruct (m p). Qed.

Lemma status_run v p sc sh hs sb c :
  on_res (res_status v)
    {| proc := p;
       res := {| statusCode := sc; sentHeaders := sh; headersSent := hs; sentBody := sb |};
       calls := c |} =
  (Normal tt,
   {| proc := p;
      res := {| statusCode := v; sentHeaders := sh; headersSent := hs; sentBody := sb |};
      calls := c |}).
Proof. reflexivity. Qed.

Lemma setHeader_run k v p sc sh sb c :
  on_res (res_setHeader k v)
    {| proc := p;
       res := {| statusCode := sc; sentHeaders := sh; headersSent := false; sentBody := sb |};
       calls := c |} =
  (Normal tt,
   {| proc := p;
      res := {| statusCode := sc; sentHeaders := assign (toLowerCase k) v sh;
                headersSent := false; sentBody := sb |};
      calls := c |}).
Proof. reflexivity. Qed.

Lemma setHeader_sent_run k v p sc sh sb c :
  on_res (res_setHeader k v)
    {| proc := p;
       res := {| statusCode := sc; sentHeaders := sh; headersSent := true; sentBody := sb |};
       calls := c |} =
  (Throw headers_sent_error,
   {| proc := p;
      res := {| statusCode := sc; sentHeaders := sh; headersSent := true; sentBody := sb |};
      calls := c |}).
Proof. reflexivity. Qed.

Lemma send_run buf p sc sh sb c :
  on_res (res_send buf)
    {| proc := p;
       res := {| statusCode := sc; sentHeaders := sh; headersSent := false; sentBody := sb |};
       calls := c |} =
  (Normal tt,
   {| proc := p;
      res := {| statusCode := sc; sentHeaders := sh; headersSent := true; sentBody := buf |};
      calls := c |}).
Proof. reflexivity. Qed.

Lemma json_run v p sc sh sb c :
  on_res (res_json v)
    {| proc := p;
       res := {| statusCode := sc; sentHeaders := sh; headersSent := false; sentBody := sb |};
       calls := c |} =
  (Normal tt,
   {| proc := p;
      res := {| statusCode := sc; sentHeaders := sh; headersSent := true;
                sentBody := list_byte_of_string (JSON_stringify v) |};
      calls := c |}).
Proof. reflexivity. Qed.

Lemma end_run p sc sh hs sb c :
  on_res res_end
    {| proc := p;
       res := {| statusCode := sc; sentHeaders := sh; headersSent := hs; sentBody := sb |};
       calls := c |} =
  (Normal tt,
   {| proc := p;
      res := {| statusCode := sc; sentHeaders := sh; headersSent := true; sentBody := sb |};
      calls := c |}).
Proof. reflexivity. Qed.

Lemma invoke_run handler w p r c :
  invoke handler w {| proc := p; res := r; calls := c |} =
    (handler w, {| proc := p; res := r; calls := c ++ [w] |}).
Proof. reflexivity. Qed.

Create Rewrite HintDb run.
Hint Rewrite @bind_run @ret_run @try_catch_run @complete_run @get_run
  @on_process_run status_run setHeader_run setHeader_sent_run send_run json_run
  end_run invoke_run for_each_setHeader for_each_setHeader_sent : run.

Ltac run := repeat (progress (autorewrite with run; cbn beta iota)).

(** ** The replay of a cache entry *)

(** [replay] touches the response object only; it either sends the reply or
    throws before anything was sent. *)
Lemma replay_effect (data : jsval) p r c :
  exists (o : completion unit) (r' : response),
    replay data {| proc := p; res := r; calls := c |} =
      (o, {| proc := p; res := r'; calls := c |}) /\
    match o with
    | Normal _ => headersSent r' = true
    | Throw _ => headersSent r' = headersSent r
    end.
Proof.
  destruct r as [sc sh hs sb]. unfold replay. run.
  destruct (member data "s") as [s|e] eqn:Hs; cbn beta iota; [|now eexists _, _].
  run.
  destruct (member data "h") as [h|e] eqn:Hh; cbn beta iota; [|now eexists _, _].
  run.
  destruct hs.
  - (* the reply had been sent already *)
    destruct h as [h|]; [destruct (truthy h)|]; run;
      try (destruct (Object_entries h); cbn beta iota; run); now eexists _, _.
  - assert (Hx : forall sh',
      exists o r',
        (let x := {| proc := p;
                    res := {| statusCode := or_default s (JNum 200); sentHeaders := sh';
                              headersSent := false; sentBody := sb |};
                    calls := c |} in
         match (on_res (res_setHeader "x-cache" (JStr "HIT"))) x with
         | (Normal a, x') =>
             (b ← complete (member data "b");
              buf ← complete (Buffer_from_base64 b);
              on_res (res_send buf)) x'
         | (Throw e, x') => (Throw e, x')
         end) = (o, {| proc := p; res := r'; calls := c |}) /\
        match o with
        | Normal _ => headersSent r' = true
        | Throw _ => headersSent r' = false
        end).
    { intros sh'. cbn zeta. run.
      destruct (member data "b") as [b|e] eqn:Hb; cbn beta iota; [|now eexists _, _].
      run. destruct (Buffer_from_base64 b) as [buf|e]; cbn beta iota; [|now eexists _, _].
      run. now eexists _, _. }
    destruct h as [h|]; [destruct (truthy h)|]; run; apply Hx.
Qed.


(** ** The cache check *)

(** The cache check completes normally, writes nothing to the server and
    calls no handler; it answers [true] exactly when it sent the reply. *)
Lemma cache_check_effect (req : request) p r c :
  exists (b : bool) p1 r',
    cache_check req {| proc := p; res := r; calls := c |} =
      (Normal b, {| proc := p1; res := r'; calls := c |}) /\
    getCacheRedis p = (Normal (cache_client p), p1) /\
    db p1 = db p /\
    getCacheRedis p1 = (Normal (cache_client p), p1) /\
    (if b then headersSent r' = true else headersSent r' = headersSent r).
Proof.
  destruct (cache_client_run p) as (p1 & Hg & Hd & Hm).
  assert (Hcore : exists (b : bool) r',
    cache_check req {| proc := p; res := r; calls := c |} =
      (Normal b, {| proc := p1; res := r'; calls := c |}) /\
    (if b then headersSent r' = true else headersSent r' = headersSent r)).
  { unfold cache_check. run. rewrite Hg. cbn [fst snd].
    destruct (cache_client p) as [redis|]; run; [|now exists false, r].
    rewrite Redis_get_run. cbn [fst snd].
    assert (Hfin : forall data,
      exists (b : bool) r',
        match
          match replay data {| proc := p1; res := r; calls := c |} with
          | (Normal a, x') => (mret true : comp exchange bool) x'
          | (Throw e, x') => (Throw e, x')
          end
        with
        | (Normal a, x') => (Normal a, x')
        | (Throw e, x') => (mret false : comp exchange bool) x'
        end = (Normal b, {| proc := p1; res := r'; calls := c |}) /\
        (if b then headersSent r' = true else headersSent r' = headersSent r)).
    { intros data. destruct (replay_effect data p1 r c) as (o & r' & -> & Ho).
      destruct o; run; [now exists true, r' | now exists false, r']. }
    match goal with |- context [truthy ?v] => generalize v end.
    intros cached. destruct (truthy cached); run; [|now exists false, r].
    destruct cached as [|b0|n0|text|items|fields]; run; try apply Hfin.
    destruct (parse text) as [data|e]; run; [apply Hfin | now exists false, r]. }
  destruct Hcore as (b & r' & Hrun & Hb).
  exists b, p1, r'. auto.
Qed.


(** ** The cache write *)

Lemma Redis_set_text (self : Redis) c key text ttl (p : process) :
  _client self = Some c -> 0 < ttl ->
  Redis_set self key (JStr text) (Some ttl) p =
    if reachable (db p)
    then (Normal (JStr "OK"),
          with_entry key {| payload := text; expires := Some (now (db p) + ttl) |} p)
    else (Normal JNull, p).
Proof.
  intros Hc Httl. unfold Redis_set. rewrite Hc.
  assert (Hex : ex_truthy (Some ttl) = true).
  { unfold ex_truthy. apply negb_true_iff, Z.eqb_neq. lia. }
  rewrite Hex. StoreFacts.step_comp. unfold ioredis_set.
  destruct (reachable (db p)); [|now rewrite set_db_same].
  assert (Hle : (ttl <=? 0) = false) by (apply Z.leb_gt; lia).
  now rewrite Hle.
Qed.

Lemma cache_write_run (req : request) (webResponse : web_response) redis p r c :
  getCacheRedis p = (Normal redis, p) ->
  cache_write req webResponse
    (collect_headers (response_headers webResponse)) (arrayBuffer webResponse)
    {| proc := p; res := r; calls := c |} =
  (Normal tt, {| proc := written req webResponse redis p; res := r; calls := c |}).
Proof.
  intros Hg. unfold cache_write. run. rewrite Hg. cbn [fst snd].
  destruct redis as [redis|]; run; [|reflexivity].
  unfold written. destruct (_client redis) as [conn|] eqn:Hc.
  - rewrite (Redis_set_text redis conn _ _ _ p Hc (getCacheTTL_positive (path req))).
    destruct (reachable (db p)); cbn [fst snd]; run; reflexivity.
  - rewrite (Redis_set_no_client redis _ _ _ p Hc). cbn [fst snd]. run. reflexivity.
Qed.

(** ** The catch *)

(** The [catch] of the route function: it throws when the message of what
    was thrown cannot be read, and sends the 500 reply unless a reply was
    sent already. *)
Lemma on_failure_run (err : error) p r c :
  on_failure err {| proc := p; res := r; calls := c |} =
    match message_of err with
    | Throw e => (Throw e, {| proc := p; res := r; calls := c |})
    | Normal details =>
        (Normal tt,
         {| proc := p;
            res := if headersSent r then r else error_reply details r;
            calls := c |})
    end.
Proof.
  unfold on_failure. run. destruct (message_of err) as [details|e]; cbn beta iota;
    [|reflexivity].
  run. cbn [res]. destruct r as [sc sh hs sb]. destruct hs; cbn [negb headersSent]; run;
    reflexivity.
Qed.

(** The [catch] touches the response object only, and sends on it or leaves
    [headersSent] as it is. *)
Lemma on_failure_frame (err : error) p r c :
  exists o r',
    on_failure err {| proc := p; res := r; calls := c |} =
      (o, {| proc := p; res := r'; calls := c |}) /\
    match o with
    | Normal _ => headersSent r' = true
    | Throw _ => r' = r
    end.
Proof.
  rewrite on_failure_run. destruct (message_of err) as [details|e]; [|now eexists _, _].
  eexists _, _. split; [reflexivity|]. destruct (headersSent r) eqn:Hs; [exact Hs | reflexivity].
Qed.

(** What the constructors of the Web API throw is an [Error]. *)
Lemma copy_headers_error (hs : list (string * header_value)) acc err :
  copy_headers hs acc = Throw err -> exists m, err = Error m.
Proof.
  revert acc. induction hs as [|[k value] rest IH]; intros acc; [discriminate|].
  cbn [copy_headers]. unfold Headers_set.
  destruct value as [v|vs|].
  - destruct (String.eqb v ""); [apply IH|].
    destruct (negb (is_token k)); [intros [= <-]; now eexists|].
    destruct (negb (valid_value (normalize_value v))); [intros [= <-]; now eexists|].
    apply IH.
  - destruct (negb (is_token k)); [intros [= <-]; now eexists|].
    destruct (negb (valid_value (normalize_value (join ", " vs))));
      [intros [= <-]; now eexists|].
    apply IH.
  - apply IH.
Qed.

Lemma new_Request_error (input method : string) headers body err :
  new_Request URL_href input method headers body = Throw err -> exists m, err = Error m.
Proof.
  unfold new_Request. destruct (URL_href input); [|intros [= <-]; now eexists].
  destruct (negb (is_token method)); [intros [= <-]; now eexists|].
  destruct (forbidden_method method); [intros [= <-]; now eexists|].
  destruct body; [|discriminate].
  destruct (_ || _); [intros [= <-]; now eexists | discriminate].
Qed.

Lemma expressToWebRequest_error (req : request) (err : error) :
  expressToWebRequest PORT URL_href req = Throw err -> exists m, err = Error m.
Proof.
  unfold expressToWebRequest.
  destruct (copy_headers (headers req) []) as [hs|e] eqn:Hc.
  - apply new_Request_error.
  - intros [= <-]. exact (copy_headers_error _ _ _ Hc).
Qed.

(** The message of what was thrown can be read unless it is [undefined]
    or [null]. *)
Lemma message_of_nullish (err : error) :
  (exists e, message_of err = Throw e) <-> nullish err.
Proof.
  unfold nullish. split.
  - intros (e & He). destruct err as [m|[v|]]; cbn in He; [discriminate| |now left].
    destruct v; try discriminate. now right.
  - intros [->| ->]; cbn; now eexists.
Qed.

(** The [catch] completes normally unless what was thrown is [undefined]
    or [null]. *)
Lemma on_failure_outcome (err : error) p r c :
  exists o r',
    on_failure err {| proc := p; res := r; calls := c |} =
      (o, {| proc := p; res := r'; calls := c |}) /\
    (~ nullish err -> o = Normal tt).
Proof.
  rewrite on_failure_run. destruct (message_of err) as [details|e] eqn:Hm.
  - eexists _, _. split; reflexivity.
  - eexists _, _. split; [reflexivity|]. intros Hnn. exfalso. apply Hnn.
    apply message_of_nullish. now exists e.
Qed.

(** ** The route function, phase by phase *)

(** The statements after the cache check, on a response object on which
    nothing was sent: the request is converted, the handler called, its
    response stored if it is cacheable, and the reply made of it; what the
    conversion or the handler throws goes to the [catch]. *)
Lemma execute_run (handler : edge_handler) (routePath : string) (req : request) p p1 r1 c :
  headersSent r1 = false ->
  (eligible req routePath = true -> getCacheRedis p1 = (Normal (cache_client p), p1)) ->
  try_catch (execute PORT URL_href handler (negb (NO_CACHE_has routePath)) req) on_failure
    {| proc := p1; res := r1; calls := c |} =
  match expressToWebRequest PORT URL_href req with
  | Throw err => on_failure err {| proc := p1; res := r1; calls := c |}
  | Normal w =>
      match handler w with
      | Throw err => on_failure err {| proc := p1; res := r1; calls := c ++ [w] |}
      | Normal webResponse =>
          (Normal tt,
           {| proc :=
                if cacheable req (negb (NO_CACHE_has routePath)) webResponse
                     (arrayBuffer webResponse)
                then written req webResponse (cache_client p) p1
                else p1;
              res := reply_of "MISS" webResponse r1;
              calls := c ++ [w] |})
      end
  end.
Proof.
  intros Hr1 Hmemo. destruct r1 as [sc sh hs sb]. cbn in Hr1. subst hs.
  rewrite try_catch_run. unfold execute. run.
  destruct (expressToWebRequest PORT URL_href req) as [w|err]; cbn beta iota; [|reflexivity].
  run. destruct (handler w) as [webResponse|err]; cbn beta iota; [|reflexivity].
  run.
  assert (Hw : exists p2,
    (if cacheable req (negb (NO_CACHE_has routePath)) webResponse (arrayBuffer webResponse)
     then cache_write req webResponse
            (collect_headers (response_headers webResponse)) (arrayBuffer webResponse)
     else mret tt)
      {| proc := p1;
         res := {| statusCode := sc; sentHeaders := sh; headersSent := false; sentBody := sb |};
         calls := c ++ [w] |} =
    (Normal tt,
     {| proc := p2;
        res := {| statusCode := sc; sentHeaders := sh; headersSent := false; sentBody := sb |};
        calls := c ++ [w] |}) /\
    p2 = (if cacheable req (negb (NO_CACHE_has routePath)) webResponse (arrayBuffer webResponse)
          then written req webResponse (cache_client p) p1 else p1)).
  { destruct (cacheable req (negb (NO_CACHE_has routePath)) webResponse
                (arrayBuffer webResponse)) eqn:Hc.
    - eexists. split; [|reflexivity]. apply cache_write_run. apply Hmemo.
      unfold cacheable in Hc. unfold eligible.
      repeat (apply andb_true_iff in Hc; destruct Hc as [Hc ?]).
      now rewrite Hc.
    - eexists. split; reflexivity. }
  destruct Hw as (p2 & -> & <-). cbn beta iota. run.
  assert (Hfe : forall hs0 sh0,
    for_each hs0 (fun '(k, v) => on_res (res_setHeader k (JStr v)))
      {| proc := p2;
         res := {| statusCode := JNum (status webResponse); sentHeaders := sh0;
                   headersSent := false; sentBody := sb |};
         calls := c ++ [w] |} =
    (Normal tt,
     {| proc := p2;
        res := {| statusCode := JNum (status webResponse);
                  sentHeaders := set_all (as_text hs0) sh0;
                  headersSent := false; sentBody := sb |};
        calls := c ++ [w] |})).
  { induction hs0 as [|[k v] rest IH]; intros sh0; [reflexivity|].
    cbn [for_each]. rewrite bind_run, setHeader_run. cbn beta iota. rewrite IH.
    reflexivity. }
  rewrite Hfe. cbn beta iota. run.
  unfold reply_of. cbn [sentHeaders sentBody].
  destruct (0 <? length (arrayBuffer webResponse))%nat; run; reflexivity.
Qed.

(** The route function on a response object on which nothing was sent yet:
    after the cache check, which answered [replied] and left the process
    [p1] and the response object [r1], it has either replied from the
    cache, or gone on to the handler. *)
Lemma adaptEdgeHandler_run (handler : edge_handler) (routePath : string)
    (req : request) p r c :
  headersSent r = false ->
  exists (replied : bool) p1 r1,
    (if eligible req routePath
     then cache_check req {| proc := p; res := r; calls := c |} =
            (Normal replied, {| proc := p1; res := r1; calls := c |})
     else replied = false /\ p1 = p /\ r1 = r) /\
    db p1 = db p /\
    (if replied then headersSent r1 = true else headersSent r1 = false) /\
    adaptEdgeHandler PORT URL_href handler routePath req {| proc := p; res := r; calls := c |} =
      if replied then (Normal tt, {| proc := p1; res := r1; calls := c |})
      else
        match expressToWebRequest PORT URL_href req with
        | Throw err => on_failure err {| proc := p1; res := r1; calls := c |}
        | Normal w =>
            match handler w with
            | Throw err => on_failure err {| proc := p1; res := r1; calls := c ++ [w] |}
            | Normal webResponse =>
                (Normal tt,
                 {| proc :=
                      if cacheable req (negb (NO_CACHE_has routePath)) webResponse
                           (arrayBuffer webResponse)
                      then written req webResponse (cache_client p) p1
                      else p1;
                    res := reply_of "MISS" webResponse r1;
                    calls := c ++ [w] |})
            end
        end.
Proof.
  intros Hfresh.
  unfold adaptEdgeHandler. rewrite try_catch_run, bind_run.
  unfold eligible.
  destruct (String.eqb (method req) "GET" && negb (NO_CACHE_has routePath)) eqn:Hel.
  - destruct (cache_check_effect req p r c) as (b & p1 & r1 & Hcc & Hg & Hd & Hm & Hb).
    exists b, p1, r1. rewrite Hcc. split; [reflexivity|]. split; [exact Hd|].
    destruct b.
    + split; [exact Hb|]. run. reflexivity.
    + rewrite Hfresh in Hb. split; [exact Hb|]. cbn beta iota.
      apply (execute_run handler routePath req p p1 r1 c Hb). intros _. exact Hm.
  - exists false, p, r. split; [auto|]. split; [reflexivity|]. split; [exact Hfresh|].
    rewrite ret_run. cbn beta iota.
    apply (execute_run handler routePath req p p r c Hfresh). unfold eligible.
    rewrite Hel. discriminate.
Qed.


(** ** What the adapter promises *)

Lemma not_extended {A} (l : list A) (a : A) : l <> l ++ [a].
Proof.
  intros Heq. apply (f_equal (@length A)) in Heq.
  rewrite length_app in Heq. cbn in Heq. lia.
Qed.

Lemma cacheable_true (req : request) (routePath : string) (webResponse : web_response) :
  cacheable req (negb (NO_CACHE_has routePath)) webResponse (arrayBuffer webResponse) = true <->
  method req = "GET" /\ NO_CACHE_has routePath = false /\
  200 <= status webResponse < 300 /\ arrayBuffer webResponse <> [].
Proof.
  unfold cacheable. rewrite !andb_true_iff, negb_true_iff, String.eqb_eq,
    Z.leb_le, Z.ltb_lt, Nat.ltb_lt.
  destruct (arrayBuffer webResponse) as [|b rest]; cbn [length]; split.
  - intros (_ & Hl). lia.
  - intros (_ & _ & _ & Hne). congruence.
  - intros ((((Hm & Hn) & H1) & H2) & _). repeat split; auto; discriminate.
  - intros (Hm & Hn & (H1 & H2) & _). repeat split; auto; lia.
Qed.

(** C3, as the code has it.  The run of the adapter stores a cache entry
    when the handler was called and returned, the method is GET, the route
    is not in the no-cache set, the status is in [200,300), the body is not
    empty, and the store is up (a client with a connection whose server
    answers); the entry goes under the key of the request and expires after
    the TTL of the path.  In every other case the server is as it was.  The
    run completes normally, unless the handler threw [undefined] or
    [null]. *)
Theorem cache_entry_written_iff (handler : edge_handler) (routePath : string)
    (req : request) (x : exchange) :
  headersSent (res x) = false ->
  exists o x',
    adaptEdgeHandler PORT URL_href handler routePath req x = (o, x') /\
    ((forall w err,
         expressToWebRequest PORT URL_href req = Normal w -> handler w = Throw err ->
         ~ nullish err) ->
     o = Normal tt) /\
    let qualifies (webResponse : web_response) :=
      (exists w, expressToWebRequest PORT URL_href req = Normal w /\
                 calls x' = calls x ++ [w] /\ handler w = Normal webResponse) /\
      method req = "GET" /\ NO_CACHE_has routePath = false /\
      200 <= status webResponse < 300 /\ arrayBuffer webResponse <> [] /\
      store_up (proc x) = true in
    (forall webResponse,
        qualifies webResponse ->
        db (proc x') =
          set_keys
            (<[cacheKey req := cache_entry req webResponse (now (db (proc x)))]>
               (keys (db (proc x))))
            (db (proc x))) /\
    ((forall webResponse, ~ qualifies webResponse) -> db (proc x') = db (proc x)).
Proof.
  destruct x as [p r c]. cbn [res calls proc]. intros Hfresh.
  destruct (adaptEdgeHandler_run handler routePath req p r c Hfresh)
    as (replied & p1 & r1 & _ & Hd & _ & Hrun).
  rewrite Hrun. clear Hrun.
  destruct replied.
  { eexists _, _. split; [reflexivity|]. split; [reflexivity|].
    cbn zeta. cbn [proc calls]. split.
    - intros webResponse ((w & _ & Hc & _) & _). exfalso. exact (not_extended _ _ Hc).
    - intros _. exact Hd. }
  destruct (expressToWebRequest PORT URL_href req) as [w|err] eqn:Hw.
  2:{ destruct (on_failure_outcome err p1 r1 c) as (o & r' & -> & Ho).
      eexists _, _. split; [reflexivity|]. split.
      { intros _. apply Ho. destruct (expressToWebRequest_error req err Hw) as (m & ->).
        intros [[=]|[=]]. }
      cbn zeta. cbn [proc calls]. split.
      - intros webResponse ((w & [=] & _) & _).
      - intros _. exact Hd. }
  destruct (handler w) as [webResponse|err] eqn:Hh.
  2:{ destruct (on_failure_outcome err p1 r1 (c ++ [w])) as (o & r' & -> & Ho).
      eexists _, _. split; [reflexivity|]. split.
      { intros Hcond. apply Ho. exact (Hcond w err eq_refl Hh). }
      cbn zeta. cbn [proc calls]. split.
      - intros webResponse ((w' & [= <-] & _ & Hh') & _). congruence.
      - intros _. exact Hd. }
  eexists _, _. split; [reflexivity|]. split; [reflexivity|]. cbn zeta. cbn [proc calls].
  destruct (cacheable req (negb (NO_CACHE_has routePath)) webResponse
              (arrayBuffer webResponse)) eqn:Hc.
  - apply cacheable_true in Hc. destruct Hc as (Hm & Hn & Hs & Hne).
    unfold written, store_up.
    destruct (cache_client p) as [redis|]; [destruct (_client redis)|].
    + rewrite Hd. destruct (reachable (db p)) eqn:Hr.
      * split.
        -- intros w0 ((w' & [= <-] & _ & Hh') & _).
           assert (w0 = webResponse) by congruence. subst w0.
           unfold with_entry. rewrite db_set_db. now rewrite Hd.
        -- intros Hno. exfalso. apply (Hno webResponse).
           split; [exists w; auto|]. repeat split; auto; apply Hs.
      * split; [intros w0 (_ & _ & _ & _ & _ & [=]) | intros _; exact Hd].
    + split; [intros w0 (_ & _ & _ & _ & _ & [=]) | intros _; exact Hd].
    + split; [intros w0 (_ & _ & _ & _ & _ & [=]) | intros _; exact Hd].
  - split; [|intros _; exact Hd].
    intros w0 ((w' & [= <-] & _ & Hh') & Hm & Hn & Hs & Hne & _). exfalso.
    assert (w0 = webResponse) by congruence. subst w0.
    assert (Ht : cacheable req (negb (NO_CACHE_has routePath)) webResponse
                   (arrayBuffer webResponse) = true)
      by (apply cacheable_true; auto).
    congruence.
Qed.


(** ** Store and replay *)

(** [getCacheRedis] neither reads nor writes the server. *)
Lemma getCacheRedis_set_db (d : server) (p : process) :
  getCacheRedis (set_db d p) =
    (fst (getCacheRedis p), set_db d (snd (getCacheRedis p))).
Proof.
  unfold getCacheRedis. StoreFacts.step_comp. cbn [cacheRedis cacheRedisInitFailed set_db REDIS_URL].
  destruct (cacheRedis p) as [r|]; [reflexivity|].
  destruct (cacheRedisInitFailed p); [reflexivity|].
  destruct (negb (env_set (REDIS_URL p))) eqn:He; [reflexivity|].
  unfold new_Redis, getClient. StoreFacts.step_comp.
  cbn [client initFailed set_db REDIS_URL UPSTASH_REDIS_REST_URL].
  destruct (client p) as [conn|]; [reflexivity|].
  destruct (initFailed p); [reflexivity|].
  rewrite He. unfold new_IORedis. cbn [ioredis_throws set_db].
  destruct (ioredis_throws p); reflexivity.
Qed.

(** The replay of an envelope on a response object on which nothing was
    sent: its status, its headers, the hit marker, its body decoded. *)
Lemma replay_envelope (s : Z) (hs : list (string * string)) (body : Base64.buffer)
    p sc sh sb c :
  s <> 0 ->
  replay (envelope s hs body)
    {| proc := p;
       res := {| statusCode := sc; sentHeaders := sh; headersSent := false; sentBody := sb |};
       calls := c |} =
  (Normal tt,
   {| proc := p;
      res := {| statusCode := JNum s;
                sentHeaders := assign "x-cache" (JStr "HIT") (set_all (as_text hs) sh);
                headersSent := true;
                sentBody := body |};
      calls := c |}).
Proof.
  intros Hs. unfold replay, envelope. cbn [member assoc String.eqb Ascii.eqb Bool.eqb].
  run. cbn [truthy Object_entries]. run.
  unfold or_default, truthy. apply Z.eqb_neq in Hs. rewrite Hs. cbn [negb].
  cbn [Buffer_from_base64]. rewrite Base64Facts.decode_encode. run. reflexivity.
Qed.

(** A live entry that parses to the envelope of a response is replayed. *)
Lemma cache_check_hit (req : request) (webResponse : web_response) redis conn text p r c :
  getCacheRedis p = (Normal (Some redis), p) ->
  _client redis = Some conn ->
  reachable (db p) = true ->
  live (db p) (cacheKey req) = Some text ->
  JSON_parse text =
    Some (envelope (status webResponse)
            (collect_headers (response_headers webResponse)) (arrayBuffer webResponse)) ->
  status webResponse <> 0 ->
  arrayBuffer webResponse <> [] ->
  headersSent r = false ->
  cache_check req {| proc := p; res := r; calls := c |} =
    (Normal true, {| proc := p; res := reply_of "HIT" webResponse r; calls := c |}).
Proof.
  intros Hg Hc Hr Hl Hp Hs Hne Hfresh. destruct r as [sc sh hs sb]. cbn in Hfresh. subst hs.
  unfold cache_check. run. rewrite Hg. cbn [fst snd]. run.
  rewrite Redis_get_run, Hc, Hr, Hl. cbn [fst snd]. unfold parsed_or_raw. rewrite Hp.
  cbn [truthy envelope]. fold (envelope (status webResponse)
    (collect_headers (response_headers webResponse)) (arrayBuffer webResponse)).
  run. rewrite (replay_envelope _ _ _ _ _ _ _ _ Hs). run.
  unfold reply_of. cbn [sentHeaders sentBody].
  destruct (arrayBuffer webResponse) as [|b rest]; [congruence|]. reflexivity.
Qed.

(** Store, then replay, on any platform whose [JSON.parse] reads back the
    envelope [JSON.stringify] wrote: a later GET of the same path and
    query, before the TTL of the path has elapsed, is answered from the
    cache without calling the handler, with the status and the body of the
    stored response and its header map under the marker [x-cache: HIT]. *)
Lemma replay_of_stored_response (handler : edge_handler) (routePath : string)
    (req req' : request) (x x1 : exchange) (w : web_request) (webResponse : web_response)
    (elapsed : Z) (r' : response) (c' : list web_request) :
  headersSent (res x) = false ->
  adaptEdgeHandler PORT URL_href handler routePath req x = (Normal tt, x1) ->
  expressToWebRequest PORT URL_href req = Normal w ->
  calls x1 = calls x ++ [w] ->
  handler w = Normal webResponse ->
  method req = "GET" -> NO_CACHE_has routePath = false ->
  200 <= status webResponse < 300 -> arrayBuffer webResponse <> [] ->
  store_up (proc x) = true ->
  JSON_parse
    (JSON_stringify
       (envelope (status webResponse)
          (collect_headers (response_headers webResponse)) (arrayBuffer webResponse))) =
    Some (envelope (status webResponse)
            (collect_headers (response_headers webResponse)) (arrayBuffer webResponse)) ->
  method req' = "GET" -> originalUrl req' = originalUrl req ->
  0 <= elapsed < getCacheTTL (path req) ->
  headersSent r' = false ->
  let later := set_db (elapse elapsed (db (proc x1))) (proc x1) in
  adaptEdgeHandler PORT URL_href handler routePath req' {| proc := later; res := r'; calls := c' |} =
    (Normal tt, {| proc := later; res := reply_of "HIT" webResponse r'; calls := c' |}).
Proof.
  intros Hfresh Hrun1 Hw Hcalls Hh Hm Hn Hs Hne Hup Hjson Hm' Hurl Hd Hfresh' later.
  destruct x as [p r c]. cbn [res calls proc] in Hfresh, Hcalls, Hup.
  (* the first run *)
  destruct (adaptEdgeHandler_run handler routePath req p r c Hfresh)
    as (replied & p1 & r1 & Hcheck & Hdb & _ & Hrun).
  rewrite Hrun in Hrun1.
  assert (Hel : eligible req routePath = true).
  { unfold eligible. rewrite Hm, Hn. reflexivity. }
  rewrite Hel in Hcheck.
  destruct replied.
  { injection Hrun1 as Hx1. subst x1. cbn in Hcalls. exfalso.
    exact (not_extended _ _ Hcalls). }
  rewrite Hw, Hh in Hrun1. injection Hrun1 as Hx1.
  assert (Hc : cacheable req (negb (NO_CACHE_has routePath)) webResponse
                 (arrayBuffer webResponse) = true) by (apply cacheable_true; auto).
  rewrite Hc in Hx1.
  (* the wrapper, memoized by the cache check of the first run *)
  destruct (cache_check_effect req p r c) as (b & p1' & r1' & Hcc & Hg & _ & Hmemo & _).
  rewrite Hcc in Hcheck. injection Hcheck as _ Hp1 _. subst p1'.
  unfold store_up in Hup.
  destruct (cache_client p) as [redis|] eqn:Hcl; [|discriminate].
  destruct (_client redis) as [conn|] eqn:Hconn; [|discriminate].
  unfold written in Hx1. rewrite Hconn, Hdb, Hup in Hx1.
  subst x1. cbn [proc] in later.
  set (e := cache_entry req webResponse (now (db p))) in *.
  assert (Hlater_db : db later = elapse elapsed (db (with_entry (cacheKey req) e p1))) by reflexivity.
  assert (Hg2 : getCacheRedis later = (Normal (Some redis), later)).
  { unfold later. rewrite getCacheRedis_set_db. unfold with_entry.
    rewrite getCacheRedis_set_db, Hmemo. cbn [fst snd]. reflexivity. }
  assert (Hkey : cacheKey req' = cacheKey req) by (unfold cacheKey; now rewrite Hurl).
  assert (Hlive : live (db later) (cacheKey req') = Some (payload e)).
  { rewrite Hlater_db, Hkey. unfold live, elapse, with_entry. cbn [db set_db keys set_keys now].
    rewrite lookup_insert_eq. cbn [expires payload e cache_entry].
    rewrite Hdb.
    assert (Hlt : (now (db p) + elapsed <? now (db p) + getCacheTTL (path req)) = true)
      by (apply Z.ltb_lt; lia).
    now rewrite Hlt. }
  assert (Hreach : reachable (db later) = true).
  { rewrite Hlater_db. unfold elapse, with_entry. cbn [db set_db reachable set_keys].
    now rewrite Hdb. }
  assert (Hs0 : status webResponse <> 0) by lia.
  pose proof (cache_check_hit req' webResponse redis conn (payload e) later r' c'
                Hg2 Hconn Hreach Hlive Hjson Hs0 Hne Hfresh') as Hhit.
  (* the second run *)
  destruct (adaptEdgeHandler_run handler routePath req' later r' c' Hfresh')
    as (replied2 & p2 & r2 & Hcheck2 & _ & _ & Hrun2).
  assert (Hel' : eligible req' routePath = true).
  { unfold eligible. rewrite Hm', Hn. reflexivity. }
  rewrite Hel', Hhit in Hcheck2. injection Hcheck2 as <- <- <-.
  exact Hrun2.
Qed.

(** A stored string that is not JSON is a miss: the cache check leaves the
    response object as it was and the reply is the one of the handler. *)
Lemma non_json_entry_is_a_miss (handler : edge_handler) (routePath : string)
    (req : request) (w : web_request) (webResponse : web_response) (raw : string) p r c :
  headersSent r = false ->
  live (db p) (cacheKey req) = Some raw ->
  JSON_parse raw = None ->
  expressToWebRequest PORT URL_href req = Normal w ->
  handler w = Normal webResponse ->
  exists p',
    adaptEdgeHandler PORT URL_href handler routePath req {| proc := p; res := r; calls := c |} =
      (Normal tt,
       {| proc := p'; res := reply_of "MISS" webResponse r; calls := c ++ [w] |}).
Proof.
  intros Hfresh Hl Hp Hw Hh.
  destruct (adaptEdgeHandler_run handler routePath req p r c Hfresh)
    as (replied & p1 & r1 & Hcheck & Hdb & _ & Hrun).
  assert (Hmiss : replied = false /\ r1 = r).
  { destruct (eligible req routePath); [|tauto].
    destruct (cache_client_run p) as (q & Hg & Hd & Hmm).
    unfold cache_check in Hcheck. revert Hcheck. run. rewrite Hg. cbn [fst snd].
    destruct (cache_client p) as [redis|]; run; [|now intros [= <- _ <-]].
    rewrite Redis_get_run, Hd, Hl. cbn [fst snd]. unfold parsed_or_raw. rewrite Hp.
    destruct (_client redis); [destruct (reachable (db p))|]; cbn [truthy];
      try (run; now intros [= <- _ <-]).
    destruct (negb (String.eqb raw "")); run; [|now intros [= <- _ <-]].
    unfold parse. rewrite Hp. run. now intros [= <- _ <-]. }
  destruct Hmiss as [-> ->]. rewrite Hw, Hh in Hrun.
  eexists. exact Hrun.
Qed.

End Adapter.
End ServerFacts.

(* ===================================================================== *)
(** * Theorems: the JSON text of an envelope reads back *)
(* ===================================================================== *)

Module NodeFacts.
Import Js Server Node Forwarding.

Lemma app_String (c : ascii) (s t : string) : String c s +:+ t = String c (s +:+ t).
Proof. reflexivity. Qed.

Lemma app_empty (t : string) : "" +:+ t = t.
Proof. reflexivity. Qed.

Lemma app_assoc_string (s t u : string) : (s +:+ t) +:+ u = s +:+ (t +:+ u).
Proof.
  induction s as [|c s IH]; [reflexivity|]. rewrite !app_String. now rewrite IH.
Qed.

Lemma length_app_string (s t : string) :
  String.length (s +:+ t) = (String.length s + String.length t)%nat.
Proof.
  induction s as [|c s IH]; [reflexivity|]. rewrite app_String. cbn [String.length].
  now rewrite IH.
Qed.

(** ** String literals *)

(** Reading the escape of a character gives the character. *)
Lemma read_string_escape (c : ascii) (tail : string) :
  read_string (escape c +:+ tail) =
    match read_string tail with
    | Some (str, rest) => Some (String c str, rest)
    | None => None
    end.
Proof.
  destruct c as [b0 b1 b2 b3 b4 b5 b6 b7].
  destruct b0, b1, b2, b3, b4, b5, b6, b7; reflexivity.
Qed.

Lemma read_string_escaped (s rest : string) :
  read_string (escape_all s +:+ String quote rest) = Some (s, rest).
Proof.
  induction s as [|c s IH].
  - reflexivity.
  - cbn [escape_all]. rewrite app_assoc_string, read_string_escape. now rewrite IH.
Qed.

Lemma quoted_app (s rest : string) :
  quoted s +:+ rest = String quote (escape_all s +:+ String quote rest).
Proof.
  unfold quoted. rewrite app_String, app_assoc_string. reflexivity.
Qed.

Lemma read_value_quote (fuel : nat) (tail : string) :
  read_value (S fuel) (String quote tail) =
    match read_string tail with
    | Some (str, rest) => Some (JStr str, rest)
    | None => None
    end.
Proof. reflexivity. Qed.

(** A string literal reads back as its string, with any fuel. *)
Lemma read_value_quoted (fuel : nat) (s rest : string) :
  read_value (S fuel) (quoted s +:+ rest) = Some (JStr s, rest).
Proof.
  rewrite quoted_app, read_value_quote. now rewrite read_string_escaped.
Qed.

(** ** Fields *)

Lemma read_fields_quote (fuel : nat) (acc : list (string * jsval)) (tail : string) :
  read_fields (S fuel) acc (String quote tail) =
    match read_string tail with
    | Some (key, rest1) =>
        match skip_space rest1 with
        | String ":" rest2 =>
            match read_value fuel rest2 with
            | Some (v, rest3) =>
                match skip_space rest3 with
                | String "," rest4 => read_fields fuel (assign key v acc) rest4
                | String "}" rest4 => Some (JObj (assign key v acc), rest4)
                | _ => None
                end
            | None => None
            end
        | _ => None
        end
    | None => None
    end.
Proof. reflexivity. Qed.

(** A field whose value reads back, followed by a comma: the field is
    added and the reading goes on. *)
Lemma read_fields_comma (fuel : nat) acc (k vtext : string) (v : jsval) (rest : string) :
  read_value fuel (vtext +:+ String "," rest) = Some (v, String "," rest) ->
  read_fields (S fuel) acc (quoted k +:+ ":" +:+ vtext +:+ String "," rest) =
    read_fields fuel (assign k v acc) rest.
Proof.
  intros Hv. rewrite quoted_app, read_fields_quote, read_string_escaped.
  change (skip_space (":" +:+ vtext +:+ String "," rest))
    with (String ":" (vtext +:+ String "," rest)).
  cbv beta iota. rewrite Hv. reflexivity.
Qed.

(** The last field, followed by the closing brace. *)
Lemma read_fields_close (fuel : nat) acc (k vtext : string) (v : jsval) (rest : string) :
  read_value fuel (vtext +:+ String "}" rest) = Some (v, String "}" rest) ->
  read_fields (S fuel) acc (quoted k +:+ ":" +:+ vtext +:+ String "}" rest) =
    Some (JObj (assign k v acc), rest).
Proof.
  intros Hv. rewrite quoted_app, read_fields_quote, read_string_escaped.
  change (skip_space (":" +:+ vtext +:+ String "}" rest))
    with (String ":" (vtext +:+ String "}" rest)).
  cbv beta iota. rewrite Hv. reflexivity.
Qed.

Lemma assign_fresh {A} (k : string) (v : A) (l : list (string * A)) :
  ~ In k (map fst l) -> assign k v l = l ++ [(k, v)].
Proof.
  induction l as [|[k' w] rest IH]; intros Hk; [reflexivity|].
  cbn [assign]. destruct (String.eqb k' k) eqn:E.
  - apply String.eqb_eq in E. subst. exfalso. apply Hk. now left.
  - cbn. rewrite IH; [reflexivity|]. intros Hin. apply Hk. now right.
Qed.

(** The text of the fields of a header map reads back as those fields. *)
Lemma read_fields_headers (hs : list (string * string)) :
  forall fuel acc rest,
    hs <> [] -> (length hs <= fuel)%nat ->
    List.NoDup (map fst hs) ->
    (forall k, In k (map fst hs) -> ~ In k (map fst acc)) ->
    read_fields (S fuel) acc (join "," (map field_text (as_text hs)) +:+ String "}" rest) =
      Some (JObj (acc ++ as_text hs), rest).
Proof.
  induction hs as [|[k v] more IH]; intros fuel acc rest Hne Hlen Hnd Hfresh; [congruence|].
  cbn [length] in Hlen. destruct fuel as [|fuel]; [lia|].
  inversion Hnd as [|? ? Hk Hnd']; subst.
  assert (Hassign : assign k (JStr v) acc = acc ++ [(k, JStr v)]).
  { apply assign_fresh. apply Hfresh. now left. }
  cbn [as_text map join field_text stringify].
  destruct more as [|[k2 v2] more'].
  - cbn [map]. rewrite !app_assoc_string.
    rewrite (read_fields_close (S fuel) acc k (quoted v) (JStr v) rest).
    + now rewrite Hassign.
    + apply read_value_quoted.
  - remember ((k2, v2) :: more') as tl eqn:Htl.
    assert (Htl_ne : tl <> []) by (subst; discriminate).
    destruct (map field_text (map (fun '(k0, v0) => (k0, JStr v0)) tl)) as [|t ts] eqn:Hm.
    { subst tl. discriminate Hm. }
    rewrite <- Hm. rewrite !app_assoc_string.
    change ("," +:+ join "," (map field_text (map (fun '(k0, v0) => (k0, JStr v0)) tl))
              +:+ String "}" rest)
      with (String "," (join "," (map field_text (as_text tl)) +:+ String "}" rest)).
    rewrite (read_fields_comma (S fuel) acc k (quoted v) (JStr v)).
    + rewrite Hassign. rewrite IH.
      * rewrite <- app_assoc. reflexivity.
      * exact Htl_ne.
      * cbn [length] in Hlen. lia.
      * exact Hnd'.
      * intros k' Hin. rewrite map_app, in_app_iff. cbn [map fst In].
        intros [Hacc|[<-|[]]].
        -- apply (Hfresh k'); [now right | exact Hacc].
        -- contradiction.
    + apply read_value_quoted.
Qed.

(** ** Numbers *)

(** A status of the successful range reads back, before a comma. *)
Lemma read_value_status (fuel : nat) (s : Z) (rest : string) :
  200 <= s < 300 ->
  read_value (S fuel) (number_text s +:+ String "," rest) = Some (JNum s, String "," rest).
Proof.
  intros Hs.
  assert (Hk : forall k : nat, (k < 100)%nat ->
    read_value (S fuel) (number_text (200 + Z.of_nat k) +:+ String "," rest) =
      Some (JNum (200 + Z.of_nat k), String "," rest)).
  { intros k Hlt. do 100 (destruct k as [|k]; [reflexivity|]). lia. }
  replace s with (200 + Z.of_nat (Z.to_nat (s - 200))) by lia.
  apply Hk. lia.
Qed.

(** ** The envelope *)

Lemma read_value_brace (fuel : nat) (tail : string) :
  read_value (S fuel) (String "{" (String quote tail)) =
    read_fields fuel [] (String quote tail).
Proof. reflexivity. Qed.

Lemma read_value_empty_object (fuel : nat) (rest : string) :
  read_value (S fuel) (String "{" (String "}" rest)) = Some (JObj [], rest).
Proof. reflexivity. Qed.

(** The text of a header map reads back as the map. *)
Lemma read_value_headers (hs : list (string * string)) (fuel : nat) (rest : string) :
  (length hs < fuel)%nat -> List.NoDup (map fst hs) ->
  read_value (S fuel) (stringify (JObj (as_text hs)) +:+ rest) =
    Some (JObj (as_text hs), rest).
Proof.
  intros Hlen Hnd. cbn [stringify].
  change (map (fun '(k, x) => quoted k +:+ ":" +:+ stringify x) (as_text hs))
    with (map field_text (as_text hs)).
  destruct hs as [|[k v] more].
  - apply read_value_empty_object.
  - remember ((k, v) :: more) as all eqn:Hall.
    assert (Hq : exists tail,
      join "," (map field_text (as_text all)) +:+ String "}" rest = String quote tail).
    { subst all. cbn [as_text map join field_text].
      destruct (map field_text (map (fun '(k0, v0) => (k0, JStr v0)) more));
        rewrite quoted_app; eexists; reflexivity. }
    destruct Hq as (tail & Hq).
    rewrite !app_assoc_string. rewrite app_String, app_empty.
    change ("}" +:+ rest) with (String "}" rest).
    rewrite Hq, read_value_brace, <- Hq.
    destruct fuel as [|fuel]; [lia|].
    rewrite (read_fields_headers all fuel [] rest).
    + reflexivity.
    + subst all. discriminate.
    + lia.
    + exact Hnd.
    + intros k' _ [].
Qed.

(** The text of an envelope reads back as the envelope, given fuel for its
    header fields. *)
Lemma read_value_envelope (s : Z) (hs : list (string * string)) (b : Base64.buffer)
    (fuel : nat) :
  200 <= s < 300 -> List.NoDup (map fst hs) ->
  (length hs + 5 <= fuel)%nat ->
  read_value fuel (stringify (envelope s hs b)) = Some (envelope s hs b, "").
Proof.
  intros Hs Hnd Hfuel.
  destruct fuel as [|f0]; [lia|]. destruct f0 as [|f1]; [lia|].
  destruct f1 as [|f2]; [lia|].
  unfold envelope. cbn [stringify map join].
  change (map (fun '(k, v) => (k, JStr v)) hs) with (as_text hs).
  set (htext := "{" +:+
    join "," (map (fun '(k, x) => quoted k +:+ ":" +:+ stringify x) (as_text hs)) +:+ "}").
  assert (Hh : htext = stringify (JObj (as_text hs))) by reflexivity.
  rewrite app_String, app_empty.
  rewrite !app_assoc_string.
  rewrite quoted_app, read_value_brace, <- quoted_app.
  change ("," +:+ quoted "h" +:+ ":" +:+ htext +:+ "," +:+ quoted "b" +:+ ":" +:+
            quoted (Base64.encode b) +:+ "}")
    with (String "," (quoted "h" +:+ ":" +:+ htext +:+ "," +:+ quoted "b" +:+ ":" +:+
            quoted (Base64.encode b) +:+ "}")).
  rewrite (read_fields_comma (S f2) [] "s" (number_text s) (JNum s))
    by (apply read_value_status; exact Hs).
  cbn [assign].
  change ("," +:+ quoted "b" +:+ ":" +:+ quoted (Base64.encode b) +:+ "}")
    with (String "," (quoted "b" +:+ ":" +:+ quoted (Base64.encode b) +:+ "}")).
  destruct f2 as [|f3]; [lia|].
  rewrite (read_fields_comma (S f3) _ "h" htext (JObj (as_text hs))).
  - cbn [assign String.eqb Ascii.eqb Bool.eqb].
    change (quoted (Base64.encode b) +:+ "}")
      with (quoted (Base64.encode b) +:+ String "}" "").
    rewrite (read_fields_close f3 _ "b" (quoted (Base64.encode b))
               (JStr (Base64.encode b)) "").
    + reflexivity.
    + destruct f3 as [|f4]; [lia|]. apply read_value_quoted.
  - rewrite Hh. apply read_value_headers; [lia | exact Hnd].
Qed.

(** ** [JSON.parse] of the text of an envelope *)

Lemma join_fields_length (fields : list (string * jsval)) :
  (length fields <= String.length (join "," (map field_text fields)))%nat.
Proof.
  induction fields as [|[k x] rest IH]; [cbn; lia|].
  cbn [map join length].
  assert (Hf : (1 <= String.length (field_text (k, x)))%nat).
  { unfold field_text. rewrite quoted_app. cbn [String.length]. lia. }
  destruct rest as [|f2 rest'].
  - cbn [map length]. exact Hf.
  - remember (f2 :: rest') as tl eqn:Htl in *. destruct (map field_text tl) eqn:Hm.
    + subst tl. discriminate Hm.
    + rewrite <- Hm in IH |- *. rewrite !length_app_string.
      cbn [String.length length] in *. lia.
Qed.

Lemma envelope_text_length (s : Z) (hs : list (string * string)) (b : Base64.buffer) :
  (length hs + 2 <= String.length (stringify (envelope s hs b)))%nat.
Proof.
  unfold envelope. cbn [stringify map join].
  change (map (fun '(k, x) => quoted k +:+ ":" +:+ stringify x)
            (map (fun '(k, v) => (k, JStr v)) hs))
    with (map field_text (as_text hs)).
  pose proof (join_fields_length (as_text hs)) as Hj.
  unfold as_text in Hj at 1. rewrite length_map in Hj.
  rewrite !length_app_string. cbn [String.length]. lia.
Qed.

(** On this platform [JSON.parse] reads back the envelope of every response
    with a status of the successful range and a header map without
    repeated names. *)
Lemma parse_text_envelope (s : Z) (hs : list (string * string)) (b : Base64.buffer) :
  200 <= s < 300 -> List.NoDup (map fst hs) ->
  parse_text (stringify (envelope s hs b)) = Some (envelope s hs b).
Proof.
  intros Hs Hnd. unfold parse_text.
  rewrite read_value_envelope; [reflexivity | exact Hs | exact Hnd |].
  pose proof (envelope_text_length s hs b). lia.
Qed.

(** ** The header map of a response *)

Lemma assign_keys {A} (k : string) (v : A) (l : list (string * A)) :
  List.NoDup (map fst l) -> List.NoDup (map fst (assign k v l)).
Proof.
  intros Hnd. destruct (in_dec string_dec k (map fst l)) as [Hin|Hnotin].
  - assert (Hsame : map fst (assign k v l) = map fst l); [|now rewrite Hsame].
    clear Hnd. induction l as [|[k' w] rest IH]; [destruct Hin|].
    cbn [assign]. destruct (String.eqb k' k) eqn:E; [reflexivity|].
    cbn [map fst]. f_equal. apply IH. destruct Hin as [Heq|Hin]; [|exact Hin].
    cbn in Heq. subst. rewrite String.eqb_refl in E. discriminate.
  - rewrite (assign_fresh k v l Hnotin), map_app. cbn [map fst].
    clear -Hnd Hnotin. induction (map fst l) as [|x xs IH]; cbn.
    + constructor; [intros []|constructor].
    + inversion Hnd as [|? ? Hx Hxs]; subst. constructor.
      * rewrite in_app_iff. intros [Hin|[<-|[]]]; [contradiction|].
        apply Hnotin. now left.
      * apply IH; [exact Hxs|]. intros Hin. apply Hnotin. now right.
Qed.

(** [responseHeaders] holds each name once. *)
Lemma collect_headers_NoDup (hs : list (string * string)) :
  List.NoDup (map fst (collect_headers hs)).
Proof.
  unfold collect_headers.
  assert (Hgen : forall acc : list (string * string),
    List.NoDup (map fst acc) ->
    List.NoDup (map fst
      (fold_left
         (fun acc0 '(key, value) =>
            if negb (String.eqb (toLowerCase key) "transfer-encoding")
            then assign key value acc0 else acc0) hs acc))).
  { induction hs as [|[k v] rest IH]; intros acc Hacc; [exact Hacc|].
    cbn [fold_left]. apply IH.
    destruct (negb (String.eqb (toLowerCase k) "transfer-encoding"));
      [now apply assign_keys | exact Hacc]. }
  apply Hgen. constructor.
Qed.

Lemma assoc_assign_same {A} (k : string) (v : A) (l : list (string * A)) :
  assoc k (assign k v l) = Some v.
Proof.
  induction l as [|[k' w] rest IH]; cbn [assign assoc].
  - now rewrite String.eqb_refl.
  - destruct (String.eqb k' k) eqn:E; cbn [assoc]; rewrite E; [reflexivity | exact IH].
Qed.

Lemma assoc_assign_other {A} (k k' : string) (v : A) (l : list (string * A)) :
  k <> k' -> assoc k (assign k' v l) = assoc k l.
Proof.
  intros Hne. induction l as [|[k0 w] rest IH]; cbn [assign assoc].
  - apply String.eqb_neq in Hne. rewrite String.eqb_sym in Hne. now rewrite Hne.
  - destruct (String.eqb k0 k') eqn:E; cbn [assoc].
    + apply String.eqb_eq in E. subst k0.
      assert (Hk : String.eqb k' k = false).
      { apply String.eqb_neq. congruence. }
      now rewrite Hk.
    + destruct (String.eqb k0 k); [reflexivity | exact IH].
Qed.

Lemma assign_In {A} (k : string) (v : A) (l : list (string * A)) (e : string * A) :
  In e (assign k v l) -> e = (k, v) \/ In e l.
Proof.
  induction l as [|[k' w] rest IH]; cbn [assign].
  - intros [<-|[]]. now left.
  - destruct (String.eqb k' k) eqn:E.
    + apply String.eqb_eq in E. subst k'. intros [<-|Hin]; [now left | right; now right].
    + intros [<-|Hin]; [right; now left|].
      destruct (IH Hin) as [->|Hin']; [now left | right; now right].
Qed.

(** No name of [responseHeaders] is [transfer-encoding], in any case of
    letters. *)
Lemma collect_headers_names (hs : list (string * string)) (e : string * string) :
  In e (collect_headers hs) -> toLowerCase (fst e) <> "transfer-encoding".
Proof.
  unfold collect_headers.
  assert (Hgen : forall acc : list (string * string),
    (forall e, In e acc -> toLowerCase (fst e) <> "transfer-encoding") ->
    forall e,
      In e (fold_left
              (fun acc0 '(key, value) =>
                 if negb (String.eqb (toLowerCase key) "transfer-encoding")
                 then assign key value acc0 else acc0) hs acc) ->
      toLowerCase (fst e) <> "transfer-encoding").
  { induction hs as [|[k v] rest IH]; intros acc Hacc; [exact Hacc|].
    cbn [fold_left]. apply IH.
    destruct (String.eqb (toLowerCase k) "transfer-encoding") eqn:E; cbn [negb];
      [exact Hacc|].
    intros e0 Hin. destruct (assign_In _ _ _ _ Hin) as [->|Hin']; [|now apply Hacc].
    cbn [fst]. now apply String.eqb_neq. }
  apply Hgen. intros e0 [].
Qed.

Lemma set_all_other (k : string) (hs table : list (string * jsval)) :
  (forall e, In e hs -> toLowerCase (fst e) <> k) ->
  assoc k (set_all hs table) = assoc k table.
Proof.
  revert table. induction hs as [|[k' v] rest IH]; intros table Hk; [reflexivity|].
  unfold set_all. cbn [fold_left]. fold (set_all rest (assign (toLowerCase k') v table)).
  rewrite IH.
  - apply assoc_assign_other. intros Heq. apply (Hk (k', v)); [now left | now cbn].
  - intros e Hin. apply Hk. now right.
Qed.

(** With names in lower case, each once, the loops that copy headers keep
    the list as it is. *)
Lemma collect_headers_kept (hs : list (string * string)) :
  Forall (fun h => lower_case (fst h) = true) hs ->
  List.NoDup (map fst hs) ->
  collect_headers hs = kept hs.
Proof.
  intros Hlow Hnd. unfold collect_headers.
  assert (Hgen : forall acc : list (string * string),
    (forall k, In k (map fst hs) -> ~ In k (map fst acc)) ->
    fold_left
      (fun acc0 '(key, value) =>
         if negb (String.eqb (toLowerCase key) "transfer-encoding")
         then assign key value acc0 else acc0) hs acc = acc ++ kept hs).
  { induction hs as [|[k v] rest IH]; intros acc Hacc.
    - cbn. now rewrite app_nil_r.
    - inversion Hlow as [|? ? Hk Hrest]; subst. cbn [fst] in Hk.
      inversion Hnd as [|? ? Hnotin Hnd']; subst.
      unfold lower_case in Hk. apply String.eqb_eq in Hk.
      cbn [fold_left kept List.filter]. rewrite Hk.
      destruct (negb (String.eqb k "transfer-encoding")).
      + rewrite (assign_fresh k v acc) by (apply Hacc; now left).
        rewrite (IH Hrest Hnd').
        * now rewrite <- app_assoc.
        * intros k0 Hin. rewrite map_app, in_app_iff. cbn [map fst In].
          intros [Hin'|[<-|[]]]; [|contradiction].
          apply (Hacc k0); [now right | exact Hin'].
      + apply (IH Hrest Hnd'). intros k0 Hin. apply Hacc. now right. }
  rewrite Hgen; [reflexivity|]. intros k _ [].
Qed.

Lemma set_all_as_text (hs : list (string * string)) :
  Forall (fun h => lower_case (fst h) = true) hs ->
  List.NoDup (map fst hs) ->
  set_all (as_text hs) [] = as_text hs.
Proof.
  intros Hlow Hnd.
  assert (Hgen : forall acc : list (string * jsval),
    (forall k, In k (map fst hs) -> ~ In k (map fst acc)) ->
    set_all (as_text hs) acc = acc ++ as_text hs).
  { induction hs as [|[k v] rest IH]; intros acc Hacc.
    - cbn. now rewrite app_nil_r.
    - inversion Hlow as [|? ? Hk Hrest]; subst. cbn [fst] in Hk.
      inversion Hnd as [|? ? Hnotin Hnd']; subst.
      unfold lower_case in Hk. apply String.eqb_eq in Hk.
      unfold set_all, as_text. cbn [map fold_left]. rewrite Hk.
      fold (as_text rest). fold (set_all (as_text rest) (assign k (JStr v) acc)).
      rewrite (assign_fresh k (JStr v) acc) by (apply Hacc; now left).
      rewrite (IH Hrest Hnd').
      + now rewrite <- app_assoc.
      + intros k0 Hin. rewrite map_app, in_app_iff. cbn [map fst In].
        intros [Hin'|[<-|[]]]; [|contradiction].
        apply (Hacc k0); [now right | exact Hin']. }
  rewrite Hgen; [reflexivity|]. intros k _ [].
Qed.

Lemma kept_sub (hs : list (string * string)) :
  Forall (fun h => lower_case (fst h) = true) hs ->
  List.NoDup (map fst hs) ->
  Forall (fun h => lower_case (fst h) = true) (kept hs) /\
  List.NoDup (map fst (kept hs)).
Proof.
  intros Hlow Hnd. unfold kept. split.
  - rewrite List.Forall_forall in *. intros e Hin. apply filter_In in Hin. now apply Hlow.
  - induction hs as [|[k v] rest IH]; [constructor|].
    inversion Hlow; subst. inversion Hnd as [|? ? Hnotin Hnd']; subst.
    cbn [List.filter]. destruct (negb (String.eqb k "transfer-encoding")); [|auto].
    cbn [map fst]. constructor; [|auto].
    intros Hin. apply Hnotin. rewrite in_map_iff in *.
    destruct Hin as (e & He & Hin). exists e. split; [exact He|].
    apply filter_In in Hin. tauto.
Qed.

(** ** What a header map holds under a name *)

Lemma assoc_app {A} (k : string) (l m : list (string * A)) :
  assoc k (l ++ m) = match assoc k l with Some v => Some v | None => assoc k m end.
Proof.
  induction l as [|[k' v] rest IH]; [reflexivity|].
  cbn [app assoc]. destruct (String.eqb k' k); [reflexivity | exact IH].
Qed.

Lemma assoc_absent {A} (k : string) (l : list (string * A)) :
  ~ In k (map fst l) -> assoc k l = None.
Proof.
  induction l as [|[k' v] rest IH]; [reflexivity|]. intros Hk.
  cbn [assoc]. destruct (String.eqb k' k) eqn:E.
  - apply String.eqb_eq in E. subst. exfalso. apply Hk. now left.
  - apply IH. intros Hin. apply Hk. now right.
Qed.

(** The names of [responseHeaders] are names of the response. *)
Lemma collect_headers_sub (hs : list (string * string)) (e : string * string) :
  In e (collect_headers hs) -> In (fst e) (map fst hs).
Proof.
  unfold collect_headers.
  assert (Hgen : forall acc : list (string * string),
    forall e,
      In e (fold_left
              (fun acc0 '(key, value) =>
                 if negb (String.eqb (toLowerCase key) "transfer-encoding")
                 then assign key value acc0 else acc0) hs acc) ->
      In e acc \/ In (fst e) (map fst hs)).
  { induction hs as [|[k v] rest IH]; intros acc e0 Hin; [now left|].
    cbn [fold_left] in Hin. destruct (IH _ _ Hin) as [Hacc|Hrest].
    - destruct (negb (String.eqb (toLowerCase k) "transfer-encoding")); [|now left].
      destruct (assign_In _ _ _ _ Hacc) as [->|Hin']; [right; now left | now left].
    - right. now right. }
  intros Hin. destruct (Hgen [] e Hin) as [[]|Hr]. exact Hr.
Qed.

(** [responseHeaders] holds under a name the value the response gives
    last under it, and nothing under [transfer-encoding]. *)
Lemma assoc_collect_headers (hs : list (string * string)) (name : string) :
  Forall (fun h => lower_case (fst h) = true) hs ->
  assoc name (collect_headers hs) =
    if String.eqb name "transfer-encoding" then None else last_value name hs.
Proof.
  intros Hlow. unfold collect_headers, last_value.
  assert (Hgen : forall acc : list (string * string),
    assoc name
      (fold_left
         (fun acc0 '(key, value) =>
            if negb (String.eqb (toLowerCase key) "transfer-encoding")
            then assign key value acc0 else acc0) hs acc) =
    match (if String.eqb name "transfer-encoding" then None else assoc name (rev hs)) with
    | Some v => Some v
    | None => assoc name acc
    end).
  { induction hs as [|[k v] rest IH]; intros acc.
    - cbn. now destruct (String.eqb name "transfer-encoding").
    - inversion Hlow as [|? ? Hk Hrest]; subst. cbn [fst] in Hk.
      unfold lower_case in Hk. apply String.eqb_eq in Hk.
      cbn [fold_left rev]. rewrite (IH Hrest), Hk, assoc_app. cbn [assoc].
      destruct (String.eqb name "transfer-encoding") eqn:Ete.
      + apply String.eqb_eq in Ete. subst name.
        destruct (String.eqb k "transfer-encoding") eqn:Ek; cbn [negb]; [reflexivity|].
        apply assoc_assign_other. apply String.eqb_neq in Ek. congruence.
      + destruct (assoc name (rev rest)) as [v'|]; [reflexivity|].
        destruct (String.eqb k name) eqn:Ekn.
        * apply String.eqb_eq in Ekn. subst k. rewrite Ete. cbn [negb].
          apply assoc_assign_same.
        * destruct (negb (String.eqb k "transfer-encoding")); [|reflexivity].
          apply assoc_assign_other. apply String.eqb_neq in Ekn. congruence. }
  rewrite Hgen. cbn [assoc].
  destruct (String.eqb name "transfer-encoding"); [reflexivity|].
  now destruct (assoc name (rev hs)).
Qed.

(** After [res.setHeader] was called on each pair of a map whose names are
    in lower case, each once, the table holds under a name what the map
    holds under it, and otherwise what it held before. *)
Lemma assoc_set_all (hs : list (string * string)) (table : list (string * jsval))
    (name : string) :
  Forall (fun h => lower_case (fst h) = true) hs ->
  List.NoDup (map fst hs) ->
  assoc name (set_all (as_text hs) table) =
    match assoc name hs with
    | Some v => Some (JStr v)
    | None => assoc name table
    end.
Proof.
  intros Hlow Hnd. revert table.
  induction hs as [|[k v] rest IH]; intros table; [reflexivity|].
  inversion Hlow as [|? ? Hk Hrest]; subst. cbn [fst] in Hk.
  inversion Hnd as [|? ? Hnotin Hnd']; subst.
  unfold lower_case in Hk. apply String.eqb_eq in Hk.
  unfold set_all, as_text. cbn [map fold_left]. rewrite Hk.
  fold (as_text rest). fold (set_all (as_text rest) (assign k (JStr v) table)).
  rewrite (IH Hrest Hnd'). cbn [assoc].
  destruct (String.eqb k name) eqn:Ekn.
  - apply String.eqb_eq in Ekn. subst k.
    rewrite (assoc_absent name rest Hnotin). apply assoc_assign_same.
  - destruct (assoc name rest); [reflexivity|].
    apply assoc_assign_other. apply String.eqb_neq in Ekn. congruence.
Qed.

(** The header table of a reply made of a response under a marker, name by
    name. *)
Lemma reply_headers (marker : string) (webResponse : web_response) (r : response)
    (name : string) :
  Forall (fun h => lower_case (fst h) = true) (response_headers webResponse) ->
  assoc name (sentHeaders (reply_of marker webResponse r)) =
    if String.eqb name "x-cache" then Some (JStr marker)
    else if String.eqb name "transfer-encoding" then assoc name (sentHeaders r)
    else
      match last_value name (response_headers webResponse) with
      | Some v => Some (JStr v)
      | None => assoc name (sentHeaders r)
      end.
Proof.
  intros Hlow. unfold reply_of. cbn [sentHeaders].
  destruct (String.eqb name "x-cache") eqn:Ex.
  { apply String.eqb_eq in Ex. subst name. apply assoc_assign_same. }
  rewrite assoc_assign_other by (apply String.eqb_neq in Ex; congruence).
  rewrite assoc_set_all.
  - rewrite (assoc_collect_headers _ _ Hlow).
    destruct (String.eqb name "transfer-encoding"); reflexivity.
  - rewrite List.Forall_forall in *. intros e Hin.
    destruct (in_map_iff fst (response_headers webResponse) (fst e)) as [Hex _].
    destruct (Hex (collect_headers_sub _ _ Hin)) as (e' & He & Hin').
    rewrite <- He. now apply Hlow.
  - apply collect_headers_NoDup.
Qed.

End NodeFacts.

(* ===================================================================== *)
(** * Theorems: store, then replay *)
(* ===================================================================== *)

Module RoundTrip.
Import Js Server Node Forwarding NodeFacts.


End RoundTrip.

(* ===================================================================== *)
(** * Theorems: UTF-8 *)
(* ===================================================================== *)

Module Utf8Facts.
Import Utf8.

Ltac by_division := Z.div_mod_to_equations; lia.

(** Settle the comparisons of the goal, each of which the context decides. *)
Ltac settle :=
  repeat match goal with
  | |- context [Z.leb ?a ?b] =>
      first [ rewrite (proj2 (Z.leb_le a b)) by by_division
            | rewrite (proj2 (Z.leb_gt a b)) by by_division ]
  | |- context [Z.ltb ?a ?b] =>
      first [ rewrite (proj2 (Z.ltb_lt a b)) by by_division
            | rewrite (proj2 (Z.ltb_ge a b)) by by_division ]
  end;
  cbn [andb orb negb].

Lemma octet_byte_Z (b : Byte.byte) : octet (byte_Z b) = b.
Proof.
  unfold octet, byte_Z. rewrite N2Z.id. now apply Base64Facts.octet_to_N.
Qed.

(** The decoder reads the encoding of a scalar value as that value. *)
Lemma decode_utf8_of (c : Z) (rest : list Z) :
  scalar c -> decode None (utf8_of c ++ rest) = c :: decode None rest.
Proof.
  intros Hc. unfold scalar in Hc. unfold utf8_of.
  destruct (Z.ltb_spec c 128) as [H1|H1].
  { cbn [app decode]. unfold lead. settle. reflexivity. }
  destruct (Z.ltb_spec c 2048) as [H2|H2].
  { cbn [app decode]. unfold lead. settle. cbn [app decode more bits lower upper]. settle.
    f_equal. by_division. }
  destruct (Z.ltb_spec c 65536) as [H3|H3].
  { cbn [app decode]. unfold lead. settle. cbn [app decode more bits lower upper].
    destruct (Z.eqb_spec (224 + c / 4096) 224) as [E1|E1];
      destruct (Z.eqb_spec (224 + c / 4096) 237) as [E2|E2]; try (exfalso; lia);
      settle; cbn [decode more bits lower upper]; settle; f_equal; by_division. }
  cbn [app decode]. unfold lead. settle. cbn [app decode more bits lower upper].
  destruct (Z.eqb_spec (240 + c / 262144) 240) as [E1|E1];
    destruct (Z.eqb_spec (240 + c / 262144) 244) as [E2|E2]; try (exfalso; lia);
    settle; cbn [decode more bits lower upper]; settle;
    cbn [decode more bits lower upper]; settle; f_equal; by_division.
Qed.

Lemma decode_utf8 (cps : list Z) :
  Forall scalar cps -> decode None (flat_map utf8_of cps) = cps.
Proof.
  induction 1 as [|c rest Hc Hrest IH]; [reflexivity|].
  cbn [flat_map]. rewrite (decode_utf8_of c _ Hc). now rewrite IH.
Qed.

(** The code units of scalar values read back as those values. *)
Lemma code_points_units (cps : list Z) :
  Forall scalar cps -> code_points (flat_map units_of cps) = cps.
Proof.
  induction 1 as [|c rest Hc Hrest IH]; [reflexivity|].
  unfold scalar in Hc. cbn [flat_map]. unfold units_of at 1.
  destruct (Z.ltb_spec c 65536) as [H1|H1].
  - cbn [app code_points]. unfold is_high, is_low.
    destruct Hc as [Hc|Hc]; settle; now rewrite IH.
  - cbn [app code_points]. unfold is_high, is_low. settle. rewrite IH. f_equal. by_division.
Qed.

(** Octets that are well-formed UTF-8 come back as they are when the
    string made of them is sent as a text frame. *)
Lemma text_frame_toString (data : Base64.buffer) :
  well_formed data -> text_frame (toString data) = data.
Proof.
  intros (cps & Hcps & Hdata). unfold text_frame, toString.
  rewrite Hdata, (decode_utf8 cps Hcps), (code_points_units cps Hcps), <- Hdata.
  rewrite map_map. rewrite <- (map_id data) at 2. apply map_ext. exact octet_byte_Z.
Qed.

(** Octets below 128 are well-formed UTF-8. *)
Lemma ascii_well_formed (data : Base64.buffer) :
  Forall (fun b => byte_Z b < 128) data -> well_formed data.
Proof.
  intros Hlow. exists (map byte_Z data). split.
  - rewrite List.Forall_forall in *. intros c Hin. apply in_map_iff in Hin.
    destruct Hin as (b & <- & Hb). left. split; [|specialize (Hlow b Hb); lia].
    unfold byte_Z. lia.
  - induction data as [|b rest IH]; [reflexivity|].
    inversion Hlow as [|? ? Hb Hrest]; subst. cbn [map flat_map]. unfold utf8_of at 1.
    rewrite (proj2 (Z.ltb_lt _ _) Hb). cbn [app]. f_equal. exact (IH Hrest).
Qed.

End Utf8Facts.

(* ===================================================================== *)
(** * Theorems: the relay *)
(* ===================================================================== *)

Module RelayFacts.
Import Js Utf8 Relay.

Ltac step_relay :=
  cbv [mbind comp_bind mret comp_ret get modify].

Lemma set_delivered_same (r : relay) : set_delivered (delivered r) r = r.
Proof. now destruct r. Qed.

Lemma state_of_insert (m : gmap nat readyState) (s : nat) (st : readyState) :
  state_of (<[s := st]> m) s = st.
Proof. unfold state_of. now rewrite lookup_insert_eq. Qed.

Section Handlers.
Context `{Platform}.
Variable API_KEY : string.

(** ** The broadcast loop *)

(** The [for ... of clients] loop of the message listener: every member
    whose socket is open is sent the message, in the order of the set, and
    the loop completes normally. *)
Lemma broadcast_run (message : text) (cs : list subscriber) (r : relay) :
  for_each cs
    (fun client =>
       r ← get;
       if is_open (state_of (subscriber_state r) client)
       then client_send client message
       else mret tt) r =
  (Normal tt,
   set_delivered
     (delivered r ++
      map (fun ws => (ws, message))
          (List.filter (fun ws => is_open (state_of (subscriber_state r) ws)) cs)) r).
Proof.
  revert r. induction cs as [|ws rest IH]; intros r.
  - cbn. now rewrite app_nil_r, set_delivered_same.
  - cbn [for_each List.filter]. unfold mbind at 1, comp_bind at 1.
    unfold mbind at 1, comp_bind at 1, get at 1.
    destruct (is_open (state_of (subscriber_state r) ws)) eqn:Ho.
    + unfold client_send.
      destruct (state_of (subscriber_state r) ws) eqn:Hs; try discriminate.
      rewrite IH. cbn [subscriber_state set_delivered delivered map].
      rewrite <- app_assoc. reflexivity.
    + cbn [mret comp_ret]. rewrite IH. reflexivity.
Qed.

Lemma on_message_current (s : socket) (data : Base64.buffer) (r : relay) :
  upstreamSocket r = Some s ->
  on_message s data r =
    (Normal tt,
     set_delivered
       (delivered r ++ map (fun ws => (ws, toString data)) (open_clients r))
       (set_messageCount (messageCount r + 1) r)).
Proof.
  intros Hu. unfold on_message.
  rewrite ServerFacts.bind_run, ServerFacts.get_run. cbn beta iota.
  rewrite Hu. cbn [same_socket]. rewrite Nat.eqb_refl. cbn [negb].
  rewrite ServerFacts.bind_run. unfold modify at 1. cbn beta iota.
  rewrite ServerFacts.bind_run, ServerFacts.get_run. cbn beta iota.
  rewrite broadcast_run. reflexivity.
Qed.

Lemma on_message_stale (s : socket) (data : Base64.buffer) (r : relay) :
  upstreamSocket r <> Some s ->
  on_message s data r = (Normal tt, r).
Proof.
  intros Hu. unfold on_message. step_relay.
  assert (Hs : same_socket (upstreamSocket r) s = false).
  { destruct (upstreamSocket r) as [s'|]; [|reflexivity]. cbn.
    apply Nat.eqb_neq. congruence. }
  now rewrite Hs.
Qed.

Lemma same_socket_true (u : option socket) (s : socket) :
  same_socket u s = true <-> u = Some s.
Proof.
  destruct u as [s'|]; cbn; [|split; discriminate].
  rewrite Nat.eqb_eq. split; congruence.
Qed.

(** ** No listener throws *)

Lemma connectUpstream_normal (r : relay) :
  exists r', connectUpstream r = (Normal tt, r').
Proof.
  unfold connectUpstream. step_relay.
  destruct (upstreamSocket r) as [s|]; [|now eexists].
  destruct (state_of (upstream_state r) s); now eexists.
Qed.

Lemma deliver_normal (ev : event) (r : relay) :
  exists r', deliver API_KEY ev r = (Normal tt, r').
Proof.
  destruct ev as [s|s data|s|s|ws|ws|ws|ws st|ms|]; cbn [deliver].
  - unfold on_open. step_relay. cbn [upstreamSocket set_upstream_state].
    destruct (negb (same_socket (upstreamSocket r) s)).
    + unfold socket_close. step_relay. now eexists.
    + unfold socket_send. cbn [upstream_state set_upstream_state].
      rewrite state_of_insert. now eexists.
  - destruct (same_socket (upstreamSocket r) s) eqn:Hs.
    + apply same_socket_true in Hs. rewrite (on_message_current s data r Hs). now eexists.
    + rewrite on_message_stale; [now eexists|].
      intros Hu. apply same_socket_true in Hu. congruence.
  - unfold on_close, setTimeout. step_relay. cbn [upstreamSocket set_upstream_state].
    destruct (same_socket (upstreamSocket r) s); now eexists.
  - now eexists.
  - unfold on_connection. step_relay. apply connectUpstream_normal.
  - unfold on_subscriber_close. step_relay. now eexists.
  - now eexists.
  - step_relay. now eexists.
  - step_relay. now eexists.
  - step_relay. destruct (timers r) as [|due rest]; [now eexists|].
    destruct (due <=? clock r); [|now eexists].
    apply connectUpstream_normal.
Qed.


(** ** The listeners, in closed form *)

Lemma connectUpstream_run (r : relay) :
  connectUpstream r =
    (Normal tt,
     match upstreamSocket r with
     | Some s =>
         match state_of (upstream_state r) s with
         | OPEN | CONNECTING => r
         | _ =>
             set_upstreamSocket (Some (created r))
               (set_created (S (created r))
                  (set_upstream_state (<[created r := CONNECTING]> (upstream_state r)) r))
         end
     | None =>
         set_upstreamSocket (Some (created r))
           (set_created (S (created r))
              (set_upstream_state (<[created r := CONNECTING]> (upstream_state r)) r))
     end).
Proof.
  unfold connectUpstream, new_WebSocket. step_relay.
  destruct (upstreamSocket r) as [s|]; [|reflexivity].
  destruct (state_of (upstream_state r) s); reflexivity.
Qed.

(** [connectUpstream] touches the upstream side only, and the current
    socket it leaves is the one it found or the one it just created. *)
Lemma connectUpstream_frame (r : relay) :
  let r' := snd (connectUpstream r) in
  clients r' = clients r /\ delivered r' = delivered r /\
  subscriber_state r' = subscriber_state r /\ timers r' = timers r /\
  (created r <= created r')%nat /\
  (upstreamSocket r' = upstreamSocket r \/ upstreamSocket r' = Some (created r)).
Proof.
  rewrite connectUpstream_run. cbn [snd].
  destruct (upstreamSocket r) as [s|] eqn:Hu.
  - destruct (state_of (upstream_state r) s); cbn; rewrite ?Hu; repeat split; auto.
  - cbn. repeat split; auto.
Qed.

(** What one turn of the event loop does to the subscriber side. *)
Lemma deliver_subscribers (ev : event) (r : relay) :
  let r' := snd (deliver API_KEY ev r) in
  clients r' =
    match ev with
    | Connection ws => Set_add ws (clients r)
    | SubscriberClose ws => Set_delete ws (clients r)
    | _ => clients r
    end /\
  delivered r' =
    match ev with
    | UpstreamMessage s data =>
        if same_socket (upstreamSocket r) s
        then delivered r ++ map (fun ws => (ws, toString data)) (open_clients r)
        else delivered r
    | _ => delivered r
    end.
Proof.
  destruct (deliver_normal ev r) as (r' & Hr'). rewrite Hr'. cbn [snd]. revert Hr'.
  destruct ev as [s|s data|s|s|ws|ws|ws|ws st|ms|]; cbn [deliver].
  - unfold on_open, socket_close, socket_send. step_relay.
    cbn [upstreamSocket set_upstream_state upstream_state].
    destruct (negb (same_socket (upstreamSocket r) s));
      cbn [upstream_state set_upstream_state]; rewrite ?state_of_insert;
      intros [= <-]; now cbn.
  - destruct (same_socket (upstreamSocket r) s) eqn:Hs.
    + apply same_socket_true in Hs. rewrite (on_message_current s data r Hs).
      intros [= <-]. now cbn.
    + rewrite on_message_stale; [now intros [= <-]|].
      intros Hu. apply same_socket_true in Hu. congruence.
  - unfold on_close, setTimeout. step_relay. cbn [upstreamSocket set_upstream_state].
    destruct (same_socket (upstreamSocket r) s); intros [= <-]; now cbn.
  - now intros [= <-].
  - unfold on_connection.
    repeat (rewrite ServerFacts.bind_run; unfold modify at 1; cbn beta iota).
    match goal with |- context [connectUpstream ?x] =>
      pose proof (connectUpstream_frame x) as Hf
    end.
    intros Hr'. rewrite Hr' in Hf. cbn [snd] in Hf. destruct Hf as (Hc & Hd & _).
    rewrite Hc, Hd. now cbn.
  - unfold on_subscriber_close. step_relay. intros [= <-]. now cbn.
  - now intros [= <-].
  - step_relay. intros [= <-]. now cbn.
  - step_relay. intros [= <-]. now cbn.
  - rewrite ServerFacts.bind_run, ServerFacts.get_run. cbn beta iota.
    destruct (timers r) as [|due rest]; [now intros [= <-]|].
    destruct (due <=? clock r); [|now intros [= <-]].
    rewrite ServerFacts.bind_run. unfold modify. cbn beta iota.
    match goal with |- context [connectUpstream ?x] =>
      pose proof (connectUpstream_frame x) as Hf
    end.
    intros Hr'. rewrite Hr' in Hf. cbn [snd] in Hf. destruct Hf as (Hc & Hd & _).
    rewrite Hc, Hd. now cbn.
Qed.

(** ** The set of subscribers *)

Lemma existsb_eqb_In (ws : subscriber) (cs : list subscriber) :
  existsb (Nat.eqb ws) cs = true <-> In ws cs.
Proof.
  rewrite existsb_exists. split.
  - intros (c & Hin & He). apply Nat.eqb_eq in He. now subst.
  - intros Hin. exists ws. split; [exact Hin | apply Nat.eqb_refl].
Qed.

Lemma NoDup_snoc (ws : subscriber) (cs : list subscriber) :
  List.NoDup cs -> ~ In ws cs -> List.NoDup (cs ++ [ws]).
Proof.
  induction cs as [|c rest IH]; intros Hnd Hnotin; cbn.
  - constructor; [intros []|constructor].
  - inversion Hnd as [|? ? Hc Hrest]; subst. constructor.
    + rewrite in_app_iff. intros [Hin|[<-|[]]]; [contradiction|].
      apply Hnotin. now left.
    + apply IH; [exact Hrest|]. intros Hin. apply Hnotin. now right.
Qed.

Lemma Set_add_NoDup (ws : subscriber) (cs : list subscriber) :
  List.NoDup cs -> List.NoDup (Set_add ws cs).
Proof.
  intros Hnd. unfold Set_add. destruct (existsb (Nat.eqb ws) cs) eqn:He; [exact Hnd|].
  apply NoDup_snoc; [exact Hnd|]. intros Hin. apply existsb_eqb_In in Hin. congruence.
Qed.

Lemma Set_delete_NoDup (ws : subscriber) (cs : list subscriber) :
  List.NoDup cs -> List.NoDup (Set_delete ws cs).
Proof. intros Hnd. unfold Set_delete. now apply List.NoDup_filter. Qed.

Lemma Set_delete_not_In (ws : subscriber) (cs : list subscriber) :
  ~ In ws (Set_delete ws cs).
Proof.
  unfold Set_delete. rewrite filter_In. intros [_ Hn].
  rewrite Nat.eqb_refl in Hn. discriminate.
Qed.

Lemma deliver_NoDup (ev : event) (r : relay) :
  List.NoDup (clients r) -> List.NoDup (clients (snd (deliver API_KEY ev r))).
Proof.
  intros Hnd. destruct (deliver_subscribers ev r) as [Hc _]. rewrite Hc.
  destruct ev; auto using Set_add_NoDup, Set_delete_NoDup.
Qed.

(** Of the frames of one broadcast, a subscriber gets one if it is in the
    set with its socket open, and none otherwise. *)
Lemma received_of_broadcast (ws : subscriber) (message : text)
    (p : subscriber -> bool) (cs : list subscriber) :
  List.NoDup cs ->
  map snd (List.filter (fun d => Nat.eqb (fst d) ws)
             (map (fun c => (c, message)) (List.filter p cs))) =
    if existsb (Nat.eqb ws) cs && p ws then [message] else [].
Proof.
  induction cs as [|c rest IH]; intros Hnd; [reflexivity|].
  inversion Hnd as [|? ? Hnotin Hnd']; subst.
  specialize (IH Hnd'). cbn [List.filter existsb].
  destruct (Nat.eqb ws c) eqn:Hwc.
  - apply Nat.eqb_eq in Hwc. subst c. cbn [orb andb].
    assert (Hrest : existsb (Nat.eqb ws) rest = false).
    { destruct (existsb (Nat.eqb ws) rest) eqn:He; [|reflexivity].
      apply existsb_eqb_In in He. contradiction. }
    rewrite Hrest in IH. cbn [andb] in IH.
    destruct (p ws); [|exact IH].
    cbn [map List.filter fst]. rewrite Nat.eqb_refl. cbn [map snd]. now rewrite IH.
  - cbn [orb]. destruct (p c); [|exact IH].
    cbn [map List.filter fst]. rewrite Nat.eqb_sym, Hwc. exact IH.
Qed.

Lemma deliver_received (ev : event) (r : relay) (ws : subscriber) :
  List.NoDup (clients r) ->
  received ws (snd (deliver API_KEY ev r)) =
    received ws r ++ forwarded API_KEY ws [ev] r.
Proof.
  intros Hnd. destruct (deliver_subscribers ev r) as [_ Hd].
  unfold received. rewrite Hd. cbn [forwarded]. rewrite app_nil_r.
  destruct ev as [s|s data|s|s|c|c|c|c st|ms|]; try now rewrite app_nil_r.
  destruct (same_socket (upstreamSocket r) s); cbn [andb]; [|now rewrite app_nil_r].
  rewrite List.filter_app, map_app. f_equal.
  unfold open_clients. now rewrite received_of_broadcast.
Qed.

(** The frames a subscriber receives over a run of the event loop are the
    messages that reach it, in the order of their arrival. *)
Lemma run_received (evs : list event) (r : relay) (ws : subscriber) :
  List.NoDup (clients r) ->
  received ws (run API_KEY evs r) = received ws r ++ forwarded API_KEY ws evs r.
Proof.
  revert r. induction evs as [|ev rest IH]; intros r Hnd.
  - cbn. now rewrite app_nil_r.
  - cbn [run forwarded]. rewrite IH by now apply deliver_NoDup.
    rewrite (deliver_received ev r ws Hnd). cbn [forwarded].
    rewrite app_nil_r. now rewrite app_assoc.
Qed.


(** A subscriber that is not in the set gets nothing of a broadcast. *)
Lemma received_of_others (ws : subscriber) (message : text) (cs : list subscriber) :
  ~ In ws cs ->
  map snd (List.filter (fun d => Nat.eqb (fst d) ws) (map (fun c => (c, message)) cs)) = [].
Proof.
  induction cs as [|c rest IH]; intros Hnotin; [reflexivity|].
  cbn [map List.filter fst].
  destruct (Nat.eqb c ws) eqn:Hc.
  - apply Nat.eqb_eq in Hc. subst. exfalso. apply Hnotin. now left.
  - apply IH. intros Hin. apply Hnotin. now right.
Qed.

(** Once removed from the set, a subscriber stays out until it connects
    again, and is sent nothing. *)
Lemma run_absent (evs : list event) (r : relay) (ws : subscriber) :
  ~ In ws (clients r) ->
  forallb (fun ev => negb (is_connection_of ws ev)) evs = true ->
  received ws (run API_KEY evs r) = received ws r /\
  ~ In ws (clients (run API_KEY evs r)).
Proof.
  revert r. induction evs as [|ev rest IH]; intros r Hnotin Hevs; [now cbn|].
  cbn [forallb] in Hevs. apply andb_true_iff in Hevs. destruct Hevs as [Hev Hrest].
  apply negb_true_iff in Hev.
  destruct (deliver_subscribers ev r) as [Hc Hd].
  assert (Hnotin' : ~ In ws (clients (snd (deliver API_KEY ev r)))).
  { rewrite Hc. destruct ev as [s|s data|s|s|c|c|c|c st|ms|]; auto.
    - unfold Set_add. destruct (existsb (Nat.eqb c) (clients r)); [exact Hnotin|].
      rewrite in_app_iff. intros [Hin|[<-|[]]]; [contradiction|].
      cbn in Hev. rewrite Nat.eqb_refl in Hev. discriminate.
    - unfold Set_delete. rewrite filter_In. tauto. }
  assert (Hrecv : received ws (snd (deliver API_KEY ev r)) = received ws r).
  { unfold received. rewrite Hd.
    destruct ev as [s|s data|s|s|c|c|c|c st|ms|]; auto.
    destruct (same_socket (upstreamSocket r) s); [|reflexivity].
    rewrite List.filter_app, map_app, received_of_others; [now rewrite app_nil_r|].
    unfold open_clients. rewrite filter_In. tauto. }
  cbn [run]. destruct (IH _ Hnotin' Hrest) as [IH1 IH2].
  split; [now rewrite IH1 | exact IH2].
Qed.

(** C4, as the code has it.  Every message from the current upstream
    socket is forwarded to exactly the subscribers of the set whose socket
    is open at that moment, as the string [data.toString()], which [send]
    puts into a text frame.  The octets of that frame are the octets
    received whenever these are well-formed UTF-8, as the JSON text of the
    upstream is.  Over a run of the event loop a subscriber receives those
    messages in the order of their arrival, so [M] messages reach a
    connected subscriber as [M] frames in order; a subscriber removed by
    its close event receives nothing further; and no listener throws, so a
    missing subscriber or a socket that is not open fails no delivery. *)
Theorem relay_forwards_to_open_subscribers :
  (forall ev r, exists r', deliver API_KEY ev r = (Normal tt, r')) /\
  (forall r s data,
      upstreamSocket r = Some s ->
      delivered (snd (deliver API_KEY (UpstreamMessage s data) r)) =
        delivered r ++ map (fun ws => (ws, toString data)) (open_clients r)) /\
  (forall data, well_formed data -> text_frame (toString data) = data) /\
  (forall evs r ws,
      List.NoDup (clients r) ->
      received ws (run API_KEY evs r) = received ws r ++ forwarded API_KEY ws evs r) /\
  (forall datas r s ws,
      upstreamSocket r = Some s -> List.NoDup (clients r) ->
      In ws (clients r) -> state_of (subscriber_state r) ws = OPEN ->
      received ws (run API_KEY (map (UpstreamMessage s) datas) r) =
        received ws r ++ map toString datas) /\
  (forall evs r ws,
      forallb (fun ev => negb (is_connection_of ws ev)) evs = true ->
      let r' := snd (deliver API_KEY (SubscriberClose ws) r) in
      ~ In ws (clients r') /\
      received ws (run API_KEY evs r') = received ws r).
Proof.
  split; [exact deliver_normal|].
  split; [|split; [exact Utf8Facts.text_frame_toString|split; [exact run_received|split]]].
  - intros r s data Hu. cbn [deliver]. now rewrite (on_message_current s data r Hu).
  - intros datas r s ws Hu Hnd Hin Hopen. rewrite run_received by exact Hnd. f_equal.
    revert r Hu Hnd Hin Hopen. induction datas as [|d rest IH]; intros r Hu Hnd Hin Hopen.
    + reflexivity.
    + cbn [map forwarded deliver]. rewrite Hu. cbn [same_socket]. rewrite Nat.eqb_refl.
      apply existsb_eqb_In in Hin. rewrite Hin, Hopen. cbn [andb is_open app].
      f_equal. rewrite (on_message_current s d r Hu). cbn [snd].
      apply IH; cbn; auto. now apply existsb_eqb_In.
  - intros evs r ws Hevs r'.
    assert (Hc : clients r' = Set_delete ws (clients r))
      by apply (deliver_subscribers (SubscriberClose ws) r).
    assert (Hd : delivered r' = delivered r)
      by apply (deliver_subscribers (SubscriberClose ws) r).
    assert (Hnotin : ~ In ws (clients r')) by (rewrite Hc; apply Set_delete_not_In).
    split; [exact Hnotin|].
    destruct (run_absent evs r' ws Hnotin Hevs) as [Hr _].
    rewrite Hr. unfold received. now rewrite Hd.
Qed.

(** ** Reconnection *)

Lemma same_socket_false (u : option socket) (s : socket) :
  u <> Some s -> same_socket u s = false.
Proof.
  intros Hu. destruct (same_socket u s) eqn:Hs; [|reflexivity].
  apply same_socket_true in Hs. contradiction.
Qed.

(** The current socket after one turn is the one before, none, or the one
    created in this turn; and sockets are never un-created. *)
Lemma deliver_upstream (ev : event) (r : relay) :
  let r' := snd (deliver API_KEY ev r) in
  (created r <= created r')%nat /\
  (upstreamSocket r' = upstreamSocket r \/ upstreamSocket r' = None \/
   upstreamSocket r' = Some (created r)).
Proof.
  destruct (deliver_normal ev r) as (r' & Hr'). rewrite Hr'. cbn [snd]. revert Hr'.
  destruct ev as [s|s data|s|s|ws|ws|ws|ws st|ms|]; cbn [deliver].
  - unfold on_open, socket_close, socket_send. step_relay.
    cbn [upstreamSocket set_upstream_state upstream_state].
    destruct (negb (same_socket (upstreamSocket r) s));
      cbn [upstream_state set_upstream_state]; rewrite ?state_of_insert;
      intros [= <-]; cbn; auto.
  - destruct (same_socket (upstreamSocket r) s) eqn:Hs.
    + apply same_socket_true in Hs. rewrite (on_message_current s data r Hs).
      intros [= <-]. cbn. auto.
    + rewrite on_message_stale; [intros [= <-]; auto|].
      intros Hu. apply same_socket_true in Hu. congruence.
  - unfold on_close, setTimeout. step_relay. cbn [upstreamSocket set_upstream_state].
    destruct (same_socket (upstreamSocket r) s); intros [= <-]; cbn; auto.
  - intros [= <-]. auto.
  - unfold on_connection.
    repeat (rewrite ServerFacts.bind_run; unfold modify at 1; cbn beta iota).
    match goal with |- context [connectUpstream ?x] =>
      pose proof (connectUpstream_frame x) as Hf
    end.
    intros Hr'. rewrite Hr' in Hf. cbn [snd] in Hf.
    destruct Hf as (_ & _ & _ & _ & Hcr & Hu). cbn in Hcr, Hu. split; [exact Hcr|].
    destruct Hu; auto.
  - unfold on_subscriber_close. step_relay. intros [= <-]. cbn. auto.
  - intros [= <-]. auto.
  - step_relay. intros [= <-]. cbn. auto.
  - step_relay. intros [= <-]. cbn. auto.
  - rewrite ServerFacts.bind_run, ServerFacts.get_run. cbn beta iota.
    destruct (timers r) as [|due rest]; [intros [= <-]; auto|].
    destruct (due <=? clock r); [|intros [= <-]; auto].
    rewrite ServerFacts.bind_run. unfold modify. cbn beta iota.
    match goal with |- context [connectUpstream ?x] =>
      pose proof (connectUpstream_frame x) as Hf
    end.
    intros Hr'. rewrite Hr' in Hf. cbn [snd] in Hf.
    destruct Hf as (_ & _ & _ & _ & Hcr & Hu). cbn in Hcr, Hu. split; [exact Hcr|].
    destruct Hu; auto.
Qed.

(** A socket that exists and is not the current one never becomes it. *)
Lemma superseded_forever (evs : list event) (r : relay) (s : socket) :
  (s < created r)%nat -> upstreamSocket r <> Some s ->
  upstreamSocket (run API_KEY evs r) <> Some s.
Proof.
  revert r. induction evs as [|ev rest IH]; intros r Hs Hu; [exact Hu|].
  cbn [run]. destruct (deliver_upstream ev r) as (Hcr & Hcases).
  apply IH; [lia|].
  destruct Hcases as [-> | [-> | ->]]; [exact Hu | discriminate |].
  intros [= Heq]. lia.
Qed.

(** C5. When the current upstream socket closes, the relay has no current
    socket, creates none at that moment, and schedules one timer, due 5000
    milliseconds later; the timer does nothing before it is due and, once
    due with the relay still disconnected, creates exactly one socket,
    which becomes the current one (and none when a subscriber that joined
    in the meantime has the relay connecting or connected already).  A
    socket that is not the current one never becomes it, and its events
    are discarded: its message changes nothing, its close schedules
    nothing, its open only has it closed. *)
Theorem upstream_reconnects_once_and_ignores_stale :
  (forall r s,
      upstreamSocket r = Some s ->
      let r' := snd (deliver API_KEY (UpstreamClose s) r) in
      upstreamSocket r' = None /\
      timers r' = timers r ++ [clock r + 5000] /\
      created r' = created r) /\
  (forall r due rest,
      timers r = due :: rest ->
      (clock r < due -> snd (deliver API_KEY Timeout r) = r) /\
      (due <= clock r -> upstreamSocket r = None ->
       let r' := snd (deliver API_KEY Timeout r) in
       timers r' = rest /\
       upstreamSocket r' = Some (created r) /\
       created r' = S (created r) /\
       state_of (upstream_state r') (created r) = CONNECTING) /\
      (forall s,
          due <= clock r -> upstreamSocket r = Some s ->
          state_of (upstream_state r) s = OPEN \/
          state_of (upstream_state r) s = CONNECTING ->
          snd (deliver API_KEY Timeout r) = set_timers rest r)) /\
  (forall r s,
      upstreamSocket r <> Some s ->
      (forall data, snd (deliver API_KEY (UpstreamMessage s data) r) = r) /\
      (let r' := snd (deliver API_KEY (UpstreamClose s) r) in
       upstreamSocket r' = upstreamSocket r /\ timers r' = timers r /\
       created r' = created r) /\
      (let r' := snd (deliver API_KEY (UpstreamOpen s) r) in
       upstreamSocket r' = upstreamSocket r /\ timers r' = timers r /\
       created r' = created r /\ upstream_out r' = upstream_out r /\
       delivered r' = delivered r /\
       state_of (upstream_state r') s = CLOSING)) /\
  (forall evs r s,
      (s < created r)%nat -> upstreamSocket r <> Some s ->
      upstreamSocket (run API_KEY evs r) <> Some s).
Proof.
  split; [|split; [|split; [|exact superseded_forever]]].
  - intros r s Hu. cbn [deliver]. unfold on_close, setTimeout. step_relay.
    cbn [upstreamSocket set_upstream_state]. rewrite Hu. cbn [same_socket].
    rewrite Nat.eqb_refl. now cbn.
  - intros r due rest Ht. split; [|split].
    + intros Hlt. cbn [deliver]. step_relay. rewrite Ht.
      apply Z.leb_gt in Hlt. now rewrite Hlt.
    + intros Hle Hu. cbn [deliver].
      rewrite ServerFacts.bind_run, ServerFacts.get_run. cbn beta iota. rewrite Ht.
      apply Z.leb_le in Hle. rewrite Hle.
      rewrite ServerFacts.bind_run. unfold modify. cbn beta iota.
      rewrite connectUpstream_run. cbn [snd upstreamSocket set_timers]. rewrite Hu.
      cbn. now rewrite state_of_insert.
    + intros s Hle Hu Hbusy. cbn [deliver].
      rewrite ServerFacts.bind_run, ServerFacts.get_run. cbn beta iota. rewrite Ht.
      apply Z.leb_le in Hle. rewrite Hle.
      rewrite ServerFacts.bind_run. unfold modify. cbn beta iota.
      rewrite connectUpstream_run.
      cbn [snd upstreamSocket set_timers upstream_state]. rewrite Hu.
      destruct Hbusy as [-> | ->]; reflexivity.
  - intros r s Hu. pose proof (same_socket_false _ _ Hu) as Hs. split; [|split].
    + intros data. cbn [deliver]. now rewrite on_message_stale.
    + cbn [deliver]. unfold on_close. step_relay. cbn [upstreamSocket set_upstream_state].
      rewrite Hs. now cbn.
    + cbn [deliver]. unfold on_open, socket_close. step_relay.
      cbn [upstreamSocket set_upstream_state upstream_state]. rewrite Hs.
      cbn [negb snd upstream_state set_upstream_state]. rewrite state_of_insert.
      cbn [upstreamSocket timers created upstream_out delivered upstream_state
           set_upstream_state].
      rewrite state_of_insert. auto 10.
Qed.

End Handlers.
End RelayFacts.

(* ===================================================================== *)
(** * The statements on concrete runs *)
(* ===================================================================== *)

Module Runs.
Import Js Store Policy Server Forwarding Utf8 Relay Node Scenario.

(** ** Route cache policy *)

Ltac pick_entry := repeat (first [left; reflexivity | right]).

Ltac each_entry Hin tac :=
  cbn [In CACHE_TTLS] in Hin;
  repeat (destruct Hin as [Hin|Hin]; [tac|]); try contradiction.

(** An exact match, a nested path under two nested prefixes, and an
    unlisted path. *)
Lemma getCacheTTL_resolution_witness :
  getCacheTTL "/api/acled" = 900 /\
  getCacheTTL "/api/acled-conflict/2024" = 900 /\
  getCacheTTL "/api/unknown-thing" = 120.
Proof.
  destruct PolicyFacts.getCacheTTL_resolution as (Hexact & Hprefix & Hdefault & _).
  split; [|split].
  - apply Hexact. unfold CACHE_TTLS. pick_entry.
  - apply (Hprefix "/api/acled-conflict/2024" "/api/acled-conflict" 900).
    + intros t Hin. each_entry Hin ltac:(discriminate Hin).
    + unfold CACHE_TTLS. pick_entry.
    + reflexivity.
    + intros p t Hin Hp.
      each_entry Hin ltac:(injection Hin as <- <-; first [discriminate Hp | cbn; lia]).
  - apply Hdefault.
    + intros t Hin. each_entry Hin ltac:(discriminate Hin).
    + intros p t Hin. each_entry Hin ltac:(injection Hin as <- <-; reflexivity).
Defined.

(** ** The store client *)

(** A stored JSON text comes back parsed, another string comes back raw. *)
Lemma Redis_get_total_witness :
  Redis_get connected "list" process_values =
    (Normal (JArr [JNum 1; JNum 2]), process_values) /\
  Redis_get connected "word" process_values = (Normal (JStr "hello"), process_values) /\
  Redis_get connected "none" process_values = (Normal JNull, process_values).
Proof.
  split; [|split].
  - apply (proj1 (proj2 (proj2 (proj2 (proj2
             (StoreFacts.Redis_get_total connected "list" process_values)))))
             Store.Connection "[1,2]");
      vm_compute; reflexivity.
  - apply (proj2 (proj2 (proj2 (proj2 (proj2
             (StoreFacts.Redis_get_total connected "word" process_values)))))
             Store.Connection "hello");
      vm_compute; reflexivity.
  - apply (proj1 (proj2 (proj2 (proj2
             (StoreFacts.Redis_get_total connected "none" process_values)))));
      vm_compute; reflexivity.
Defined.

(** With the server down [setCachedJson] still answers [true], and nothing
    is stored. *)
Lemma setCachedJson_true_iff_client_witness :
  exists p1,
    setCachedJson "k" (JStr "v") (Some 60) process_down = (Normal true, p1) /\
    keys (db p1) = ∅.
Proof.
  exists (snd (getRedis process_down)). split; [|vm_compute; reflexivity].
  apply (proj2 (StoreFacts.setCachedJson_true_iff_client "k" (JStr "v") (Some 60) process_down)
           connected (snd (getRedis process_down)));
    vm_compute; reflexivity.
Defined.

(** ** The caching adapter *)

(** The first request of the scenario stores its entry. *)
Lemma cache_entry_written_iff_witness :
  db (proc after_first) =
    set_keys (<[cacheKey request0 := cache_entry request0 response0 1000]> ∅) server0.
Proof.
  destruct (ServerFacts.cache_entry_written_iff PORT URL_href handler0 route request0
              (exchange_of process0)) as (o & x' & Hrun & _ & Hwritten & _); [reflexivity|].
  assert (Hx : x' = after_first) by (unfold after_first; now rewrite Hrun).
  subst x'. apply (Hwritten response0).
  split; [exists web_request0; repeat split; vm_compute; reflexivity|].
  repeat split; try (vm_compute; reflexivity); try discriminate; lia.
Defined.



(** C3, as stated, fails.  With the server down, a GET on a cacheable route
    whose handler answers 200 with a body leaves no entry behind. *)
Lemma nothing_written_when_store_down :
  let x' :=
    snd (adaptEdgeHandler PORT URL_href handler0 route request0 (exchange_of process_down)) in
  method request0 = "GET" /\ NO_CACHE_has route = false /\
  expressToWebRequest PORT URL_href request0 = Normal web_request0 /\
  calls x' = [web_request0] /\
  handler0 web_request0 = Normal response0 /\
  200 <= status response0 < 300 /\ arrayBuffer response0 <> [] /\
  keys (db (proc x')) !! cacheKey request0 = None /\
  db (proc x') = db process_down.
Proof.
  repeat split; try (vm_compute; reflexivity); try (vm_compute; discriminate).
Qed.

(** C8, at the input where it fails.  The entry under the key is an
    envelope whose body field is a number: [Buffer.from] throws and the
    handler is called, but the header the replay had already set from the
    entry stays on the reply, which is not the response of the handler. *)
Theorem corrupt_envelope_header_leaks :
  live (db process_corrupt) (cacheKey request0) = Some (JSON_stringify corrupt_envelope) /\
  JSON_parse (JSON_stringify corrupt_envelope) = Some corrupt_envelope /\
  Buffer_from_base64 (Some (JNum 7)) = Throw (Error "The first argument must be of type string") /\
  expressToWebRequest PORT URL_href request0 = Normal web_request0 /\
  calls after_corrupt = [web_request0] /\
  statusCode (res after_corrupt) = JNum 200 /\
  sentBody (res after_corrupt) = ok_body /\
  sentHeaders (res after_corrupt) =
    [("x-stale", JStr "1"); ("x-cache", JStr "MISS"); ("content-type", JStr "text/plain")] /\
  assoc "x-stale" (response_headers plain_response) = None /\
  res after_corrupt <> reply_of "MISS" plain_response fresh.
Proof.
  repeat split; try (vm_compute; reflexivity); try (vm_compute; discriminate).
Qed.

(** C9, at the input where it fails.  The handler does [throw null].  The
    [catch] of the route function reads [err.message] for its log, which
    throws off [null]: the route function rejects, and nothing has been
    sent on the response object, which is as Express handed it over.  A
    handler that throws an [Error] is answered with the 500 reply. *)
Theorem null_throw_is_not_answered :
  expressToWebRequest PORT URL_href request0 = Normal web_request0 /\
  null_handler web_request0 = Throw (Thrown (Some JNull)) /\
  message_of (Thrown (Some JNull)) = Throw (Error "Cannot read properties of null") /\
  (let run := adaptEdgeHandler PORT URL_href null_handler route request0
                (exchange_of process0) in
   fst run = Throw (Error "Cannot read properties of null") /\
   calls (snd run) = [web_request0] /\
   res (snd run) = fresh /\
   headersSent (res (snd run)) = false) /\
  (exists x',
      adaptEdgeHandler PORT URL_href failing_handler route request0 (exchange_of process0) =
        (Normal tt, x') /\
      statusCode (res x') = JNum 500 /\ headersSent (res x') = true).
Proof.
  repeat split; try (vm_compute; reflexivity).
  eexists. repeat split; vm_compute; reflexivity.
Qed.

(** ** The relay *)

(** Two messages, with the first subscriber closing in between; their
    octets are below 128 and go out as they came. *)
Lemma relay_forwards_to_open_subscribers_witness :
  received 2%nat
    (run API_KEY [UpstreamMessage 0%nat (frame "a"); UpstreamMessage 0%nat (frame "b")]
       relay_open) = [text_of "a"; text_of "b"] /\
  text_frame (toString (frame "a")) = frame "a" /\
  received 1%nat
    (run API_KEY [UpstreamMessage 0%nat (frame "b")]
       (snd (deliver API_KEY (SubscriberClose 1%nat) relay_open))) = [].
Proof.
  destruct (RelayFacts.relay_forwards_to_open_subscribers API_KEY)
    as (_ & _ & Hsame & _ & Hmany & Hclosed).
  split; [|split].
  - apply (Hmany [frame "a"; frame "b"] relay_open 0%nat 2%nat).
    + vm_compute. reflexivity.
    + vm_compute. repeat constructor; cbn; intuition discriminate.
    + vm_compute. auto.
    + vm_compute. reflexivity.
  - apply Hsame. exists [97]. split; [|reflexivity].
    repeat constructor. unfold scalar. lia.
  - apply (Hclosed [UpstreamMessage 0%nat (frame "b")] relay_open 1%nat).
    vm_compute. reflexivity.
Defined.

(** C4, as stated, fails.  The upstream sends a frame whose payload is the
    one octet [FF], which is not UTF-8: [toString] makes U+FFFD of it, and
    the open subscriber is sent the three octets of that character. *)
Lemma ill_formed_payload_is_altered :
  upstreamSocket relay_open = Some 0%nat /\
  open_clients relay_open = [1%nat; 2%nat] /\
  received 1%nat (run API_KEY [UpstreamMessage 0%nat [Byte.xff]] relay_open) = [[65533]] /\
  text_frame [65533] = [Byte.xef; Byte.xbf; Byte.xbd] /\
  text_frame (toString [Byte.xff]) <> [Byte.xff].
Proof.
  repeat split; try (vm_compute; reflexivity); try (vm_compute; discriminate).
Qed.

(** The upstream socket closes at time 0; the timer is due at 5000. *)
Lemma upstream_reconnects_once_and_ignores_stale_witness :
  let closed := snd (deliver API_KEY (UpstreamClose 0%nat) relay_open) in
  timers closed = [5000] /\
  upstreamSocket closed = None /\
  upstreamSocket (run API_KEY [UpstreamOpen 0%nat; UpstreamMessage 0%nat (frame "late")]
                    (run API_KEY [Tick 5000; Timeout] closed)) <> Some 0%nat.
Proof.
  destruct (RelayFacts.upstream_reconnects_once_and_ignores_stale API_KEY)
    as (Hclose & _ & _ & Hnever).
  destruct (Hclose relay_open 0%nat) as (Hnone & Htimers & _); [vm_compute; reflexivity|].
  cbv zeta. split; [exact Htimers|]. split; [exact Hnone|].
  apply Hnever.
  - vm_compute. lia.
  - vm_compute. discriminate.
Defined.

End Runs.

(* ===================================================================== *)
(** * Theorems: retries, [del], [keys], [pipeline] and the cache helpers *)
(* ===================================================================== *)

Module CommandsFacts.
Import Js Store Commands.
Import StoreFacts.

(** X1. The delay before reconnection attempt [times] is [times * 200]
    milliseconds, never more than 1000 (the cap of 2000 is not reached),
    and from the sixth attempt on the strategy gives up. *)
Theorem retryStrategy_delays (times : Z) :
  (retryStrategy times = None <-> 5 < times) /\
  (times <= 5 -> retryStrategy times = Some (times * 200)) /\
  (forall delay, retryStrategy times = Some delay -> delay = times * 200 /\ delay <= 1000).
Proof.
  unfold retryStrategy. destruct (5 <? times) eqn:Ht.
  - apply Z.ltb_lt in Ht. repeat split; try lia; try discriminate.
  - apply Z.ltb_ge in Ht. repeat split; try discriminate; try lia.
    + intros _. f_equal. lia.
    + injection H as <-. lia.
    + injection H as <-. lia.
Qed.

(** ** The connection and the wrappers *)

Lemma getClient_run (p : process) :
  getClient p =
    match client p with
    | Some c => (Normal (Some c), p)
    | None =>
        if initFailed p then (Normal None, p)
        else if env_set (REDIS_URL p) then
          if ioredis_throws p then (Normal None, set_initFailed true p)
          else (Normal (Some Connection), set_client (Some Connection) p)
        else (Normal None, p)
    end.
Proof.
  unfold getClient. step_comp.
  destruct (client p) as [c|]; [reflexivity|].
  destruct (initFailed p); [reflexivity|].
  destruct (env_set (REDIS_URL p)); cbn [negb].
  - unfold new_IORedis. destruct (ioredis_throws p); reflexivity.
  - destruct (negb (env_set (UPSTASH_REDIS_REST_URL p))); reflexivity.
Qed.

(** X2. [getClient] is memoized: it completes normally, leaves the server
    alone, and from the state it leaves it returns the same result again
    without a further change.  A failed construction is final: once
    [initFailed] is set, [getClient] returns [null] in every state,
    whatever the environment and whether a construction would now
    succeed. *)
Theorem getClient_memoized :
  (forall p, exists r p1,
      getClient p = (Normal r, p1) /\ db p1 = db p /\
      getClient p1 = (Normal r, p1)) /\
  (forall p, client p = None -> initFailed p = false ->
             env_set (REDIS_URL p) = true -> ioredis_throws p = true ->
             getClient p = (Normal None, set_initFailed true p)) /\
  (forall q, client q = None -> initFailed q = true -> getClient q = (Normal None, q)).
Proof.
  split; [|split].
  - intros p. rewrite getClient_run.
    destruct (client p) as [c|] eqn:Hc.
    { exists (Some c), p. rewrite getClient_run, Hc. auto. }
    destruct (initFailed p) eqn:Hf.
    { exists None, p. rewrite getClient_run, Hc, Hf. auto. }
    destruct (env_set (REDIS_URL p)) eqn:He.
    + destruct (ioredis_throws p) eqn:Ht; eexists _, _; (split; [reflexivity|]);
        (split; [reflexivity|]); rewrite getClient_run; cbn; try rewrite Hc; reflexivity.
    + exists None, p. rewrite getClient_run, Hc, Hf, He. auto.
  - intros p Hc Hf He Ht. now rewrite getClient_run, Hc, Hf, He, Ht.
  - intros q Hc Hf. now rewrite getClient_run, Hc, Hf.
Qed.

Section Client.
Context `{Platform}.

Lemma new_Redis_run (p : process) :
  new_Redis p =
    (Normal {| _client := match fst (getClient p) with
                          | Normal c => c
                          | Throw _ => None
                          end |}, snd (getClient p)).
Proof.
  unfold new_Redis. step_comp. rewrite getClient_run.
  destruct (client p); [reflexivity|].
  destruct (initFailed p); [reflexivity|].
  destruct (env_set (REDIS_URL p)); [|reflexivity].
  destruct (ioredis_throws p); reflexivity.
Qed.

Lemma getClient_result (p : process) :
  exists c, fst (getClient p) = Normal c /\ c = client (snd (getClient p)) /\
            db (snd (getClient p)) = db p /\
            redisInitFailed (snd (getClient p)) = redisInitFailed p /\
            cacheRedisInitFailed (snd (getClient p)) = cacheRedisInitFailed p /\
            redis (snd (getClient p)) = redis p /\
            cacheRedis (snd (getClient p)) = cacheRedis p /\
            (client p = None -> ioredis_throws p = true -> c = None).
Proof.
  rewrite getClient_run.
  destruct (client p) as [c|] eqn:Hc.
  { exists (Some c). cbn. rewrite Hc. repeat split; congruence. }
  destruct (initFailed p) eqn:Hf.
  { exists None. cbn. rewrite Hc. repeat split; congruence. }
  destruct (env_set (REDIS_URL p)).
  - destruct (ioredis_throws p) eqn:Ht.
    + exists None. cbn. rewrite Hc. repeat split; congruence.
    + exists (Some Connection). cbn. repeat split; congruence.
  - exists None. cbn. rewrite Hc. repeat split; congruence.
Qed.

Lemma getRedis_run (p : process) :
  getRedis p =
    match redis p with
    | Some r => (Normal (Some r), p)
    | None =>
        if redisInitFailed p then (Normal None, p)
        else if env_set (REDIS_URL p) then
          let w := {| _client := client (snd (getClient p)) |} in
          (Normal (Some w), set_redis (Some w) (snd (getClient p)))
        else (Normal None, p)
    end.
Proof.
  unfold getRedis. step_comp.
  destruct (redis p) as [r|]; [reflexivity|].
  destruct (redisInitFailed p); [reflexivity|].
  destruct (env_set (REDIS_URL p)); cbn [negb]; [|reflexivity].
  rewrite new_Redis_run.
  destruct (getClient_result p) as (c & Hc & Heq & _). rewrite Hc. subst c. reflexivity.
Qed.

Lemma getCacheRedis_run (p : process) :
  getCacheRedis p =
    match cacheRedis p with
    | Some r => (Normal (Some r), p)
    | None =>
        if cacheRedisInitFailed p then (Normal None, p)
        else if env_set (REDIS_URL p) then
          let w := {| _client := client (snd (getClient p)) |} in
          (Normal (Some w), set_cacheRedis (Some w) (snd (getClient p)))
        else (Normal None, p)
    end.
Proof.
  unfold getCacheRedis. step_comp.
  destruct (cacheRedis p) as [r|]; [reflexivity|].
  destruct (cacheRedisInitFailed p); [reflexivity|].
  destruct (env_set (REDIS_URL p)); cbn [negb]; [|reflexivity].
  rewrite new_Redis_run.
  destruct (getClient_result p) as (c & Hc & Heq & _). rewrite Hc. subst c. reflexivity.
Qed.

(** X3. With [REDIS_URL] set, [getRedis] and [getCacheRedis] yield a
    wrapper object even when the connection could not be constructed: the
    wrapper then holds no connection, and it is the one returned from then
    on.  The failure is recorded by [getClient] alone: neither function
    ever raises its own [InitFailed] flag. *)
Theorem wrapper_without_connection :
  (forall p, redisInitFailed (snd (getRedis p)) = redisInitFailed p /\
             cacheRedisInitFailed (snd (getCacheRedis p)) = cacheRedisInitFailed p) /\
  (forall p, redis p = None -> redisInitFailed p = false ->
             env_set (REDIS_URL p) = true ->
             exists w p1,
               getRedis p = (Normal (Some w), p1) /\
               getRedis p1 = (Normal (Some w), p1) /\
               _client w = client p1 /\
               (client p = None -> ioredis_throws p = true ->
                _client w = None /\ initFailed p1 = true)) /\
  (forall p, cacheRedis p = None -> cacheRedisInitFailed p = false ->
             env_set (REDIS_URL p) = true ->
             exists w p1,
               getCacheRedis p = (Normal (Some w), p1) /\
               getCacheRedis p1 = (Normal (Some w), p1) /\
               _client w = client p1 /\
               (client p = None -> ioredis_throws p = true ->
                _client w = None /\ initFailed p1 = true)).
Proof.
  split; [|split].
  - intros p. rewrite getRedis_run, getCacheRedis_run.
    destruct (getClient_result p) as (c & _ & _ & _ & Hr & Hcr & _).
    split.
    + destruct (redis p); [reflexivity|].
      destruct (redisInitFailed p) eqn:Hf; [exact Hf|].
      destruct (env_set (REDIS_URL p)); [exact Hr | exact Hf].
    + destruct (cacheRedis p); [reflexivity|].
      destruct (cacheRedisInitFailed p) eqn:Hf; [exact Hf|].
      destruct (env_set (REDIS_URL p)); [exact Hcr | exact Hf].
  - intros p Hr Hf He. rewrite getRedis_run, Hr, Hf, He. cbn zeta.
    eexists _, _. split; [reflexivity|]. split; [now rewrite getRedis_run|].
    split; [reflexivity|]. intros Hc Ht. cbn [_client initFailed set_redis].
    rewrite getClient_run, Hc, He, Ht.
    destruct (initFailed p) eqn:Hi; cbn; rewrite Hc; auto.
  - intros p Hr Hf He. rewrite getCacheRedis_run, Hr, Hf, He. cbn zeta.
    eexists _, _. split; [reflexivity|]. split; [now rewrite getCacheRedis_run|].
    split; [reflexivity|]. intros Hc Ht. cbn [_client initFailed set_cacheRedis].
    rewrite getClient_run, Hc, He, Ht.
    destruct (initFailed p) eqn:Hi; cbn; rewrite Hc; auto.
Qed.

(** ** [del] and [keys] *)

Lemma Redis_del_run (this : Redis) (key : string) (p : process) :
  Redis_del this key p =
    match _client this with
    | None => (Normal (JNum 0), p)
    | Some _ =>
        if reachable (db p)
        then (Normal (JNum (match live (db p) key with Some _ => 1 | None => 0 end)),
              set_db (set_keys (delete key (keys (db p))) (db p)) p)
        else (Normal (JNum 0), p)
    end.
Proof.
  unfold Redis_del. destruct (_client this) as [c|]; [|reflexivity].
  step_comp. unfold ioredis_del.
  destruct (reachable (db p)); [reflexivity|]. now rewrite set_db_same.
Qed.

Lemma live_delete (d : server) (key other : string) :
  live (set_keys (delete key (keys d)) d) other =
    if String.eqb other key then None else live d other.
Proof.
  unfold live. cbn [keys set_keys now].
  destruct (String.eqb other key) eqn:He.
  - apply String.eqb_eq in He. subst. now rewrite lookup_delete_eq.
  - apply String.eqb_neq in He. now rewrite lookup_delete_ne by congruence.
Qed.

Lemma Redis_set_run (this : Redis) (key : string) (value : jsval) (ex : option Z)
    (p : process) :
  Redis_set this key value ex p =
    match _client this with
    | None => (Normal JNull, p)
    | Some _ =>
        if reachable (db p) then
          match (if ex_truthy ex then ex else None) with
          | Some seconds =>
              if seconds <=? 0 then (Normal JNull, p)
              else (Normal (JStr "OK"),
                    with_entry_at key (stored_text value) (Some (now (db p) + seconds)) p)
          | None =>
              (Normal (JStr "OK"), with_entry_at key (stored_text value) None p)
          end
        else (Normal JNull, p)
    end.
Proof.
  unfold Redis_set, with_entry_at. destruct (_client this) as [c|]; [|reflexivity].
  fold (stored_text value).
  destruct (ex_truthy ex) eqn:Hex; step_comp; unfold ioredis_set;
    (destruct (reachable (db p)); [|now rewrite set_db_same]).
  - destruct ex as [seconds|]; [|discriminate].
    destruct (seconds <=? 0); [now rewrite set_db_same | reflexivity].
  - reflexivity.
Qed.

(** X4. On a live connection [del] answers 1 when the key held a value
    that had not expired and 0 otherwise; afterwards [get] of the key is
    [null] and every other key reads as before.  In particular a key that
    [set] has just stored is removed with answer 1. *)
Theorem Redis_del_removes (this : Redis) (c : IORedis) (key : string) (p : process) :
  _client this = Some c -> reachable (db p) = true ->
  exists p1,
    Redis_del this key p =
      (Normal (JNum (match live (db p) key with Some _ => 1 | None => 0 end)), p1) /\
    Redis_get this key p1 = (Normal JNull, p1) /\
    (forall other, other <> key -> live (db p1) other = live (db p) other) /\
    (forall value ex p0,
        Redis_set this key value ex p0 = (Normal (JStr "OK"), p) ->
        Redis_del this key p = (Normal (JNum 1), p1)).
Proof.
  intros Hc Hr. rewrite Redis_del_run, Hc, Hr.
  eexists. split; [reflexivity|]. split; [|split].
  - rewrite Redis_get_run, Hc. cbn [db set_db reachable set_keys]. rewrite Hr.
    rewrite live_delete, String.eqb_refl. reflexivity.
  - intros other Hne. cbn [db set_db]. rewrite live_delete.
    apply String.eqb_neq in Hne. now rewrite Hne.
  - intros value ex p0. rewrite Redis_set_run, Hc.
    destruct (reachable (db p0)); [|discriminate].
    assert (Hlive : forall e, (forall t, e = Some t -> now (db p0) < t) ->
              live (db (with_entry_at key (stored_text value) e p0)) key =
                Some (stored_text value)).
    { intros e He. unfold live, with_entry_at. cbn [db set_db keys set_keys now].
      rewrite lookup_insert_eq. cbn [expires payload].
      destruct e as [t|]; [|reflexivity].
      assert (Hlt : (now (db p0) <? t) = true) by (apply Z.ltb_lt; now apply He).
      now rewrite Hlt. }
    destruct (if ex_truthy ex then ex else None) as [seconds|].
    + destruct (seconds <=? 0) eqn:Hs; [discriminate|]. apply Z.leb_gt in Hs.
      intros [= <-]. rewrite Hlive; [reflexivity|]. intros t [= <-]. lia.
    + intros [= <-]. rewrite Hlive; [reflexivity|]. discriminate.
Qed.

Section Keys.
Variable matching : string -> server -> list string.

(** X5. [del] and [keys] never throw.  Without a connection, or when the
    server cannot be reached, [del] answers 0 and [keys] the empty list,
    and nothing changes; on a live connection [keys] passes on the answer
    of the server. *)
Theorem Redis_del_keys_total (this : Redis) (key pattern : string) (p : process) :
  (exists n p', Redis_del this key p = (Normal (JNum n), p') /\ (n = 0 \/ n = 1)) /\
  (_client this = None \/ reachable (db p) = false ->
   Redis_del this key p = (Normal (JNum 0), p)) /\
  (exists ks, Redis_keys matching this pattern p = (Normal ks, p)) /\
  (_client this = None \/ reachable (db p) = false ->
   Redis_keys matching this pattern p = (Normal [], p)) /\
  (forall c, _client this = Some c -> reachable (db p) = true ->
             Redis_keys matching this pattern p = (Normal (matching pattern (db p)), p)).
Proof.
  assert (Hk : Redis_keys matching this pattern p =
                 (Normal (match _client this with
                          | None => []
                          | Some _ => if reachable (db p) then matching pattern (db p) else []
                          end), p)).
  { unfold Redis_keys. destruct (_client this) as [c|]; [|reflexivity].
    step_comp. unfold ioredis_keys. destruct (reachable (db p)); now rewrite set_db_same. }
  rewrite Redis_del_run, Hk. repeat split.
  - destruct (_client this); [destruct (reachable (db p))|]; [|eauto..].
    destruct (live (db p) key); eauto.
  - intros [-> | ->]; [reflexivity | now destruct (_client this)].
  - eauto.
  - intros [-> | ->]; [reflexivity | now destruct (_client this)].
  - now intros c -> ->.
Qed.

End Keys.

(** X29. On a wrapper that holds a connection, [mget] answers as [get]
    does key by key: the result lists, for the flattened keys in their
    order, what [get] returns for each, whether the server answers or not,
    and the state is left as it was. *)
Theorem Redis_mget_agrees_with_get (this : Redis) (c : IORedis) (ks : list key_arg)
    (p : process) :
  _client this = Some c ->
  Redis_mget this ks p = (Normal (map (got this p) (flat ks)), p).
Proof.
  intros Hc. rewrite (Redis_mget_connected this ks p c Hc). f_equal. f_equal.
  assert (Hgot : forall k, got this p k =
            if reachable (db p) then
              match live (db p) k with
              | None => JNull
              | Some raw => parsed_or_raw raw
              end
            else JNull).
  { intros k. unfold got. rewrite Redis_get_run, Hc. reflexivity. }
  destruct (reachable (db p)) eqn:Hr.
  - destruct (flat ks) as [|k rest]; [reflexivity|].
    apply map_ext. intros k0. now rewrite Hgot.
  - apply map_ext. intros k0. now rewrite Hgot.
Qed.

(** ** The pipeline *)

Lemma map_indexed_length {A B} (f : nat -> A -> completion B) (i : nat) (xs : list A) ys :
  map_indexed f i xs = Normal ys -> length ys = length xs.
Proof.
  revert i ys. induction xs as [|x rest IH]; intros i ys; cbn.
  - now intros [= <-].
  - destruct (f i x); [|discriminate].
    destruct (map_indexed f (S i) rest) eqn:Hm; [|discriminate].
    intros [= <-]. cbn. f_equal. eauto.
Qed.

Lemma run_batch_length (ws : list wire) (d : server) :
  length (fst (run_batch ws d)) = length ws.
Proof.
  revert d. induction ws as [|w rest IH]; intros d; [reflexivity|].
  cbn [run_batch]. destruct (wire_run w d) as [o d'].
  specialize (IH d'). destruct (run_batch rest d') as [os d'']. cbn in *. now rewrite IH.
Qed.

(** The results of a batch are shaped without a throw: there is a queued
    command at every position of the results. *)
Lemma shaped_all (pre cmds : list queued) (os : list (completion jsval)) :
  length os = length cmds ->
  exists vs, map_indexed (shaped (pre ++ cmds)) (length pre) os = Normal vs.
Proof.
  revert pre os. induction cmds as [|cmd rest IH]; intros pre os Hlen.
  - destruct os; [|discriminate]. now exists [].
  - destruct os as [|o os']; [discriminate|]. cbn [map_indexed].
    assert (Hi : (pre ++ cmd :: rest) !! length pre = Some cmd).
    { rewrite lookup_app_r by lia. now rewrite Nat.sub_diag. }
    assert (Ho : exists v, shaped (pre ++ cmd :: rest) (length pre) o = Normal v).
    { unfold shaped. destruct o as [val|e]; [|now eexists]. rewrite Hi.
      destruct cmd; [now eexists| |now eexists]. destruct val; now eexists. }
    destruct Ho as (v & ->).
    destruct (IH (pre ++ [cmd]) os') as (vs & Hvs); [cbn in Hlen; lia|].
    rewrite <- app_assoc in Hvs. cbn [app] in Hvs.
    rewrite length_app in Hvs. cbn [length] in Hvs.
    replace (length pre + 1)%nat with (S (length pre)) in Hvs by lia.
    rewrite Hvs. now eexists.
Qed.

Lemma queue_length (cmds : list queued) : length (queue cmds) = length cmds.
Proof. unfold queue. now rewrite length_map. Qed.

Lemma wire_run_unreachable (w : wire) (d : server) :
  reachable d = false -> wire_run w d = (Throw closed, d).
Proof.
  intros Hr. destruct w as [k s ex|k|k]; cbn [wire_run]; step_comp;
    unfold ioredis_set, ioredis_get, ioredis_del; now rewrite Hr.
Qed.

Lemma run_batch_unreachable (ws : list wire) (d : server) :
  reachable d = false ->
  run_batch ws d = (map (fun _ => Throw closed) ws, d).
Proof.
  intros Hr. induction ws as [|w rest IH]; [reflexivity|].
  cbn [run_batch map]. now rewrite (wire_run_unreachable w d Hr), IH.
Qed.

Lemma shaped_unreachable (all : list queued) (i : nat) (ws : list wire) :
  map_indexed (shaped all) i (map (fun _ => Throw closed) ws) =
    Normal (map (fun _ => JNull) ws).
Proof.
  revert i. induction ws as [|w rest IH]; intros i; [reflexivity|].
  cbn [map map_indexed shaped]. now rewrite IH.
Qed.

Section Pipeline.
Variable rejection : option error.

Lemma pipeline_exec_run (b : builder) (c : IORedis) (p : process) :
  _client (self b) = Some c ->
  exists vs,
    map_indexed (shaped (commands b)) 0 (fst (run_batch (queue (commands b)) (db p))) =
      Normal vs /\
    pipeline_exec None b p =
      (Normal vs, set_db (snd (run_batch (queue (commands b)) (db p))) p).
Proof.
  intros Hc.
  destruct (shaped_all [] (commands b) (fst (run_batch (queue (commands b)) (db p))))
    as (vs & Hvs); [now rewrite run_batch_length, queue_length|].
  cbn [app length] in Hvs. exists vs. split; [exact Hvs|].
  unfold pipeline_exec. rewrite Hc. step_comp. unfold ioredis_exec.
  destruct (run_batch (queue (commands b)) (db p)) as [os d']. cbn [fst snd] in *.
  now rewrite Hvs.
Qed.

(** X6. [exec] of a pipeline, the values queued being JSON values.  It
    answers the empty list when the wrapper holds no connection.  When the
    connection rejects the batch as a whole it answers the empty list too,
    unless what the connection rejects with is [null] or [undefined]: the
    [catch] reads the message off it, which throws, and [exec] rejects.
    Otherwise [exec] is fulfilled with one value per queued command, in
    the order queued; and when the server cannot be reached every one of
    them is [null] and nothing changes. *)
Theorem pipeline_exec_aligned (b : builder) (p : process) :
  (_client (self b) = None -> pipeline_exec rejection b p = (Normal [], p)) /\
  (forall c e,
      _client (self b) = Some c -> rejection = Some e ->
      pipeline_exec rejection b p =
        (match message_of e with
         | Normal _ => Normal []
         | Throw e' => Throw e'
         end, p)) /\
  (forall c,
      _client (self b) = Some c ->
      exists vs p',
        pipeline_exec None b p = (Normal vs, p') /\ length vs = length (commands b)) /\
  (forall c,
      _client (self b) = Some c -> reachable (db p) = false ->
      pipeline_exec None b p = (Normal (map (fun _ => JNull) (commands b)), p)).
Proof.
  split; [|split; [|split]].
  - intros Hc. unfold pipeline_exec. now rewrite Hc.
  - intros c e Hc ->. unfold pipeline_exec. rewrite Hc. step_comp. unfold ioredis_exec.
    cbn. rewrite set_db_same. now destruct (message_of e).
  - intros c Hc. destruct (pipeline_exec_run b c p Hc) as (vs & Hvs & Hrun).
    exists vs. eexists. split; [exact Hrun|].
    apply map_indexed_length in Hvs. now rewrite Hvs, run_batch_length, queue_length.
  - intros c Hc Hr. destruct (pipeline_exec_run b c p Hc) as (vs & Hvs & Hrun).
    rewrite Hrun. rewrite (run_batch_unreachable _ _ Hr) in *. cbn [fst snd] in *.
    rewrite shaped_unreachable in Hvs. injection Hvs as <-.
    rewrite set_db_same. unfold queue. now rewrite map_map.
Qed.

End Pipeline.

(** One queued command on a server that answers: the method of the wrapper
    returns what [exec] makes of the result of the command in the batch,
    and both leave the same server, which still answers. *)
Lemma single_wire (this : Redis) (c : IORedis) (all : list queued) (i : nat)
    (cmd : queued) (p : process) :
  _client this = Some c -> reachable (db p) = true ->
  all !! i = Some cmd ->
  exists o v d',
    wire_run (wire_of cmd) (db p) = (o, d') /\
    shaped all i o = Normal v /\
    single this cmd p = (Normal v, set_db d' p) /\
    reachable d' = true.
Proof.
  intros Hc Hr Hi. destruct cmd as [key value ex|key|key]; cbn [wire_of single].
  - rewrite Redis_set_run, Hc, Hr. fold (stored_text value).
    destruct (ex_truthy ex) eqn:Hex.
    + destruct ex as [seconds|]; [|discriminate].
      cbn [wire_run]. step_comp. unfold ioredis_set. rewrite Hr.
      destruct (seconds <=? 0).
      * eexists _, JNull, (db p). rewrite set_db_same. unfold shaped. auto.
      * eexists _, (JStr "OK"), _. unfold shaped. rewrite Hi.
        split; [reflexivity|]. split; [reflexivity|]. split; [reflexivity|]. exact Hr.
    + cbn [wire_run]. step_comp. unfold ioredis_set. rewrite Hr.
      eexists _, (JStr "OK"), _. unfold shaped. rewrite Hi.
      split; [reflexivity|]. split; [reflexivity|]. split; [reflexivity|]. exact Hr.
  - rewrite Redis_get_run, Hc, Hr. cbn [wire_run]. step_comp. unfold ioredis_get.
    rewrite Hr. unfold shaped. rewrite Hi.
    destruct (live (db p) key) as [s|].
    + eexists _, (parsed_or_raw s), (db p). rewrite set_db_same. auto.
    + eexists _, JNull, (db p). rewrite set_db_same. auto.
  - rewrite Redis_del_run, Hc, Hr. cbn [wire_run]. step_comp. unfold ioredis_del.
    rewrite Hr. unfold shaped. rewrite Hi.
    eexists _, (JNum _), _. split; [reflexivity|]. split; [reflexivity|].
    split; [reflexivity|]. exact Hr.
Qed.

Lemma batch_in_turn (this : Redis) (c : IORedis) (pre cmds : list queued) (p : process) :
  _client this = Some c -> reachable (db p) = true ->
  exists vs,
    map_indexed (shaped (pre ++ cmds)) (length pre)
      (fst (run_batch (queue cmds) (db p))) = Normal vs /\
    in_turn this cmds p = (Normal vs, set_db (snd (run_batch (queue cmds) (db p))) p).
Proof.
  intros Hc. revert pre p. induction cmds as [|cmd rest IH]; intros pre p Hr.
  - exists []. cbn. now rewrite set_db_same.
  - assert (Hi : (pre ++ cmd :: rest) !! length pre = Some cmd).
    { rewrite lookup_app_r by lia. now rewrite Nat.sub_diag. }
    destruct (single_wire this c (pre ++ cmd :: rest) (length pre) cmd p Hc Hr Hi)
      as (o & v & d' & Hw & Hs & Hsingle & Hr').
    unfold queue. cbn [map run_batch]. fold (queue rest). rewrite Hw.
    destruct (IH (pre ++ [cmd]) (set_db d' p)) as (vs & Hvs & Hturn); [exact Hr'|].
    rewrite db_set_db in Hvs, Hturn.
    rewrite <- app_assoc in Hvs. cbn [app] in Hvs.
    rewrite length_app in Hvs. cbn [length] in Hvs.
    replace (length pre + 1)%nat with (S (length pre)) in Hvs by lia.
    destruct (run_batch (queue rest) d') as [os d'']. cbn [fst snd] in *.
    exists (v :: vs). cbn [map_indexed]. rewrite Hs, Hvs. split; [reflexivity|].
    cbn [in_turn]. step_comp. rewrite Hsingle, Hturn. reflexivity.
Qed.

(** X7. On a connection whose server answers, [exec] of a pipeline returns
    what the methods [set], [get] and [del] of the wrapper return when the
    queued commands are awaited one after the other, and leaves the same
    store: ['OK'] or [null] for a [set] (an expiry below zero is refused),
    the parsed value, raw string or [null] for a [get], the count for a
    [del]. *)
Theorem pipeline_exec_in_turn (b : builder) (c : IORedis) (p : process) :
  _client (self b) = Some c -> reachable (db p) = true ->
  pipeline_exec None b p = in_turn (self b) (commands b) p.
Proof.
  intros Hc Hr. destruct (pipeline_exec_run b c p Hc) as (vs' & Hvs' & ->).
  destruct (batch_in_turn (self b) c [] (commands b) p Hc Hr) as (vs & Hvs & Hturn).
  cbn [app length] in Hvs. rewrite Hvs in Hvs'. injection Hvs' as <-. now rewrite Hturn.
Qed.

(** ** The cache helpers *)

Lemma getClient_set_db (d : server) (p : process) :
  getClient (set_db d p) = (fst (getClient p), set_db d (snd (getClient p))).
Proof.
  rewrite !getClient_run. cbn [client initFailed REDIS_URL ioredis_throws set_db].
  destruct (client p); [reflexivity|].
  destruct (initFailed p); [reflexivity|].
  destruct (env_set (REDIS_URL p)); [|reflexivity].
  destruct (ioredis_throws p); reflexivity.
Qed.

(** [getRedis] neither reads nor writes the server. *)
Lemma getRedis_set_db (d : server) (p : process) :
  getRedis (set_db d p) = (fst (getRedis p), set_db d (snd (getRedis p))).
Proof.
  rewrite !getRedis_run. cbn [redis redisInitFailed REDIS_URL set_db].
  destruct (redis p); [reflexivity|].
  destruct (redisInitFailed p); [reflexivity|].
  destruct (env_set (REDIS_URL p)); [|reflexivity].
  rewrite getClient_set_db. reflexivity.
Qed.

Lemma getRedis_memo (p p1 : process) (w : Redis) :
  getRedis p = (Normal (Some w), p1) ->
  getRedis p1 = (Normal (Some w), p1) /\ db p1 = db p.
Proof.
  rewrite getRedis_run.
  destruct (redis p) as [r|] eqn:Hr.
  { intros [= <- <-]. rewrite getRedis_run, Hr. auto. }
  destruct (redisInitFailed p); [discriminate|].
  destruct (env_set (REDIS_URL p)); [|discriminate].
  cbn zeta. intros [= <- <-]. rewrite getRedis_run. cbn [redis set_redis db].
  split; [reflexivity|].
  now destruct (getClient_result p) as (c & _ & _ & Hd & _).
Qed.

Lemma setCachedJson_run (key : string) (value : jsval) (ttl : option Z)
    (p p1 : process) (w : Redis) :
  getRedis p = (Normal (Some w), p1) ->
  setCachedJson key value ttl p = (Normal true, snd (Redis_set w key value ttl p1)).
Proof.
  intros Hg. unfold setCachedJson. step_comp. rewrite Hg.
  destruct (Redis_set_normal w key value ttl p1) as (v & p' & Hs). now rewrite Hs.
Qed.

Lemma getCachedJson_run (key : string) (p : process) (w : Redis) :
  getRedis p = (Normal (Some w), p) ->
  getCachedJson key p = Redis_get w key p.
Proof.
  intros Hg. unfold getCachedJson. step_comp. rewrite Hg, Redis_get_run. reflexivity.
Qed.

Lemma live_later (key text : string) (e : option Z) (elapsed : Z) (p : process) :
  live (elapse elapsed (db (with_entry_at key text e p))) key =
    match e with
    | Some t => if now (db p) + elapsed <? t then Some text else None
    | None => Some text
    end.
Proof.
  unfold live, elapse, with_entry_at. cbn [db set_db keys set_keys now].
  rewrite lookup_insert_eq. reflexivity.
Qed.

(** X8. Store, then read, through the cache helpers on a live connection:
    a value written with a TTL above zero is read back until the TTL has
    elapsed and is gone from then on.  What is read back is what
    [JSON.parse] makes of the stored text.  So a value that is not a
    string comes back as it was when it survives the trip through JSON;
    a string is stored as it is, and comes back parsed when it happens to
    be JSON text. *)
Theorem cached_json_round_trip (key : string) (value : jsval) (ttl elapsed : Z)
    (p p1 : process) (w : Redis) (c : IORedis) :
  getRedis p = (Normal (Some w), p1) -> _client w = Some c ->
  reachable (db p) = true -> 0 < ttl -> 0 <= elapsed ->
  exists p2,
    setCachedJson key value (Some ttl) p = (Normal true, p2) /\
    let later := set_db (elapse elapsed (db p2)) p2 in
    getCachedJson key later =
      (Normal (if elapsed <? ttl then parsed_or_raw (stored_text value) else JNull),
       later) /\
    (elapsed < ttl -> (forall s, value <> JStr s) ->
     JSON_parse (JSON_stringify value) = Some value ->
     getCachedJson key later = (Normal value, later)) /\
    (elapsed < ttl ->
     forall s v, value = JStr s -> JSON_parse s = Some v ->
                 getCachedJson key later = (Normal v, later)).
Proof.
  intros Hg Hc Hr Httl Hel.
  destruct (getRedis_memo p p1 w Hg) as (Hm & Hd).
  rewrite (setCachedJson_run key value (Some ttl) p p1 w Hg).
  rewrite Redis_set_run, Hc, Hd, Hr.
  assert (Hex : ex_truthy (Some ttl) = true).
  { unfold ex_truthy. apply negb_true_iff, Z.eqb_neq. lia. }
  rewrite Hex. assert (Hle : (ttl <=? 0) = false) by (apply Z.leb_gt; lia).
  rewrite Hle. cbn [snd]. eexists. split; [reflexivity|]. cbn zeta.
  set (p2 := with_entry_at key (stored_text value) (Some (now (db p) + ttl)) p1).
  assert (Hg2 : getRedis (set_db (elapse elapsed (db p2)) p2) =
                  (Normal (Some w), set_db (elapse elapsed (db p2)) p2)).
  { unfold p2, with_entry_at. rewrite !getRedis_set_db, Hm. reflexivity. }
  assert (Hget : getCachedJson key (set_db (elapse elapsed (db p2)) p2) =
                   (Normal (if elapsed <? ttl then parsed_or_raw (stored_text value)
                            else JNull),
                    set_db (elapse elapsed (db p2)) p2)).
  { rewrite (getCachedJson_run key _ w Hg2), Redis_get_run, Hc, db_set_db.
    unfold p2. rewrite live_later, Hd.
    assert (Hreach : reachable (elapse elapsed (db (with_entry_at key (stored_text value)
                       (Some (now (db p) + ttl)) p1))) = true).
    { unfold elapse, with_entry_at. cbn [db set_db reachable set_keys]. now rewrite Hd. }
    rewrite Hreach.
    destruct (elapsed <? ttl) eqn:Hlt.
    - apply Z.ltb_lt in Hlt.
      assert (Hl : (now (db p) + elapsed <? now (db p) + ttl) = true)
        by (apply Z.ltb_lt; lia).
      now rewrite Hl.
    - apply Z.ltb_ge in Hlt.
      assert (Hl : (now (db p) + elapsed <? now (db p) + ttl) = false)
        by (apply Z.ltb_ge; lia).
      now rewrite Hl. }
  split; [exact Hget|]. split.
  - intros Hlt Hns Hjson. rewrite Hget.
    apply Z.ltb_lt in Hlt. rewrite Hlt. unfold parsed_or_raw, stored_text.
    destruct value; try (now rewrite Hjson). exfalso. now apply (Hns s).
  - intros Hlt s v -> Hjson. rewrite Hget.
    apply Z.ltb_lt in Hlt. rewrite Hlt. unfold parsed_or_raw, stored_text.
    now rewrite Hjson.
Qed.

(** X9. The edges of the TTL of [setCachedJson], on a live connection.  A
    TTL that is left out or is 0 stores the value without expiry: it is
    read back however much time has passed.  A TTL below zero is refused
    by the server: nothing is stored, and [setCachedJson] still returns
    [true]. *)
Theorem cached_json_ttl_edges (key : string) (value : jsval) (ttl : option Z)
    (elapsed : Z) (p p1 : process) (w : Redis) (c : IORedis) :
  getRedis p = (Normal (Some w), p1) -> _client w = Some c ->
  reachable (db p) = true -> 0 <= elapsed ->
  (ttl = None \/ ttl = Some 0 ->
   exists p2,
     setCachedJson key value ttl p = (Normal true, p2) /\
     let later := set_db (elapse elapsed (db p2)) p2 in
     getCachedJson key later = (Normal (parsed_or_raw (stored_text value)), later)) /\
  (forall seconds, ttl = Some seconds -> seconds < 0 ->
     setCachedJson key value ttl p = (Normal true, p1) /\ db p1 = db p).
Proof.
  intros Hg Hc Hr Hel.
  destruct (getRedis_memo p p1 w Hg) as (Hm & Hd).
  rewrite (setCachedJson_run key value ttl p p1 w Hg).
  rewrite Redis_set_run, Hc, Hd, Hr. split.
  - intros Hzero.
    assert (Hex : (if ex_truthy ttl then ttl else None) = None).
    { destruct Hzero as [-> | ->]; reflexivity. }
    rewrite Hex. cbn [snd]. eexists. split; [reflexivity|]. cbn zeta.
    set (p2 := with_entry_at key (stored_text value) None p1).
    assert (Hg2 : getRedis (set_db (elapse elapsed (db p2)) p2) =
                    (Normal (Some w), set_db (elapse elapsed (db p2)) p2)).
    { unfold p2, with_entry_at. rewrite !getRedis_set_db, Hm. reflexivity. }
    rewrite (getCachedJson_run key _ w Hg2), Redis_get_run, Hc, db_set_db.
    unfold p2. rewrite live_later.
    assert (Hreach : reachable (elapse elapsed (db (with_entry_at key (stored_text value)
                       None p1))) = true).
    { unfold elapse, with_entry_at. cbn [db set_db reachable set_keys]. now rewrite Hd. }
    now rewrite Hreach.
  - intros seconds -> Hneg.
    assert (Hex : ex_truthy (Some seconds) = true).
    { unfold ex_truthy. apply negb_true_iff, Z.eqb_neq. lia. }
    rewrite Hex. assert (Hle : (seconds <=? 0) = true) by (apply Z.leb_le; lia).
    rewrite Hle. cbn [snd]. auto.
Qed.

End Client.

End CommandsFacts.

(* ===================================================================== *)
(** * Theorems: more on the caching adapter *)
(* ===================================================================== *)

Module AdapterFacts.
Import Js Store Policy Server Forwarding.
Import StoreFacts ServerFacts.

Create Rewrite HintDb steps.
Hint Rewrite @bind_run @ret_run @try_catch_run @complete_run @get_run
  @on_process_run @status_run @setHeader_run @setHeader_sent_run @send_run @json_run
  @end_run @invoke_run @for_each_setHeader @for_each_setHeader_sent : steps.

Ltac steps := repeat (progress (autorewrite with steps; cbn beta iota)).

(** X30. Every path gets a TTL of the table or the default: at least 60
    seconds and at most 3600.  So what the adapter stores always expires,
    within the hour. *)
Theorem getCacheTTL_bounds (path : string) :
  60 <= getCacheTTL path <= 3600 /\
  In (getCacheTTL path) (DEFAULT_TTL :: map snd CACHE_TTLS).
Proof.
  assert (Hin : In (getCacheTTL path) (DEFAULT_TTL :: map snd CACHE_TTLS)).
  { unfold getCacheTTL, getCacheTTL_in.
    assert (Hscan : In (scan_prefixes CACHE_TTLS path) (DEFAULT_TTL :: map snd CACHE_TTLS)).
    { unfold scan_prefixes. destruct (first_prefix CACHE_TTLS path) as [t|] eqn:Hf.
      - destruct (PolicyFacts.first_prefix_Some _ _ _ Hf) as (k & Hk & _).
        right. apply in_map_iff. now exists (k, t).
      - now left. }
    destruct (own_property CACHE_TTLS path) as [t|] eqn:Ho; [|exact Hscan].
    destruct (t =? 0); [exact Hscan|].
    right. apply in_map_iff. exists (path, t). split; [reflexivity|].
    exact (PolicyFacts.own_property_In _ _ _ Ho). }
  split; [|exact Hin].
  assert (Hall : forallb (fun t => (60 <=? t) && (t <=? 3600))
                   (DEFAULT_TTL :: map snd CACHE_TTLS) = true) by (vm_compute; reflexivity).
  rewrite forallb_forall in Hall. specialize (Hall _ Hin).
  apply andb_true_iff in Hall. destruct Hall as [H1 H2].
  apply Z.leb_le in H1, H2. lia.
Qed.

Section Adapter.
Context `{Platform}.
Variable PORT : string.
Variable URL_href : string -> option string.

(** ** The request handed to a handler *)

Lemma compare_refl (s : string) : String.compare s s = Eq.
Proof.
  pose proof (String.compare_antisym s s) as Ha.
  destruct (String.compare s s); [reflexivity | discriminate | discriminate].
Qed.

Lemma compare_neq (s t : string) : String.compare s t <> Eq -> String.eqb t s = false.
Proof.
  intros Hne. apply String.eqb_neq. intros ->. apply Hne. apply compare_refl.
Qed.

Lemma assoc_Headers_insert_same (k v : string) (hs : list (string * string)) :
  assoc k (Headers_insert k v hs) = Some v.
Proof.
  induction hs as [|[k' w] rest IH]; cbn [Headers_insert assoc].
  - now rewrite String.eqb_refl.
  - destruct (String.compare k k') eqn:E; cbn [assoc].
    + apply String.compare_eq_iff in E. subst k'. now rewrite String.eqb_refl.
    + now rewrite String.eqb_refl.
    + rewrite (compare_neq k k') by congruence. exact IH.
Qed.

Lemma assoc_Headers_insert_other (name k v : string) (hs : list (string * string)) :
  name <> k -> assoc name (Headers_insert k v hs) = assoc name hs.
Proof.
  intros Hne. induction hs as [|[k' w] rest IH]; cbn [Headers_insert assoc].
  - apply String.eqb_neq in Hne. rewrite String.eqb_sym in Hne. now rewrite Hne.
  - assert (Hk : String.eqb k name = false) by (apply String.eqb_neq; congruence).
    destruct (String.compare k k') eqn:E; cbn [assoc].
    + apply String.compare_eq_iff in E. subst k'. now rewrite Hk.
    + now rewrite Hk.
    + destruct (String.eqb k' name); [reflexivity | exact IH].
Qed.

Lemma Headers_insert_increasing (k v : string) (hs : list (string * string)) :
  increasing (map fst hs) -> increasing (map fst (Headers_insert k v hs)).
Proof.
  induction hs as [|[k' w] rest IH]; intros Hinc; cbn [Headers_insert map fst].
  - cbn. auto.
  - destruct (String.compare k k') eqn:E; cbn [map fst].
    + exact Hinc.
    + cbn [increasing]. split; [exact E | exact Hinc].
    + cbn [map fst increasing] in Hinc. destruct Hinc as [Hhead Hrest].
      specialize (IH Hrest). cbn [increasing]. split; [|exact IH].
      destruct rest as [|[k2 w2] rest2]; cbn [Headers_insert map fst].
      * rewrite String.compare_antisym, E. reflexivity.
      * cbn [map fst] in Hhead.
        destruct (String.compare k k2); cbn [map fst];
          [exact Hhead | rewrite String.compare_antisym, E; reflexivity | exact Hhead].
Qed.

(** The loop over the headers of a request whose names are in lower case,
    each once: it completes when every header to forward is taken, and
    then the headers set are those, over the ones set before. *)
Lemma copy_headers_run (hs : list (string * header_value)) (acc : list (string * string)) :
  Forall (fun h => lower_case (fst h) = true) hs ->
  List.NoDup (map fst hs) ->
  if forwardable hs then
    exists out,
      copy_headers hs acc = Normal out /\
      (increasing (map fst acc) -> increasing (map fst out)) /\
      (forall name,
          assoc name out =
            match forwarded hs name with
            | Some v => Some v
            | None => assoc name acc
            end)
  else exists err, copy_headers hs acc = Throw err.
Proof.
  intros Hlow Hnd. revert acc.
  induction hs as [|[k value] rest IH]; intros acc.
  { cbn. exists acc. auto. }
  inversion Hlow as [|? ? Hk Hrest]; subst. cbn [fst] in Hk.
  inversion Hnd as [|? ? Hnotin Hnd']; subst.
  unfold lower_case in Hk. apply String.eqb_eq in Hk.
  specialize (IH Hrest Hnd').
  assert (Hnone : forall name, k = name -> forwarded rest name = None).
  { intros name <-. unfold forwarded. now rewrite (NodeFacts.assoc_absent k rest Hnotin). }
  assert (Hskip : forwarded_value value = None ->
    copy_headers ((k, value) :: rest) acc = copy_headers rest acc /\
    forwardable ((k, value) :: rest) = forwardable rest /\
    forall name, forwarded ((k, value) :: rest) name = forwarded rest name).
  { intros Hv. split; [|split].
    - cbn [copy_headers]. destruct value as [v|vs|]; cbn in Hv; try discriminate;
        [|reflexivity]. destruct (String.eqb v ""); [reflexivity | discriminate].
    - cbn [forwardable forallb]. now rewrite Hv.
    - intros name. unfold forwarded at 1. cbn [assoc].
      destruct (String.eqb k name) eqn:E; [|reflexivity].
      apply String.eqb_eq in E. rewrite Hv. cbn. symmetry. now apply Hnone. }
  assert (Hset : forall v, forwarded_value value = Some v ->
    copy_headers ((k, value) :: rest) acc =
      match Headers_set k v acc with
      | Normal acc' => copy_headers rest acc'
      | Throw e => Throw e
      end /\
    forwardable ((k, value) :: rest) =
      is_token k && valid_value (normalize_value v) && forwardable rest /\
    forall name,
      forwarded ((k, value) :: rest) name =
        if String.eqb k name then Some (normalize_value v) else forwarded rest name).
  { intros v Hv. split; [|split].
    - cbn [copy_headers]. destruct value as [v0|vs|]; cbn in Hv; try discriminate.
      + destruct (String.eqb v0 ""); [discriminate|]. now injection Hv as ->.
      + now injection Hv as ->.
    - cbn [forwardable forallb]. now rewrite Hv.
    - intros name. unfold forwarded at 1. cbn [assoc].
      destruct (String.eqb k name); [now rewrite Hv | reflexivity]. }
  destruct (forwarded_value value) as [v|] eqn:Hv.
  - destruct (Hset v eq_refl) as (-> & -> & Hf). unfold Headers_set.
    destruct (is_token k); cbn [negb andb]; [|now eexists].
    destruct (valid_value (normalize_value v)); cbn [negb andb]; [|now eexists].
    rewrite Hk.
    specialize (IH (Headers_insert k (normalize_value v) acc)).
    destruct (forwardable rest); [|exact IH].
    destruct IH as (out & Hrun & Hinc & Hassoc). exists out. split; [exact Hrun|]. split.
    + intros Hacc. apply Hinc. now apply Headers_insert_increasing.
    + intros name. rewrite Hassoc, Hf.
      destruct (String.eqb k name) eqn:E.
      * apply String.eqb_eq in E. rewrite (Hnone name E). subst name.
        apply assoc_Headers_insert_same.
      * destruct (forwarded rest name); [reflexivity|].
        apply assoc_Headers_insert_other. apply String.eqb_neq in E. congruence.
  - destruct (Hskip eq_refl) as (-> & -> & Hf). specialize (IH acc).
    destruct (forwardable rest); [|exact IH].
    destruct IH as (out & Hrun & Hinc & Hassoc). exists out.
    split; [exact Hrun|]. split; [exact Hinc|].
    intros name. now rewrite Hassoc, Hf.
Qed.

(** A body is attached to POST, PUT and PATCH only, and only when the
    request has one. *)
Lemma body_of_iff (req : request) :
  body_of req <> None <->
  In (method req) ["POST"; "PUT"; "PATCH"] /\ body req <> NoBody.
Proof.
  unfold body_of.
  destruct (existsb (String.eqb (method req)) ["POST"; "PUT"; "PATCH"]) eqn:Hm.
  - apply existsb_exists in Hm. destruct Hm as (m & Hin & Heq).
    apply String.eqb_eq in Heq. subst m.
    destruct (body req); split; try tauto; try (intros _; split; [exact Hin|discriminate]);
      try discriminate.
  - split; [congruence|]. intros (Hin & _). exfalso.
    assert (Ht : existsb (String.eqb (method req)) ["POST"; "PUT"; "PATCH"] = true).
    { apply existsb_exists. exists (method req). split; [exact Hin | apply String.eqb_refl]. }
    congruence.
Qed.

Lemma body_of_method (req : request) :
  body_of req <> None ->
  String.eqb (normalize_method (method req)) "GET"
    || String.eqb (normalize_method (method req)) "HEAD" = false.
Proof.
  intros Hb. apply body_of_iff in Hb. destruct Hb as (Hin & _).
  destruct Hin as [<-|[<-|[<-|[]]]]; vm_compute; reflexivity.
Qed.

(** X15. What a handler is given of a request whose header names are in
    lower case, each once (as Node gives them).  The conversion throws
    nothing but [Error] objects, and it returns exactly when every header
    with a value to forward has a token for its name and a valid value,
    the URL parses, and the method is a token that is none of CONNECT,
    TRACE and TRACK.  The [Request] then has the URL as the parser
    serialized it and the method as the constructor normalized it; a body
    only for POST, PUT and PATCH, and only when the request has one; and
    its headers, which it iterates in the order of their names, hold under
    a name the value of the request, normalized, an array joined with a
    comma and a space, while a header whose value is the empty string or
    [undefined] is left out; a body that is a string adds the content type
    of text when the request names none. *)
Theorem expressToWebRequest_forwards (req : request) :
  Forall (fun h => lower_case (fst h) = true) (headers req) ->
  List.NoDup (map fst (headers req)) ->
  (forall err, expressToWebRequest PORT URL_href req = Throw err -> exists m, err = Error m) /\
  ((exists w, expressToWebRequest PORT URL_href req = Normal w) <->
   forwardable (headers req) = true /\ URL_href (url_text PORT req) <> None /\
   is_token (method req) = true /\ forbidden_method (method req) = false) /\
  (forall w,
      expressToWebRequest PORT URL_href req = Normal w ->
      URL_href (url_text PORT req) = Some (url w) /\
      web_method w = normalize_method (method req) /\
      (web_body w <> None <->
       In (method req) ["POST"; "PUT"; "PATCH"] /\ body req <> NoBody) /\
      increasing (map fst (web_headers w)) /\
      (forall name,
          assoc name (web_headers w) =
            match forwarded (headers req) name with
            | Some v => Some v
            | None =>
                if String.eqb name "content-type" && text_body (web_body w)
                then Some "text/plain;charset=UTF-8"
                else None
            end)).
Proof.
  intros Hlow Hnd.
  split; [intros err; apply expressToWebRequest_error|].
  pose proof (copy_headers_run (headers req) [] Hlow Hnd) as Hcopy.
  unfold expressToWebRequest.
  destruct (forwardable (headers req)).
  2:{ destruct Hcopy as (err & ->). split.
      - split; [intros (w & [=]) | intros ([=] & _)].
      - intros w [=]. }
  destruct Hcopy as (out & -> & Hinc & Hassoc). specialize (Hinc I).
  assert (Hout : forall name,
            assoc name out =
              match forwarded (headers req) name with Some v => Some v | None => None end).
  { intros name. now rewrite Hassoc. }
  clear Hassoc. unfold new_Request.
  destruct (URL_href (url_text PORT req)) as [href|].
  2:{ split; [split; [intros (w & [=]) | intros (_ & Hu & _); congruence] | intros w [=]]. }
  destruct (is_token (method req)); cbn [negb].
  2:{ split; [split; [intros (w & [=]) | intros (_ & _ & [=] & _)] | intros w [=]]. }
  destruct (forbidden_method (method req)).
  { split; [split; [intros (w & [=]) | intros (_ & _ & _ & [=])] | intros w [=]]. }
  pose proof (body_of_iff req) as Hiff. pose proof (body_of_method req) as Hmeth.
  destruct (body_of req) as [init|].
  - rewrite Hmeth by discriminate.
    split; [split; [intros _; repeat split; congruence | intros _; now eexists]|].
    intros w [= <-]. cbn [url web_method web_body web_headers].
    split; [reflexivity|]. split; [reflexivity|]. split; [exact Hiff|].
    destruct init as [text|buf]; cbn [text_body].
    + destruct (assoc "content-type" out) eqn:Hct.
      * split; [exact Hinc|]. intros name. rewrite Hout.
        destruct (forwarded (headers req) name) eqn:Hf; [reflexivity|].
        destruct (String.eqb name "content-type") eqn:E; [|reflexivity].
        apply String.eqb_eq in E. subst name. rewrite Hout, Hf in Hct. discriminate.
      * split; [now apply Headers_insert_increasing|]. intros name.
        destruct (String.eqb name "content-type") eqn:E.
        -- apply String.eqb_eq in E. subst name. rewrite assoc_Headers_insert_same.
           rewrite Hout in Hct. now destruct (forwarded (headers req) "content-type").
        -- rewrite assoc_Headers_insert_other by (apply String.eqb_neq in E; exact E).
           rewrite Hout. cbn [andb]. reflexivity.
    + split; [exact Hinc|]. intros name. rewrite Hout. rewrite andb_false_r. reflexivity.
  - split; [split; [intros _; repeat split; congruence | intros _; now eexists]|].
    intros w [= <-]. cbn [url web_method web_body web_headers text_body].
    split; [reflexivity|]. split; [reflexivity|]. split; [exact Hiff|].
    split; [exact Hinc|]. intros name. rewrite Hout. rewrite andb_false_r. reflexivity.
Qed.

(** ** Every request is answered, but one *)

(** The cache write completes normally and touches the process only. *)
Lemma cache_write_frame (req : request) (webResponse : web_response)
    (hs : list (string * string)) (buf : Base64.buffer) p r c :
  exists p2,
    cache_write req webResponse hs buf {| proc := p; res := r; calls := c |} =
      (Normal tt, {| proc := p2; res := r; calls := c |}).
Proof.
  unfold cache_write. steps.
  destruct (getCacheRedis_memo p) as (redis & p1 & Hg & _ & _). rewrite Hg. cbn [fst snd].
  destruct redis as [redis|]; steps; [|now eexists].
  match goal with |- context [Redis_set ?w ?k ?v ?e p1] =>
    destruct (Redis_set_normal w k v e p1) as (v' & p2 & Hs); rewrite Hs end.
  cbn [fst snd]. steps. now eexists.
Qed.

(** Where the conversion of the request throws for its method. *)
Lemma expressToWebRequest_forbidden (req : request) :
  forbidden_method (method req) = true ->
  exists m, expressToWebRequest PORT URL_href req = Throw (Error m).
Proof.
  intros Hf. destruct (expressToWebRequest PORT URL_href req) as [w|err] eqn:Hw.
  - exfalso. revert Hw. unfold expressToWebRequest, new_Request.
    destruct (copy_headers (headers req) []); [|discriminate].
    destruct (URL_href (url_text PORT req)); [|discriminate].
    destruct (negb (is_token (method req))); [discriminate|].
    rewrite Hf. discriminate.
  - destruct (expressToWebRequest_error PORT URL_href req err Hw) as (m & ->). now exists m.
Qed.

(** The [catch] on a response object that was sent already. *)
Lemma on_failure_sent (err : error) p r c :
  headersSent r = true ->
  on_failure err {| proc := p; res := r; calls := c |} =
    (match message_of err with
     | Normal _ => Normal tt
     | Throw e => Throw e
     end, {| proc := p; res := r; calls := c |}).
Proof.
  intros Hs. rewrite on_failure_run, Hs. now destruct (message_of err).
Qed.

(** The statements after the cache check on a response object that was
    sent already: nothing more is sent, and nothing leaves the [catch] but
    what reading the message throws off [undefined] or [null], when the
    handler threw that. *)
Lemma execute_sent (handler : edge_handler) (routePath : string) (req : request) p1 r1 c :
  headersSent r1 = true ->
  exists o p' r' c',
    try_catch (execute PORT URL_href handler (negb (NO_CACHE_has routePath)) req) on_failure
      {| proc := p1; res := r1; calls := c |} =
      (o, {| proc := p'; res := r'; calls := c' |}) /\
    headersSent r' = true /\
    (c' = c \/ exists w, expressToWebRequest PORT URL_href req = Normal w /\ c' = c ++ [w]) /\
    (o = Normal tt \/
     exists w err e,
       expressToWebRequest PORT URL_href req = Normal w /\ handler w = Throw err /\
       nullish err /\ o = Throw e /\ c' = c ++ [w]).
Proof.
  intros Hr1. rewrite try_catch_run. unfold execute. steps.
  destruct (expressToWebRequest PORT URL_href req) as [w|err] eqn:Hw; cbn beta iota.
  2:{ destruct (expressToWebRequest_error PORT URL_href req err Hw) as (m & ->).
      rewrite (on_failure_sent _ _ _ _ Hr1). cbn [message_of].
      eexists _, _, _, _. split; [reflexivity|]. auto. }
  steps. destruct (handler w) as [webResponse|err] eqn:Hh; cbn beta iota.
  2:{ rewrite (on_failure_sent _ _ _ _ Hr1).
      destruct (message_of err) as [details|e] eqn:Hm.
      - eexists _, _, _, _. split; [reflexivity|]. split; [exact Hr1|].
        split; [right; now exists w | now left].
      - eexists _, _, _, _. split; [reflexivity|]. split; [exact Hr1|].
        split; [right; now exists w|].
        right. exists w, err, e. repeat split; auto.
        apply message_of_nullish. now exists e. }
  steps. destruct r1 as [sc sh hs sb]. cbn in Hr1. subst hs.
  assert (Hw2 : exists p2,
    (if cacheable req (negb (NO_CACHE_has routePath)) webResponse (arrayBuffer webResponse)
     then cache_write req webResponse
            (collect_headers (response_headers webResponse)) (arrayBuffer webResponse)
     else mret tt)
      {| proc := p1;
         res := {| statusCode := sc; sentHeaders := sh; headersSent := true; sentBody := sb |};
         calls := c ++ [w] |} =
    (Normal tt,
     {| proc := p2;
        res := {| statusCode := sc; sentHeaders := sh; headersSent := true; sentBody := sb |};
        calls := c ++ [w] |})).
  { destruct (cacheable _ _ _ _); [apply cache_write_frame | now eexists]. }
  destruct Hw2 as (p2 & ->). cbn beta iota. steps.
  assert (Hfe : forall hs0,
    for_each hs0 (fun '(k, v) => on_res (res_setHeader k (JStr v)))
      {| proc := p2;
         res := {| statusCode := JNum (status webResponse); sentHeaders := sh;
                   headersSent := true; sentBody := sb |};
         calls := c ++ [w] |} =
    (match hs0 with [] => Normal tt | _ => Throw headers_sent_error end,
     {| proc := p2;
        res := {| statusCode := JNum (status webResponse); sentHeaders := sh;
                  headersSent := true; sentBody := sb |};
        calls := c ++ [w] |})).
  { intros [|[k v] rest]; reflexivity. }
  rewrite Hfe.
  destruct (collect_headers (response_headers webResponse)); cbn beta iota; steps;
    rewrite on_failure_sent by reflexivity; cbn [message_of headers_sent_error];
    eexists _, _, _, _; (split; [reflexivity|]); (split; [reflexivity|]);
    (split; [right; now exists w | now left]).
Qed.

(** X10. The route function replies in every case but one.  When the
    handler throws [undefined] or [null], the [catch] throws as it reads
    the message off it: the route function rejects, and this run has sent
    nothing.  In every other case, whatever the handler returns or throws
    (an [Error], or a value as [JSON.parse] produces them), whatever the
    request is and whatever the store holds, the route function completes
    normally and a reply has been sent.  The handler is called once at
    most, with what the request converts to. *)
Theorem adapter_always_replies (handler : edge_handler) (routePath : string)
    (req : request) (x : exchange) :
  exists o x',
    adaptEdgeHandler PORT URL_href handler routePath req x = (o, x') /\
    (calls x' = calls x \/
     exists w, expressToWebRequest PORT URL_href req = Normal w /\ calls x' = calls x ++ [w]) /\
    ((o = Normal tt /\ headersSent (res x') = true) \/
     (exists w err e,
        expressToWebRequest PORT URL_href req = Normal w /\ handler w = Throw err /\
        nullish err /\ o = Throw e /\ calls x' = calls x ++ [w] /\
        headersSent (res x') = headersSent (res x))).
Proof.
  destruct x as [p r c]. cbn [res calls].
  destruct (headersSent r) eqn:Hs.
  - (* a reply was sent before the route function ran *)
    assert (Hrest : forall p1 r1,
      headersSent r1 = true ->
      exists o x',
        try_catch (execute PORT URL_href handler (negb (NO_CACHE_has routePath)) req)
          on_failure {| proc := p1; res := r1; calls := c |} = (o, x') /\
        (calls x' = c \/
         exists w, expressToWebRequest PORT URL_href req = Normal w /\ calls x' = c ++ [w]) /\
        ((o = Normal tt /\ headersSent (res x') = true) \/
         (exists w err e,
            expressToWebRequest PORT URL_href req = Normal w /\ handler w = Throw err /\
            nullish err /\ o = Throw e /\ calls x' = c ++ [w] /\
            headersSent (res x') = true))).
    { intros p1 r1 Hr1.
      destruct (execute_sent handler routePath req p1 r1 c Hr1)
        as (o & p' & r' & c' & -> & Hr' & Hc' & Ho).
      eexists _, _. split; [reflexivity|]. cbn [res calls]. split; [exact Hc'|].
      destruct Ho as [->|(w & err & e & Hw & Hh & Hn & -> & ->)]; [left; auto|].
      right. exists w, err, e. auto 10. }
    unfold adaptEdgeHandler. rewrite try_catch_run, bind_run.
    destruct (String.eqb (method req) "GET" && negb (NO_CACHE_has routePath)).
    + destruct (cache_check_effect req p r c) as (b & p1 & r1 & Hcc & _ & _ & _ & Hb).
      rewrite Hcc. destruct b.
      * steps. eexists _, _. split; [reflexivity|]. cbn [res calls]. auto.
      * rewrite Hs in Hb. cbn beta iota. exact (Hrest p1 r1 Hb).
    + rewrite ret_run. cbn beta iota. exact (Hrest p r Hs).
  - destruct (adaptEdgeHandler_run PORT URL_href handler routePath req p r c Hs)
      as (replied & p1 & r1 & _ & _ & Hb & ->).
    destruct replied.
    { eexists _, _. split; [reflexivity|]. cbn [res calls]. auto. }
    destruct (expressToWebRequest PORT URL_href req) as [w|err] eqn:Hw.
    2:{ destruct (expressToWebRequest_error PORT URL_href req err Hw) as (m & ->).
        rewrite on_failure_run. cbn [message_of]. rewrite Hb.
        eexists _, _. split; [reflexivity|]. cbn [res calls error_reply headersSent]. auto. }
    destruct (handler w) as [webResponse|err] eqn:Hh.
    { eexists _, _. split; [reflexivity|]. cbn [res calls reply_of headersSent].
      split; [right; now exists w | now left]. }
    rewrite on_failure_run. rewrite Hb.
    destruct (message_of err) as [details|e] eqn:Hm.
    + eexists _, _. split; [reflexivity|]. cbn [res calls error_reply headersSent].
      split; [right; now exists w | now left].
    + eexists _, _. split; [reflexivity|]. cbn [res calls].
      split; [right; now exists w|]. right. exists w, err, e. repeat split; auto.
      apply message_of_nullish. now exists e.
Qed.

(** ** Requests that are not answered from the cache *)

(** With nothing live under the key, the cache check answers [false] and
    leaves the response object as it was. *)
Lemma cache_check_absent (req : request) p r c :
  live (db p) (cacheKey req) = None ->
  exists p1,
    cache_check req {| proc := p; res := r; calls := c |} =
      (Normal false, {| proc := p1; res := r; calls := c |}).
Proof.
  intros Hl. destruct (cache_client_run p) as (p1 & Hg & Hd & _).
  exists p1. unfold cache_check. steps. rewrite Hg. cbn [fst snd].
  destruct (cache_client p) as [redis|]; steps; [|reflexivity].
  rewrite Redis_get_run, Hd, Hl. cbn [fst snd].
  destruct (_client redis); [destruct (reachable (db p))|]; cbn [truthy]; steps; reflexivity.
Qed.

(** A request that is not looked up, or finds nothing live under its key,
    goes past the cache: it is converted and handed to the handler, and
    the reply is made from what the handler does. *)
Lemma adapter_miss (handler : edge_handler) (routePath : string) (req : request) p r c :
  headersSent r = false ->
  eligible req routePath = false \/ live (db p) (cacheKey req) = None ->
  exists p2,
    (eligible req routePath = false -> p2 = p) /\
    adaptEdgeHandler PORT URL_href handler routePath req {| proc := p; res := r; calls := c |} =
      served PORT URL_href handler req p2 r c.
Proof.
  intros Hfresh Hwhy.
  destruct (adaptEdgeHandler_run PORT URL_href handler routePath req p r c Hfresh)
    as (replied & p1 & r1 & Hcheck & Hdb & _ & Hrun).
  assert (Hmiss : replied = false /\ r1 = r /\ (eligible req routePath = false -> p1 = p)).
  { destruct (eligible req routePath) eqn:Hel.
    - destruct Hwhy as [Hwhy|Hl]; [discriminate|].
      destruct (cache_check_absent req p r c Hl) as (q & Hq).
      rewrite Hq in Hcheck. injection Hcheck as <- _ <-. repeat split. discriminate.
    - tauto. }
  destruct Hmiss as (-> & -> & Hp). rewrite Hrun. unfold served.
  destruct (expressToWebRequest PORT URL_href req) as [w|err]; [|now exists p1].
  destruct (handler w) as [webResponse|err]; [|now exists p1].
  eexists. split; [|reflexivity].
  intros Hel. unfold cacheable. unfold eligible in Hel. rewrite Hel. cbn [andb]. auto.
Qed.

(** A request that goes past the cache and converts: the handler is called
    with what it converts to, and a response of the handler is the reply,
    under the marker [MISS]. *)
Lemma served_called (handler : edge_handler) (req : request) p r c (w : web_request) :
  expressToWebRequest PORT URL_href req = Normal w ->
  calls (snd (served PORT URL_href handler req p r c)) = c ++ [w] /\
  (forall webResponse,
      handler w = Normal webResponse ->
      served PORT URL_href handler req p r c =
        (Normal tt, {| proc := p; res := reply_of "MISS" webResponse r; calls := c ++ [w] |})).
Proof.
  intros Hw. unfold served. rewrite Hw. split.
  - destruct (handler w) as [webResponse|err]; [reflexivity|].
    destruct (on_failure_frame err p r (c ++ [w])) as (o & r1 & -> & _). reflexivity.
  - intros webResponse ->. reflexivity.
Qed.


(** A handler that is called and throws is answered with the 500 reply,
    whose body is the JSON of the generic error and of the message read
    off what was thrown, unless that is [undefined] or [null]. *)
Lemma handler_failure_is_500 (handler : edge_handler) (routePath : string)
    (req : request) (x : exchange) (w : web_request) (err : error) :
  headersSent (res x) = false ->
  method req <> "GET" \/ NO_CACHE_has routePath = true \/
    live (db (proc x)) (cacheKey req) = None ->
  expressToWebRequest PORT URL_href req = Normal w ->
  handler w = Throw err ->
  ~ nullish err ->
  exists p1 details,
    message_of err = Normal details /\
    adaptEdgeHandler PORT URL_href handler routePath req x =
      (Normal tt,
       {| proc := p1;
          res :=
            {| statusCode := JNum 500;
               sentHeaders := sentHeaders (res x);
               headersSent := true;
               sentBody := list_byte_of_string (JSON_stringify (failure_body details)) |};
          calls := calls x ++ [w] |}).
Proof.
  destruct x as [p r c]. cbn [proc res calls]. intros Hfresh Hwhy Hw Hh Hnn.
  assert (Hwhy' : eligible req routePath = false \/ live (db p) (cacheKey req) = None).
  { destruct Hwhy as [Hm | [Hn | Hl]]; [left|left|now right]; unfold eligible.
    - apply String.eqb_neq in Hm. now rewrite Hm.
    - rewrite Hn. apply andb_false_r. }
  destruct (adapter_miss handler routePath req p r c Hfresh Hwhy') as (p2 & _ & ->).
  unfold served. rewrite Hw, Hh, on_failure_run, Hfresh.
  destruct (message_of err) as [details|e] eqn:Hm.
  - exists p2, details. split; reflexivity.
  - exfalso. apply Hnn. apply message_of_nullish. now exists e.
Qed.

(** ** Expiry and keys *)

(** The process after a run that called the handler and stored its
    response. *)
Lemma first_run_state (handler : edge_handler) (routePath : string)
    (req : request) (x x1 : exchange) (w : web_request) (webResponse : web_response) :
  headersSent (res x) = false ->
  adaptEdgeHandler PORT URL_href handler routePath req x = (Normal tt, x1) ->
  expressToWebRequest PORT URL_href req = Normal w ->
  calls x1 = calls x ++ [w] ->
  handler w = Normal webResponse ->
  method req = "GET" -> NO_CACHE_has routePath = false ->
  200 <= status webResponse < 300 -> arrayBuffer webResponse <> [] ->
  store_up (proc x) = true ->
  exists p1 redis,
    getCacheRedis p1 = (Normal (Some redis), p1) /\
    db p1 = db (proc x) /\ reachable (db (proc x)) = true /\
    proc x1 =
      with_entry (cacheKey req) (cache_entry req webResponse (now (db (proc x)))) p1.
Proof.
  intros Hfresh Hrun1 Hw Hcalls Hh Hm Hn Hs Hne Hup.
  destruct x as [p r c]. cbn [res calls proc] in *.
  destruct (adaptEdgeHandler_run PORT URL_href handler routePath req p r c Hfresh)
    as (replied & p1 & r1 & Hcheck & Hdb & _ & Hrun).
  rewrite Hrun in Hrun1.
  assert (Hel : eligible req routePath = true).
  { unfold eligible. rewrite Hm, Hn. reflexivity. }
  rewrite Hel in Hcheck.
  destruct replied.
  { injection Hrun1 as Hx1. subst x1. cbn in Hcalls. exfalso.
    exact (not_extended _ _ Hcalls). }
  rewrite Hw, Hh in Hrun1. injection Hrun1 as Hx1.
  assert (Hc : cacheable req (negb (NO_CACHE_has routePath)) webResponse
                 (arrayBuffer webResponse) = true) by (apply cacheable_true; auto).
  rewrite Hc in Hx1.
  destruct (cache_check_effect req p r c) as (b & p1' & r1' & Hcc & Hg & _ & Hmemo & _).
  rewrite Hcc in Hcheck. injection Hcheck as _ Hp1 _. subst p1'.
  unfold store_up in Hup.
  destruct (cache_client p) as [redis|] eqn:Hcl; [|discriminate].
  destruct (_client redis) as [conn|] eqn:Hconn; [|discriminate].
  unfold written in Hx1. rewrite Hconn, Hdb, Hup in Hx1.
  subst x1. cbn [proc]. exists p1, redis. rewrite Hdb. auto.
Qed.

Lemma live_elapse_None (d : server) (key : string) (elapsed : Z) :
  0 <= elapsed -> live d key = None -> live (elapse elapsed d) key = None.
Proof.
  intros Hel. unfold live, elapse. cbn [keys now].
  destruct (keys d !! key) as [e|]; [|reflexivity].
  destruct (expires e) as [t|]; [|discriminate].
  destruct (now d <? t) eqn:Hlt; [discriminate|]. intros _.
  apply Z.ltb_ge in Hlt.
  assert (Hl : (now d + elapsed <? t) = false) by (apply Z.ltb_ge; lia).
  now rewrite Hl.
Qed.

Lemma cacheKey_inj (req req' : request) :
  cacheKey req = cacheKey req' -> originalUrl req = originalUrl req'.
Proof.
  unfold cacheKey. generalize (originalUrl req) (originalUrl req'). intros u u' Heq.
  vm_compute in Heq. now injection Heq.
Qed.



(** ** The headers of a reply *)


End Adapter.
End AdapterFacts.

(* ===================================================================== *)
(** * Theorems: the relay over time *)
(* ===================================================================== *)

Module SessionFacts.
Import Js Relay Session.
Import RelayFacts.

Section Handlers.
Context `{Platform}.
Variable API_KEY : string.

(** ** One turn, in closed form *)

Lemma connectUpstream_connect (r : relay) : connectUpstream r = (Normal tt, connect r).
Proof.
  rewrite connectUpstream_run. unfold connect, active.
  destruct (upstreamSocket r) as [s|]; [|reflexivity].
  destruct (state_of (upstream_state r) s); reflexivity.
Qed.

Lemma deliver_next (ev : event) (r : relay) :
  deliver API_KEY ev r = (Normal tt, next API_KEY ev r).
Proof.
  destruct ev as [s|s data|s|s|ws|ws|ws|ws st|ms|]; cbn [deliver next].
  - unfold on_open, socket_close, socket_send. step_relay.
    cbn [upstreamSocket set_upstream_state upstream_state].
    destruct (same_socket (upstreamSocket r) s); cbn [negb];
      cbn [upstream_state set_upstream_state]; rewrite ?state_of_insert; reflexivity.
  - destruct (same_socket (upstreamSocket r) s) eqn:Hs.
    + apply same_socket_true in Hs. now rewrite (on_message_current s data r Hs).
    + rewrite on_message_stale; [reflexivity|].
      intros Hu. apply same_socket_true in Hu. congruence.
  - unfold on_close, setTimeout. step_relay. cbn [upstreamSocket set_upstream_state].
    destruct (same_socket (upstreamSocket r) s); reflexivity.
  - reflexivity.
  - unfold on_connection.
    repeat (rewrite ServerFacts.bind_run; unfold modify at 1; cbn beta iota).
    apply connectUpstream_connect.
  - unfold on_subscriber_close. step_relay. reflexivity.
  - reflexivity.
  - step_relay. reflexivity.
  - step_relay. reflexivity.
  - rewrite ServerFacts.bind_run, ServerFacts.get_run. cbn beta iota.
    destruct (timers r) as [|due rest]; [reflexivity|].
    destruct (due <=? clock r); [|reflexivity].
    rewrite ServerFacts.bind_run. unfold modify. cbn beta iota.
    apply connectUpstream_connect.
Qed.

Lemma take_event (ev : event) (r : relay) : take API_KEY (Event ev) r = next API_KEY ev r.
Proof. cbn [take]. now rewrite deliver_next. Qed.

(** ** At most one upstream connection *)

Lemma active_insert (r : relay) (s s' : socket) (st : readyState) :
  active (set_upstream_state (<[s := st]> (upstream_state r)) r) s' =
    if Nat.eqb s s' then match st with OPEN | CONNECTING => true | _ => false end
    else active r s'.
Proof.
  unfold active, state_of. cbn [upstream_state set_upstream_state].
  destruct (Nat.eqb s s') eqn:E.
  - apply Nat.eqb_eq in E. subst. now rewrite lookup_insert_eq.
  - apply Nat.eqb_neq in E. now rewrite lookup_insert_ne.
Qed.

Lemma connect_single (r : relay) : single_upstream r -> single_upstream (connect r).
Proof.
  intros Hinv. unfold connect.
  assert (Hfresh : (forall s, active r s = true -> False) ->
    single_upstream
      (set_upstreamSocket (Some (created r))
         (set_created (S (created r))
            (set_upstream_state (<[created r := CONNECTING]> (upstream_state r)) r)))).
  { intros Hnone s Hs. cbn [upstreamSocket set_upstreamSocket].
    change (active (set_upstream_state (<[created r := CONNECTING]> (upstream_state r)) r) s
            = true) in Hs.
    rewrite active_insert in Hs.
    destruct (Nat.eqb (created r) s) eqn:E.
    - apply Nat.eqb_eq in E. now subst.
    - exfalso. exact (Hnone s Hs). }
  destruct (upstreamSocket r) as [s|] eqn:Hu.
  - destruct (active r s) eqn:Ha; [exact Hinv|].
    apply Hfresh. intros s' Hs'. pose proof (Hinv s' Hs') as Heq.
    rewrite Hu in Heq. injection Heq as ->. congruence.
  - apply Hfresh. intros s' Hs'. pose proof (Hinv s' Hs'). congruence.
Qed.

Lemma take_single (t : turn) (r : relay) :
  single_upstream r -> allowed t r = true -> single_upstream (take API_KEY t r).
Proof.
  intros Hinv Hal. destruct t as [ev|s st].
  - rewrite take_event.
    destruct ev as [s|s data|s|s|ws|ws|ws|ws st|ms|]; cbn [next].
    + (* open: the socket was connecting, so it is the current one *)
      cbn [allowed] in Hal.
      assert (Ha : active r s = true).
      { unfold active. destruct (state_of (upstream_state r) s); congruence. }
      pose proof (Hinv s Ha) as Hu. rewrite Hu. cbn [same_socket]. rewrite Nat.eqb_refl.
      intros s' Hs'. cbn [upstreamSocket set_upstream_out set_upstream_state].
      change (active (set_upstream_state (<[s := OPEN]> (upstream_state r)) r) s' = true)
        in Hs'.
      rewrite active_insert in Hs'.
      destruct (Nat.eqb s s') eqn:E; [apply Nat.eqb_eq in E; now subst | now apply Hinv].
    + destruct (same_socket (upstreamSocket r) s); [|exact Hinv].
      intros s' Hs'. exact (Hinv s' Hs').
    + assert (Hrest : forall s',
        active (set_upstream_state (<[s := CLOSED]> (upstream_state r)) r) s' = true ->
        s' <> s /\ active r s' = true).
      { intros s' Hs'. rewrite active_insert in Hs'.
        destruct (Nat.eqb s s') eqn:E; [discriminate|].
        apply Nat.eqb_neq in E. split; [congruence | exact Hs']. }
      destruct (same_socket (upstreamSocket r) s) eqn:Hs.
      * apply same_socket_true in Hs. intros s' Hs'.
        destruct (Hrest s' Hs') as (Hne & Ha). pose proof (Hinv s' Ha). congruence.
      * intros s' Hs'. destruct (Hrest s' Hs') as (_ & Ha). exact (Hinv s' Ha).
    + exact Hinv.
    + apply connect_single. intros s' Hs'. exact (Hinv s' Hs').
    + intros s' Hs'. exact (Hinv s' Hs').
    + exact Hinv.
    + intros s' Hs'. exact (Hinv s' Hs').
    + intros s' Hs'. exact (Hinv s' Hs').
    + destruct (timers r) as [|due rest]; [exact Hinv|].
      destruct (due <=? clock r); [|exact Hinv].
      apply connect_single. intros s' Hs'. exact (Hinv s' Hs').
  - cbn [take allowed] in *. apply andb_true_iff in Hal. destruct Hal as [Hst _].
    intros s' Hs'. rewrite active_insert in Hs'.
    cbn [upstreamSocket set_upstream_state].
    destruct (Nat.eqb s s'); [|now apply Hinv].
    destruct st; cbn in Hst; discriminate.
Qed.

Lemma after_single (ts : list turn) (r : relay) :
  single_upstream r -> respects API_KEY ts r = true ->
  single_upstream (after API_KEY ts r).
Proof.
  revert r. induction ts as [|t rest IH]; intros r Hinv Hres; [exact Hinv|].
  cbn [respects] in Hres. apply andb_true_iff in Hres. destruct Hres as [Hal Hrest].
  cbn [after]. apply IH; [now apply take_single | exact Hrest].
Qed.

Lemma after_app (ts ts' : list turn) (r : relay) :
  after API_KEY (ts ++ ts') r = after API_KEY ts' (after API_KEY ts r).
Proof. revert r. induction ts as [|t rest IH]; intros r; [reflexivity | apply IH]. Qed.

Lemma respects_app (ts ts' : list turn) (r : relay) :
  respects API_KEY (ts ++ ts') r =
    respects API_KEY ts r && respects API_KEY ts' (after API_KEY ts r).
Proof.
  revert r. induction ts as [|t rest IH]; intros r; [reflexivity|].
  cbn [app respects after]. now rewrite IH, andb_assoc.
Qed.

(** X16. At most one upstream connection is open or connecting at any
    time.  From a relay in which every open or connecting socket is the
    current one (none is, at the start), and over turns in which sockets
    behave as the [ws] library has them, this stays so; two sockets that
    are open or connecting are the same socket; and an [open] event always
    finds its socket to be the current one. *)
Theorem at_most_one_upstream (ts : list turn) (r : relay) :
  (forall s, active r s = true -> upstreamSocket r = Some s) ->
  respects API_KEY ts r = true ->
  let r' := after API_KEY ts r in
  (forall s, active r' s = true -> upstreamSocket r' = Some s) /\
  (forall s s', active r' s = true -> active r' s' = true -> s = s') /\
  (forall s, allowed (Event (UpstreamOpen s)) r' = true -> upstreamSocket r' = Some s).
Proof.
  intros Hinv Hres. pose proof (after_single ts r Hinv Hres) as Hafter.
  cbn zeta. split; [exact Hafter|]. split.
  - intros s s' Hs Hs'. pose proof (Hafter s Hs). pose proof (Hafter s' Hs'). congruence.
  - intros s Hal. apply Hafter. cbn [allowed] in Hal. unfold active.
    destruct (state_of (upstream_state (after API_KEY ts r)) s); congruence.
Qed.

(** ** What is sent upstream *)

Lemma connect_upstream_out (r : relay) : upstream_out (connect r) = upstream_out r.
Proof.
  unfold connect. destruct (upstreamSocket r) as [s|]; [destruct (active r s)|]; reflexivity.
Qed.

(** X17. Nothing but the subscription is ever sent upstream, and every
    socket that opens is sent it once: over turns in which sockets behave
    as the [ws] library has them, the frames sent upstream are one
    subscription frame for each [open] event, to the socket that opened,
    in the order of the events. *)
Theorem upstream_gets_subscriptions_only (ts : list turn) (r : relay) :
  (forall s, active r s = true -> upstreamSocket r = Some s) ->
  respects API_KEY ts r = true ->
  upstream_out (after API_KEY ts r) =
    upstream_out r ++
    map (fun s => (s, JSON_stringify (subscription API_KEY))) (opened ts).
Proof.
  revert r. induction ts as [|t rest IH]; intros r Hinv Hres.
  - cbn. now rewrite app_nil_r.
  - cbn [respects] in Hres. apply andb_true_iff in Hres. destruct Hres as [Hal Hrest].
    cbn [after]. rewrite (IH _ (take_single t r Hinv Hal) Hrest).
    destruct t as [ev|s st]; [|reflexivity].
    rewrite take_event.
    destruct ev as [s|s data|s|s|ws|ws|ws|ws st|ms|]; cbn [next opened];
      try reflexivity.
    + cbn [allowed] in Hal.
      assert (Ha : active r s = true).
      { unfold active. destruct (state_of (upstream_state r) s); congruence. }
      rewrite (Hinv s Ha). cbn [same_socket]. rewrite Nat.eqb_refl.
      cbn [upstream_out set_upstream_out map]. now rewrite <- app_assoc.
    + destruct (same_socket (upstreamSocket r) s); reflexivity.
    + destruct (same_socket (upstreamSocket r) s); reflexivity.
    + now rewrite connect_upstream_out.
    + destruct (timers r) as [|due rest']; [reflexivity|].
      destruct (due <=? clock r); [|reflexivity]. now rewrite connect_upstream_out.
Qed.

(** ** The upstream connection is made on demand *)

Lemma run_next (evs : list event) (r : relay) :
  run API_KEY evs r = fold_left (fun r ev => next API_KEY ev r) evs r.
Proof.
  revert r. induction evs as [|ev rest IH]; intros r; [reflexivity|].
  cbn [run fold_left]. now rewrite deliver_next, IH.
Qed.

(** X18. The upstream connection is made when the first subscriber
    arrives, and once.  From a relay with no current socket and no timer
    pending, events among which there is no [connection] create no socket;
    and a number of subscribers arriving one after the other create one,
    which is then the current one. *)
Theorem upstream_made_on_demand :
  (forall evs r,
      upstreamSocket r = None -> timers r = [] ->
      forallb (fun ev => negb (is_connection ev)) evs = true ->
      created (run API_KEY evs r) = created r /\
      upstreamSocket (run API_KEY evs r) = None) /\
  (forall ws wss r,
      upstreamSocket r = None ->
      created (run API_KEY (map Relay.Connection (ws :: wss)) r) = S (created r) /\
      upstreamSocket (run API_KEY (map Relay.Connection (ws :: wss)) r) = Some (created r) /\
      state_of (upstream_state (run API_KEY (map Relay.Connection (ws :: wss)) r)) (created r)
        = CONNECTING).
Proof.
  split.
  - intros evs. induction evs as [|ev rest IH]; intros r Hu Ht Hevs; [auto|].
    cbn [forallb] in Hevs. apply andb_true_iff in Hevs. destruct Hevs as [Hev Hrest].
    cbn [run]. rewrite deliver_next. cbn [snd].
    assert (Hstep : upstreamSocket (next API_KEY ev r) = None /\ timers (next API_KEY ev r) = [] /\
                    created (next API_KEY ev r) = created r).
    { destruct ev as [s|s data|s|s|ws|ws|ws|ws st|ms|]; cbn [next];
        rewrite ?Hu, ?Ht; cbn [same_socket]; cbn; auto.
      discriminate. }
    destruct Hstep as (Hu' & Ht' & Hc').
    destruct (IH (next API_KEY ev r) Hu' Ht' Hrest) as (Hc & Hn). rewrite Hc, Hc'. auto.
  - intros ws wss r Hu.
    assert (Hfirst : forall ws0 r0,
      upstreamSocket r0 = None ->
      let r1 := next API_KEY (Relay.Connection ws0) r0 in
      created r1 = S (created r0) /\ upstreamSocket r1 = Some (created r0) /\
      state_of (upstream_state r1) (created r0) = CONNECTING).
    { intros ws0 r0 Hu0. cbn [next]. unfold connect.
      cbn [upstreamSocket set_clients set_subscriber_state]. rewrite Hu0.
      cbn. now rewrite state_of_insert. }
    assert (Hmore : forall wss0 r0 s,
      upstreamSocket r0 = Some s -> state_of (upstream_state r0) s = CONNECTING ->
      let r1 := run API_KEY (map Relay.Connection wss0) r0 in
      created r1 = created r0 /\ upstreamSocket r1 = Some s /\
      state_of (upstream_state r1) s = CONNECTING).
    { induction wss0 as [|w rest IH]; intros r0 s Hu0 Hs0; [cbn; auto|].
      cbn [map run]. rewrite deliver_next. cbn [snd].
      assert (Hsame : next API_KEY (Relay.Connection w) r0 =
                        set_clients (Set_add w (clients r0))
                          (set_subscriber_state (<[w := OPEN]> (subscriber_state r0)) r0)).
      { cbn [next]. unfold connect, active.
        cbn [upstreamSocket set_clients set_subscriber_state upstream_state].
        now rewrite Hu0, Hs0. }
      rewrite Hsame.
      destruct (IH (set_clients (Set_add w (clients r0))
                      (set_subscriber_state (<[w := OPEN]> (subscriber_state r0)) r0)) s)
        as (Hc & Hu1 & Hs1); [exact Hu0 | exact Hs0 |]. auto. }
    cbn [map run]. rewrite deliver_next. cbn [snd].
    destruct (Hfirst ws r Hu) as (Hc & Hu1 & Hs1).
    destruct (Hmore wss (next API_KEY (Relay.Connection ws) r) (created r) Hu1 Hs1)
      as (Hc2 & Hu2 & Hs2).
    cbn zeta in *. rewrite Hc2, Hc. auto.
Qed.

(** ** The set of subscribers and the health report *)

Lemma connect_clients (r : relay) :
  clients (connect r) = clients r /\ messageCount (connect r) = messageCount r.
Proof.
  unfold connect. destruct (upstreamSocket r) as [s|]; [destruct (active r s)|]; auto.
Qed.

Lemma member_Set_add (ws ws' : subscriber) (cs : list subscriber) :
  existsb (Nat.eqb ws) (Set_add ws' cs) =
    if Nat.eqb ws' ws then true else existsb (Nat.eqb ws) cs.
Proof.
  unfold Set_add. destruct (existsb (Nat.eqb ws') cs) eqn:He.
  - destruct (Nat.eqb ws' ws) eqn:E; [|reflexivity].
    apply Nat.eqb_eq in E. now subst.
  - rewrite existsb_app. cbn [existsb]. rewrite orb_false_r.
    rewrite (Nat.eqb_sym ws ws').
    destruct (Nat.eqb ws' ws) eqn:E; [apply orb_true_r | apply orb_false_r].
Qed.

Lemma member_Set_delete (ws ws' : subscriber) (cs : list subscriber) :
  existsb (Nat.eqb ws) (Set_delete ws' cs) =
    if Nat.eqb ws' ws then false else existsb (Nat.eqb ws) cs.
Proof.
  unfold Set_delete. induction cs as [|c rest IH]; cbn [List.filter existsb].
  - now destruct (Nat.eqb ws' ws).
  - destruct (Nat.eqb c ws') eqn:Ec; cbn [negb existsb].
    + apply Nat.eqb_eq in Ec. subst c. rewrite IH. rewrite (Nat.eqb_sym ws ws').
      now destruct (Nat.eqb ws' ws).
    + rewrite IH. destruct (Nat.eqb ws' ws) eqn:E; [|reflexivity].
      apply Nat.eqb_eq in E. subst ws'. rewrite (Nat.eqb_sym ws c), Ec. reflexivity.
Qed.

(** X19. A subscriber is in the set from its [connection] until its
    [close], and no other event changes that: not the [error] of its
    socket, not a change of state of the socket, not anything of the
    upstream side.  The set holds no subscriber twice. *)
Theorem subscriber_set_tracks_connections (evs : list event) (r : relay) :
  (forall ws,
      existsb (Nat.eqb ws) (clients (run API_KEY evs r)) =
        joined ws evs (existsb (Nat.eqb ws) (clients r))) /\
  (List.NoDup (clients r) -> List.NoDup (clients (run API_KEY evs r))).
Proof.
  split.
  - revert r. induction evs as [|ev rest IH]; intros r ws; [reflexivity|].
    cbn [run]. rewrite IH, deliver_next. cbn [snd].
    destruct ev as [s|s data|s|s|c|c|c|c st|ms|]; cbn [next joined]; try reflexivity.
    + destruct (same_socket (upstreamSocket r) s); reflexivity.
    + destruct (same_socket (upstreamSocket r) s); reflexivity.
    + destruct (same_socket (upstreamSocket r) s); reflexivity.
    + rewrite (proj1 (connect_clients _)). cbn [clients set_clients].
      now rewrite member_Set_add.
    + cbn [clients set_clients]. now rewrite member_Set_delete.
    + destruct (timers r) as [|due rest']; [reflexivity|].
      destruct (due <=? clock r); [|reflexivity].
      now rewrite (proj1 (connect_clients _)).
  - revert r. induction evs as [|ev rest IH]; intros r Hnd; [exact Hnd|].
    cbn [run]. apply IH. now apply deliver_NoDup.
Qed.

Lemma next_messageCount (ev : event) (r : relay) :
  messageCount (next API_KEY ev r) =
    messageCount r +
    match ev with
    | UpstreamMessage s _ => if same_socket (upstreamSocket r) s then 1 else 0
    | _ => 0
    end.
Proof.
  destruct ev as [s|s data|s|s|c|c|c|c st|ms|]; cbn [next]; try (cbn; lia).
  - destruct (same_socket (upstreamSocket r) s); cbn; lia.
  - destruct (same_socket (upstreamSocket r) s); cbn; lia.
  - destruct (same_socket (upstreamSocket r) s); cbn; lia.
  - rewrite (proj2 (connect_clients _)). cbn. lia.
  - destruct (timers r) as [|due rest']; [lia|].
    destruct (due <=? clock r); [|lia].
    rewrite (proj2 (connect_clients _)). cbn. lia.
Qed.

Lemma run_messageCount (evs : list event) (r : relay) :
  messageCount (run API_KEY evs r) = messageCount r + accepted API_KEY evs r.
Proof.
  revert r. induction evs as [|ev rest IH]; intros r; [cbn; lia|].
  cbn [run accepted]. rewrite IH, deliver_next. cbn [snd].
  rewrite next_messageCount. lia.
Qed.

(** X20. The health report after a sequence of events: the route replies
    with it, the counter of messages has grown by the number of messages
    that came from the socket that was the current one when they came (a
    message of a superseded socket does not count), and never shrinks; and
    over turns in which sockets behave as the [ws] library has them,
    [connected] is [true] exactly when some upstream socket is open. *)
Theorem health_report :
  (forall r, exists reply,
      ws_health r Server.fresh = (Normal tt, reply) /\
      Server.headersSent reply = true /\
      Server.sentBody reply = list_byte_of_string (JSON_stringify (health r))) /\
  (forall evs r,
      messageCount (run API_KEY evs r) = messageCount r + accepted API_KEY evs r /\
      messageCount r <= messageCount (run API_KEY evs r)) /\
  (forall ts r,
      (forall s, active r s = true -> upstreamSocket r = Some s) ->
      respects API_KEY ts r = true ->
      let r' := after API_KEY ts r in
      Js.assoc "connected" (Object_entries (health r')) = Some (JBool true) <->
      exists s, state_of (upstream_state r') s = OPEN).
Proof.
  split; [|split].
  - intros r. eexists. split; [reflexivity|]. split; reflexivity.
  - intros evs r. rewrite run_messageCount. split; [reflexivity|].
    assert (Hpos : forall evs0 r0, 0 <= accepted API_KEY evs0 r0).
    { induction evs0 as [|ev rest IH]; intros r0; [cbn; lia|].
      cbn [accepted]. specialize (IH (snd (deliver API_KEY ev r0))).
      destruct ev; try lia. destruct (same_socket (upstreamSocket r0) s); lia. }
    specialize (Hpos evs r). lia.
  - intros ts r Hinv Hres. pose proof (after_single ts r Hinv Hres) as Hafter.
    cbn zeta. set (r' := after API_KEY ts r) in *.
    unfold health. cbn [Object_entries Js.assoc String.eqb Ascii.eqb Bool.eqb].
    split.
    + intros [= Hc]. destruct (upstreamSocket r') as [s|]; [|discriminate].
      exists s. unfold is_open in Hc.
      destruct (state_of (upstream_state r') s); congruence.
    + intros (s & Hs). assert (Ha : active r' s = true) by (unfold active; now rewrite Hs).
      rewrite (Hafter s Ha), Hs. reflexivity.
Qed.

End Handlers.

End SessionFacts.

(* ===================================================================== *)
(** * Theorems: [hashString] *)
(* ===================================================================== *)

Module HashFacts.
Import Hash.

Lemma ToInt32_mod (x : Z) : ToInt32 x mod 4294967296 = x mod 4294967296.
Proof.
  unfold ToInt32. cbn zeta.
  pose proof (Z.mod_pos_bound x 4294967296 ltac:(lia)) as Hb.
  destruct (x mod 4294967296 <? 2147483648).
  - now rewrite Z.mod_mod by lia.
  - rewrite <- (Z.mod_add _ 1 4294967296) by lia.
    replace (x mod 4294967296 - 4294967296 + 1 * 4294967296) with (x mod 4294967296) by lia.
    now rewrite Z.mod_mod by lia.
Qed.

Lemma ToInt32_range (x : Z) : - 2147483648 <= ToInt32 x < 2147483648.
Proof.
  unfold ToInt32. cbn zeta.
  pose proof (Z.mod_pos_bound x 4294967296 ltac:(lia)) as Hb.
  destruct (x mod 4294967296 <? 2147483648) eqn:E.
  - apply Z.ltb_lt in E. lia.
  - apply Z.ltb_ge in E. lia.
Qed.

(** [hash << 5] is [hash * 32] on 32 bits. *)
Lemma shift_left_5 (hash : Z) :
  - 2147483648 <= shift_left hash 5 < 2147483648 /\
  shift_left hash 5 mod 4294967296 = (hash * 32) mod 4294967296.
Proof.
  unfold shift_left. change (ToUint32 5 mod 32) with 5.
  split; [apply ToInt32_range|].
  rewrite ToInt32_mod, Z.shiftl_mul_pow2 by lia. change (2 ^ 5) with 32.
  rewrite Z.mul_mod by lia. rewrite ToInt32_mod. now rewrite <- Z.mul_mod by lia.
Qed.

(** One turn of the loop, while the sums are exact. *)
Lemma hash_step (hash c : Z) :
  0 <= c < 65536 ->
  Z.abs hash + 2147549184 <= 9007199254740992 ->
  exists hash',
    add (shift_left hash 5) hash = Some (shift_left hash 5 + hash) /\
    add (shift_left hash 5 + hash) c = Some hash' /\
    Z.abs hash' <= Z.abs hash + 2147549184 /\
    hash' mod 4294967296 = ((hash mod 4294967296) * 33 + c) mod 4294967296.
Proof.
  intros Hc Hh. destruct (shift_left_5 hash) as (Hr & Hm).
  exists (shift_left hash 5 + hash + c). unfold add. cbn zeta.
  assert (H1 : (- 9007199254740992 <=? shift_left hash 5 + hash) &&
               (shift_left hash 5 + hash <=? 9007199254740992) = true).
  { apply andb_true_iff. split; apply Z.leb_le; lia. }
  assert (H2 : (- 9007199254740992 <=? shift_left hash 5 + hash + c) &&
               (shift_left hash 5 + hash + c <=? 9007199254740992) = true).
  { apply andb_true_iff. split; apply Z.leb_le; lia. }
  rewrite H1, H2. repeat split; [lia|].
  rewrite <- Z.add_assoc, Z.add_mod, Hm by lia.
  rewrite <- Z.add_mod by lia.
  replace (hash * 32 + (hash + c)) with (hash * 33 + c) by lia.
  rewrite (Z.add_mod (hash mod 4294967296 * 33)), Z.mul_mod_idemp_l by lia.
  now rewrite <- Z.add_mod by lia.
Qed.

Lemma hash_loop_djb2 (input : list Z) (hash : Z) :
  Forall (fun c => 0 <= c < 65536) input ->
  Z.abs hash + Z.of_nat (length input) * 2147549184 <= 9007199254740992 ->
  exists hash',
    hash_loop hash input = Some hash' /\
    hash' mod 4294967296 =
      fold_left (fun h c => (h * 33 + c) mod 4294967296) input (hash mod 4294967296).
Proof.
  revert hash. induction input as [|c rest IH]; intros hash Hu Hb.
  - exists hash. split; reflexivity.
  - inversion Hu as [|? ? Hc Hrest]; subst.
    cbn [length] in Hb. rewrite Nat2Z.inj_succ in Hb.
    destruct (hash_step hash c Hc) as (hash' & H1 & H2 & Habs & Hmod); [lia|].
    cbn [hash_loop]. rewrite H1, H2.
    destruct (IH hash' Hrest) as (final & Hf & Hfm); [lia|].
    exists final. split; [exact Hf|]. cbn [fold_left]. now rewrite <- Hmod.
Qed.

(** X21. [hashString] is the hash of Bernstein on 32 bits, written in the
    radix 36.  The loop lets the Number grow without wrapping it, and only
    the shift wraps; for an input of up to 2097152 code units every sum is
    exact, and the result is that of the hash that wraps at every turn. *)
Theorem hashString_is_djb2 (input : list Z) :
  Forall (fun c => 0 <= c < 65536) input ->
  Z.of_nat (length input) <= 2097152 ->
  hashString input = Some (toString36 (djb2 input)).
Proof.
  intros Hu Hlen.
  destruct (hash_loop_djb2 input 5381 Hu) as (hash & Hl & Hm); [lia|].
  unfold hashString, djb2, ToUint32. rewrite Hl, Hm. reflexivity.
Qed.

(** ** The numeral *)

Lemma digit_value_digit (d : Z) :
  0 <= d < 36 -> digit_value (digit d) = Some d.
Proof.
  intros Hd. unfold digit_value, digit. cbn zeta.
  assert (Hn : Z.of_N (N_of_ascii (ascii_of_N (Z.to_N (if d <? 10 then 48 + d else 87 + d))))
               = if d <? 10 then 48 + d else 87 + d).
  { rewrite N_ascii_embedding.
    - rewrite Z2N.id; [reflexivity|]. destruct (d <? 10); lia.
    - destruct (d <? 10) eqn:E; [apply Z.ltb_lt in E | apply Z.ltb_ge in E];
        apply N2Z.inj_lt; rewrite Z2N.id; cbn; lia. }
  rewrite Hn. destruct (d <? 10) eqn:E.
  - apply Z.ltb_lt in E.
    assert (H1 : (48 <=? 48 + d) && (48 + d <=? 57) = true)
      by (apply andb_true_iff; split; apply Z.leb_le; lia).
    rewrite H1. f_equal. lia.
  - apply Z.ltb_ge in E.
    assert (H1 : (48 <=? 87 + d) && (87 + d <=? 57) = false)
      by (apply andb_false_iff; right; apply Z.leb_gt; lia).
    assert (H2 : (97 <=? 87 + d) && (87 + d <=? 122) = true)
      by (apply andb_true_iff; split; apply Z.leb_le; lia).
    rewrite H1, H2. f_equal. lia.
Qed.

Lemma digits_app (fuel : nat) (n : Z) (acc : list ascii) :
  digits fuel n acc = digits fuel n [] ++ acc.
Proof.
  revert n acc. induction fuel as [|fuel IH]; intros n acc; [reflexivity|].
  cbn [digits]. destruct (n <? 36); [reflexivity|].
  rewrite (IH (n / 36) (digit (n mod 36) :: acc)), (IH (n / 36) [digit (n mod 36)]).
  now rewrite <- app_assoc.
Qed.

Lemma digits_read (fuel : nat) (n : Z) :
  0 <= n < 36 ^ Z.of_nat (S fuel) ->
  read_from (Some 0) (digits (S fuel) n []) = Some n /\
  (1 <= length (digits (S fuel) n []) <= S fuel)%nat /\
  Forall (fun c => digit_value c <> None) (digits (S fuel) n []).
Proof.
  revert n. induction fuel as [|fuel IH]; intros n Hn.
  - assert (Hs : n < 36) by (change (36 ^ Z.of_nat 1) with 36 in Hn; lia).
    cbn [digits]. apply Z.ltb_lt in Hs. rewrite Hs. apply Z.ltb_lt in Hs.
    rewrite Z.mod_small by lia.
    unfold read_from. cbn [fold_left length]. rewrite digit_value_digit by lia.
    split; [f_equal; lia|]. split; [lia|].
    constructor; [|constructor]. rewrite digit_value_digit by lia. discriminate.
  - remember (S fuel) as f eqn:Hf. cbn [digits]. destruct (n <? 36) eqn:E.
    + apply Z.ltb_lt in E. rewrite Z.mod_small by lia.
      unfold read_from. cbn [fold_left length]. rewrite digit_value_digit by lia.
      split; [f_equal; lia|]. split; [lia|].
      constructor; [|constructor]. rewrite digit_value_digit by lia. discriminate.
    + apply Z.ltb_ge in E. rewrite digits_app.
      assert (Hq : 0 <= n / 36 < 36 ^ Z.of_nat f).
      { rewrite Nat2Z.inj_succ, Z.pow_succ_r in Hn by lia.
        split; [apply Z.div_pos; lia|]. apply Z.div_lt_upper_bound; lia. }
      destruct (IH (n / 36) Hq) as (Hr & Hl & Hfa).
      pose proof (Z.mod_pos_bound n 36 ltac:(lia)) as Hm.
      unfold read_from in *. rewrite fold_left_app, Hr. cbn [fold_left].
      rewrite digit_value_digit by lia. rewrite length_app. cbn [length].
      split; [f_equal; pose proof (Z.div_mod n 36 ltac:(lia)); lia|].
      split; [lia|].
      apply Forall_app. split; [exact Hfa|].
      constructor; [|constructor]. rewrite digit_value_digit by lia. discriminate.
Qed.

Lemma length_string_of_list_ascii (l : list ascii) :
  String.length (string_of_list_ascii l) = length l.
Proof. induction l as [|c rest IH]; cbn; [reflexivity | now rewrite IH]. Qed.

(** The hash of Bernstein on 32 bits is below 2^32. *)
Lemma djb2_range (input : list Z) : 0 <= djb2 input < 4294967296.
Proof.
  unfold djb2.
  assert (Hgen : forall h, 0 <= h < 4294967296 ->
            0 <= fold_left (fun h c => (h * 33 + c) mod 4294967296) input h < 4294967296).
  { induction input as [|c rest IH]; intros h Hh; [exact Hh|].
    cbn [fold_left]. apply IH. apply Z.mod_pos_bound. lia. }
  apply Hgen. lia.
Qed.

(** X22. For an input of up to 2097152 code units, the result of
    [hashString] is a numeral of the radix 36 of one to seven characters,
    each a digit or a lower-case letter, that reads back as the hash of
    Bernstein of the input on 32 bits; so two such inputs get the same
    string exactly when they have the same hash. *)
Theorem hashString_numeral (input : list Z) :
  Forall (fun c => 0 <= c < 65536) input ->
  Z.of_nat (length input) <= 2097152 ->
  exists out,
    hashString input = Some out /\
    (1 <= String.length out <= 7)%nat /\
    Forall (fun c => digit_value c <> None) (list_ascii_of_string out) /\
    parse36 out = Some (djb2 input) /\
    forall input',
      Forall (fun c => 0 <= c < 65536) input' ->
      Z.of_nat (length input') <= 2097152 ->
      (hashString input' = Some out <-> djb2 input' = djb2 input).
Proof.
  assert (Hnum : forall n, 0 <= n < 4294967296 ->
            (1 <= String.length (toString36 n) <= 7)%nat /\
            Forall (fun c => digit_value c <> None) (list_ascii_of_string (toString36 n)) /\
            parse36 (toString36 n) = Some n).
  { intros n Hn. unfold toString36, parse36.
    rewrite length_string_of_list_ascii, list_ascii_of_string_of_list_ascii.
    destruct (digits_read 6 n) as (Hr & Hl & Hf); [change (36 ^ Z.of_nat 7) with 78364164096; lia|]. auto. }
  assert (Hrun : forall i,
            Forall (fun c => 0 <= c < 65536) i -> Z.of_nat (length i) <= 2097152 ->
            hashString i = Some (toString36 (djb2 i))).
  { intros i Hu Hlen.
    destruct (hash_loop_djb2 i 5381 Hu) as (hash & Hl & Hm); [lia|].
    unfold hashString, djb2, ToUint32. rewrite Hl, Hm. reflexivity. }
  intros Hu Hlen. exists (toString36 (djb2 input)).
  destruct (Hnum (djb2 input) (djb2_range input)) as (Hl & Hf & Hp).
  split; [exact (Hrun input Hu Hlen)|]. split; [exact Hl|]. split; [exact Hf|].
  split; [exact Hp|].
  intros input' Hu' Hlen'. rewrite (Hrun input' Hu' Hlen').
  destruct (Hnum (djb2 input') (djb2_range input')) as (_ & _ & Hp').
  split.
  - intros [= Heq]. rewrite Heq in Hp'. congruence.
  - intros ->. reflexivity.
Qed.

End HashFacts.

(* ===================================================================== *)
(** * Theorems: the registration of the API routes *)
(* ===================================================================== *)

Module RoutesFacts.
Import Routes.

(** Induction over a tree and its entries together. *)
Lemma node_rect' (P : node -> Prop) :
  (forall name, P (File name)) ->
  (forall name entries, Forall P entries -> P (Directory name entries)) ->
  forall n, P n.
Proof.
  intros Hfile Hdir. fix IH 1. intros [name|name entries].
  - apply Hfile.
  - apply Hdir. induction entries as [|e rest IHrest]; constructor; [apply IH | exact IHrest].
Qed.

Section Modules.
Variable loads : string -> bool.
Variable accepts : string -> bool.

(** X23. Which modules are registered, and under which route.  A route is
    registered for a file exactly when the file lies in the tree under
    directories none of which is named [data], its name yields a segment
    (it ends in [.js] and does not start with an underscore), its module
    loads, and the router takes the route, which it does not when it cannot
    compile the path; the route is [/api], the directories, and the
    segment; the module is the one at the path of the file. *)
Theorem registered_routes (dirname : string) (api : list node) (route file : string) :
  In (route, file) (registerApiRoutes loads accepts dirname api) <->
  exists dirs name seg,
    holds api dirs name /\ ~ In "data" dirs /\
    segment name = Some seg /\
    file = under (join dirname "api") dirs name /\
    route = under "/api" dirs seg /\
    loads file = true /\ accepts route = true.
Proof.
  unfold registerApiRoutes. generalize (join dirname "api") as dir.
  generalize "/api" as prefix.
  assert (Hnode : forall n prefix dir,
    In (route, file) (scan loads accepts dir prefix n) <->
    exists dirs name seg,
      holds [n] dirs name /\ ~ In "data" dirs /\
      segment name = Some seg /\
      file = under dir dirs name /\ route = under prefix dirs seg /\
      loads file && accepts route = true).
  { induction n as [name|d entries IH] using node_rect'; intros prefix dir.
    - cbn [scan]. split.
      + destruct (segment name) as [seg|] eqn:Hs; [|intros []].
        destruct (loads (join dir name) && accepts (prefix +:+ "/" +:+ seg)) eqn:Hl;
          [|intros []].
        intros [[= <- <-]|[]]. exists [], name, seg.
        repeat split; auto.
        * constructor. now left.
      + intros (dirs & name' & seg & Hh & _ & Hs & -> & -> & Hl).
        inversion Hh as [? ? Hin|? ? ? ? ? Hin Hsub]; subst.
        * destruct Hin as [[= <-]|[]]. cbn [under] in *. rewrite Hs.
          unfold join. rewrite Hl. now left.
        * destruct Hin as [[=]|[]].
    - cbn [scan]. split.
      + destruct (String.eqb d "data") eqn:Hd; [intros []|].
        apply String.eqb_neq in Hd.
        intros Hin. apply in_flat_map in Hin. destruct Hin as (e & He & Hin).
        rewrite List.Forall_forall in IH. apply (IH e He) in Hin.
        destruct Hin as (dirs & name & seg & Hh & Hnd & Hs & Hf & Hr & Hl).
        exists (d :: dirs), name, seg. repeat split; auto.
        * apply (holds_below [Directory d entries] d entries); [now left|].
          inversion Hh as [? ? Hin|? ? ? ? ? Hin Hsub]; subst.
          -- destruct Hin as [->|[]]. now constructor.
          -- destruct Hin as [->|[]].
             now apply (holds_below entries d0 sub).
        * intros [Heq|Hin]; [congruence | contradiction].
      + intros (dirs & name & seg & Hh & Hnd & Hs & -> & -> & Hl).
        inversion Hh as [? ? Hin|? d' sub dirs' ? Hin Hsub]; subst.
        { destruct Hin as [[=]|[]]. }
        destruct Hin as [[= <- <-]|[]].
        assert (Hd : String.eqb d "data" = false).
        { apply String.eqb_neq. intros ->. apply Hnd. now left. }
        rewrite Hd. apply in_flat_map.
        assert (Hnd' : ~ In "data" dirs') by (intros Hin; apply Hnd; now right).
        cbn [under] in *.
        inversion Hsub as [? ? Hin|? d2 sub2 dirs2 ? Hin Hsub2]; subst.
        * exists (File name). split; [exact Hin|].
          rewrite List.Forall_forall in IH. apply (IH _ Hin).
          exists [], name, seg. repeat split; auto. constructor. now left.
        * exists (Directory d2 sub2). split; [exact Hin|].
          rewrite List.Forall_forall in IH. apply (IH _ Hin).
          exists (d2 :: dirs2), name, seg. repeat split; auto.
          apply (holds_below [Directory d2 sub2] d2 sub2); [now left | exact Hsub2]. }
  intros prefix dir. unfold scanDir. rewrite in_flat_map. split.
  - intros (n & Hn & Hin). apply Hnode in Hin.
    destruct Hin as (dirs & name & seg & Hh & Hnd & Hs & Hf & Hr & Hl).
    apply andb_true_iff in Hl.
    exists dirs, name, seg. split; [|tauto].
    inversion Hh as [? ? Hin|? ? ? ? ? Hin Hsub]; subst.
    + destruct Hin as [->|[]]. now constructor.
    + destruct Hin as [->|[]]. now apply (holds_below api d sub).
  - intros (dirs & name & seg & Hh & Hnd & Hs & Hf & Hr & Hl).
    apply andb_true_iff in Hl.
    assert (Hrest : ~ In "data" dirs /\ segment name = Some seg /\
                    file = under dir dirs name /\ route = under prefix dirs seg /\
                    loads file && accepts route = true) by tauto.
    clear Hnd Hs Hf Hr Hl.
    inversion Hh as [? ? Hin|? d sub dirs' ? Hin Hsub]; subst.
    + exists (File name). split; [exact Hin|]. apply Hnode.
      exists [], name, seg. split; [|exact Hrest]. constructor. now left.
    + exists (Directory d sub). split; [exact Hin|]. apply Hnode.
      exists (d :: dirs'), name, seg. split; [|exact Hrest].
      apply (holds_below [Directory d sub] d sub); [now left | exact Hsub].
Qed.

End Modules.

(** ** The segment of a file *)

Lemma prefix_app (p s : string) : String.prefix p (p +:+ s) = true.
Proof.
  induction p as [|c p IH]; [now destruct s|].
  change (String c p +:+ s) with (String c (p +:+ s)). cbn [String.prefix].
  destruct (Ascii.ascii_dec c c); [exact IH | congruence].
Qed.

Lemma drop_app (p s : string) : drop (String.length p) (p +:+ s) = s.
Proof.
  induction p as [|c p IH]; [now destruct s|].
  change (String c p +:+ s) with (String c (p +:+ s)). exact IH.
Qed.

Lemma endsWith_app (pre suffix : string) : endsWith (pre +:+ suffix) suffix = true.
Proof.
  induction pre as [|c pre IH].
  - change ("" +:+ suffix) with suffix. destruct suffix; cbn [endsWith];
      rewrite String.eqb_refl; reflexivity.
  - change (String c pre +:+ suffix) with (String c (pre +:+ suffix)).
    cbn [endsWith]. rewrite IH. apply orb_true_r.
Qed.

Lemma endsWith_spec (s suffix : string) :
  endsWith s suffix = true -> exists pre, s = pre +:+ suffix.
Proof.
  induction s as [|c s IH]; cbn [endsWith].
  - rewrite orb_false_r. intros He. apply String.eqb_eq in He. subst. now exists "".
  - intros Ho. apply orb_true_iff in Ho. destruct Ho as [He|Hr].
    + apply String.eqb_eq in He. rewrite He. now exists "".
    + destruct (IH Hr) as (pre & ->). now exists (String c pre).
Qed.

(** Whether a string starts with a pattern does not depend on what comes
    after as many characters as the pattern has. *)
Lemma prefix_long (p s a : string) :
  (String.length p <= String.length s)%nat ->
  String.prefix p (s +:+ a) = String.prefix p s.
Proof.
  revert s. induction p as [|c p IH]; intros s Hlen.
  - now destruct s, a.
  - destruct s as [|d s]; [cbn in Hlen; lia|].
    change (String d s +:+ a) with (String d (s +:+ a)). cbn [String.prefix].
    destruct (Ascii.ascii_dec c d); [|reflexivity].
    apply IH. cbn in Hlen. lia.
Qed.

(** Without an occurrence of the pattern before it, the pattern at the end
    is the one [replace] removes. *)
Lemma replace_suffix (name : string) :
  occurs ".js" (name +:+ ".j") = false ->
  replace ".js" (name +:+ ".js") = name.
Proof.
  induction name as [|c name IH].
  - reflexivity.
  - change (String c name +:+ ".j") with (String c (name +:+ ".j")).
    change (String c name +:+ ".js") with (String c (name +:+ ".js")).
    cbn [occurs]. intros Ho. apply orb_false_iff in Ho. destruct Ho as [Hp Hr].
    cbn [replace].
    assert (Hp' : String.prefix ".js" (String c (name +:+ ".js")) = false).
    { destruct name as [|c1 [|c2 name]].
      - change ("" +:+ ".js") with ".js". cbn [String.prefix].
        destruct (Ascii.ascii_dec "." c); reflexivity.
      - change (String c1 "" +:+ ".js") with (String c1 ".js"). cbn [String.prefix].
        destruct (Ascii.ascii_dec "." c); [|reflexivity].
        destruct (Ascii.ascii_dec "j" c1); reflexivity.
      - change (String c (String c1 (String c2 name) +:+ ".js"))
          with (String c (String c1 (String c2 name)) +:+ ".js").
        change (String c (String c1 (String c2 name) +:+ ".j"))
          with (String c (String c1 (String c2 name)) +:+ ".j") in Hp.
        rewrite prefix_long in Hp |- * by (cbn; lia). exact Hp. }
    rewrite Hp'. f_equal. exact (IH Hr).
Qed.

Lemma app_inj_suffix (a b suffix : string) :
  a +:+ suffix = b +:+ suffix -> a = b.
Proof.
  revert b. induction a as [|c a IH]; intros [|d b] Hab.
  - reflexivity.
  - apply (f_equal String.length) in Hab.
    rewrite !NodeFacts.length_app_string in Hab. cbn [String.length] in Hab. lia.
  - apply (f_equal String.length) in Hab.
    rewrite !NodeFacts.length_app_string in Hab. cbn [String.length] in Hab. lia.
  - rewrite !NodeFacts.app_String in Hab. injection Hab as -> Hab. f_equal. now apply IH.
Qed.

Lemma substring_app (a b : string) :
  String.substring 0 (String.length a) (a +:+ b) = a.
Proof.
  induction a as [|c a IH]; [now destruct b|].
  change (String c a +:+ b) with (String c (a +:+ b)). cbn [String.length String.substring].
  now rewrite IH.
Qed.

(** X24. The last segment of the route of a file.  A file that does not
    end in [.js], or starts with an underscore, gets no route, and every
    name of [skipFiles] is among these, so that list decides nothing.  The
    two catch-all names get [*]; any other name [[x].js] gets [:x]; and a
    name [x.js] that starts with neither an underscore nor a bracket, and
    in which [.js] does not occur before the end, gets [x].  ([replace]
    removes the first [.js], which in other names is not the one at the
    end.)  Every segment has one of these three forms. *)
Theorem segment_of_file :
  (forall entry, endsWith entry ".js" = false -> segment entry = None) /\
  (forall entry, startsWith entry "_" = true -> segment entry = None) /\
  (forall entry, In entry skipFiles -> startsWith entry "_" = true) /\
  segment "[[...path]].js" = Some "*" /\ segment "[...path].js" = Some "*" /\
  (forall x, x <> "[...path]" -> x <> "...path" ->
             segment ("[" +:+ x +:+ "].js") = Some (":" +:+ x)) /\
  (forall x, startsWith x "_" = false -> startsWith x "[" = false ->
             occurs ".js" (x +:+ ".j") = false ->
             segment (x +:+ ".js") = Some x) /\
  (forall entry seg,
      segment entry = Some seg ->
      seg = "*" \/ seg = ":" +:+ slice_1_4 entry \/ seg = replace ".js" entry).
Proof.
  repeat split.
  - intros entry He. unfold segment. now rewrite He.
  - intros entry Hp. unfold segment. destruct (negb (endsWith entry ".js")); [reflexivity|].
    cbn [existsb skipPrefixes]. now rewrite Hp.
  - intros entry Hin. cbn in Hin.
    repeat (destruct Hin as [<-|Hin]; [reflexivity|]). destruct Hin.
  - intros x Hx1 Hx2. unfold segment.
    assert (He : endsWith ("[" +:+ x +:+ "].js") ".js" = true).
    { replace ("[" +:+ x +:+ "].js") with (("[" +:+ x +:+ "]") +:+ ".js").
      - apply endsWith_app.
      - change ("[" +:+ x +:+ "]") with (String "[" (x +:+ "]")).
        change ("[" +:+ x +:+ "].js") with (String "[" (x +:+ "].js")).
        change (String "[" (x +:+ "]") +:+ ".js") with (String "[" ((x +:+ "]") +:+ ".js")).
        f_equal. now rewrite NodeFacts.app_assoc_string. }
    rewrite He. cbn [negb].
    change ("[" +:+ x +:+ "].js") with (String "[" (x +:+ "].js")) in *.
    cbn [existsb skipPrefixes startsWith String.prefix skipFiles String.eqb Ascii.eqb
         Bool.eqb orb].
    assert (Hc1 : String.eqb (x +:+ "].js") "[...path]].js" = false).
    { apply String.eqb_neq. intros Heq. apply Hx1.
      change "[...path]].js" with ("[...path]" +:+ "].js") in Heq.
      exact (app_inj_suffix _ _ _ Heq). }
    rewrite Hc1.
    assert (Hc2 : String.eqb (x +:+ "].js") "...path].js" = false).
    { apply String.eqb_neq. intros Heq. apply Hx2.
      change "...path].js" with ("...path" +:+ "].js") in Heq.
      exact (app_inj_suffix _ _ _ Heq). }
    cbn [orb]. rewrite Hc2.
    assert (He2 : endsWith (String "[" (x +:+ "].js")) "].js" = true).
    { cbn [endsWith]. rewrite endsWith_app. apply orb_true_r. }
    destruct (Ascii.ascii_dec "[" "[") as [_|Hne]; [|congruence].
    assert (Hp0 : String.prefix "" (x +:+ "].js") = true) by now destruct (x +:+ "].js").
    rewrite Hp0, He2. cbn [andb]. f_equal. f_equal.
    unfold slice_1_4. cbn [String.length String.substring].
    rewrite NodeFacts.length_app_string. cbn [String.length].
    replace (S (String.length x + 4) - 4 - 1)%nat with (String.length x) by lia.
    apply substring_app.
  - intros x Hu Hb Ho. unfold segment. rewrite endsWith_app. cbn [negb].
    cbn [existsb skipPrefixes].
    assert (Hu' : startsWith (x +:+ ".js") "_" = false).
    { revert Hu. unfold startsWith. destruct x as [|c x]; [reflexivity|].
      change (String c x +:+ ".js") with (String c (x +:+ ".js")). cbn [String.prefix].
      destruct (Ascii.ascii_dec "_" c); [|reflexivity].
      intros Hx. destruct x; discriminate. }
    assert (Hb' : startsWith (x +:+ ".js") "[" = false).
    { revert Hb. unfold startsWith. destruct x as [|c x]; [reflexivity|].
      change (String c x +:+ ".js") with (String c (x +:+ ".js")). cbn [String.prefix].
      destruct (Ascii.ascii_dec "[" c); [|reflexivity].
      intros Hx. destruct x; discriminate. }
    rewrite Hu', Hb'. cbn [orb andb].
    assert (Hs : existsb (String.eqb (x +:+ ".js")) skipFiles = false).
    { destruct (existsb (String.eqb (x +:+ ".js")) skipFiles) eqn:E; [|reflexivity].
      apply existsb_exists in E. destruct E as (f & Hin & Heq).
      apply String.eqb_eq in Heq. subst f.
      assert (Hst : startsWith (x +:+ ".js") "_" = true).
      { cbn in Hin. repeat (destruct Hin as [<-|Hin]; [reflexivity|]). destruct Hin. }
      congruence. }
    rewrite Hs.
    assert (Hc : String.eqb (x +:+ ".js") "[[...path]].js" ||
                 String.eqb (x +:+ ".js") "[...path].js" = false).
    { apply orb_false_iff. split; apply String.eqb_neq; intros Heq;
        rewrite Heq in Hb'; discriminate. }
    rewrite Hc. f_equal. now apply replace_suffix.
  - intros entry seg. unfold segment.
    destruct (negb (endsWith entry ".js")); [discriminate|].
    destruct (existsb _ skipPrefixes); [discriminate|].
    destruct (existsb _ skipFiles); [discriminate|].
    destruct (_ || _); [intros [= <-]; now left|].
    destruct (_ && _); intros [= <-]; auto.
Qed.

End RoutesFacts.

(* ===================================================================== *)
(** * Theorems: the CORS headers *)
(* ===================================================================== *)

Module CorsFacts.
Import Js Cors.

(** ** Matching *)

Lemma nullable_denote (r : regex) : nullable r = true <-> denote r [].
Proof.
  induction r as [| |c| | |a IHa b IHb|a IHa b IHb|a IHa]; cbn [nullable denote].
  - split; [discriminate | intros []].
  - split; auto.
  - split; [discriminate | intros [=]].
  - split; [discriminate | intros (c & [=] & _)].
  - split; [discriminate | intros (c & [=] & _)].
  - rewrite andb_true_iff, IHa, IHb. split.
    + intros (Ha & Hb). now exists [], [].
    + intros (s1 & s2 & Heq & Ha & Hb). symmetry in Heq.
      apply app_eq_nil in Heq. destruct Heq as [-> ->]. auto.
  - rewrite orb_true_iff, IHa, IHb. tauto.
  - split; [|reflexivity]. intros _. exists []. split; [reflexivity | constructor].
Qed.

Lemma derive_denote (r : regex) (c : ascii) (s : list ascii) :
  denote (derive c r) s <-> denote r (c :: s).
Proof.
  revert s. induction r as [| |d| | |a IHa b IHb|a IHa b IHb|a IHa]; intros s;
    cbn [derive denote].
  - tauto.
  - split; [intros [] | intros [=]].
  - destruct (Ascii.eqb c d) eqn:E; cbn [denote].
    + apply Ascii.eqb_eq in E. subst. split; [now intros -> | now intros [= ->]].
    + apply Ascii.eqb_neq in E. split; [intros [] | intros [= Hc _]; congruence].
  - destruct (line_terminator c) eqn:E; cbn [denote].
    + split; [intros [] | intros (c' & [= <- _] & Hc); congruence].
    + split; [intros ->; now exists c | now intros (c' & [= <- ->] & _)].
  - destruct (is_digit c) eqn:E; cbn [denote].
    + split; [intros ->; now exists c | now intros (c' & [= <- ->] & _)].
    + split; [intros [] | intros (c' & [= <- _] & Hc); congruence].
  - assert (Hcons : (exists s1 s2, s = s1 ++ s2 /\ denote (derive c a) s1 /\ denote b s2) <->
                    (exists s1 s2, c :: s = (c :: s1) ++ s2 /\ denote a (c :: s1) /\ denote b s2)).
    { split; intros (s1 & s2 & Heq & Ha & Hb); exists s1, s2.
      - subst. repeat split; [now apply IHa | exact Hb].
      - injection Heq as ->. repeat split; [now apply IHa | exact Hb]. }
    destruct (nullable a) eqn:Hn; cbn [denote].
    + rewrite Hcons, IHb. split.
      * intros [(s1 & s2 & Heq & Ha & Hb) | Hb].
        -- now exists (c :: s1), s2.
        -- exists [], (c :: s). repeat split; [now apply nullable_denote | exact Hb].
      * intros (s1 & s2 & Heq & Ha & Hb). destruct s1 as [|c' s1].
        -- right. cbn in Heq. now subst.
        -- left. injection Heq as <- ->. now exists s1, s2.
    + rewrite Hcons. split.
      * intros (s1 & s2 & Heq & Ha & Hb). now exists (c :: s1), s2.
      * intros (s1 & s2 & Heq & Ha & Hb). destruct s1 as [|c' s1].
        -- apply nullable_denote in Ha. congruence.
        -- injection Heq as <- ->. now exists s1, s2.
  - rewrite IHa, IHb. tauto.
  - split.
    + intros (s1 & s2 & -> & Ha & parts & -> & Hparts).
      exists ((c :: s1) :: parts). split; [reflexivity|].
      constructor; [now apply IHa | exact Hparts].
    + intros (parts & Heq & Hparts). revert Heq.
      induction Hparts as [|p ps Hp Hps IH]; [discriminate|].
      destruct p as [|c' p]; [exact IH|].
      cbn [concat app]. intros [= <- ->].
      exists p, (concat ps). repeat split; [now apply IHa|]. now exists ps.
Qed.

Lemma matches_denote (r : regex) (s : list ascii) : matches r s = true <-> denote r s.
Proof.
  revert r. induction s as [|c s IH]; intros r; cbn [matches].
  - apply nullable_denote.
  - rewrite IH. apply derive_denote.
Qed.

(** ** The patterns *)

Lemma chars_app (a b : string) :
  list_ascii_of_string (a +:+ b) = list_ascii_of_string a ++ list_ascii_of_string b.
Proof.
  induction a as [|c a IH]; [reflexivity|].
  rewrite NodeFacts.app_String. cbn [list_ascii_of_string app]. now rewrite IH.
Qed.

Lemma chars_inj (a b : string) :
  list_ascii_of_string a = list_ascii_of_string b -> a = b.
Proof.
  intros Heq. rewrite <- (string_of_list_ascii_of_string a),
    <- (string_of_list_ascii_of_string b). now rewrite Heq.
Qed.

Lemma denote_lit (word : string) (s : list ascii) :
  denote (lit word) s <-> s = list_ascii_of_string word.
Proof.
  revert s. induction word as [|c word IH]; intros s; cbn [lit denote list_ascii_of_string].
  - tauto.
  - split.
    + intros (s1 & s2 & -> & -> & Hw). apply IH in Hw. now subst.
    + intros ->. exists [c], (list_ascii_of_string word). repeat split. now apply IH.
Qed.

(** A starred class of characters matches the strings made of them. *)
Lemma denote_star_class (a : regex) (p : ascii -> bool) :
  (forall s, denote a s <-> exists c, s = [c] /\ p c = true) ->
  forall s, denote (Star a) s <-> forallb p s = true.
Proof.
  intros Ha s. cbn [denote]. split.
  - intros (parts & -> & Hparts). induction Hparts as [|x xs Hx Hxs IH]; [reflexivity|].
    apply Ha in Hx. destruct Hx as (c & -> & Hc). cbn [concat app forallb].
    now rewrite Hc, IH.
  - intros Hall. exists (map (fun c => [c]) s). split.
    + induction s as [|c s IH]; [reflexivity|]. cbn [map concat app].
      cbn [forallb] in Hall. apply andb_true_iff in Hall. f_equal. now apply IH.
    + induction s as [|c s IH]; [constructor|].
      cbn [forallb] in Hall. apply andb_true_iff in Hall. destruct Hall as [Hc Hs].
      cbn [map]. constructor; [|now apply IH]. apply Ha. now exists c.
Qed.

Lemma denote_port (s : list ascii) :
  denote (Opt (Seq (Chr ":") (Plus Digit))) s <->
  s = [] \/ exists port, port <> [] /\ forallb is_digit port = true /\ s = ":"%char :: port.
Proof.
  assert (Hdigit : forall s0, denote Digit s0 <-> exists c, s0 = [c] /\ is_digit c = true).
  { intros s0. reflexivity. }
  unfold Opt, Plus. cbn [denote]. split.
  - intros [(s1 & s2 & -> & -> & (d & ds & -> & (c & -> & Hc) & Hds)) | ->]; [|now left].
    right. exists (c :: ds). split; [discriminate|]. split; [|reflexivity].
    cbn [forallb]. rewrite Hc. cbn [andb].
    apply (denote_star_class Digit is_digit Hdigit). exact Hds.
  - intros [-> | (port & Hne & Hall & ->)]; [now right | left].
    destruct port as [|c ds]; [congruence|].
    cbn [forallb] in Hall. apply andb_true_iff in Hall. destruct Hall as [Hc Hds].
    exists [":"%char], (c :: ds). repeat split.
    exists [c], ds. repeat split; [now exists c|].
    apply (denote_star_class Digit is_digit Hdigit). exact Hds.
Qed.

Lemma local_pattern (base origin : string) :
  test (Seq (lit base) (Opt (Seq (Chr ":") (Plus Digit)))) origin = true <->
  local base origin.
Proof.
  unfold test, local. rewrite matches_denote. cbn [denote]. split.
  - intros (s1 & s2 & Heq & Hb & Hp). apply denote_lit in Hb. subst s1.
    apply denote_port in Hp. destruct Hp as [-> | (port & Hne & Hall & ->)].
    + left. rewrite app_nil_r in Heq. now apply chars_inj.
    + right. exists (string_of_list_ascii port). split; [|split].
      * intros He. apply (f_equal list_ascii_of_string) in He.
        rewrite list_ascii_of_string_of_list_ascii in He. now apply Hne.
      * unfold all_chars. now rewrite list_ascii_of_string_of_list_ascii.
      * apply chars_inj. rewrite Heq, !chars_app, list_ascii_of_string_of_list_ascii.
        reflexivity.
  - intros [-> | (port & Hne & Hall & ->)].
    + exists (list_ascii_of_string base), []. rewrite app_nil_r.
      repeat split; [now apply denote_lit | apply denote_port; now left].
    + exists (list_ascii_of_string base), (":"%char :: list_ascii_of_string port).
      split; [now rewrite !chars_app|]. split; [now apply denote_lit|].
      apply denote_port. right. exists (list_ascii_of_string port).
      split; [|split; [exact Hall | reflexivity]].
      intros He. apply Hne. apply chars_inj. now rewrite He.
Qed.

Lemma site_pattern (origin : string) :
  test (Seq (lit "https://") (Seq (Opt (Seq (Star Dot) (Chr "."))) (lit "worldmonitor.app")))
    origin = true <->
  origin = "https://worldmonitor.app" \/
  exists x, all_chars (fun c => negb (line_terminator c)) x = true /\
            origin = "https://" +:+ x +:+ ".worldmonitor.app".
Proof.
  assert (Hdot : forall s0, denote Dot s0 <->
            exists c, s0 = [c] /\ negb (line_terminator c) = true).
  { intros s0. cbn [denote]. split; intros (c & -> & Hc); exists c;
      (split; [reflexivity|]); [now rewrite Hc | now apply negb_true_iff in Hc]. }
  unfold test. rewrite matches_denote. unfold Opt. cbn [denote]. split.
  - intros (s1 & s2 & Heq & Hs & (m & t & -> & Hm & Ht)).
    apply denote_lit in Hs, Ht. subst s1 t.
    destruct Hm as [(x & d & -> & Hx & ->) | ->].
    + right. exists (string_of_list_ascii x). split.
      * unfold all_chars. rewrite list_ascii_of_string_of_list_ascii.
        now apply (denote_star_class Dot _ Hdot).
      * apply chars_inj. rewrite Heq, !chars_app, list_ascii_of_string_of_list_ascii.
        now rewrite <- !app_assoc.
    + left. apply chars_inj. now rewrite Heq.
  - intros [-> | (x & Hx & ->)].
    + exists (list_ascii_of_string "https://"), (list_ascii_of_string "worldmonitor.app").
      split; [reflexivity|]. split; [now apply denote_lit|].
      exists [], (list_ascii_of_string "worldmonitor.app").
      repeat split; [now right | now apply denote_lit].
    + exists (list_ascii_of_string "https://"),
        ((list_ascii_of_string x ++ ["."%char]) ++ list_ascii_of_string "worldmonitor.app").
      split; [now rewrite !chars_app, <- !app_assoc|]. split; [now apply denote_lit|].
      exists (list_ascii_of_string x ++ ["."%char]), (list_ascii_of_string "worldmonitor.app").
      repeat split; [|now apply denote_lit].
      left. exists (list_ascii_of_string x), ["."%char]. repeat split.
      now apply (denote_star_class Dot _ Hdot).
Qed.

Lemma patterns_let_through (origin : string) :
  existsb (fun pattern => test pattern origin) ALLOWED_ORIGIN_PATTERNS = true <->
  by_pattern origin.
Proof.
  unfold ALLOWED_ORIGIN_PATTERNS, by_pattern. cbn [existsb].
  rewrite !orb_true_iff, site_pattern, !local_pattern. intuition discriminate.
Qed.

(** ** The origins of the environment *)

Lemma trimStart_head (s : string) :
  match trimStart s with
  | EmptyString => True
  | String c _ => white_space c = false
  end.
Proof.
  induction s as [|c s IH]; cbn [trimStart]; [exact I|].
  destruct (white_space c) eqn:E; [exact IH | exact E].
Qed.


Lemma trimEnd_head (s : string) (c : ascii) :
  first_char s = Some c -> white_space c = false -> first_char (trimEnd s) = Some c.
Proof.
  destruct s as [|d s]; [discriminate|]. cbn [first_char trimEnd]. intros [= ->] Hc.
  now rewrite Hc.
Qed.

Lemma trimEnd_last (s : string) (c : ascii) :
  last_char (trimEnd s) = Some c -> white_space c = false.
Proof.
  induction s as [|d s IH]; cbn [trimEnd]; [discriminate|].
  destruct (white_space d && String.eqb (trimEnd s) "") eqn:E; [discriminate|].
  cbn [last_char]. destruct (trimEnd s) as [|e r] eqn:Hr.
  - intros [= <-]. cbn in E. now rewrite andb_true_r in E.
  - exact IH.
Qed.

Lemma trim_ends (s : string) :
  (forall c, first_char (trim s) = Some c -> white_space c = false) /\
  (forall c, last_char (trim s) = Some c -> white_space c = false).
Proof.
  unfold trim. split; [|apply trimEnd_last].
  pose proof (trimStart_head s) as Hh. destruct (trimStart s) as [|d r]; [discriminate|].
  intros c. rewrite (trimEnd_head (String d r) d eq_refl Hh). now intros [= <-].
Qed.

Lemma trimStart_chars (p : ascii -> bool) (s : string) :
  all_chars p s = true -> all_chars p (trimStart s) = true.
Proof.
  unfold all_chars. induction s as [|c s IH]; [auto|].
  cbn [trimStart]. destruct (white_space c); [|auto].
  cbn [list_ascii_of_string forallb]. intros Hall. apply andb_true_iff in Hall.
  now apply IH.
Qed.

Lemma trimEnd_chars (p : ascii -> bool) (s : string) :
  all_chars p s = true -> all_chars p (trimEnd s) = true.
Proof.
  unfold all_chars. induction s as [|c s IH]; [auto|].
  cbn [trimEnd list_ascii_of_string forallb]. intros Hall.
  apply andb_true_iff in Hall. destruct Hall as [Hc Hs].
  destruct (white_space c && String.eqb (trimEnd s) ""); [reflexivity|].
  cbn [list_ascii_of_string forallb]. now rewrite Hc, IH.
Qed.

Lemma split_chars (sep : ascii) (s : string) :
  Forall (fun part => all_chars (fun c => negb (Ascii.eqb c sep)) part = true) (split sep s).
Proof.
  induction s as [|c s IH]; cbn [split].
  - constructor; [reflexivity | constructor].
  - destruct (Ascii.eqb c sep) eqn:E.
    + constructor; [reflexivity | exact IH].
    + destruct (split sep s) as [|first others]; [constructor; [|constructor]|].
      * unfold all_chars. cbn. now rewrite E.
      * inversion IH as [|? ? Hf Ho]; subst. constructor; [|exact Ho].
        unfold all_chars in *. cbn [list_ascii_of_string forallb]. now rewrite E, Hf.
Qed.

Section Environment.
Variable ALLOWED_ORIGINS : option string.

(** X25. The origins taken from [ALLOWED_ORIGINS]: what stands between
    the commas, with the white space around it removed, the empty ones
    left out.  So no entry is empty, starts or ends with white space, or
    holds a comma; and a variable that is unset or empty gives none. *)
Theorem envOrigins_entries :
  (forall o, In o (envOrigins ALLOWED_ORIGINS) <->
             o <> "" /\
             exists part,
               In part (split "," (match ALLOWED_ORIGINS with Some s => s | None => "" end)) /\
               o = trim part) /\
  Forall (fun o =>
            o <> "" /\
            (forall c, first_char o = Some c -> white_space c = false) /\
            (forall c, last_char o = Some c -> white_space c = false) /\
            all_chars (fun c => negb (Ascii.eqb c ",")) o = true)
         (envOrigins ALLOWED_ORIGINS) /\
  (ALLOWED_ORIGINS = None \/ ALLOWED_ORIGINS = Some "" -> envOrigins ALLOWED_ORIGINS = []).
Proof.
  assert (Hin : forall o, In o (envOrigins ALLOWED_ORIGINS) <->
             o <> "" /\
             exists part,
               In part (split "," (match ALLOWED_ORIGINS with Some s => s | None => "" end)) /\
               o = trim part).
  { intros o. unfold envOrigins. rewrite filter_In, in_map_iff, negb_true_iff.
    split.
    - intros ((part & <- & Hp) & Hne). apply String.eqb_neq in Hne. split; [exact Hne|].
      now exists part.
    - intros (Hne & part & Hp & ->). split; [now exists part | now apply String.eqb_neq]. }
  split; [exact Hin|]. split.
  - apply List.Forall_forall. intros o Ho. apply Hin in Ho.
    destruct Ho as (Hne & part & Hp & ->). split; [exact Hne|].
    destruct (trim_ends part) as (Hf & Hl). split; [exact Hf|]. split; [exact Hl|].
    unfold trim. apply trimEnd_chars, trimStart_chars.
    pose proof (split_chars "," (match ALLOWED_ORIGINS with Some s => s | None => "" end))
      as Hall.
    rewrite List.Forall_forall in Hall. now apply Hall.
  - intros [-> | ->]; reflexivity.
Qed.

Lemma envOrigins_nonempty (o : string) :
  In o (envOrigins ALLOWED_ORIGINS) -> String.eqb o "" = false.
Proof.
  unfold envOrigins. rewrite filter_In, negb_true_iff. tauto.
Qed.

Lemma isAllowedOrigin_iff (origin : string) :
  isAllowedOrigin ALLOWED_ORIGINS origin = true <->
  origin <> "" /\ (In origin (envOrigins ALLOWED_ORIGINS) \/ by_pattern origin).
Proof.
  unfold isAllowedOrigin.
  destruct (String.eqb origin "") eqn:E.
  { apply String.eqb_eq in E. split; [discriminate | tauto]. }
  apply String.eqb_neq in E.
  assert (Hl : (0 <? length (envOrigins ALLOWED_ORIGINS))%nat &&
               existsb (String.eqb origin) (envOrigins ALLOWED_ORIGINS) = true <->
               In origin (envOrigins ALLOWED_ORIGINS)).
  { rewrite andb_true_iff, existsb_exists. split.
    - intros (_ & o & Hin & He). apply String.eqb_eq in He. now subst.
    - intros Hin. split.
      + destruct (envOrigins ALLOWED_ORIGINS); [destruct Hin | reflexivity].
      + exists origin. split; [exact Hin | apply String.eqb_refl]. }
  destruct ((0 <? length (envOrigins ALLOWED_ORIGINS))%nat &&
            existsb (String.eqb origin) (envOrigins ALLOWED_ORIGINS)) eqn:Hb.
  - split; [|reflexivity]. intros _. split; [exact E|]. left. now apply Hl.
  - rewrite patterns_let_through. split; [tauto|].
    intros (_ & [Hin | Hp]); [|exact Hp].
    apply Hl in Hin. discriminate.
Qed.

(** X26. Which origins are allowed: an origin that is not empty and is
    one of the environment, or the site itself over [https], or over
    [https] any name that ends in [.worldmonitor.app] (with no line break
    before that), or, over [http], [localhost] or [127.0.0.1] with or
    without a port of digits.  Nothing else is: not the site over [http],
    and not a name that merely ends in [worldmonitor.app] without the full
    stop before it.  (What stands between [https://] and
    [.worldmonitor.app] may be any text without a line break, a slash
    included.) *)
Theorem allowed_origins (origin : string) :
  (isAllowedOrigin ALLOWED_ORIGINS origin = true <->
   origin <> "" /\ (In origin (envOrigins ALLOWED_ORIGINS) \/ by_pattern origin)) /\
  (by_pattern origin -> isAllowedOrigin ALLOWED_ORIGINS origin = true).
Proof.
  split; [apply isAllowedOrigin_iff|].
  intros Hp. apply isAllowedOrigin_iff. split; [|now right].
  intros ->.
  destruct Hp as [H1 | [(x & _ & H2) | [[H3 | (port & _ & _ & H3)]
                                        | [H3 | (port & _ & _ & H3)]]]];
    discriminate.
Qed.

(** The origin that is named when the one of the request is not allowed. *)
Lemma fallback_allowed :
  isAllowedOrigin ALLOWED_ORIGINS (fallback ALLOWED_ORIGINS) = true.
Proof.
  unfold fallback. destruct (envOrigins ALLOWED_ORIGINS) as [|first rest] eqn:He.
  - apply isAllowedOrigin_iff. split; [discriminate|]. right. now left.
  - assert (Hin : In first (envOrigins ALLOWED_ORIGINS)) by (rewrite He; now left).
    apply isAllowedOrigin_iff. split; [|now left].
    apply envOrigins_nonempty in Hin. now apply String.eqb_neq.
Qed.

Lemma allow_origin_run (req : Server.web_request) (methods : option string) :
  assoc "Access-Control-Allow-Origin" (getCorsHeaders ALLOWED_ORIGINS req methods) =
    Some (match Headers_get "origin" req with
          | Some origin =>
              if isAllowedOrigin ALLOWED_ORIGINS origin then origin
              else fallback ALLOWED_ORIGINS
          | None => fallback ALLOWED_ORIGINS
          end).
Proof.
  unfold getCorsHeaders, fallback. cbn [assoc String.eqb Ascii.eqb Bool.eqb].
  f_equal.
  assert (Hfirst : match envOrigins ALLOWED_ORIGINS with
                   | first :: _ =>
                       if String.eqb first "" then "https://worldmonitor.app" else first
                   | [] => "https://worldmonitor.app"
                   end =
                   match envOrigins ALLOWED_ORIGINS with
                   | first :: _ => first
                   | [] => "https://worldmonitor.app"
                   end).
  { destruct (envOrigins ALLOWED_ORIGINS) as [|first rest] eqn:He; [reflexivity|].
    assert (Hin : In first (envOrigins ALLOWED_ORIGINS)) by (rewrite He; now left).
    now rewrite (envOrigins_nonempty first Hin). }
  rewrite Hfirst.
  destruct (Headers_get "origin" req) as [origin|]; [reflexivity|].
  reflexivity.
Qed.

(** X27. The origin that [getCorsHeaders] names is always an allowed one:
    the origin of the request when that is allowed, and otherwise the
    first origin of the environment, or the site when the environment
    gives none.  An origin that is not allowed is never echoed. *)
Theorem cors_names_an_allowed_origin (req : Server.web_request) (methods : option string) :
  exists allow,
    assoc "Access-Control-Allow-Origin" (getCorsHeaders ALLOWED_ORIGINS req methods)
      = Some allow /\
    isAllowedOrigin ALLOWED_ORIGINS allow = true /\
    (forall origin,
        Headers_get "origin" req = Some origin ->
        isAllowedOrigin ALLOWED_ORIGINS origin = true -> allow = origin) /\
    (forall origin,
        Headers_get "origin" req = Some origin ->
        isAllowedOrigin ALLOWED_ORIGINS origin = false ->
        allow = fallback ALLOWED_ORIGINS /\ allow <> origin) /\
    (Headers_get "origin" req = None -> allow = fallback ALLOWED_ORIGINS) /\
    assoc "Vary" (getCorsHeaders ALLOWED_ORIGINS req methods) = Some "Origin" /\
    assoc "Access-Control-Allow-Methods" (getCorsHeaders ALLOWED_ORIGINS req methods) =
      Some (match methods with Some m => m | None => "GET, OPTIONS" end).
Proof.
  rewrite allow_origin_run. eexists. split; [reflexivity|].
  pose proof fallback_allowed as Hfb.
  destruct (Headers_get "origin" req) as [origin|].
  - destruct (isAllowedOrigin ALLOWED_ORIGINS origin) eqn:Ha.
    + split; [exact Ha|]. split; [now intros o [= <-]|].
      split; [intros o [= <-]; congruence|]. split; [discriminate|]. split; reflexivity.
    + split; [exact Hfb|]. split; [intros o [= <-]; congruence|]. split.
      * intros o [= <-] _. split; [reflexivity|].
        intros Heq. rewrite Heq in Hfb. congruence.
      * split; [discriminate|]. split; reflexivity.
  - split; [exact Hfb|]. split; [discriminate|]. split; [discriminate|].
    split; [reflexivity|]. split; reflexivity.
Qed.

(** X28. [isDisallowedOrigin] answers [true] exactly when the request
    has an [origin] header that is not empty and is not allowed; a request
    without one is let through.  When it answers [true], the origin named
    by [getCorsHeaders] is not the one of the request. *)
Theorem disallowed_origin (req : Server.web_request) :
  (isDisallowedOrigin ALLOWED_ORIGINS req = true <->
   exists origin,
     Headers_get "origin" req = Some origin /\ origin <> "" /\
     isAllowedOrigin ALLOWED_ORIGINS origin = false) /\
  (Headers_get "origin" req = None -> isDisallowedOrigin ALLOWED_ORIGINS req = false) /\
  (isDisallowedOrigin ALLOWED_ORIGINS req = true ->
   forall methods,
     assoc "Access-Control-Allow-Origin" (getCorsHeaders ALLOWED_ORIGINS req methods) <>
       Headers_get "origin" req).
Proof.
  assert (Hiff : isDisallowedOrigin ALLOWED_ORIGINS req = true <->
            exists origin,
              Headers_get "origin" req = Some origin /\ origin <> "" /\
              isAllowedOrigin ALLOWED_ORIGINS origin = false).
  { unfold isDisallowedOrigin. destruct (Headers_get "origin" req) as [origin|].
    - destruct (String.eqb origin "") eqn:E.
      + apply String.eqb_eq in E. split; [discriminate|].
        intros (o & [= <-] & Hne & _). congruence.
      + apply String.eqb_neq in E. rewrite negb_true_iff. split.
        * intros Ha. now exists origin.
        * now intros (o & [= <-] & _ & Ha).
    - split; [discriminate | intros (o & [=] & _)]. }
  split; [exact Hiff|]. split.
  - intros Hn. unfold isDisallowedOrigin. now rewrite Hn.
  - intros Hd methods. apply Hiff in Hd. destruct Hd as (origin & Ho & _ & Ha).
    rewrite allow_origin_run, Ho, Ha. intros [= Heq].
    pose proof fallback_allowed as Hfb. rewrite Heq in Hfb. congruence.
Qed.

End Environment.

End CorsFacts.

(* ===================================================================== *)
(** * The further statements on concrete runs *)
(* ===================================================================== *)

Module Checks.
Import Js Store Policy Server Utf8 Relay Node Scenario.
Import Commands Forwarding Session Hash Routes Cors Cases.

(** ** The store client *)

(** The third attempt waits 600 ms; there is no sixth. *)
Lemma retryStrategy_delays_witness :
  retryStrategy 3 = Some 600 /\ retryStrategy 6 = None.
Proof.
  split.
  - apply (proj1 (proj2 (CommandsFacts.retryStrategy_delays 3))). lia.
  - apply (proj1 (CommandsFacts.retryStrategy_delays 6)). lia.
Defined.

(** The construction throws once; after that there is no connection even
    where the construction would succeed. *)
Lemma getClient_memoized_witness :
  getClient process_throwing = (Normal None, set_initFailed true process_throwing) /\
  getClient (set_initFailed true process0) = (Normal None, set_initFailed true process0).
Proof.
  destruct CommandsFacts.getClient_memoized as (_ & Hthrows & Hfinal).
  split; [apply Hthrows | apply Hfinal]; reflexivity.
Defined.

(** The wrapper of a deployment whose connection cannot be constructed. *)
Lemma wrapper_without_connection_witness :
  exists p1,
    getRedis process_throwing = (Normal (Some {| _client := None |}), p1) /\
    initFailed p1 = true /\ redisInitFailed p1 = false.
Proof.
  destruct CommandsFacts.wrapper_without_connection as (Hflags & Hredis & _).
  destruct (Hredis process_throwing eq_refl eq_refl eq_refl)
    as (w & p1 & Hrun & _ & _ & Hnone).
  destruct (Hnone eq_refl eq_refl) as (Hw & Hfailed).
  exists p1. destruct w as [c]. cbn in Hw. subst c.
  split; [exact Hrun|]. split; [exact Hfailed|].
  destruct (Hflags process_throwing) as (Hflag & _). rewrite Hrun in Hflag. exact Hflag.
Defined.

(** With the server away, [del] answers 0 and [keys] nothing; with the
    server there, [keys] gives its answer. *)
Lemma Redis_del_keys_total_witness :
  Redis_del connected "word" process_away = (Normal (JNum 0), process_away) /\
  Redis_keys matching connected "w*" process_away = (Normal [], process_away) /\
  Redis_keys matching connected "w*" process_values = (Normal ["word"], process_values).
Proof.
  split; [|split].
  - apply (proj1 (proj2 (CommandsFacts.Redis_del_keys_total matching connected
                           "word" "w*" process_away))).
    now right.
  - apply (proj1 (proj2 (proj2 (proj2 (CommandsFacts.Redis_del_keys_total matching
                                         connected "word" "w*" process_away))))).
    now right.
  - apply (proj2 (proj2 (proj2 (proj2 (CommandsFacts.Redis_del_keys_total matching
                                         connected "word" "w*" process_values))))
             Store.Connection); reflexivity.
Defined.

(** With the server away, the batch gets three times [null]; when the
    connection rejects the batch with [null], [exec] rejects. *)
Lemma pipeline_exec_aligned_witness :
  pipeline_exec None batch process_away = (Normal [JNull; JNull; JNull], process_away) /\
  pipeline_exec (Some (Thrown (Some JNull))) batch process0 =
    (Throw (Error "Cannot read properties of null"), process0).
Proof.
  split.
  - apply (proj2 (proj2 (proj2 (CommandsFacts.pipeline_exec_aligned None batch
                                  process_away)))
             Store.Connection); reflexivity.
  - apply (proj1 (proj2 (CommandsFacts.pipeline_exec_aligned (Some (Thrown (Some JNull)))
                           batch process0))
             Store.Connection (Thrown (Some JNull))); reflexivity.
Defined.

(** The word of the store is removed, and the list beside it stays. *)
Lemma Redis_del_removes_witness :
  exists p1,
    Redis_del connected "word" process_values = (Normal (JNum 1), p1) /\
    Redis_get connected "word" p1 = (Normal JNull, p1) /\
    live (db p1) "list" = Some "[1,2]".
Proof.
  destruct (CommandsFacts.Redis_del_removes connected Store.Connection "word" process_values
              eq_refl eq_refl) as (p1 & Hdel & Hget & Hother & _).
  exists p1. split; [|split].
  - rewrite Hdel. vm_compute. reflexivity.
  - exact Hget.
  - rewrite Hother by discriminate. vm_compute. reflexivity.
Defined.

(** Two keys in one array and one alone: the list, the word, nothing. *)
Lemma Redis_mget_agrees_with_get_witness :
  Redis_mget connected [Keys ["list"; "word"]; Key "none"] process_values =
    (Normal [JArr [JNum 1; JNum 2]; JStr "hello"; JNull], process_values).
Proof.
  rewrite (CommandsFacts.Redis_mget_agrees_with_get connected Store.Connection
             [Keys ["list"; "word"]; Key "none"] process_values eq_refl).
  vm_compute. reflexivity.
Defined.

(** The batch answers as its commands do one by one: ['OK'], the list,
    and 0 for a key that is not there. *)
Lemma pipeline_exec_in_turn_witness :
  pipeline_exec None batch process0 = in_turn connected (commands batch) process0 /\
  fst (pipeline_exec None batch process0) =
    Normal [JStr "OK"; JArr [JNum 1; JNum 2]; JNum 0].
Proof.
  split.
  - apply (CommandsFacts.pipeline_exec_in_turn batch Store.Connection process0);
      reflexivity.
  - vm_compute. reflexivity.
Defined.

(** A list stored for 60 seconds is read back after 30 seconds. *)
Lemma cached_json_round_trip_witness :
  exists p2,
    setCachedJson "k" (JArr [JNum 1; JNum 2]) (Some 60) process0 = (Normal true, p2) /\
    fst (getCachedJson "k" (set_db (elapse 30 (db p2)) p2)) = Normal (JArr [JNum 1; JNum 2]).
Proof.
  destruct (CommandsFacts.cached_json_round_trip "k" (JArr [JNum 1; JNum 2]) 60 30
              process0 (snd (getRedis process0)) connected Store.Connection)
    as (p2 & Hset & _ & Hget & _); try reflexivity; try lia.
  exists p2. split; [exact Hset|].
  cbn zeta in Hget. rewrite Hget; [reflexivity | lia | discriminate |].
  vm_compute. reflexivity.
Defined.

(** A word stored with a TTL of 0 is still there after a million seconds. *)
Lemma cached_json_ttl_edges_witness :
  exists p2,
    setCachedJson "k" (JStr "hello") (Some 0) process0 = (Normal true, p2) /\
    fst (getCachedJson "k" (set_db (elapse 1000000 (db p2)) p2)) = Normal (JStr "hello").
Proof.
  destruct (CommandsFacts.cached_json_ttl_edges "k" (JStr "hello") (Some 0) 1000000
              process0 (snd (getRedis process0)) connected Store.Connection)
    as (Hzero & _); try reflexivity; try lia.
  destruct (Hzero (or_intror eq_refl)) as (p2 & Hset & Hget).
  exists p2. split; [exact Hset|]. cbn zeta in Hget. rewrite Hget.
  vm_compute. reflexivity.
Defined.

(** ** The caching adapter *)





(** What the handler is given of the POST: the method, the two headers
    with a value, in the order of their names, and a body. *)
Lemma expressToWebRequest_forwards_witness :
  exists w,
    expressToWebRequest PORT URL_href request_post = Normal w /\
    url w = "http://monitor.example/api/earthquakes?min=5" /\
    web_method w = "POST" /\
    assoc "content-type" (web_headers w) = Some "application/json" /\
    assoc "x-forwarded-for" (web_headers w) = Some "10.0.0.1, 10.0.0.2" /\
    assoc "x-empty" (web_headers w) = None /\
    assoc "cookie" (web_headers w) = None /\
    increasing (map fst (web_headers w)) /\
    web_body w <> None.
Proof.
  destruct (AdapterFacts.expressToWebRequest_forwards PORT URL_href request_post)
    as (_ & Hreturns & Hgiven).
  - repeat constructor.
  - repeat constructor; cbn; intuition discriminate.
  - destruct (proj2 Hreturns) as (w & Hw).
    { repeat split; try (vm_compute; reflexivity). discriminate. }
    destruct (Hgiven w Hw) as (Hurl & Hmethod & Hbody & Hinc & Hheaders).
    exists w. split; [exact Hw|].
    assert (Hhref : URL_href (url_text PORT request_post) =
                    Some "http://monitor.example/api/earthquakes?min=5")
      by (vm_compute; reflexivity).
    split; [congruence|].
    split; [rewrite Hmethod; reflexivity|].
    rewrite !Hheaders.
    repeat (split; [vm_compute; reflexivity|]).
    split; [exact Hinc|].
    apply Hbody. split; [cbn; auto | discriminate].
Defined.

(** ** The relay *)

Lemma relay0_single (s : socket) :
  active relay0 s = true -> upstreamSocket relay0 = Some s.
Proof. unfold active, state_of. cbn. rewrite lookup_empty. discriminate. Qed.

(** After the turns of [Cases] the second socket is the one connection. *)
Lemma at_most_one_upstream_witness :
  let r' := after API_KEY turns relay0 in
  upstreamSocket r' = Some 1%nat /\
  active r' 1%nat = true /\
  (forall s, active r' s = true -> s = 1%nat) /\
  timers r' = [].
Proof.
  destruct (SessionFacts.at_most_one_upstream API_KEY turns relay0 relay0_single eq_refl)
    as (Hcurrent & Hsame & _).
  cbn zeta in *. split; [vm_compute; reflexivity|].
  assert (Ha : active (after API_KEY turns relay0) 1%nat = true) by (vm_compute; reflexivity).
  split; [exact Ha|]. split; [|vm_compute; reflexivity].
  intros s Hs. exact (Hsame s 1%nat Hs Ha).
Defined.

(** Each of the two sockets that opened was sent the subscription. *)
Lemma upstream_gets_subscriptions_only_witness :
  upstream_out (after API_KEY turns relay0) =
    [ (0%nat, JSON_stringify (subscription API_KEY));
      (1%nat, JSON_stringify (subscription API_KEY)) ].
Proof.
  rewrite (SessionFacts.upstream_gets_subscriptions_only API_KEY turns relay0
             relay0_single eq_refl).
  reflexivity.
Defined.

(** Before a subscriber arrives no socket is made; two subscribers make
    one. *)
Lemma upstream_made_on_demand_witness :
  created (run API_KEY [UpstreamClose 0%nat; Tick 6000; Timeout] relay0) = 0%nat /\
  created (run API_KEY [Relay.Connection 1%nat; Relay.Connection 2%nat] relay0) = 1%nat.
Proof.
  destruct (SessionFacts.upstream_made_on_demand API_KEY) as (Hnone & Hone).
  split.
  - apply (Hnone [UpstreamClose 0%nat; Tick 6000; Timeout] relay0); reflexivity.
  - apply (Hone 1%nat [2%nat] relay0). reflexivity.
Defined.

(** The first subscriber stays in the set through an error of its socket;
    the second is gone after its close. *)
Lemma subscriber_set_tracks_connections_witness :
  let r' := run API_KEY [Relay.Connection 1%nat; SubscriberError 1%nat;
                         Relay.Connection 2%nat; SubscriberClose 2%nat] relay0 in
  existsb (Nat.eqb 1%nat) (clients r') = true /\
  existsb (Nat.eqb 2%nat) (clients r') = false /\
  List.NoDup (clients r').
Proof.
  destruct (SessionFacts.subscriber_set_tracks_connections API_KEY
              [Relay.Connection 1%nat; SubscriberError 1%nat;
               Relay.Connection 2%nat; SubscriberClose 2%nat] relay0) as (Hin & Hnd).
  cbn zeta. split; [|split].
  - rewrite Hin. reflexivity.
  - rewrite Hin. reflexivity.
  - apply Hnd. constructor.
Defined.

(** Of two messages, one from the current socket and one from a socket
    that is not, the counter counts one. *)
Lemma health_report_witness :
  messageCount
    (run API_KEY [UpstreamMessage 0%nat (frame "a"); UpstreamMessage 5%nat (frame "b")]
       relay_open) = 1.
Proof.
  destruct (SessionFacts.health_report API_KEY) as (_ & Hcount & _).
  destruct (Hcount [UpstreamMessage 0%nat (frame "a"); UpstreamMessage 5%nat (frame "b")]
              relay_open) as (Heq & _).
  rewrite Heq. vm_compute. reflexivity.
Defined.

(** ** The hash *)

(** The hash of [abc]. *)
Lemma hashString_is_djb2_witness :
  hashString (units "abc") = Some "3772q3" /\ djb2 (units "abc") = 193485963.
Proof.
  split; [|reflexivity].
  rewrite (HashFacts.hashString_is_djb2 (units "abc")).
  - vm_compute. reflexivity.
  - repeat constructor; cbn; lia.
  - cbn. lia.
Defined.

(** The hash of the empty string is the numeral of 5381. *)
Lemma hashString_numeral_witness :
  hashString [] = Some "45h" /\ parse36 "45h" = Some 5381 /\
  hashString (units "abc") <> Some "45h".
Proof.
  destruct (HashFacts.hashString_numeral []) as (out & Hout & _ & _ & Hparse & Hsame).
  - constructor.
  - cbn. lia.
  - assert (Heq : out = "45h") by (vm_compute in Hout; congruence). subst out.
    split; [exact Hout|]. split; [rewrite Hparse; reflexivity|].
    intros Habc. apply (Hsame (units "abc")) in Habc.
    + vm_compute in Habc. discriminate.
    + repeat constructor; cbn; lia.
    + cbn. lia.
Defined.

(** ** The routes *)

(** The catch-all of [eia] is registered; nothing of [data] is, nor a
    helper, nor a module that does not load, nor a route that the router
    does not take. *)
Lemma registered_routes_witness :
  In ("/api/eia/*", "/app/api/eia/[[...path]].js")
    (registerApiRoutes loads accepts "/app" api) /\
  registerApiRoutes loads accepts "/app" api =
    [ ("/api/earthquakes", "/app/api/earthquakes.js");
      ("/api/eia/*", "/app/api/eia/[[...path]].js");
      ("/api/youtube/feedon.js", "/app/api/youtube/feed.json.js") ].
Proof.
  split; [|vm_compute; reflexivity].
  apply (RoutesFacts.registered_routes loads accepts "/app" api).
  exists ["eia"], "[[...path]].js", "*". repeat split.
  - apply (holds_below api "eia" [File "[[...path]].js"]).
    + cbn. auto 10.
    + constructor. now left.
  - cbn. intuition discriminate.
Defined.

(** A parameter and a plain name. *)
Lemma segment_of_file_witness :
  segment "[id].js" = Some ":id" /\ segment "earthquakes.js" = Some "earthquakes".
Proof.
  destruct RoutesFacts.segment_of_file as (_ & _ & _ & _ & _ & Hparam & Hplain & _).
  split.
  - apply (Hparam "id"); discriminate.
  - apply (Hplain "earthquakes"); reflexivity.
Defined.

(** The TTL of a path that is not listed. *)
Lemma getCacheTTL_bounds_witness : 60 <= getCacheTTL "/api/unknown-thing" <= 3600.
Proof. exact (proj1 (AdapterFacts.getCacheTTL_bounds "/api/unknown-thing")). Defined.

(** ** The origins *)

(** The second origin of the environment comes from a piece with white
    space around it; without the variable there is none. *)
Lemma envOrigins_entries_witness :
  In "https://staging.example.org" (envOrigins ALLOWED_ORIGINS) /\
  envOrigins None = [].
Proof.
  split.
  - apply (proj1 (CorsFacts.envOrigins_entries ALLOWED_ORIGINS)).
    split; [discriminate|]. exists " https://staging.example.org ".
    split; [|reflexivity]. vm_compute. auto.
  - apply (proj2 (proj2 (CorsFacts.envOrigins_entries None))). now left.
Defined.

(** A request from elsewhere is not allowed; one without origin is let
    through. *)
Lemma disallowed_origin_witness :
  isDisallowedOrigin ALLOWED_ORIGINS (from_origin "https://elsewhere.example") = true /\
  isDisallowedOrigin ALLOWED_ORIGINS
    {| url := "http://monitor.example/"; web_method := "GET";
       web_headers := []; web_body := None |} = false.
Proof.
  split.
  - apply (proj1 (CorsFacts.disallowed_origin ALLOWED_ORIGINS
                    (from_origin "https://elsewhere.example"))).
    exists "https://elsewhere.example". split; [reflexivity|].
    split; [discriminate | vm_compute; reflexivity].
  - apply (proj1 (proj2 (CorsFacts.disallowed_origin ALLOWED_ORIGINS _))). reflexivity.
Defined.

(** Two origins of the environment, with the white space and the empty
    entries gone; a subdomain of the site; and a name that only ends like
    the site. *)
Lemma allowed_origins_witness :
  envOrigins ALLOWED_ORIGINS = ["https://monitor.example.org"; "https://staging.example.org"] /\
  isAllowedOrigin ALLOWED_ORIGINS "https://tech.worldmonitor.app" = true /\
  isAllowedOrigin ALLOWED_ORIGINS "http://localhost:5173" = true /\
  isAllowedOrigin ALLOWED_ORIGINS "https://evilworldmonitor.app" = false /\
  isAllowedOrigin ALLOWED_ORIGINS "http://worldmonitor.app" = false.
Proof.
  split; [vm_compute; reflexivity|]. split; [|split].
  - apply (proj2 (CorsFacts.allowed_origins ALLOWED_ORIGINS "https://tech.worldmonitor.app")).
    right. left. exists "tech". split; reflexivity.
  - apply (proj2 (CorsFacts.allowed_origins ALLOWED_ORIGINS "http://localhost:5173")).
    right. right. left. right. exists "5173". repeat split. discriminate.
  - split; vm_compute; reflexivity.
Defined.

(** A request from elsewhere is told the first origin of the environment. *)
Lemma cors_names_an_allowed_origin_witness :
  assoc "Access-Control-Allow-Origin"
    (getCorsHeaders ALLOWED_ORIGINS (from_origin "https://elsewhere.example") None) =
    Some "https://monitor.example.org" /\
  isDisallowedOrigin ALLOWED_ORIGINS (from_origin "https://elsewhere.example") = true.
Proof.
  destruct (CorsFacts.cors_names_an_allowed_origin ALLOWED_ORIGINS
              (from_origin "https://elsewhere.example") None)
    as (allow & Hallow & _ & _ & Hnot & _).
  split; [|vm_compute; reflexivity].
  rewrite Hallow. f_equal.
  destruct (Hnot "https://elsewhere.example") as (-> & _);
    [reflexivity | vm_compute; reflexivity |].
  vm_compute. reflexivity.
Defined.

End Checks.
